(** * Smart campus navigation: routing and forecast-caching engine

    A shallow embedding of [app.py] (the Flask service of the repository)
    and of the two networkx searches it calls, with the properties of the
    specification stated and settled over it.

    Conventions.
    - Python floats are read as exact rationals ([Q]); comparisons are the
      boolean comparisons of [Q].  NaN and infinities are outside the model.
    - A Python [dict] whose iteration order is observable (the adjacency
      and node dictionaries of [nx.Graph]) is an association list kept in
      insertion order; a [dict] that is only looked up (the forecast cache,
      the active forecast map, the search bookkeeping) is a [gmap].
    - Edge attribute dictionaries are shared between the two directions of
      an undirected edge: they live in a store ([list EdgeData], addressed
      by position), and a graph over the store holds references.
    - A raised exception is a value of [exn]; [OutOfFuel] is not a Python
      exception but the model's answer when a loop bound is exhausted. *)

From Stdlib Require Import QArith Qcanon Qminmax Lqa ZArith Ascii String.
From stdpp Require Import base gmap strings list option.

(** ** Numbers *)

Definition Qltb (a b : Q) : bool := negb (Qle_bool b a).

(** Python's [max(a, b)]: the first argument unless the second is larger. *)
Definition py_max (a b : Q) : Q := if Qltb a b then b else a.

(** ** Exceptions and results *)

Inductive exn :=
| KeyError | ValueError | IndexError | AttributeError | UnboundLocalError
| NodeNotFound | NetworkXNoPath | OutOfFuel.

Inductive result (A : Type) :=
| Ok (a : A)
| Raise (e : exn).
Arguments Ok {A} a.
Arguments Raise {A} e.

#[global] Instance result_ret : MRet result := fun A a => Ok a.
#[global] Instance result_bind : MBind result := fun A B f r =>
  match r with Ok a => f a | Raise e => Raise e end.

(** ** Ordered dictionaries (insertion order, as Python's [dict]) *)

Fixpoint od_get {V} (k : string) (d : list (string * V)) : option V :=
  match d with
  | [] => None
  | (k', v) :: d' => if String.eqb k k' then Some v else od_get k d'
  end.

(** [d[k] = v]: an existing key keeps its position, a new key goes last. *)
Fixpoint od_set {V} (k : string) (v : V) (d : list (string * V)) : list (string * V) :=
  match d with
  | [] => [(k, v)]
  | (k', v') :: d' => if String.eqb k k' then (k', v) :: d' else (k', v') :: od_set k v d'
  end.

Definition od_mem {V} (k : string) (d : list (string * V)) : bool :=
  match od_get k d with Some _ => true | None => false end.

(** ** The Network Graph ([nx.Graph]) *)

Record NodeData := { lat : Q; lon : Q; label : string }.

Record EdgeData := {
  eid : string;            (* "id" *)
  length_m : Q;
  capacity : Q;
  kind : string;
  weight : Q;
  pen_weight : option Q    (* present only in a penalized copy *)
}.

(** [data.get(key)] for the numeric attributes. *)
Definition attr_get (key : string) (d : EdgeData) : option Q :=
  if String.eqb key "length_m" then Some (length_m d)
  else if String.eqb key "capacity" then Some (capacity d)
  else if String.eqb key "weight" then Some (weight d)
  else if String.eqb key "pen_weight" then pen_weight d
  else None.

(** A graph with edge payload [E]: [_node] maps a node to its attributes
    ([None]: the empty attribute dict of a node that [add_edge] created),
    [_adj] maps a node to its neighbours. *)
Record Graph (E : Type) := {
  _node : list (string * option NodeData);
  _adj : list (string * list (string * E))
}.
Arguments _node {E} g.
Arguments _adj {E} g.

Definition empty_graph {E} : Graph E := {| _node := []; _adj := [] |}.

(** [n in G] *)
Definition has_node {E} (G : Graph E) (n : string) : bool := od_mem n (_node G).

(** [G._adj[u]], [None] for a [KeyError]. *)
Definition neighbors {E} (G : Graph E) (u : string) : option (list (string * E)) :=
  od_get u (_adj G).

(** [G.get_edge_data(u, v)] *)
Definition get_edge_data {E} (G : Graph E) (u v : string) : option E :=
  match od_get u (_adj G) with
  | Some nbrs => od_get v nbrs
  | None => None
  end.

(** [G.edges(data=True)]: every undirected edge once, by node order and
    then adjacency order; a neighbour already visited as a node is skipped. *)
Fixpoint edges_from {E} (adj : list (string * list (string * E))) (seen : list string)
  : list (string * string * E) :=
  match adj with
  | [] => []
  | (n, nbrs) :: rest =>
      map (fun '(nbr, dd) => (n, nbr, dd))
          (filter (fun '(nbr, _) => nbr ∉ seen) nbrs)
      ++ edges_from rest (n :: seen)
  end.

Definition edges {E} (G : Graph E) : list (string * string * E) := edges_from (_adj G) [].

(** *** Construction over the store *)

Abbreviation loc := nat.
Abbreviation Store := (list EdgeData).

(** [G.add_node(n, lat=.., lon=.., label=..)] *)
Definition add_node {E} (n : string) (attrs : NodeData) (G : Graph E) : Graph E :=
  if has_node G n
  then {| _node := od_set n (Some attrs) (_node G); _adj := _adj G |}
  else {| _node := od_set n (Some attrs) (_node G); _adj := od_set n [] (_adj G) |}.

(** The implicit node creation of [add_edge]. *)
Definition ensure_node {E} (n : string) (G : Graph E) : Graph E :=
  if has_node G n then G
  else {| _node := od_set n None (_node G); _adj := od_set n [] (_adj G) |}.

(** [self._adj[u][v] = x] *)
Definition set_adj {E} (u v : string) (x : E) (G : Graph E) : Graph E :=
  match od_get u (_adj G) with
  | Some nbrs => {| _node := _node G; _adj := od_set u (od_set v x nbrs) (_adj G) |}
  | None => G
  end.

(** [datadict.update(attr)]: every key of [attr] overwrites. *)
Definition dict_update (old attr : EdgeData) : EdgeData :=
  {| eid := eid attr; length_m := length_m attr; capacity := capacity attr;
     kind := kind attr; weight := weight attr;
     pen_weight := match pen_weight attr with Some p => Some p | None => pen_weight old end |}.

(** [G.add_edge(u, v, **attr)]: the attribute dict of an existing edge is
    updated in place, a new edge gets a fresh dict; both directions refer
    to the same dict. *)
Definition add_edge (u v : string) (attr : EdgeData) (Gs : Graph loc * Store)
  : Graph loc * Store :=
  let '(G, s) := Gs in
  let G := ensure_node v (ensure_node u G) in
  match get_edge_data G u v with
  | Some l =>
      let s' := match s !! l with
                | Some old => <[l := dict_update old attr]> s
                | None => s
                end in
      (set_adj v u l (set_adj u v l G), s')
  | None =>
      let l := length s in
      (set_adj v u l (set_adj u v l G), s ++ [attr])
  end.

Record NodeRow := { row_id : string; row_lat : Q; row_lon : Q; row_label : string }.
Record EdgeRow := {
  erow_id : string; erow_source : string; erow_target : string;
  erow_length_m : Q; erow_capacity : Q; erow_kind : string
}.

(** [load_graph()], from the rows of nodes.csv and edges.csv. *)
Definition load_graph (nodes_df : list NodeRow) (edges_df : list EdgeRow) : Graph loc * Store :=
  let G := foldl (fun G row =>
                    add_node (row_id row)
                      {| lat := row_lat row; lon := row_lon row; label := row_label row |} G)
                 empty_graph nodes_df in
  foldl (fun Gs row =>
           add_edge (erow_source row) (erow_target row)
             {| eid := erow_id row; length_m := erow_length_m row;
                capacity := erow_capacity row; kind := erow_kind row;
                weight := erow_length_m row; pen_weight := None |} Gs)
        (G, []) edges_df.

(** The graph as the searches read it: every reference replaced by the
    attribute dict it points to. *)
Definition deref (s : Store) (l : loc) : option EdgeData := s !! l.

Definition view_nbrs (s : Store) (nbrs : list (string * loc)) : list (string * EdgeData) :=
  omap (fun '(v, l) => match s !! l with Some d => Some (v, d) | None => None end) nbrs.

Definition view (s : Store) (G : Graph loc) : Graph EdgeData :=
  {| _node := _node G;
     _adj := map (fun '(u, nbrs) => (u, view_nbrs s nbrs)) (_adj G) |}.

(** [G.copy()]: a new graph with the same nodes, whose edges are re-added
    from copies of the attribute dicts (so in fresh store cells). *)
Definition copy_nodes (G : Graph loc) : Graph loc :=
  foldl (fun Gc '(n, d) =>
           match d with
           | Some attrs => add_node n attrs Gc
           | None => ensure_node n Gc
           end) empty_graph (_node G).

Definition copy (G : Graph loc) (s : Store) : Graph loc * Store :=
  foldl (fun Gs '(u, nbrs) =>
           foldl (fun Gs '(v, l) =>
                    match Gs.2 !! l with
                    | Some dd => add_edge u v dd Gs
                    | None => Gs
                    end) Gs nbrs)
        (copy_nodes G, s) (_adj G).

(** ** Forecasts *)

(** The columns of [FEATURES], in order: one row of the frame handed to
    the predictor. *)
Record Features := {
  f_hour : Qc; f_day_of_week : Z; f_is_peak : Z;
  f_capacity : Q; f_length_m : Q; flow_lag1 : Q; flow_lag2 : Q
}.

(** One record of a forecast table: the keys "edge_id", "pred_flow" and
    "capacity". *)
Record ForecastRecord := { edge_id : string; pred_flow : Q; fcapacity : Q }.

Definition ForecastKey : Type := Qc * Z * Z.

(** The rows [predict_forecast] builds, one per edge of [G.edges]. *)
Definition forecast_rows (G : Graph EdgeData) (hour : Qc) (day_of_week is_peak : Z)
  : list (string * Features) :=
  map (fun '(u, v, data) =>
         let cap := capacity data in
         let len := length_m data in
         (eid data,
          {| f_hour := hour; f_day_of_week := day_of_week; f_is_peak := is_peak;
             f_capacity := cap; f_length_m := len;
             flow_lag1 := (1 # 10) * cap; flow_lag2 := (1 # 10) * cap |}))
      (edges G).

(** [predict_forecast(hour, day_of_week, is_peak)].  [MODEL] stands for
    [MODEL.predict]: the trained regressor is an opaque function from the
    feature rows to predictions.  An empty frame has no feature columns
    ([df[FEATURES]] raises [KeyError] before the predictor is reached);
    predictions that do not fit the frame's length cannot be assigned as a
    column ([ValueError]).  The second component counts the calls of
    [MODEL.predict]. *)
Definition predict_forecast (MODEL : list Features -> list Q) (G : Graph EdgeData)
    (hour : Qc) (day_of_week is_peak : Z) : result (list ForecastRecord) * nat :=
  let rows := forecast_rows G hour day_of_week is_peak in
  match rows with
  | [] => (Raise KeyError, 0)
  | _ =>
      let preds := MODEL (map snd rows) in
      if Nat.eqb (length preds) (length rows)
      then (Ok (zip_with (fun '(e, x) p =>
                            {| edge_id := e; pred_flow := p; fcapacity := f_capacity x |})
                         rows preds), 1)
      else (Raise ValueError, 1)
  end.

(** [{r["edge_id"]: r for r in result}] *)
Definition to_forecast_map (result : list ForecastRecord) : gmap string ForecastRecord :=
  foldl (fun m r => <[edge_id r := r]> m) ∅ result.

(** [congestion_penalty(edge_id)], reading [app.forecast_map] ([None]: the
    attribute was never set). *)
Definition congestion_penalty (forecast_map : option (gmap string ForecastRecord))
    (edge_id : string) : Q :=
  match default ∅ forecast_map !! edge_id with
  | None => 0
  | Some f =>
      let ratio := pred_flow f / py_max (fcapacity f) 1 in
      if Qltb ratio (1 # 2) then 0
      else if Qltb ratio (4 # 5) then 3 # 10
      else 7 # 10
  end%Q.

(** ** Process state *)

(** The module-level state of [app.py]: [GRAPH] (with the store its edge
    dicts live in), [MODEL], [FORECAST_CACHE] and the attribute
    [app.forecast_map].  [predict_calls] is a ghost counter of the calls of
    [MODEL.predict]. *)
Record App := {
  GRAPH : Graph loc;
  STORE : Store;
  MODEL : list Features -> list Q;
  FORECAST_CACHE : gmap ForecastKey (list ForecastRecord);
  forecast_map : option (gmap string ForecastRecord);
  predict_calls : nat
}.

(** The state right after import of [app.py]. *)
Definition startup (nodes_df : list NodeRow) (edges_df : list EdgeRow)
    (model : list Features -> list Q) : App :=
  let '(G, s) := load_graph nodes_df edges_df in
  {| GRAPH := G; STORE := s; MODEL := model; FORECAST_CACHE := ∅;
     forecast_map := None; predict_calls := 0 |}.

(** ** Requests and responses *)

(** A query argument read through a converter ([float(..)], [int(..)]). *)
Inductive Arg (A : Type) :=
| Absent
| Unparsable
| Parsed (a : A).
Arguments Absent {A}.
Arguments Unparsable {A}.
Arguments Parsed {A} a.

Record Coord := { c_id : string; c_lat : Q; c_lon : Q; c_label : string }.
Record PathInfo := { path : list string; len_m : Q; coords : list Coord }.
Record RouteOut := {
  best : option PathInfo;
  best_alts : option (list PathInfo);
  shortest : option PathInfo;
  shortest_alts : option (list PathInfo)
}.

Inductive Body :=
| ErrorBody (error : string)
| ForecastBody (table : list ForecastRecord)
| RouteBody (out : RouteOut).

(** A response is the JSON body with its status, or the 500 page Flask
    answers with when the view raised. *)
Inductive Response :=
| Json (status : nat) (body : Body)
| InternalServerError (e : exn).

Definition ascii_lower (c : ascii) : ascii :=
  let n := nat_of_ascii c in
  if (65 <=? n)%nat && (n <=? 90)%nat then ascii_of_nat (n + 32) else c.

(** [str.lower()], on ASCII. *)
Fixpoint lower (s : string) : string :=
  match s with
  | EmptyString => EmptyString
  | String c s' => String (ascii_lower c) (lower s')
  end.

Record ForecastRequest := {
  q_hour : Arg Qc;
  q_day_of_week : Arg Z;
  q_is_peak : Arg Z;
  q_use_cache : option string
}.

(** [conv(request.args.get(name, dflt))]: [None] when the converter raises. *)
Definition arg_or {A} (a : Arg A) (dflt : A) : option A :=
  match a with Absent => Some dflt | Unparsable => None | Parsed x => Some x end.

(** The [/forecast] view. *)
Definition forecast (st : App) (req : ForecastRequest) : Response * App :=
  match arg_or (q_hour req) (Q2Qc 9), arg_or (q_day_of_week req) 1%Z,
        arg_or (q_is_peak req) 1%Z with
  | Some hour, Some day_of_week, Some is_peak =>
      let key := (hour, day_of_week, is_peak) in
      let use_cache := negb (String.eqb (lower (default "true" (q_use_cache req))) "false") in
      let hit := if use_cache then FORECAST_CACHE st !! key else None in
      match hit with
      | Some result =>
          (Json 200 (ForecastBody result),
           {| GRAPH := GRAPH st; STORE := STORE st; MODEL := MODEL st;
              FORECAST_CACHE := FORECAST_CACHE st;
              forecast_map := Some (to_forecast_map result);
              predict_calls := predict_calls st |})
      | None =>
          let '(r, calls) := predict_forecast (MODEL st) (view (STORE st) (GRAPH st))
                               hour day_of_week is_peak in
          match r with
          | Ok result =>
              (Json 200 (ForecastBody result),
               {| GRAPH := GRAPH st; STORE := STORE st; MODEL := MODEL st;
                  FORECAST_CACHE := <[key := result]> (FORECAST_CACHE st);
                  forecast_map := Some (to_forecast_map result);
                  predict_calls := predict_calls st + calls |})
          | Raise e =>
              (InternalServerError e,
               {| GRAPH := GRAPH st; STORE := STORE st; MODEL := MODEL st;
                  FORECAST_CACHE := FORECAST_CACHE st;
                  forecast_map := forecast_map st;
                  predict_calls := predict_calls st + calls |})
          end
      end
  | _, _, _ => (Json 400 (ErrorBody "invalid hour/day_of_week/is_peak"), st)
  end.

(** ** Priority queues ([heapq])

    Every tuple pushed by the searches starts with a priority and a fresh
    counter value, so tuples are totally ordered by these two components
    and [heappop] returns the least one whatever the layout of the heap.
    A heap is therefore a list, [heappush] adds to it and [heappop] removes
    its least element. *)

Definition key_lt (a b : Q * nat) : bool :=
  Qltb a.1 b.1 || (Qeq_bool a.1 b.1 && (a.2 <? b.2)%nat).

Definition heappush {A} (q : list A) (x : A) : list A := x :: q.

Fixpoint heappop {A} (key : A -> Q * nat) (q : list A) : option (A * list A) :=
  match q with
  | [] => None
  | x :: q' =>
      match heappop key q' with
      | None => Some (x, [])
      | Some (y, r) => if key_lt (key y) (key x) then Some (y, x :: r) else Some (x, q')
      end
  end.

(** ** Single-path search: networkx's [astar_path] *)

(** A queue entry [(priority, count, node, dist, parent)]. *)
Record AEntry := {
  a_prio : Q; a_cnt : nat; a_node : string; a_dist : Q; a_parent : option string
}.

Definition a_key (e : AEntry) : Q * nat := (a_prio e, a_cnt e).

Record AState := {
  queue : list AEntry;
  enqueued : gmap string (Q * Q);
  explored : gmap string (option string);
  counter : nat
}.

Definition WeightFn : Type := string -> string -> EdgeData -> Q.

(** Modelled from the spec: the body of the [for neighbor, w in
    G_succ[curnode].items()] loop of networkx's [astar_path], which is not
    part of the repository.  The weight callables of [app.py] never return
    [None] and no cutoff is passed, so those two tests are left out. *)
Definition astar_relax (heuristic : string -> string -> Q) (weight : WeightFn)
    (target curnode : string) (dist : Q) (st : AState) (nb : string * EdgeData) : AState :=
  let '(neighbor, w) := nb in
  let cost := weight curnode neighbor w in
  let ncost := (dist + cost)%Q in
  let push h :=
    {| queue := heappush (queue st)
                  {| a_prio := (ncost + h)%Q; a_cnt := counter st; a_node := neighbor;
                     a_dist := ncost; a_parent := Some curnode |};
       enqueued := <[neighbor := (ncost, h)]> (enqueued st);
       explored := explored st;
       counter := S (counter st) |} in
  match enqueued st !! neighbor with
  | Some (qcost, h) => if Qle_bool qcost ncost then st else push h
  | None => push (heuristic neighbor target)
  end.

(** The path reconstruction of [astar_path]: follow [explored] from the
    parent of the target back to the source ([None]), then reverse. *)
Fixpoint astar_rebuild (fuel : nat) (explored : gmap string (option string))
    (node : option string) (path : list string) : result (list string) :=
  match node with
  | None => Ok (reverse path)
  | Some n =>
      match fuel with
      | O => Raise OutOfFuel
      | S fuel' =>
          match explored !! n with
          | Some p => astar_rebuild fuel' explored p (path ++ [n])
          | None => Raise KeyError
          end
      end
  end.

(** Modelled from the spec: the [while queue] loop of networkx's
    [astar_path] (informed best-first search), not part of the repository. *)
Fixpoint astar_loop (fuel : nat) (G : Graph EdgeData) (heuristic : string -> string -> Q)
    (weight : WeightFn) (target : string) (st : AState) : result (list string) :=
  match fuel with
  | O => Raise OutOfFuel
  | S fuel' =>
      match heappop a_key (queue st) with
      | None => Raise NetworkXNoPath
      | Some (e, queue') =>
          let curnode := a_node e in
          let dist := a_dist e in
          let parent := a_parent e in
          let st := {| queue := queue'; enqueued := enqueued st;
                       explored := explored st; counter := counter st |} in
          if String.eqb curnode target
          then astar_rebuild (S (size (explored st))) (explored st) parent [curnode]
          else
            skip ← match explored st !! curnode with
                   | Some None => Ok true
                   | Some (Some _) =>
                       match enqueued st !! curnode with
                       | Some (qcost, h) => Ok (Qltb qcost dist)
                       | None => Raise KeyError
                       end
                   | None => Ok false
                   end;
            if (skip : bool) then astar_loop fuel' G heuristic weight target st
            else
              match neighbors G curnode with
              | None => Raise KeyError
              | Some nbrs =>
                  let st := {| queue := queue st; enqueued := enqueued st;
                               explored := <[curnode := parent]> (explored st);
                               counter := counter st |} in
                  astar_loop fuel' G heuristic weight target
                    (foldl (astar_relax heuristic weight target curnode dist) st nbrs)
              end
      end
  end.

(** The number of adjacency entries of a graph (twice its edge count). *)
Definition adj_size {E} (G : Graph E) : nat :=
  foldr (fun '(_, nbrs) n => (length nbrs + n)%nat) 0%nat (_adj G).

(** Modelled from the spec: networkx's
    [astar_path(G, source, target, heuristic, weight)], not part of the
    repository.  The loop bound is the number of pushes a search with
    non-negative costs can make. *)
Definition astar_path (G : Graph EdgeData) (source target : string)
    (heuristic : string -> string -> Q) (weight : WeightFn) : result (list string) :=
  if negb (has_node G source) || negb (has_node G target) then Raise NodeNotFound
  else
    astar_loop (adj_size G + 2) G heuristic weight target
      {| queue := [{| a_prio := 0%Q; a_cnt := 0; a_node := source; a_dist := 0%Q;
                      a_parent := None |}];
         enqueued := ∅; explored := ∅; counter := 1 |}.

(** [astar_with_congestion(source, target)] *)
Definition astar_with_congestion (G : Graph EdgeData)
    (forecast_map : option (gmap string ForecastRecord)) (source target : string)
  : result (list string) :=
  let heuristic (u v : string) : Q := 0%Q in
  let cost (u v : string) (data : EdgeData) : Q :=
    let base := length_m data in
    let pen := congestion_penalty forecast_map (eid data) in
    (base * (1 + pen))%Q in
  astar_path G source target heuristic cost.

(** [astar_distance_only(source, target)] *)
Definition astar_distance_only (G : Graph EdgeData) (source target : string)
  : result (list string) :=
  let heuristic (u v : string) : Q := 0%Q in
  let cost (u v : string) (data : EdgeData) : Q := length_m data in
  astar_path G source target heuristic cost.

(** [zip(path, path[1:])] *)
Definition pairs (path : list string) : list (string * string) :=
  zip path (tail path).

(** [path_length(path)] *)
Definition path_length (G : Graph EdgeData) (path : list string) : Q :=
  foldl (fun total '(u, v) =>
           (total + match get_edge_data G u v with
                    | Some data => length_m data
                    | None => 0
                    end)%Q)
        0%Q (pairs path).

(** ** k loopless alternatives: networkx's [shortest_simple_paths] *)

(** [_weight_function(G, weight)] for an attribute name:
    [lambda u, v, data: data.get(weight, 1)], applied to the result of
    [G.get_edge_data] ([None]: no such edge, on which [.get] fails). *)
Definition wt (weight : string) (data : option EdgeData) : result Q :=
  match data with
  | Some d => Ok (default 1%Q (attr_get weight d))
  | None => Raise AttributeError
  end.

(** One direction of the bidirectional search. *)
Record Side := {
  dists : gmap string Q;
  paths : gmap string (list string);
  fringe : list (Q * nat * string);
  seen : gmap string Q
}.

(** [dir] is [false] for the forward direction (0), [true] for back (1). *)
Record BState := {
  fwd : Side;
  bwd : Side;
  bcount : nat;
  finaldist : option Q;
  finalpath : list string;
  dir : bool
}.

Definition side (d : bool) (st : BState) : Side := if d then bwd st else fwd st.

Definition set_side (d : bool) (x : Side) (st : BState) : BState :=
  if d
  then {| fwd := fwd st; bwd := x; bcount := bcount st; finaldist := finaldist st;
          finalpath := finalpath st; dir := dir st |}
  else {| fwd := x; bwd := bwd st; bcount := bcount st; finaldist := finaldist st;
          finalpath := finalpath st; dir := dir st |}.

Definition f_key (e : Q * nat * string) : Q * nat := (e.1.1, e.1.2).

(** The neighbours the filtered iterators of [_bidirectional_dijkstra]
    yield for [v]. *)
Definition filtered_neighbors (G : Graph EdgeData) (ignore_nodes : gset string)
    (ignore_edges : gset (string * string)) (v : string) : option (list string) :=
  match neighbors G v with
  | None => None
  | Some nbrs =>
      Some (filter (fun w => (w ∉ ignore_nodes) ∧ ((v, w) ∉ ignore_edges) ∧ ((w, v) ∉ ignore_edges))
                   (map fst nbrs))
  end.

(** Modelled from the spec: the body of the [for w in neighs[dir](v)]
    loop of networkx's [_bidirectional_dijkstra], not part of the
    repository. *)
Definition bidir_relax (G : Graph EdgeData) (weight : string) (d : bool) (v : string)
    (st : BState) (w : string) : result BState :=
  minweight ← (if d then wt weight (get_edge_data G w v) else wt weight (get_edge_data G v w));
  match dists (side d st) !! v with
  | None => Raise KeyError
  | Some dv =>
      let vwLength := (dv + minweight)%Q in
      match dists (side d st) !! w with
      | Some dw => if Qltb vwLength dw then Raise ValueError else Ok st
      | None =>
          if match seen (side d st) !! w with
             | None => true
             | Some sw => Qltb vwLength sw
             end
          then
            match paths (side d st) !! v with
            | None => Raise KeyError
            | Some pv =>
                let sd := side d st in
                let st := set_side d
                            {| dists := dists sd;
                               paths := <[w := pv ++ [w]]> (paths sd);
                               fringe := heappush (fringe sd) (vwLength, bcount st, w);
                               seen := <[w := vwLength]> (seen sd) |} st in
                let st := {| fwd := fwd st; bwd := bwd st; bcount := S (bcount st);
                             finaldist := finaldist st; finalpath := finalpath st;
                             dir := dir st |} in
                match seen (fwd st) !! w, seen (bwd st) !! w with
                | Some s0, Some s1 =>
                    let totaldist := (s0 + s1)%Q in
                    if match finalpath st, finaldist st with
                       | [], _ => Ok true
                       | _ :: _, Some fd => Ok (Qltb totaldist fd)
                       | _ :: _, None => Raise UnboundLocalError
                       end is Ok true
                    then
                      match paths (fwd st) !! w, paths (bwd st) !! w with
                      | Some p0, Some p1 =>
                          Ok {| fwd := fwd st; bwd := bwd st; bcount := bcount st;
                                finaldist := Some totaldist;
                                finalpath := p0 ++ tail (reverse p1);
                                dir := dir st |}
                      | _, _ => Raise KeyError
                      end
                    else Ok st
                | _, _ => Ok st
                end
            end
          else Ok st
      end
  end.

(** [foldl] in the result monad: a [for] loop whose body may raise. *)
Fixpoint foldlM {A B} (f : A -> B -> result A) (a : A) (l : list B) : result A :=
  match l with
  | [] => Ok a
  | x :: l' => a' ← f a x; foldlM f a' l'
  end.

(** Modelled from the spec: the [while fringe[0] and fringe[1]] loop of
    networkx's [_bidirectional_dijkstra], not part of the repository. *)
Fixpoint bidir_loop (fuel : nat) (G : Graph EdgeData) (weight : string)
    (ignore_nodes : gset string) (ignore_edges : gset (string * string))
    (st : BState) : result (Q * list string) :=
  match fuel with
  | O => Raise OutOfFuel
  | S fuel' =>
      match fringe (fwd st), fringe (bwd st) with
      | [], _ | _, [] => Raise NetworkXNoPath
      | _, _ =>
          let d := negb (dir st) in
          let st := {| fwd := fwd st; bwd := bwd st; bcount := bcount st;
                       finaldist := finaldist st; finalpath := finalpath st; dir := d |} in
          match heappop f_key (fringe (side d st)) with
          | None => Raise IndexError
          | Some ((dist, _, v), fr) =>
              let sd := side d st in
              let st := set_side d {| dists := dists sd; paths := paths sd;
                                      fringe := fr; seen := seen sd |} st in
              match dists (side d st) !! v with
              | Some _ => bidir_loop fuel' G weight ignore_nodes ignore_edges st
              | None =>
                  let sd := side d st in
                  let st := set_side d {| dists := <[v := dist]> (dists sd);
                                          paths := paths sd; fringe := fringe sd;
                                          seen := seen sd |} st in
                  match dists (side (negb d) st) !! v with
                  | Some _ =>
                      match finaldist st with
                      | Some fd => Ok (fd, finalpath st)
                      | None => Raise UnboundLocalError
                      end
                  | None =>
                      match filtered_neighbors G ignore_nodes ignore_edges v with
                      | None => Raise KeyError
                      | Some ws =>
                          st' ← foldlM (bidir_relax G weight d v) st ws;
                          bidir_loop fuel' G weight ignore_nodes ignore_edges st'
                      end
                  end
              end
          end
      end
  end.

(** Modelled from the spec: networkx's
    [_bidirectional_dijkstra(G, source, target, weight, ignore_nodes,
    ignore_edges)], the search [shortest_simple_paths] uses for a weighted
    graph; not part of the repository.  Each direction settles a node at
    most once, which bounds the loop. *)
Definition bidirectional_dijkstra (G : Graph EdgeData) (source target : string)
    (weight : string) (ignore_nodes : gset string) (ignore_edges : gset (string * string))
  : result (Q * list string) :=
  if bool_decide (source ∈ ignore_nodes ∨ target ∈ ignore_nodes) then Raise NetworkXNoPath
  else if String.eqb source target then
    if has_node G source then Ok (0%Q, [source]) else Raise NodeNotFound
  else
    bidir_loop (2 * adj_size G + 3) G weight ignore_nodes ignore_edges
      {| fwd := {| dists := ∅; paths := {[source := [source]]};
                   fringe := [(0%Q, 0, source)]; seen := {[source := 0%Q]} |};
         bwd := {| dists := ∅; paths := {[target := [target]]};
                   fringe := [(0%Q, 1, target)]; seen := {[target := 0%Q]} |};
         bcount := 2; finaldist := None; finalpath := []; dir := true |}.

(** [PathBuffer] of networkx's simple_paths module. *)
Record PathBuffer := {
  pb_paths : gset (list string);
  sortedpaths : list (Q * nat * list string);
  pb_counter : nat
}.

Definition pb_empty : PathBuffer :=
  {| pb_paths := ∅; sortedpaths := []; pb_counter := 0 |}.

Definition pb_key (e : Q * nat * list string) : Q * nat := (e.1.1, e.1.2).

Definition pb_push (b : PathBuffer) (cost : Q) (p : list string) : PathBuffer :=
  if bool_decide (p ∈ pb_paths b) then b
  else {| pb_paths := {[p]} ∪ pb_paths b;
          sortedpaths := heappush (sortedpaths b) (cost, pb_counter b, p);
          pb_counter := S (pb_counter b) |}.

Definition pb_pop (b : PathBuffer) : option (list string * PathBuffer) :=
  match heappop pb_key (sortedpaths b) with
  | None => None
  | Some ((_, _, p), rest) =>
      Some (p, {| pb_paths := pb_paths b ∖ {[p]}; sortedpaths := rest;
                  pb_counter := pb_counter b |})
  end.

(** [length_func(path)] of [shortest_simple_paths]: the sum of the edge
    weights along the path. *)
Definition length_func (G : Graph EdgeData) (weight : string) (p : list string) : result Q :=
  foldlM (fun total '(u, v) => x ← wt weight (get_edge_data G u v); Ok (total + x)%Q)
         0%Q (pairs p).

(** The state of the generator [shortest_simple_paths] between two
    [yield]s. *)
Record GenState := {
  listA : list (list string);
  listB : PathBuffer;
  prev_path : option (list string)
}.

(** Modelled from the spec: one round of the [for i in range(1,
    len(prev_path))] loop of networkx's [shortest_simple_paths]: the
    deviation at position [i] of the path accepted last. *)
Definition spur_step (G : Graph EdgeData) (target weight : string)
    (listA : list (list string)) (prev : list string)
    (acc : gset string * gset (string * string) * PathBuffer) (i : nat)
  : result (gset string * gset (string * string) * PathBuffer) :=
  let '(ignore_nodes, ignore_edges, B) := acc in
  let root := take i prev in
  root_length ← length_func G weight root;
  ignore_edges ← foldlM (fun ie p =>
                           if bool_decide (take i p = root)
                           then match p !! (i - 1)%nat, p !! i with
                                | Some a, Some b => Ok ({[(a, b)]} ∪ ie)
                                | _, _ => Raise IndexError
                                end
                           else Ok ie) ignore_edges listA;
  match list.last root with
  | None => Raise IndexError
  | Some r =>
      B ← match bidirectional_dijkstra G r target weight ignore_nodes ignore_edges with
          | Ok (len, spur) => Ok (pb_push B (root_length + len)%Q (take (length root - 1) root ++ spur))
          | Raise NetworkXNoPath => Ok B
          | Raise e => Raise e
          end;
      Ok ({[r]} ∪ ignore_nodes, ignore_edges, B)
  end.

(** Modelled from the spec: networkx's [shortest_simple_paths(G, source,
    target, weight)] (Yen's deviation-path enumeration), resumed once:
    [Ok None] when the generator is exhausted, [Ok (Some (p, g))] when it
    yields [p] and is left in state [g]. *)
Definition gen_next (G : Graph EdgeData) (source target weight : string) (g : GenState)
  : result (option (list string * GenState)) :=
  B ← match prev_path g with
      | None | Some [] =>
          '(len, p) ← bidirectional_dijkstra G source target weight ∅ ∅;
          Ok (pb_push (listB g) len p)
      | Some prev =>
          '(_, _, B) ← foldlM (spur_step G target weight (listA g) prev)
                          (∅, ∅, listB g) (seq 1 (length prev - 1));
          Ok B
      end;
  match pb_pop B with
  | Some (p, B') =>
      Ok (Some (p, {| listA := listA g ++ [p]; listB := B'; prev_path := Some p |}))
  | None => Ok None
  end.

Definition gen_start (G : Graph EdgeData) (source target : string) : result GenState :=
  if negb (has_node G source) then Raise NodeNotFound
  else if negb (has_node G target) then Raise NodeNotFound
  else Ok {| listA := []; listB := pb_empty; prev_path := None |}.

(** The [for path in shortest_simple_paths(..)] loop of
    [k_shortest_paths]. *)
Fixpoint k_loop (fuel : nat) (G : Graph EdgeData) (source target weight : string) (k : Z)
    (g : GenState) (paths : list (list string)) : result (list (list string)) :=
  match fuel with
  | O => Raise OutOfFuel
  | S fuel' =>
      nx ← gen_next G source target weight g;
      match nx with
      | None => Ok paths
      | Some (p, g') =>
          let paths := paths ++ [p] in
          if (k <=? Z.of_nat (length paths))%Z then Ok paths
          else k_loop fuel' G source target weight k g' paths
      end
  end.

(** [k_shortest_paths(G, source, target, weight, k)] *)
Definition k_shortest_paths (G : Graph EdgeData) (source target weight : string) (k : Z)
  : result (list (list string)) :=
  g ← gen_start G source target;
  k_loop (S (Z.to_nat k)) G source target weight k g [].

(** ** Routing *)

(** [build_penalized_graph()]: [pen_weight] is written into every edge
    dict of a copy of [GRAPH]. *)
Definition build_penalized_graph (G : Graph loc) (s : Store)
    (forecast_map : option (gmap string ForecastRecord)) : Graph loc * Store :=
  let '(Gp, s) := copy G s in
  (Gp,
   foldl (fun s '(u, v, l) =>
            match s !! l with
            | Some data =>
                let pen := congestion_penalty forecast_map (eid data) in
                let base := length_m data in
                <[l := {| eid := eid data; length_m := length_m data;
                          capacity := capacity data; kind := kind data;
                          weight := weight data;
                          pen_weight := Some (base * (1 + pen))%Q |}]> s
            | None => s
            end) s (edges Gp)).

(** [{"id": n, "lat": GRAPH.nodes[n]["lat"], ...} for n in path] *)
Definition coords_of (G : Graph EdgeData) (p : list string) : result (list Coord) :=
  foldlM (fun acc n =>
            match od_get n (_node G) with
            | Some (Some nd) =>
                Ok (acc ++ [{| c_id := n; c_lat := lat nd; c_lon := lon nd;
                               c_label := label nd |}])
            | _ => Raise KeyError
            end) [] p.

(** [{"path": p, "len_m": path_length(p), "coords": [...]}] *)
Definition path_info (G : Graph EdgeData) (p : list string) : result PathInfo :=
  let len := path_length G p in
  cs ← coords_of G p;
  Ok {| path := p; len_m := len; coords := cs |}.

Record RouteRequest := {
  q_source : option string;
  q_target : option string;
  q_mode : option string;
  q_k : Arg Z
}.

Definition empty_out : RouteOut :=
  {| best := None; best_alts := None; shortest := None; shortest_alts := None |}.

Definition with_store (st : App) (s : Store) : App :=
  {| GRAPH := GRAPH st; STORE := s; MODEL := MODEL st;
     FORECAST_CACHE := FORECAST_CACHE st; forecast_map := forecast_map st;
     predict_calls := predict_calls st |}.

(** The [if mode in ("both", "penalized")] block of [route]. *)
Definition route_penalized (st : App) (source target : string) (k : Z) (out : RouteOut)
  : result RouteOut * Store :=
  let G := view (STORE st) (GRAPH st) in
  match astar_with_congestion G (forecast_map st) source target with
  | Raise e => (Raise e, STORE st)
  | Ok best_path =>
      let '(Gp, s) := build_penalized_graph (GRAPH st) (STORE st) (forecast_map st) in
      let G := view s (GRAPH st) in
      (alt_paths ← k_shortest_paths (view s Gp) source target "pen_weight" k;
       b ← path_info G best_path;
       alts ← foldlM (fun acc p => i ← path_info G p; Ok (acc ++ [i])) [] alt_paths;
       Ok {| best := Some b; best_alts := Some alts;
             shortest := shortest out; shortest_alts := shortest_alts out |},
       s)
  end.

(** The [if mode in ("both", "distance")] block of [route]. *)
Definition route_distance (G : Graph EdgeData) (source target : string) (k : Z)
    (out : RouteOut) : result RouteOut :=
  shortest_path ← astar_distance_only G source target;
  alt_d ← k_shortest_paths G source target "weight" k;
  sh ← path_info G shortest_path;
  alts ← foldlM (fun acc p => i ← path_info G p; Ok (acc ++ [i])) [] alt_d;
  Ok {| best := best out; best_alts := best_alts out;
        shortest := Some sh; shortest_alts := Some alts |}.

Definition is_empty_out (out : RouteOut) : bool :=
  match best out, best_alts out, shortest out, shortest_alts out with
  | None, None, None, None => true
  | _, _, _, _ => false
  end.

Definition mode_in (mode a b : string) : bool := String.eqb mode a || String.eqb mode b.

(** The [/route] view. *)
Definition route (st : App) (req : RouteRequest) : Response * App :=
  let source := q_source req in
  let target := q_target req in
  let mode := default "both" (q_mode req) in
  match arg_or (q_k req) 3%Z with
  | None => (InternalServerError ValueError, st)
  | Some k =>
      match source, target with
      | None, _ | Some "", _ | _, None | _, Some "" =>
          (Json 400 (ErrorBody "source and target are required"), st)
      | Some source, Some target =>
          if negb (has_node (GRAPH st) source) || negb (has_node (GRAPH st) target)
          then (Json 400 (ErrorBody "invalid source/target"), st)
          else if match forecast_map st with
                  | None => true
                  | Some m => bool_decide (m = ∅)
                  end
          then (Json 400 (ErrorBody "forecast not loaded; call /forecast first"), st)
          else
            let '(r1, s) :=
              if mode_in mode "both" "penalized"
              then route_penalized st source target k empty_out
              else (Ok empty_out, STORE st) in
            let st' := with_store st s in
            let r2 :=
              out ← r1;
              if mode_in mode "both" "distance"
              then route_distance (view s (GRAPH st)) source target k out
              else Ok out in
            match r2 with
            | Raise NetworkXNoPath => (Json 404 (ErrorBody "no path"), st')
            | Raise e => (InternalServerError e, st')
            | Ok out =>
                if is_empty_out out then (Json 404 (ErrorBody "no path"), st')
                else (Json 200 (RouteBody out), st')
            end
      end
  end.

(** * Specification *)

(** ** Walks and their cost *)

(** A walk over an edge function [E] ([E u v] is the attribute dict of the
    edge from [u] to [v], if there is one): a non-empty node sequence
    whose consecutive nodes are joined by an edge. *)
Fixpoint is_walk (E : string -> string -> option EdgeData) (p : list string) : Prop :=
  match p with
  | [] => False
  | u :: r =>
      match r with
      | [] => True
      | v :: _ => is_Some (E u v) /\ is_walk E r
      end
  end.

(** The total cost of a node sequence under a weight function. *)
Fixpoint walk_cost (E : string -> string -> option EdgeData) (w : WeightFn)
    (p : list string) : Q :=
  match p with
  | [] => 0
  | u :: r =>
      match r with
      | [] => 0
      | v :: _ => match E u v with Some d => w u v d | None => 0 end + walk_cost E w r
      end
  end%Q.

(** A path from [s] to [t]. *)
Definition is_path (E : string -> string -> option EdgeData) (s t : string)
    (p : list string) : Prop :=
  is_walk E p /\ head p = Some s /\ list.last p = Some t.

(** Every edge has a non-negative cost. *)
Definition nonneg (E : string -> string -> option EdgeData) (w : WeightFn) : Prop :=
  forall u v d, E u v = Some d -> (0 <= w u v d)%Q.

(** The invariants of an [nx.Graph] the searches rely on: the keys of a
    neighbour dict are distinct, every neighbour is itself a node with an
    adjacency entry, the node and adjacency dicts have the same keys, and
    the two directions of an edge share their attribute dict. *)
Record graph_wf {E} (G : Graph E) : Prop := {
  wf_nbr_keys : forall u nbrs, od_get u (_adj G) = Some nbrs -> NoDup nbrs.*1;
  wf_closed : forall u v x, get_edge_data G u v = Some x -> is_Some (od_get v (_adj G));
  wf_nodes : forall u, od_mem u (_node G) = od_mem u (_adj G);
  wf_sym : forall u v x, get_edge_data G u v = Some x -> get_edge_data G v u = Some x
}.

(** Adjacency entries of the nodes a search has not settled yet ([m] holds
    the settled ones): what the search may still push. *)
Definition unsettled_sum {A} (adj : list (string * list (string * EdgeData)))
    (m : gmap string A) : nat :=
  foldr (fun '(u, nbrs) n =>
           match m !! u with None => (length nbrs + n)%nat | Some _ => n end)
        0%nat adj.

(** ** Basic facts *)

(** ** Invariants of the single-path search *)

(** The distance the search holds for a settled node: 0 for the source,
    otherwise the cost it was enqueued with last. *)
Definition adist (s : string) (st : AState) (u : string) : Q :=
  if decide (u = s) then 0%Q
  else match enqueued st !! u with Some (qc, _) => qc | None => 0%Q end.

(** The path the [explored] parents spell out from the source [s]. *)
Inductive tree (s : string) (ex : gmap string (option string)) : string -> list string -> Prop :=
| tree_root : ex !! s = Some None -> tree s ex s [s]
| tree_step u v p : ex !! v = Some (Some u) -> tree s ex u p -> tree s ex v (p ++ [v]).

(** Adjacency entries of the nodes not yet settled: what the search may
    still push. *)
Definition unexplored_adj (G : Graph EdgeData) (ex : gmap string (option string)) : nat :=
  unsettled_sum (_adj G) ex.

(** The state after a push of [astar_relax]. *)
Definition astar_push (st : AState) (x v : string) (ncost hh : Q) : AState :=
  {| queue := heappush (queue st)
                {| a_prio := (ncost + hh)%Q; a_cnt := counter st; a_node := v;
                   a_dist := ncost; a_parent := Some x |};
     enqueued := <[v := (ncost, hh)]> (enqueued st);
     explored := explored st;
     counter := S (counter st) |}.

(** The loop invariant of [astar_loop] once the source is settled;
    [x] and [todo] are the node being expanded and its neighbours still to
    relax ([todo = []] between two iterations). *)
Record astar_inv (G : Graph EdgeData) (w : WeightFn) (s t : string)
    (x : string) (todo : list (string * EdgeData)) (st : AState) : Prop := {
  ai_src : explored st !! s = Some None;
  ai_root : forall u, explored st !! u = Some None -> u = s;
  ai_target : explored st !! t = None;
  ai_expl_enq : forall u, is_Some (explored st !! u) -> u <> s -> is_Some (enqueued st !! u);
  ai_cnt : NoDup (a_cnt <$> queue st);
  ai_cnt_lt : forall e, e ∈ queue st -> (a_cnt e < counter st)%nat;
  ai_entry : forall e, e ∈ queue st ->
    (a_prio e == a_dist e)%Q /\ is_Some (od_get (a_node e) (_adj G)) /\
    exists u d qc hh,
      a_parent e = Some u /\ is_Some (explored st !! u) /\
      get_edge_data G u (a_node e) = Some d /\
      (a_dist e == adist s st u + w u (a_node e) d)%Q /\
      enqueued st !! a_node e = Some (qc, hh) /\ (qc <= a_dist e)%Q /\
      (a_node e <> s -> is_Some (explored st !! a_node e) -> (qc < a_dist e)%Q);
  ai_uniq : forall e1 e2 qc hh,
    e1 ∈ queue st -> e2 ∈ queue st -> a_node e1 = a_node e2 ->
    enqueued st !! a_node e1 = Some (qc, hh) ->
    (a_dist e1 <= qc)%Q -> (a_dist e2 <= qc)%Q -> e1 = e2;
  ai_enq : forall v qc hh, enqueued st !! v = Some (qc, hh) ->
    (hh == 0)%Q /\
    (explored st !! v = None ->
     exists e, e ∈ queue st /\ a_node e = v /\ (a_dist e <= qc)%Q);
  ai_relaxed : forall u v d,
    is_Some (explored st !! u) -> get_edge_data G u v = Some d ->
    ~ (u = x /\ (v, d) ∈ todo) ->
    v = s \/ exists qc hh, enqueued st !! v = Some (qc, hh) /\
                           (qc <= adist s st u + w u v d)%Q;
  ai_tree : forall u, is_Some (explored st !! u) ->
    exists p, tree s (explored st) u p /\ (length p <= size (explored st))%nat /\
      is_path (get_edge_data G) s u p /\
      (walk_cost (get_edge_data G) w p == adist s st u)%Q /\
      forall q, is_path (get_edge_data G) s u q ->
                (adist s st u <= walk_cost (get_edge_data G) w q)%Q
}.

(** The two cost functions of [app.py]. *)
Definition penalized_cost (fm : option (gmap string ForecastRecord)) : WeightFn :=
  fun u v data => (length_m data * (1 + congestion_penalty fm (eid data)))%Q.
Definition distance_cost : WeightFn := fun u v data => length_m data.

(** ** Invariants of the bidirectional search *)

(** The edges the filtered iterators of [_bidirectional_dijkstra] leave:
    none at an ignored node, none that is an ignored edge in either
    direction. *)
Definition fedge (G : Graph EdgeData) (IN : gset string) (IE : gset (string * string))
    (u v : string) : option EdgeData :=
  if decide ((u ∉ IN) /\ (v ∉ IN) /\ ((u, v) ∉ IE) /\ ((v, u) ∉ IE))
  then get_edge_data G u v else None.

(** The weight function [_weight_function] builds for an attribute name. *)
Definition attr_weight (weight : string) : WeightFn :=
  fun _ _ d => default 1%Q (attr_get weight d).

(** The invariant of one direction, rooted at [r]; [x] is the node being
    expanded and [todo] its neighbours still to relax. *)
Record side_inv (G : Graph EdgeData) (IN : gset string) (IE : gset (string * string))
    (W : WeightFn) (r : string) (x : string) (todo : list string) (sd : Side) : Prop := {
  si_start : dists sd !! r = None ->
    dists sd = ∅ /\ seen sd = {[r := 0%Q]} /\ paths sd = {[r := [r]]} /\
    exists c, fringe sd = [(0%Q, c, r)];
  si_dists : forall v dv, dists sd !! v = Some dv ->
    exists sv, seen sd !! v = Some sv /\ (sv == dv)%Q /\
      forall q, is_path (fedge G IN IE) r v q -> (dv <= walk_cost (fedge G IN IE) W q)%Q;
  si_seen : forall v sv, seen sd !! v = Some sv ->
    exists p, paths sd !! v = Some p /\ is_path (fedge G IN IE) r v p /\
      (walk_cost (fedge G IN IE) W p == sv)%Q /\ NoDup p /\
      (forall u, u ∈ p -> u <> v -> is_Some (dists sd !! u)) /\
      is_Some (od_get v (_adj G)) /\ (v ∉ IN);
  si_fringe : forall dist c v, (dist, c, v) ∈ fringe sd ->
    exists sv, seen sd !! v = Some sv /\ (sv <= dist)%Q;
  si_mono : forall dist c v u du, (dist, c, v) ∈ fringe sd -> dists sd !! u = Some du ->
    (du <= dist)%Q;
  si_pending : forall v sv, seen sd !! v = Some sv -> dists sd !! v = None ->
    exists dist c, (dist, c, v) ∈ fringe sd /\ (dist <= sv)%Q;
  si_relaxed : forall u v d du, dists sd !! u = Some du -> fedge G IN IE u v = Some d ->
    ~ (u = x /\ v ∈ todo) ->
    exists sv, seen sd !! v = Some sv /\ (sv <= du + W u v d)%Q
}.

(** What the two directions share: no node is settled by both, and the
    best meeting found so far is recorded. *)
Record meet_inv (G : Graph EdgeData) (IN : gset string) (IE : gset (string * string))
    (W : WeightFn) (s t : string) (st : BState) : Prop := {
  mi_disj : forall v, is_Some (dists (fwd st) !! v) -> is_Some (dists (bwd st) !! v) -> False;
  mi_meet : forall x s0 s1, seen (fwd st) !! x = Some s0 -> seen (bwd st) !! x = Some s1 ->
    exists fd, finaldist st = Some fd /\ (fd <= s0 + s1)%Q /\ finalpath st <> [];
  mi_final : finalpath st <> [] ->
    exists fd, finaldist st = Some fd /\
      is_path (fedge G IN IE) s t (finalpath st) /\ NoDup (finalpath st) /\
      (walk_cost (fedge G IN IE) W (finalpath st) == fd)%Q
}.

(** Which of the first two iterations have run. *)
Definition bidir_phase (s t : string) (st : BState) : Prop :=
  (is_Some (dists (fwd st) !! s) /\ is_Some (dists (bwd st) !! t)) \/
  (dir st = true /\ dists (fwd st) = ∅ /\ dists (bwd st) = ∅) \/
  (dir st = false /\ is_Some (dists (fwd st) !! s) /\ dists (bwd st) = ∅ /\
   forall v, is_Some (dists (fwd st) !! v) -> v = s).

(** The root of a direction. *)
Definition root_of (s t : string) (d : bool) : string := if d then t else s.

Definition bidir_potential (G : Graph EdgeData) (st : BState) : nat :=
  (length (fringe (fwd st)) + length (fringe (bwd st)) +
   unsettled_sum (_adj G) (dists (fwd st)) + unsettled_sum (_adj G) (dists (bwd st)))%nat.

(** The state after the three assignments of a relaxation
    ([seen[dir][w]], the push, [paths[dir][w]]). *)
Definition relax_push (d : bool) (st : BState) (w : string) (pv : list string) (vw : Q)
  : BState :=
  let sd := side d st in
  let st' := set_side d
               {| dists := dists sd;
                  paths := <[w := pv ++ [w]]> (paths sd);
                  fringe := heappush (fringe sd) (vw, bcount st, w);
                  seen := <[w := vw]> (seen sd) |} st in
  {| fwd := fwd st'; bwd := bwd st'; bcount := S (bcount st');
     finaldist := finaldist st'; finalpath := finalpath st'; dir := dir st' |}.

(** The test whether [w], now seen from both ends, gives a better
    meeting. *)
Definition relax_meet (st : BState) (w : string) : result BState :=
  match seen (fwd st) !! w, seen (bwd st) !! w with
  | Some s0, Some s1 =>
      let totaldist := (s0 + s1)%Q in
      if match finalpath st, finaldist st with
         | [], _ => Ok true
         | _ :: _, Some fd => Ok (Qltb totaldist fd)
         | _ :: _, None => Raise UnboundLocalError
         end is Ok true
      then
        match paths (fwd st) !! w, paths (bwd st) !! w with
        | Some p0, Some p1 =>
            Ok {| fwd := fwd st; bwd := bwd st; bcount := bcount st;
                  finaldist := Some totaldist;
                  finalpath := p0 ++ tail (reverse p1);
                  dir := dir st |}
        | _, _ => Raise KeyError
        end
      else Ok st
  | _, _ => Ok st
  end.

(** What a search between [s] and [t] over the edges [E] must answer: a
    simple path of least cost with its cost, or [NetworkXNoPath] when
    there is no path at all. *)
Definition search_result_ok (E : string -> string -> option EdgeData) (W : WeightFn)
    (s t : string) (r : result (Q * list string)) : Prop :=
  match r with
  | Ok (fd, p) =>
      is_path E s t p /\ NoDup p /\ (walk_cost E W p == fd)%Q /\
      forall q, is_path E s t q -> (fd <= walk_cost E W q)%Q
  | Raise e => e = NetworkXNoPath /\ forall q, ~ is_path E s t q
  end.

(** ** Invariants of the enumeration of loopless paths *)

(** A loopless path from [s] to [t]. *)
Definition simple_path (E : string -> string -> option EdgeData) (s t : string)
    (p : list string) : Prop :=
  is_path E s t p /\ NoDup p.

(** The number of leading nodes two paths share. *)
Fixpoint lcp (p q : list string) : nat :=
  match p, q with
  | x :: p', y :: q' => if decide (x = y) then S (lcp p' q') else 0
  | _, _ => 0
  end.

(** [p] is stored in the buffer. *)
Definition buf_has (B : PathBuffer) (p : list string) : Prop :=
  exists c n, (c, n, p) ∈ sortedpaths B.

(** The buffer of candidates: its set mirrors its heap, no path is stored
    twice, and every stored path is a loopless path from [s] to [t] that
    has not been accepted yet, stored with its cost. *)
Record buf_ok (E : string -> string -> option EdgeData) (W : WeightFn) (s t : string)
    (A : list (list string)) (B : PathBuffer) : Prop := {
  bo_set : forall p, p ∈ pb_paths B <-> buf_has B p;
  bo_uniq : NoDup (sortedpaths B).*2;
  bo_entry : forall c n p, (c, n, p) ∈ sortedpaths B ->
    simple_path E s t p /\ (c == walk_cost E W p)%Q /\ (p ∉ A)
}.

(** A loopless path [P] that has not been accepted is covered when the
    buffer holds a candidate no dearer than [P] that shares with [P] at
    least as many leading nodes as every accepted path does. *)
Definition covered (E : string -> string -> option EdgeData) (W : WeightFn)
    (A : list (list string)) (B : PathBuffer) (P : list string) : Prop :=
  exists C, buf_has B C /\ (walk_cost E W C <= walk_cost E W P)%Q /\
    forall a, a ∈ A -> (lcp a P <= lcp C P)%nat.

(** The accepted paths, in the order they were accepted. *)
Record accepted_ok (E : string -> string -> option EdgeData) (W : WeightFn) (s t : string)
    (A : list (list string)) : Prop := {
  ao_simple : forall a, a ∈ A -> simple_path E s t a;
  ao_nodup : NoDup A;
  ao_sorted : forall i j a b, (i <= j)%nat -> A !! i = Some a -> A !! j = Some b ->
    (walk_cost E W a <= walk_cost E W b)%Q;
  ao_min : forall a P, a ∈ A -> simple_path E s t P -> P ∉ A ->
    (walk_cost E W a <= walk_cost E W P)%Q;
  ao_first : forall a q, head A = Some a -> is_path E s t q ->
    (walk_cost E W a <= walk_cost E W q)%Q
}.

(** The state of the generator between two [yield]s. *)
Definition gen_inv (E : string -> string -> option EdgeData) (W : WeightFn) (s t : string)
    (g : GenState) : Prop :=
  accepted_ok E W s t (listA g) /\
  match prev_path g with
  | None => listA g = [] /\ listB g = pb_empty
  | Some prev =>
      list.last (listA g) = Some prev /\ buf_ok E W s t (listA g) (listB g) /\
      forall P, simple_path E s t P -> P ∉ listA g ->
        covered E W (listA g) (listB g) P \/
        forall a, a ∈ listA g -> (lcp a P <= lcp prev P)%nat
  end.

(** The state of the deviation loop before the deviation at position [i]
    of [prev]: the ignored nodes are the nodes of [prev] before the spur
    node, every ignored edge leaves one of them, and the buffer, grown
    from [B0], covers every path that leaves [prev] before position [i]. *)
Record spur_inv (E : string -> string -> option EdgeData) (W : WeightFn) (s t : string)
    (A : list (list string)) (prev : list string) (B0 : PathBuffer) (i : nat)
    (acc : gset string * gset (string * string) * PathBuffer) : Prop := {
  sp_nodes : forall x, x ∈ acc.1.1 <-> x ∈ take (i - 1) prev;
  sp_edges : forall a b, (a, b) ∈ acc.1.2 -> a ∈ take (i - 1) prev;
  sp_buf : buf_ok E W s t A acc.2;
  sp_grow : forall q, buf_has B0 q -> buf_has acc.2 q;
  sp_cover : forall P, simple_path E s t P -> P ∉ A ->
    (forall a, a ∈ A -> (lcp a P <= lcp prev P)%nat) -> (lcp prev P < i)%nat ->
    exists C, buf_has acc.2 C /\ (walk_cost E W C <= walk_cost E W P)%Q /\
      (lcp prev P <= lcp C P)%nat
}.

(** What [k_shortest_paths] must answer on a connected pair. *)
Record k_paths_ok (E : string -> string -> option EdgeData) (W : WeightFn) (s t : string)
    (k : Z) (ps : list (list string)) : Prop := {
  kp_nonempty : ps <> [];
  kp_count : (Z.of_nat (length ps) <= Z.max k 1)%Z;
  kp_simple : forall p, p ∈ ps -> simple_path E s t p;
  kp_nodup : NoDup ps;
  kp_sorted : forall i j a b, (i <= j)%nat -> ps !! i = Some a -> ps !! j = Some b ->
    (walk_cost E W a <= walk_cost E W b)%Q;
  kp_first : forall a q, head ps = Some a -> is_path E s t q ->
    (walk_cost E W a <= walk_cost E W q)%Q;
  kp_cheapest : forall a P, a ∈ ps -> simple_path E s t P -> P ∉ ps ->
    (walk_cost E W a <= walk_cost E W P)%Q;
  kp_all : (Z.of_nat (length ps) < k)%Z -> forall P, simple_path E s t P -> P ∈ ps
}.

(** *** Common prefixes *)

(** ** Well-formed graphs over a store *)

(** The graph [G] over the store [s]: the invariants of an [nx.Graph],
    distinct keys in the node and adjacency dicts, and every edge refers
    to a cell of the store. *)
Record sg_wf (G : Graph loc) (s : Store) : Prop := {
  sg_graph : graph_wf G;
  sg_node_keys : NoDup (_node G).*1;
  sg_adj_keys : NoDup (_adj G).*1;
  sg_range : forall u v l, get_edge_data G u v = Some l -> (l < length s)%nat
}.

(** The attribute dict of the edge from [u] to [v]. *)
Definition edata (G : Graph loc) (s : Store) (u v : string) : option EdgeData :=
  l ← get_edge_data G u v; s !! l.

(** *** Ordered dictionaries *)

(** The part of [sg_wf] that does not mention the store. *)
Definition gwf {E} (G : Graph E) : Prop :=
  graph_wf G /\ NoDup (_node G).*1 /\ NoDup (_adj G).*1.

(** The directed adjacency entries [(u, v, datadict)], in the order
    [G.copy()] re-adds them. *)
Fixpoint flat_adj {E} (adj : list (string * list (string * E))) : list (string * string * E) :=
  match adj with
  | [] => []
  | (u, nbrs) :: rest => map (fun '(v, l) => (u, v, l)) nbrs ++ flat_adj rest
  end.

(** The state of [G.copy()] after the adjacency entries [pre] have been
    re-added: the copy is well formed over a store that extends [s], its
    edges are edges of [G] in fresh cells with the same attributes, and
    the entries of [pre] are present. *)
Record copy_inv (G : Graph loc) (s : Store) (pre : list (string * string * loc))
    (Gs : Graph loc * Store) : Prop := {
  ci_wf : sg_wf Gs.1 Gs.2;
  ci_ext : exists ext, Gs.2 = s ++ ext;
  ci_edge : forall a b l, get_edge_data Gs.1 a b = Some l ->
    (length s <= l)%nat /\ exists l0, get_edge_data G a b = Some l0 /\ Gs.2 !! l = s !! l0;
  ci_done : forall a b l, (a, b, l) ∈ pre -> is_Some (get_edge_data Gs.1 a b);
  ci_node : _node Gs.1 = _node (copy_nodes G)
}.

(** The attribute dict of an edge after [build_penalized_graph] wrote
    its [pen_weight]. *)
Definition penalize (fm : option (gmap string ForecastRecord)) (d : EdgeData) : EdgeData :=
  {| eid := eid d; length_m := length_m d; capacity := capacity d; kind := kind d;
     weight := weight d;
     pen_weight := Some (length_m d * (1 + congestion_penalty fm (eid d)))%Q |}.

(** The loop of [build_penalized_graph] over the store. *)
Definition penalize_store (fm : option (gmap string ForecastRecord))
    (es : list (string * string * nat)) (s : list EdgeData) : list EdgeData :=
  foldl (fun s '(u, v, l) =>
           match s !! l with
           | Some data => <[l := penalize fm data]> s
           | None => s
           end) s es.

(** *** The view of a copy does not depend on where its cells are *)

(** [f] applied to every edge payload. *)
Definition map_data {A B} (f : A -> B) (G : Graph A) : Graph B :=
  {| _node := _node G;
     _adj := map (fun '(u, nbrs) => (u, map (fun '(v, d) => (v, f d)) nbrs)) (_adj G) |}.

(** ** The views *)

(** A forecast table covers the graph: one record per edge of [G.edges],
    in that order, with the edge's identifier and capacity. *)
Definition table_ok (G : Graph EdgeData) (tab : list ForecastRecord) : Prop :=
  Forall2 (fun r '(_, _, d) => edge_id r = eid d /\ fcapacity r = capacity d) tab (edges G).

(** The invariant of the process state: [GRAPH] is well formed over the
    store, the base weight of every edge dict is its length, and every
    cached table is a non-empty table that covers the graph. *)
Record app_ok (st : App) : Prop := {
  ok_graph : sg_wf (GRAPH st) (STORE st);
  ok_weight : forall u v d,
    get_edge_data (view (STORE st) (GRAPH st)) u v = Some d -> weight d = length_m d;
  ok_cache : forall key tab, FORECAST_CACHE st !! key = Some tab ->
    tab <> [] /\ table_ok (view (STORE st) (GRAPH st)) tab
}.

(** The states the process reaches from its start by serving requests. *)
Inductive reachable (nodes_df : list NodeRow) (edges_df : list EdgeRow)
    (model : list Features -> list Q) : App -> Prop :=
| reach_startup : reachable nodes_df edges_df model (startup nodes_df edges_df model)
| reach_forecast st req :
    reachable nodes_df edges_df model st ->
    reachable nodes_df edges_df model (forecast st req).2
| reach_route st req :
    reachable nodes_df edges_df model st ->
    reachable nodes_df edges_df model (route st req).2.

(** Every node of the graph carries its attributes (it is listed in
    nodes.csv). *)
Definition nodes_attributed {E} (G : Graph E) : Prop :=
  forall n, has_node G n = true -> exists nd, od_get n (_node G) = Some (Some nd).

(** The record [route] builds for a path. *)
Definition info_of (G : Graph EdgeData) (p : list string) (i : PathInfo) : Prop :=
  path i = p /\ len_m i = path_length G p /\ map c_id (coords i) = p.

(** What the penalized block of a response holds. *)
Definition pen_facts (st : App) (s t : string) (k : Z) (ib : PathInfo)
    (ialts : list PathInfo) : Prop :=
  let G := view (STORE st) (GRAPH st) in
  let E := get_edge_data G in
  let fm := forecast_map st in
  exists bp ps,
    astar_with_congestion G fm s t = Ok bp /\
    is_path E s t bp /\
    (forall q, is_path E s t q ->
       (walk_cost E (penalized_cost fm) bp <= walk_cost E (penalized_cost fm) q)%Q) /\
    k_shortest_paths
      (view (build_penalized_graph (GRAPH st) (STORE st) fm).2
            (build_penalized_graph (GRAPH st) (STORE st) fm).1) s t "pen_weight" k = Ok ps /\
    k_paths_ok E (penalized_cost fm) s t k ps /\
    info_of G bp ib /\ Forall2 (info_of G) ps ialts.

(** What the distance block of a response holds. *)
Definition dist_facts (st : App) (s t : string) (k : Z) (ish : PathInfo)
    (ialts : list PathInfo) : Prop :=
  let G := view (STORE st) (GRAPH st) in
  let E := get_edge_data G in
  exists sp ps,
    astar_distance_only G s t = Ok sp /\
    is_path E s t sp /\
    (forall q, is_path E s t q ->
       (walk_cost E distance_cost sp <= walk_cost E distance_cost q)%Q) /\
    k_shortest_paths G s t "weight" k = Ok ps /\
    k_paths_ok E distance_cost s t k ps /\
    info_of G sp ish /\ Forall2 (info_of G) ps ialts.

(** A request that passes the parameter checks of [route]. *)
Definition route_checked (st : App) (req : RouteRequest) (s t : string) (k : Z) : Prop :=
  arg_or (q_k req) 3%Z = Some k /\
  q_source req = Some s /\ q_target req = Some t /\ s <> "" /\ t <> "" /\
  has_node (GRAPH st) s = true /\ has_node (GRAPH st) t = true.

(** The modes [route] knows. *)
Definition known_mode (req : RouteRequest) : Prop :=
  default "both" (q_mode req) = "both" \/ default "both" (q_mode req) = "penalized" \/
  default "both" (q_mode req) = "distance".

(** A forecast has been resolved: the active map is set and not empty. *)
Definition forecast_loaded (st : App) : Prop :=
  exists m, forecast_map st = Some m /\ m <> ∅.

(** The state after [/forecast] answered with [result]. *)
Definition served (st : App) (cache : gmap ForecastKey (list ForecastRecord))
    (result : list ForecastRecord) (calls : nat) : App :=
  {| GRAPH := GRAPH st; STORE := STORE st; MODEL := MODEL st;
     FORECAST_CACHE := cache;
     forecast_map := Some (to_forecast_map result);
     predict_calls := calls |}.

(** *** Transfer along a relabelling of the edge payloads *)

(** ** A small campus *)

Definition ex_node (i : string) : NodeRow :=
  {| row_id := i; row_lat := 0; row_lon := 0; row_label := i |}.

Definition ex_edge (i s t : string) (l : Q) : EdgeRow :=
  {| erow_id := i; erow_source := s; erow_target := t; erow_length_m := l;
     erow_capacity := 400; erow_kind := "path" |}.

(** Four nodes in a square, every side one metre long: two routes of the
    same length from A to D.  E is a node no edge reaches. *)
Definition ex_nodes : list NodeRow :=
  [ex_node "A"; ex_node "B"; ex_node "C"; ex_node "D"; ex_node "E"].
Definition ex_edges : list EdgeRow :=
  [ex_edge "e2" "A" "C" 1; ex_edge "e1" "A" "B" 1; ex_edge "e3" "C" "D" 1;
   ex_edge "e4" "B" "D" 1].
Definition ex_model (rows : list Features) : list Q := map (fun _ => 100%Q) rows.

Definition ex_st0 : App := startup ex_nodes ex_edges ex_model.
Definition ex_forecast_req : ForecastRequest :=
  {| q_hour := Absent; q_day_of_week := Absent; q_is_peak := Absent; q_use_cache := None |}.
Definition ex_st1 : App := (forecast ex_st0 ex_forecast_req).2.
Definition ex_route_req (s t m : string) (k : Arg Z) : RouteRequest :=
  {| q_source := Some s; q_target := Some t; q_mode := Some m; q_k := k |}.

(** One edge whose endpoint B is named in edges.csv only: [add_edge]
    creates B without attributes. *)
Definition ex2_nodes : list NodeRow := [ex_node "A"].
Definition ex2_edges : list EdgeRow := [ex_edge "e1" "A" "B" 1].
Definition ex2_st1 : App :=
  (forecast (startup ex2_nodes ex2_edges ex_model) ex_forecast_req).2.

(** A path S - A - U - T whose last edge has a negative length. *)
Definition ex3_nodes : list NodeRow := [ex_node "S"; ex_node "A"; ex_node "U"; ex_node "T"].
Definition ex3_edges : list EdgeRow :=
  [ex_edge "e1" "S" "A" 1; ex_edge "e2" "A" "U" 1; ex_edge "e3" "U" "T" (-5)].
Definition ex3_st1 : App :=
  (forecast (startup ex3_nodes ex3_edges ex_model) ex_forecast_req).2.

Definition ex_bypass_req : ForecastRequest :=
  {| q_hour := Absent; q_day_of_week := Absent; q_is_peak := Absent;
     q_use_cache := Some "FALSE" |}.

Definition ex_graph : Graph EdgeData := view (STORE ex_st0) (GRAPH ex_st0).

(** ** The remaining helpers and views of [app.py] *)

(** The attribute dict built from one row of edges.csv by [load_graph]. *)
Definition row_attrs (row : EdgeRow) : EdgeData :=
  {| eid := erow_id row; length_m := erow_length_m row;
     capacity := erow_capacity row; kind := erow_kind row;
     weight := erow_length_m row; pen_weight := None |}.

(** A row of edges.csv joins [u] and [v] when they are its endpoints, in
    either order. *)
Definition row_joins (u v : string) (row : EdgeRow) : bool :=
  (String.eqb u (erow_source row) && String.eqb v (erow_target row)) ||
  (String.eqb u (erow_target row) && String.eqb v (erow_source row)).

(** The last row of edges.csv that joins [u] and [v]. *)
Definition last_row (u v : string) (edges_df : list EdgeRow) : option EdgeRow :=
  list.last (filter (fun row => row_joins u v row = true) edges_df).

(** The payload of [/graph]: [data.get(..)] of a node attribute is [None]
    for a node that has no attributes. *)
Record GraphNode := {
  n_id : string; n_lat : option Q; n_lon : option Q; n_label : option string
}.

Record GraphEdge := {
  e_id : string; e_source : string; e_target : string;
  e_length_m : Q; e_capacity : Q; e_kind : string
}.

Record GraphPayload := { g_nodes : list GraphNode; g_edges : list GraphEdge }.

(** The [/graph] view. *)
Definition get_graph (st : App) : GraphPayload :=
  let G := view (STORE st) (GRAPH st) in
  {| g_nodes :=
       map (fun '(node_id, data) =>
              {| n_id := node_id; n_lat := lat <$> data; n_lon := lon <$> data;
                 n_label := label <$> data |}) (_node G);
     g_edges :=
       map (fun '(u, v, data) =>
              {| e_id := eid data; e_source := u; e_target := v;
                 e_length_m := length_m data; e_capacity := capacity data;
                 e_kind := kind data |}) (edges G) |}.

(** * The graph read from the CSV files *)

(** * The edge listing [G.edges] *)

(** The endpoints of a listed edge. *)
Definition ends {E} (e : string * string * E) : string * string := (e.1.1, e.1.2).

(** * The [/forecast] view *)

(** * The [/route] view *)

(** * The nodes of the loaded graph *)

(** What [load_graph] knows of a node: missing, created by an edge row only
    (no attributes), or listed in nodes.csv. *)
Definition node_case (nodes_df : list NodeRow) (edges_df : list EdgeRow) (n : string)
    (x : option (option NodeData)) : Prop :=
  match x with
  | None =>
      n ∉ (row_id <$> nodes_df) /\ n ∉ (erow_source <$> edges_df) /\
      n ∉ (erow_target <$> edges_df)
  | Some None =>
      n ∉ (row_id <$> nodes_df) /\
      (n ∈ (erow_source <$> edges_df) \/ n ∈ (erow_target <$> edges_df))
  | Some (Some _) => n ∈ (row_id <$> nodes_df)
  end.

(** The entries of a route body. *)
Definition out_infos (out : RouteOut) : list PathInfo :=
  option_list (best out) ++ default [] (best_alts out) ++
  option_list (shortest out) ++ default [] (shortest_alts out).

(** * Searching between nodes that are not connected *)

(** * Prefixes of a route *)

(** * Proofs *)

Lemma Qltb_lt a b : Qltb a b = true <-> (a < b)%Q.
Proof.
  unfold Qltb. rewrite negb_true_iff. split.
  - intros H. destruct (Qlt_le_dec a b) as [|Hle]; [done|].
    apply Qle_bool_iff in Hle. congruence.
  - intros H. destruct (Qle_bool b a) eqn:E; [|done].
    apply Qle_bool_iff in E. lra.
Qed.

Lemma Qltb_ge a b : Qltb a b = false <-> (b <= a)%Q.
Proof.
  unfold Qltb. rewrite negb_false_iff. apply Qle_bool_iff.
Qed.

Lemma py_max_Qmax a b : (py_max a b == Qmax a b)%Q.
Proof.
  unfold py_max. destruct (Qltb a b) eqn:E.
  - apply Qltb_lt in E. symmetry. apply Q.max_r. lra.
  - apply Qltb_ge in E. symmetry. apply Q.max_l. lra.
Qed.

(** C3: [congestion_penalty] returns 0, 3/10 or 7/10: 0 when no forecast
    map is set or the edge is not in it; otherwise, with ratio =
    pred_flow / max(capacity, 1), it returns 0 when ratio < 1/2, 3/10
    when 1/2 <= ratio < 4/5 and 7/10 when ratio >= 4/5. *)
Theorem congestion_penalty_tiers (fm : option (gmap string ForecastRecord)) (e : string) :
  let p := congestion_penalty fm e in
  (p = 0%Q \/ p = (3 # 10)%Q \/ p = (7 # 10)%Q) /\
  (fm = None -> p = 0%Q) /\
  (forall m, fm = Some m -> m !! e = None -> p = 0%Q) /\
  (forall m f, fm = Some m -> m !! e = Some f ->
     let ratio := (pred_flow f / Qmax (fcapacity f) 1)%Q in
     ((ratio < 1 # 2)%Q -> p = 0%Q) /\
     ((1 # 2 <= ratio)%Q /\ (ratio < 4 # 5)%Q -> p = (3 # 10)%Q) /\
     ((4 # 5 <= ratio)%Q -> p = (7 # 10)%Q)).
Proof.
  unfold congestion_penalty. split; [|split; [|split]].
  - destruct (default ∅ fm !! e) as [f|]; [|by left].
    repeat case_match; auto.
  - intros ->. simpl. by rewrite lookup_empty.
  - intros m -> Hm. simpl. by rewrite Hm.
  - intros m f -> Hm. simpl. rewrite Hm.
    assert (Hr : (pred_flow f / py_max (fcapacity f) 1 == pred_flow f / Qmax (fcapacity f) 1)%Q)
      by (by rewrite py_max_Qmax).
    set (r := (pred_flow f / py_max (fcapacity f) 1)%Q) in *.
    set (r' := (pred_flow f / Qmax (fcapacity f) 1)%Q) in *.
    destruct (Qltb r (1 # 2)) eqn:E1; [|destruct (Qltb r (4 # 5)) eqn:E2].
    + apply Qltb_lt in E1. repeat split; auto; intros; exfalso; lra.
    + apply Qltb_ge in E1. apply Qltb_lt in E2. repeat split; auto; intros; exfalso; lra.
    + apply Qltb_ge in E1. apply Qltb_ge in E2. repeat split; auto; intros; exfalso; lra.
Qed.

Lemma od_get_elem {V} k (v : V) d : od_get k d = Some v -> (k, v) ∈ d.
Proof.
  induction d as [|[k' v'] d IH]; simpl; [done|].
  destruct (String.eqb_spec k k') as [->|Hne].
  - intros [= ->]. left.
  - intros H. right. auto.
Qed.

Lemma od_get_NoDup {V} k (v : V) d : NoDup d.*1 -> (k, v) ∈ d -> od_get k d = Some v.
Proof.
  induction d as [|[k' v'] d IH]; simpl; [by intros _ ?%elem_of_nil|].
  intros Hnd Hin. apply list.NoDup_cons in Hnd as [Hk Hnd].
  apply elem_of_cons in Hin as [[= <- <-]|Hin].
  - by rewrite String.eqb_refl.
  - destruct (String.eqb_spec k k') as [->|Hne]; [|auto].
    exfalso. apply Hk. apply list_elem_of_fmap. by exists (k', v).
Qed.

Lemma heappop_None {A} (key : A -> Q * nat) q : heappop key q = None <-> q = [].
Proof.
  destruct q as [|x q]; simpl; [done|].
  split; [|done]. destruct (heappop key q) as [[y r]|]; [|done].
  by destruct (key_lt (key y) (key x)).
Qed.

Lemma heappop_perm {A} (key : A -> Q * nat) q m r :
  heappop key q = Some (m, r) -> q ≡ₚ m :: r.
Proof.
  revert m r. induction q as [|x q IH]; simpl; [done|]. intros m r.
  destruct (heappop key q) as [[y r']|] eqn:E.
  - destruct (key_lt (key y) (key x)); intros [= <- <-].
    + rewrite (IH _ _ eq_refl). apply Permutation_swap.
    + done.
  - intros [= <- <-]. apply heappop_None in E. by subst.
Qed.

Lemma key_lt_false a b : key_lt a b = false -> (b.1 <= a.1)%Q.
Proof.
  unfold key_lt. intros [H1 H2]%orb_false_elim. by apply Qltb_ge.
Qed.

Lemma heappop_min {A} (key : A -> Q * nat) q m r :
  heappop key q = Some (m, r) -> forall x, x ∈ q -> ((key m).1 <= (key x).1)%Q.
Proof.
  revert m r. induction q as [|x q IH]; simpl; [done|]. intros m r.
  destruct (heappop key q) as [[y r']|] eqn:E.
  - destruct (key_lt (key y) (key x)) eqn:Hlt; intros [= <- <-] z Hz.
    + apply elem_of_cons in Hz as [->|Hz]; [|eauto].
      unfold key_lt in Hlt. apply orb_true_iff in Hlt as [H|H].
      * apply Qltb_lt in H. lra.
      * apply andb_true_iff in H as [H _]. apply Qeq_bool_iff in H. lra.
    + apply key_lt_false in Hlt.
      apply elem_of_cons in Hz as [->|Hz]; [lra|].
      specialize (IH _ _ eq_refl z Hz). lra.
  - intros [= <- <-] z Hz. apply heappop_None in E. subst.
    apply list_elem_of_singleton in Hz as ->. lra.
Qed.

Section Walks.
Context (E : string -> string -> option EdgeData) (w : WeightFn).
Context (Hnn : nonneg E w).

Lemma walk_cost_nonneg p : (0 <= walk_cost E w p)%Q.
Proof.
  induction p as [|u [|v r] IH]; simpl in *; try lra.
  destruct (E u v) eqn:He; [apply Hnn in He|]; lra.
Qed.

Lemma is_walk_app_r p q : is_walk E (p ++ q) -> q <> [] -> is_walk E q.
Proof.
  induction p as [|u p IH]; simpl; [done|].
  intros H Hq. destruct (p ++ q) as [|v r] eqn:Hpq.
  - by destruct p, q.
  - apply IH; [|done]. tauto.
Qed.

Lemma is_walk_snoc p u v :
  is_walk E (p ++ [u]) -> is_Some (E u v) -> is_walk E (p ++ [u; v]).
Proof.
  induction p as [|x p IH]; simpl; [done|].
  intros H Hv. destruct p as [|y p]; simpl in *; [tauto|].
  split; [tauto|]. apply IH; tauto.
Qed.

Lemma walk_cost_snoc p u v :
  (walk_cost E w (p ++ [u; v]) ==
   walk_cost E w (p ++ [u]) + match E u v with Some d => w u v d | None => 0 end)%Q.
Proof.
  induction p as [|x p IH]; simpl; [lra|].
  destruct p as [|y p]; simpl in *; [lra|].
  rewrite IH. lra.
Qed.

Lemma walk_cost_app_le p u q :
  (walk_cost E w (p ++ [u]) <= walk_cost E w (p ++ u :: q))%Q.
Proof.
  induction p as [|x p IH]; simpl.
  - pose proof (walk_cost_nonneg (u :: q)). simpl in *. lra.
  - destruct p as [|y p]; simpl in *.
    + destruct q; simpl in *; [lra|].
      pose proof (walk_cost_nonneg (u :: s :: q)). simpl in *.
      destruct (E x u) eqn:He; [apply Hnn in He|]; lra.
    + lra.
Qed.

(** A walk that starts inside a set and ends outside leaves it along
    some edge. *)
Lemma walk_first_exit (S : string -> Prop) (HS : forall x, Decision (S x)) p a b :
  is_path E a b p -> S a -> ~ S b ->
  exists p1 u y p2, p = p1 ++ u :: y :: p2 /\ S u /\ ~ S y /\ is_Some (E u y) /\
    is_path E a u (p1 ++ [u]).
Proof.
  intros (Hw & Hh & Hl). revert a Hh Hw Hl.
  induction p as [|x p IH]; intros a Hh Hw Hl Ha Hb; [done|].
  simpl in Hh. injection Hh as ->.
  destruct p as [|y p].
  - simpl in Hl. congruence.
  - simpl in Hw. destruct Hw as [Hxy Hw].
    destruct (decide (S y)) as [Hy|Hy].
    + destruct (IH y eq_refl Hw) as (p1 & u & z & p2 & -> & Hu & Hz & Huz & Hp1); auto.
      exists (a :: p1), u, z, p2. split; [done|]. do 3 (split; [done|]).
      destruct Hp1 as (Hw1 & Hh1 & _). split; [|split; [done|]].
      * simpl. destruct (p1 ++ [u]) as [|h r] eqn:E1; [by destruct p1|].
        simpl in Hh1. injection Hh1 as ->. done.
      * apply (last_snoc u (a :: p1)).
    + exists [], a, y, p. repeat split; auto.
Qed.

Lemma is_path_snoc s x v d p :
  is_path E s x p -> E x v = Some d ->
  is_path E s v (p ++ [v]) /\ (walk_cost E w (p ++ [v]) == walk_cost E w p + w x v d)%Q.
Proof.
  intros (Hw & Hh & Hl) He.
  apply last_Some in Hl as [p0 ->].
  rewrite <- app_assoc. simpl. split; [split; [|split]|].
  - apply is_walk_snoc; eauto.
  - destruct p0; simpl in *; done.
  - replace (p0 ++ [x; v]) with ((p0 ++ [x]) ++ [v]) by (by rewrite <- app_assoc).
    apply last_snoc.
  - rewrite walk_cost_snoc, He. lra.
Qed.

Lemma is_path_single s : is_path E s s [s].
Proof. done. Qed.

End Walks.

Lemma unsettled_mono {A} adj (m : gmap string A) x a :
  (unsettled_sum adj (<[x := a]> m) <= unsettled_sum adj m)%nat.
Proof.
  induction adj as [|[u nb] adj IH]; simpl; [lia|].
  destruct (decide (x = u)) as [->|Hne].
  - rewrite lookup_insert_eq. destruct (m !! u); lia.
  - rewrite lookup_insert_ne by done. destruct (m !! u); lia.
Qed.

Lemma unsettled_insert {A} adj (m : gmap string A) x a nbrs :
  m !! x = None -> od_get x adj = Some nbrs ->
  (unsettled_sum adj (<[x := a]> m) + length nbrs <= unsettled_sum adj m)%nat.
Proof.
  intros Hx. induction adj as [|[u nb] adj IH]; simpl; [done|].
  destruct (String.eqb_spec x u) as [->|Hne].
  - intros [= ->]. rewrite lookup_insert_eq, Hx.
    pose proof (unsettled_mono adj m u a). lia.
  - intros Hg. specialize (IH Hg). rewrite lookup_insert_ne by done.
    destruct (m !! u); lia.
Qed.

Lemma unsettled_empty {A} adj :
  unsettled_sum adj (∅ : gmap string A) = foldr (fun '(_, nbrs) n => (length nbrs + n)%nat) 0%nat adj.
Proof.
  induction adj as [|[u nb] adj IH]; simpl; [done|].
  rewrite lookup_empty. by rewrite <- IH.
Qed.

Section AStar.
Context (G : Graph EdgeData) (w : WeightFn) (heur : string -> string -> Q) (s t : string).
Context (Hwf : graph_wf G) (Hnn : nonneg (get_edge_data G) w).
Context (Hh : forall u v, (heur u v == 0)%Q).

Local Notation E := (get_edge_data G) (only parsing).
Local Notation Inv := (astar_inv G w s t) (only parsing).

Lemma tree_mono ex ex' u p : tree s ex u p -> ex ⊆ ex' -> tree s ex' u p.
Proof.
  intros Ht Hsub. induction Ht as [Hs|u v p Hv _ IH].
  - apply tree_root. eapply lookup_weaken; eauto.
  - eapply tree_step; [|done]. eapply lookup_weaken; eauto.
Qed.

Lemma astar_rebuild_None fuel ex acc : astar_rebuild fuel ex None acc = Ok (reverse acc).
Proof. by destruct fuel. Qed.

Lemma astar_rebuild_tree ex u p fuel acc :
  tree s ex u p -> (length p <= fuel)%nat ->
  astar_rebuild fuel ex (Some u) acc = Ok (p ++ reverse acc).
Proof.
  intros Ht. revert fuel acc. induction Ht as [Hs|u v p Hv _ IH]; intros fuel acc Hlen.
  - destruct fuel as [|fuel]; simpl in *; [lia|]. rewrite Hs.
    rewrite astar_rebuild_None. by rewrite reverse_app.
  - rewrite length_app in Hlen. simpl in Hlen.
    destruct fuel as [|fuel]; simpl in *; [lia|]. rewrite Hv.
    rewrite IH by lia. rewrite reverse_app. simpl. by rewrite <- app_assoc.
Qed.

Lemma adist_src st : adist s st s = 0%Q.
Proof. unfold adist. by rewrite decide_True. Qed.

Lemma adist_same st st' u :
  (u <> s -> enqueued st' !! u = enqueued st !! u) -> adist s st' u = adist s st u.
Proof.
  intros H. unfold adist. destruct (decide (u = s)); [done|]. by rewrite H.
Qed.

(** A path to a node that is not settled crosses the frontier: some
    queue entry costs no more than the path. *)
Lemma frontier_entry st x q :
  Inv "" [] st -> explored st !! x = None -> is_path E s x q ->
  exists e', e' ∈ queue st /\ (a_dist e' <= walk_cost E w q)%Q.
Proof.
  intros HI Hx Hq.
  destruct (walk_first_exit E (fun v => is_Some (explored st !! v)) _ q s x Hq)
    as (p1 & u & y & p2 & -> & Hu & Hy & [d Huy] & Hp1).
  { rewrite (ai_src _ _ _ _ _ _ _ HI). eauto. }
  { rewrite Hx. by intros [? ?]. }
  destruct (ai_tree _ _ _ _ _ _ _ HI u Hu) as (_ & _ & _ & _ & _ & Hopt).
  specialize (Hopt _ Hp1).
  destruct (ai_relaxed _ _ _ _ _ _ _ HI u y d Hu Huy) as [->|(qc & hh & Hqc & Hle)].
  { intros [_ H]. by apply elem_of_nil in H. }
  { exfalso. apply Hy. rewrite (ai_src _ _ _ _ _ _ _ HI). eauto. }
  destruct (ai_enq _ _ _ _ _ _ _ HI y qc hh Hqc) as [_ He'].
  destruct He' as (e' & He' & Hny & Hde').
  { destruct (explored st !! y) eqn:Ey; [|done]. exfalso. apply Hy. eauto. }
  exists e'. split; [done|].
  pose proof (walk_cost_app_le E w Hnn (p1 ++ [u]) y p2) as Hle2.
  rewrite <- !app_assoc in Hle2. simpl in Hle2.
  pose proof (walk_cost_snoc E w p1 u y) as Hsn. rewrite Huy in Hsn.
  lra.
Qed.

(** The entry popped for a node that is not settled carries the least
    cost of any path to that node. *)
Lemma popped_min st e rest q :
  Inv "" [] st -> heappop a_key (queue st) = Some (e, rest) ->
  explored st !! a_node e = None ->
  is_path E s (a_node e) q ->
  (a_dist e <= walk_cost E w q)%Q.
Proof.
  intros HI Hpop Hx Hq.
  destruct (frontier_entry st _ q HI Hx Hq) as (e' & He' & Hle).
  pose proof (heappop_min a_key _ _ _ Hpop e' He') as Hmin. simpl in Hmin.
  assert (He : e ∈ queue st).
  { rewrite (heappop_perm _ _ _ _ Hpop). left. }
  destruct (ai_entry _ _ _ _ _ _ _ HI e He) as [Hpe _].
  destruct (ai_entry _ _ _ _ _ _ _ HI e' He') as [Hpe' _].
  lra.
Qed.

Local Arguments astar_relax : simpl never.

Lemma astar_relax_cases x dist st v d :
  astar_relax heur w t x dist st (v, d) =
  match enqueued st !! v with
  | Some (qc, hh) =>
      if Qle_bool qc (dist + w x v d) then st else astar_push st x v (dist + w x v d) hh
  | None => astar_push st x v (dist + w x v d) (heur v t)
  end.
Proof. reflexivity. Qed.

Lemma explored_not_target x todo st u v d ncost :
  Inv x todo st -> is_Some (explored st !! u) -> E u v = Some d ->
  (ncost == adist s st u + w u v d)%Q ->
  (forall qc h', enqueued st !! v = Some (qc, h') -> (ncost < qc)%Q) ->
  v = s \/ explored st !! v = None.
Proof.
  intros HI Hu He Hn Hlt.
  destruct (decide (v = s)) as [|Hvs]; [by left|right].
  destruct (explored st !! v) as [pv|] eqn:Ev; [exfalso|done].
  destruct (ai_expl_enq _ _ _ _ _ _ _ HI v) as [[qc h'] Hq]; [by rewrite Ev|done|].
  specialize (Hlt _ _ Hq).
  destruct (ai_tree _ _ _ _ _ _ _ HI v) as (_ & _ & _ & _ & _ & Hopt); [by rewrite Ev|].
  destruct (ai_tree _ _ _ _ _ _ _ HI u Hu) as (p & _ & _ & Hp & Hc & _).
  destruct (is_path_snoc E w s u v d p Hp He) as [Hp' Hc'].
  specialize (Hopt _ Hp').
  unfold adist in Hopt at 1. rewrite decide_False, Hq in Hopt by done. lra.
Qed.

Lemma adist_push st x v ncost hh u :
  u <> v \/ u = s -> adist s (astar_push st x v ncost hh) u = adist s st u.
Proof.
  intros H. apply adist_same. intros Hus. simpl.
  apply lookup_insert_ne. intros ->. destruct H; done.
Qed.

Lemma push_inv x v d todo st ncost hh :
  Inv x ((v, d) :: todo) st -> E x v = Some d -> is_Some (explored st !! x) ->
  (ncost == adist s st x + w x v d)%Q -> (hh == 0)%Q ->
  (forall qc h', enqueued st !! v = Some (qc, h') -> (ncost < qc)%Q) ->
  Inv x todo (astar_push st x v ncost hh).
Proof.
  intros HI He Hx Hn Hhh Hlt.
  pose proof (explored_not_target _ _ _ _ _ _ _ HI Hx He Hn Hlt) as Hv.
  assert (Had : forall u, is_Some (explored st !! u) ->
                 adist s (astar_push st x v ncost hh) u = adist s st u).
  { intros u Hu. apply adist_push. destruct (decide (u = v)) as [->|]; [|by left].
    destruct Hv as [->|Hv]; [by right|]. rewrite Hv in Hu. by destruct Hu. }
  set (enew := {| a_prio := (ncost + hh)%Q; a_cnt := counter st; a_node := v;
                  a_dist := ncost; a_parent := Some x |}).
  assert (Hold : forall e, e ∈ queue st -> a_node e = v ->
                 exists qc h', enqueued st !! v = Some (qc, h') /\ (qc <= a_dist e)%Q).
  { intros e Hin Hnode.
    destruct (ai_entry _ _ _ _ _ _ _ HI e Hin) as (_ & _ & u & d' & qc & h' & _ & _ & _ & _ & Hq & Hle & _).
    rewrite Hnode in Hq. eauto. }
  split; simpl.
  - apply (ai_src _ _ _ _ _ _ _ HI).
  - apply (ai_root _ _ _ _ _ _ _ HI).
  - apply (ai_target _ _ _ _ _ _ _ HI).
  - intros u Hu Hus. destruct (decide (u = v)) as [->|Hne].
    + rewrite lookup_insert_eq. eauto.
    + rewrite lookup_insert_ne by done. by apply (ai_expl_enq _ _ _ _ _ _ _ HI).
  - apply list.NoDup_cons. split.
    + intros (e & Hc & Hin)%list_elem_of_fmap.
      pose proof (ai_cnt_lt _ _ _ _ _ _ _ HI e Hin). simpl in Hc. lia.
    + apply (ai_cnt _ _ _ _ _ _ _ HI).
  - intros e [->|Hin]%elem_of_cons; simpl; [lia|].
    pose proof (ai_cnt_lt _ _ _ _ _ _ _ HI e Hin). lia.
  - intros e [->|Hin]%elem_of_cons.
    + simpl. split; [lra|]. split; [by apply (wf_closed G Hwf x v d)|].
      exists x, d, ncost, hh. rewrite lookup_insert_eq. rewrite (Had x Hx).
      repeat split; auto; try lra.
      intros Hvs Hex. destruct Hv as [->|Hv]; [done|]. rewrite Hv in Hex. by destruct Hex.
    + destruct (ai_entry _ _ _ _ _ _ _ HI e Hin)
        as (Hp & HG & u & d' & qc & h' & Hpar & Hu & Hed & Hd & Hq & Hle & Hst).
      split; [done|]. split; [done|].
      destruct (decide (a_node e = v)) as [Hnv|Hnv].
      * exists u, d', ncost, hh. rewrite Hnv, lookup_insert_eq, (Had u Hu).
        rewrite Hnv in Hed, Hd, Hq. specialize (Hlt _ _ Hq).
        repeat split; auto; try lra.
      * exists u, d', qc, h'. rewrite lookup_insert_ne by done. rewrite (Had u Hu).
        repeat split; auto.
  - intros e1 e2 qc h' Hin1 Hin2 Hn12 Hq Hle1 Hle2.
    assert (Hkey : forall e, e ∈ queue st -> a_node e = v -> (ncost < a_dist e)%Q).
    { intros e Hin Hnode. destruct (Hold e Hin Hnode) as (qc1 & h1 & Hq1 & Hle).
      specialize (Hlt _ _ Hq1). lra. }
    apply elem_of_cons in Hin1 as [->|Hin1]; apply elem_of_cons in Hin2 as [->|Hin2];
      [done|..].
    + exfalso. simpl in Hn12, Hq, Hle1. rewrite lookup_insert_eq in Hq.
      injection Hq as <- <-. specialize (Hkey e2 Hin2 (eq_sym Hn12)). lra.
    + exfalso. simpl in Hn12, Hle2. rewrite Hn12, lookup_insert_eq in Hq.
      injection Hq as <- <-. specialize (Hkey e1 Hin1 Hn12). lra.
    + destruct (decide (a_node e1 = v)) as [Hnv|Hnv].
      * exfalso. rewrite Hnv, lookup_insert_eq in Hq. injection Hq as <- <-.
        specialize (Hkey e1 Hin1 Hnv). lra.
      * rewrite lookup_insert_ne in Hq by done.
        eapply (ai_uniq _ _ _ _ _ _ _ HI); eauto.
  - intros v' qc h'. destruct (decide (v' = v)) as [->|Hne].
    + rewrite lookup_insert_eq. intros [= <- <-]. split; [done|].
      intros _. exists enew. split; [left|]. simpl. split; [done|lra].
    + rewrite lookup_insert_ne by done. intros Hq.
      destruct (ai_enq _ _ _ _ _ _ _ HI v' qc h' Hq) as [H0 Hex]. split; [done|].
      intros Hun. destruct (Hex Hun) as (e & Hin & ? & ?). exists e. split; [by right|done].
  - intros u v' d' Hu Hed Hnot. rewrite (Had u Hu).
    destruct (decide (v' = v)) as [->|Hne].
    + destruct (decide (v = s)) as [|Hvs]; [by left|right].
      exists ncost, hh. rewrite lookup_insert_eq. split; [done|].
      destruct (decide (u = x)) as [->|Hnx].
      { assert (d' = d) as -> by congruence. lra. }
      destruct (ai_relaxed _ _ _ _ _ _ _ HI u v d' Hu Hed) as [?|(qc & h' & Hq & Hle)]; [|done|].
      { by intros [-> _]. }
      specialize (Hlt _ _ Hq). lra.
    + rewrite lookup_insert_ne by done. apply (ai_relaxed _ _ _ _ _ _ _ HI u v' d' Hu Hed).
      intros [-> [[= -> ->]|Hin]%elem_of_cons]; [done|by apply Hnot].
  - intros u Hu. rewrite (Had u Hu). apply (ai_tree _ _ _ _ _ _ _ HI u Hu).
Qed.

Lemma inv_nil_any x y st : Inv x [] st -> Inv y [] st.
Proof.
  intros HI. destruct HI. split; auto.
  intros u v d Hu He _. apply ai_relaxed0; auto. by intros [_ ?%elem_of_nil].
Qed.

Lemma inv_todo_step x v d todo st :
  Inv x ((v, d) :: todo) st -> E x v = Some d ->
  (v = s \/ exists qc hh, enqueued st !! v = Some (qc, hh) /\
                           (qc <= adist s st x + w x v d)%Q) ->
  Inv x todo st.
Proof.
  intros HI He Hrel. destruct HI. split; auto.
  intros u v' d' Hu Hed Hnot.
  destruct (decide (u = x /\ v' = v)) as [[-> ->]|Hne].
  - assert (d' = d) as -> by congruence. done.
  - apply ai_relaxed0; auto.
    intros [-> [[= -> ->]|Hin]%elem_of_cons]; [by apply Hne|by apply Hnot].
Qed.

Lemma relax_step x v d todo st dist :
  Inv x ((v, d) :: todo) st -> E x v = Some d -> is_Some (explored st !! x) ->
  (dist == adist s st x)%Q ->
  let st' := astar_relax heur w t x dist st (v, d) in
  Inv x todo st' /\ explored st' = explored st /\
  (length (queue st') <= S (length (queue st)))%nat /\
  (forall u, is_Some (explored st !! u) -> adist s st' u = adist s st u).
Proof.
  intros HI He Hx Hd. rewrite astar_relax_cases.
  assert (Hpush : forall hh, (hh == 0)%Q ->
            (forall qc h', enqueued st !! v = Some (qc, h') -> (dist + w x v d < qc)%Q) ->
            let st' := astar_push st x v (dist + w x v d) hh in
            Inv x todo st' /\ explored st' = explored st /\
            (length (queue st') <= S (length (queue st)))%nat /\
            (forall u, is_Some (explored st !! u) -> adist s st' u = adist s st u)).
  { intros hh Hhh Hlt. split; [|split; [done|split; [simpl; lia|]]].
    - eapply push_inv; eauto. lra.
    - intros u Hu. apply adist_push.
      destruct (decide (u = v)) as [->|]; [|by left].
      destruct (explored_not_target _ _ _ _ _ _ (dist + w x v d)%Q HI Hx He) as [->|Hv];
        [lra|done|by right|].
      rewrite Hv in Hu. by destruct Hu. }
  destruct (enqueued st !! v) as [[qc hh]|] eqn:Hq.
  - destruct (Qle_bool qc (dist + w x v d)) eqn:Hle.
    + apply Qle_bool_iff in Hle. split; [|by auto].
      eapply inv_todo_step; eauto. right. exists qc, hh. split; [done|lra].
    + apply Hpush.
      * by destruct (ai_enq _ _ _ _ _ _ _ HI v qc hh Hq).
      * intros qc' h' [= <- <-]. apply Qltb_lt. unfold Qltb. by rewrite Hle.
  - apply Hpush; [apply Hh|]. intros ? ? [=].
Qed.

Lemma relax_fold x todo st dist :
  Inv x todo st -> Forall (fun '(v, d) => E x v = Some d) todo ->
  is_Some (explored st !! x) -> (dist == adist s st x)%Q ->
  let st' := foldl (astar_relax heur w t x dist) st todo in
  Inv x [] st' /\ explored st' = explored st /\
  (length (queue st') <= length todo + length (queue st))%nat.
Proof.
  revert st. induction todo as [|[v d] todo IH]; intros st HI Hall Hx Hd; simpl.
  - split; [done|]. split; [done|lia].
  - apply list.Forall_cons in Hall as [He Hall].
    destruct (relax_step x v d todo st dist HI He Hx Hd) as (HI' & Hex & Hlen & Had).
    destruct (IH _ HI' Hall) as (HI'' & Hex' & Hlen').
    + by rewrite Hex.
    + by rewrite (Had x Hx).
    + cbv zeta in *. split; [done|]. split; [by etrans|lia].
Qed.

Lemma unexplored_adj_insert ex x po nbrs :
  ex !! x = None -> od_get x (_adj G) = Some nbrs ->
  (unexplored_adj G (<[x := po]> ex) + length nbrs <= unexplored_adj G ex)%nat.
Proof. apply unsettled_insert. Qed.

Lemma pop_rest_elem (q : list AEntry) e rest e' :
  heappop a_key q = Some (e, rest) -> NoDup (a_cnt <$> q) ->
  e' ∈ q -> e' <> e -> e' ∈ rest.
Proof.
  intros Hpop _ Hin Hne. rewrite (heappop_perm _ _ _ _ Hpop) in Hin.
  apply elem_of_cons in Hin as [|]; done.
Qed.

Lemma pop_rest_fresh (q : list AEntry) e rest :
  heappop a_key q = Some (e, rest) -> NoDup (a_cnt <$> q) -> e ∉ rest.
Proof.
  intros Hpop Hnd Hin. rewrite (heappop_perm _ _ _ _ Hpop), fmap_cons in Hnd.
  apply list.NoDup_cons in Hnd as [Hc _]. apply Hc. apply list_elem_of_fmap. eauto.
Qed.

Lemma inv_drop st e rest :
  Inv "" [] st -> heappop a_key (queue st) = Some (e, rest) ->
  is_Some (explored st !! a_node e) ->
  Inv "" [] {| queue := rest; enqueued := enqueued st; explored := explored st;
               counter := counter st |}.
Proof.
  intros HI Hpop Hex.
  assert (Hsub : forall e', e' ∈ rest -> e' ∈ queue st).
  { intros e' Hin. rewrite (heappop_perm _ _ _ _ Hpop). by right. }
  pose proof (ai_cnt _ _ _ _ _ _ _ HI) as Hnd.
  split; simpl; try apply HI.
  - rewrite (heappop_perm _ _ _ _ Hpop), fmap_cons in Hnd.
    by apply list.NoDup_cons in Hnd as [_ ?].
  - intros e' Hin. apply (ai_cnt_lt _ _ _ _ _ _ _ HI). auto.
  - intros e' Hin. apply (ai_entry _ _ _ _ _ _ _ HI e'). auto.
  - intros e1 e2 qc hh H1 H2. apply (ai_uniq _ _ _ _ _ _ _ HI); auto.
  - intros v qc hh Hq. destruct (ai_enq _ _ _ _ _ _ _ HI v qc hh Hq) as [H0 Hx].
    split; [done|]. intros Hun. destruct (Hx Hun) as (e' & Hin & Hn & Hle).
    exists e'. split; [|done]. eapply pop_rest_elem; eauto.
    intros ->. rewrite Hn, Hun in Hex. by destruct Hex.
Qed.

Lemma inv_explore st e rest nbrs :
  Inv "" [] st -> heappop a_key (queue st) = Some (e, rest) ->
  explored st !! a_node e = None -> a_node e <> t ->
  od_get (a_node e) (_adj G) = Some nbrs ->
  let st2 := {| queue := rest; enqueued := enqueued st;
                explored := <[a_node e := a_parent e]> (explored st);
                counter := counter st |} in
  Inv (a_node e) nbrs st2 /\ (a_dist e == adist s st2 (a_node e))%Q.
Proof.
  intros HI Hpop Hun Hnt Hnb st2.
  assert (Hsub : forall e', e' ∈ rest -> e' ∈ queue st).
  { intros e' Hin. rewrite (heappop_perm _ _ _ _ Hpop). by right. }
  assert (He : e ∈ queue st).
  { rewrite (heappop_perm _ _ _ _ Hpop). left. }
  pose proof (ai_cnt _ _ _ _ _ _ _ HI) as Hnd.
  destruct (ai_entry _ _ _ _ _ _ _ HI e He)
    as (Hpe & HGe & u & d & qc & hh & Hpar & Hu & Hed & Hde & Hq & Hle & _).
  assert (Hxs : a_node e <> s).
  { intros Hs. rewrite Hs, (ai_src _ _ _ _ _ _ _ HI) in Hun. done. }
  assert (Hqd : (a_dist e == qc)%Q).
  { destruct (ai_enq _ _ _ _ _ _ _ HI _ qc hh Hq) as [_ Hx].
    destruct (Hx Hun) as (e' & Hin' & Hn' & Hle').
    pose proof (heappop_min a_key _ _ _ Hpop e' Hin') as Hmin. simpl in Hmin.
    destruct (ai_entry _ _ _ _ _ _ _ HI e' Hin') as [Hpe' _]. lra. }
  assert (Had : forall v, adist s st2 v = adist s st v) by done.
  assert (Hexm : explored st ⊆ explored st2).
  { simpl. by apply insert_subseteq. }
  assert (Hsome : forall v, is_Some (explored st !! v) -> is_Some (explored st2 !! v)).
  { intros v [pv Hv]. exists pv. eapply lookup_weaken; eauto. }
  assert (Hadx : (a_dist e == adist s st2 (a_node e))%Q).
  { rewrite Had. unfold adist. rewrite decide_False, Hq by done. done. }
  split; [|done].
  split.
  - simpl. rewrite lookup_insert_ne by done. apply HI.
  - simpl. intros v. destruct (decide (v = a_node e)) as [->|Hne].
    + rewrite lookup_insert_eq, Hpar. done.
    + rewrite lookup_insert_ne by done. apply HI.
  - simpl. rewrite lookup_insert_ne by done. apply HI.
  - intros v Hv Hvs. simpl. destruct (decide (v = a_node e)) as [->|Hne]; [eauto|].
    simpl in Hv. rewrite lookup_insert_ne in Hv by done.
    by apply (ai_expl_enq _ _ _ _ _ _ _ HI).
  - simpl. rewrite (heappop_perm _ _ _ _ Hpop), fmap_cons in Hnd.
    by apply list.NoDup_cons in Hnd as [_ ?].
  - intros e' Hin. apply (ai_cnt_lt _ _ _ _ _ _ _ HI). auto.
  - intros e' Hin. simpl in Hin.
    destruct (ai_entry _ _ _ _ _ _ _ HI e' (Hsub _ Hin))
      as (Hpe' & HGe' & u' & d' & qc' & hh' & Hpar' & Hu' & Hed' & Hde' & Hq' & Hle' & Hst').
    split; [done|]. split; [done|].
    exists u', d', qc', hh'. rewrite Had. repeat split; auto.
    intros Hns Hex'. simpl in Hex'.
    destruct (decide (a_node e' = a_node e)) as [Heq|Hne].
    + rewrite Heq, Hq in Hq'. injection Hq' as <- <-.
      destruct (Qlt_le_dec qc (a_dist e')) as [|Hge]; [done|exfalso].
      assert (e' = e).
      { eapply (ai_uniq _ _ _ _ _ _ _ HI e' e qc hh); eauto; [by rewrite Heq|lra]. }
      subst e'. by apply (pop_rest_fresh _ _ _ Hpop Hnd).
    + rewrite lookup_insert_ne in Hex' by done. auto.
  - intros e1 e2 qc' hh' H1 H2. apply (ai_uniq _ _ _ _ _ _ _ HI); auto.
  - intros v qc' hh' Hq'. simpl in Hq'.
    destruct (ai_enq _ _ _ _ _ _ _ HI v qc' hh' Hq') as [H0 Hx].
    split; [done|]. simpl. intros Hunv.
    destruct (decide (v = a_node e)) as [->|Hne].
    { by rewrite lookup_insert_eq in Hunv. }
    rewrite lookup_insert_ne in Hunv by done.
    destruct (Hx Hunv) as (e' & Hin & Hn & Hle'').
    exists e'. split; [|done]. eapply pop_rest_elem; eauto. intros ->. done.
  - intros u' v d' Hu' Hed' Hnot. rewrite Had.
    simpl in Hu'. destruct (decide (u' = a_node e)) as [->|Hne].
    + exfalso. apply Hnot. split; [done|].
      unfold get_edge_data in Hed'. rewrite Hnb in Hed'. by apply od_get_elem.
    + rewrite lookup_insert_ne in Hu' by done.
      apply (ai_relaxed _ _ _ _ _ _ _ HI u' v d' Hu' Hed'). by intros [_ ?%elem_of_nil].
  - intros v Hv. rewrite Had. simpl in Hv.
    assert (Hsz : size (explored st2) = S (size (explored st))).
    { simpl. by apply map_size_insert_None. }
    destruct (decide (v = a_node e)) as [->|Hne].
    + destruct (ai_tree _ _ _ _ _ _ _ HI u Hu) as (p & Ht & Hlen & Hp & Hc & _).
      destruct (is_path_snoc E w s u (a_node e) d p Hp Hed) as [Hp' Hc'].
      exists (p ++ [a_node e]). split; [|split; [|split; [|split]]].
      * eapply tree_step; [|eapply tree_mono; eauto].
        simpl. by rewrite lookup_insert_eq, Hpar.
      * rewrite length_app, Hsz. simpl. lia.
      * done.
      * rewrite Hc'. rewrite <- Had, <- Hadx. lra.
      * intros q Hq'. rewrite <- Had, <- Hadx.
        eapply popped_min; eauto.
    + rewrite lookup_insert_ne in Hv by done.
      destruct (ai_tree _ _ _ _ _ _ _ HI v Hv) as (p & Ht & Hlen & Hp & Hc & Hopt).
      exists p. split; [eapply tree_mono; eauto|]. split; [lia|]. done.
Qed.

Lemma inv_init nbrs :
  s <> t -> od_get s (_adj G) = Some nbrs ->
  Inv s nbrs {| queue := []; enqueued := ∅; explored := <[s := None]> ∅; counter := 1 |}.
Proof.
  intros Hst Hnb. split; simpl.
  - by rewrite lookup_insert_eq.
  - intros u. destruct (decide (u = s)) as [->|Hne]; [done|].
    by rewrite lookup_insert_ne, lookup_empty.
  - by rewrite lookup_insert_ne, lookup_empty.
  - intros u [po Hu] Hus. by rewrite lookup_insert_ne, lookup_empty in Hu.
  - constructor.
  - by intros e ?%elem_of_nil.
  - by intros e ?%elem_of_nil.
  - by intros e1 e2 ? ? ?%elem_of_nil.
  - intros v qc hh. by rewrite lookup_empty.
  - intros u v d [po Hu] He Hnot. exfalso. apply Hnot.
    destruct (decide (u = s)) as [->|Hne].
    + split; [done|]. unfold get_edge_data in He. rewrite Hnb in He. by apply od_get_elem.
    + by rewrite lookup_insert_ne, lookup_empty in Hu.
  - intros u [po Hu]. destruct (decide (u = s)) as [->|Hne].
    + exists [s]. split; [apply tree_root; by rewrite lookup_insert_eq|].
      split; [rewrite map_size_insert_None by apply lookup_empty; simpl; lia|].
      split; [done|]. rewrite adist_src. split; [simpl; lra|].
      intros q _. by apply walk_cost_nonneg.
    + by rewrite lookup_insert_ne, lookup_empty in Hu.
Qed.

Local Arguments astar_loop : simpl never.

Lemma astar_loop_unfold fuel st :
  astar_loop (S fuel) G heur w t st =
  match heappop a_key (queue st) with
  | None => Raise NetworkXNoPath
  | Some (e, queue') =>
      let st1 := {| queue := queue'; enqueued := enqueued st;
                    explored := explored st; counter := counter st |} in
      if String.eqb (a_node e) t
      then astar_rebuild (S (size (explored st))) (explored st) (a_parent e) [a_node e]
      else
        skip ← match explored st !! a_node e with
               | Some None => Ok true
               | Some (Some _) =>
                   match enqueued st !! a_node e with
                   | Some (qcost, h) => Ok (Qltb qcost (a_dist e))
                   | None => Raise KeyError
                   end
               | None => Ok false
               end;
        if (skip : bool) then astar_loop fuel G heur w t st1
        else
          match neighbors G (a_node e) with
          | None => Raise KeyError
          | Some nbrs =>
              astar_loop fuel G heur w t
                (foldl (astar_relax heur w t (a_node e) (a_dist e))
                   {| queue := queue'; enqueued := enqueued st;
                      explored := <[a_node e := a_parent e]> (explored st);
                      counter := counter st |} nbrs)
          end
  end.
Proof. reflexivity. Qed.

Lemma nbrs_edges x nbrs :
  od_get x (_adj G) = Some nbrs -> Forall (fun '(v, d) => E x v = Some d) nbrs.
Proof.
  intros Hnb. apply Forall_forall. intros [v d] Hin%list_elem_of_In.
  unfold get_edge_data. rewrite Hnb. apply od_get_NoDup; [|done].
  by apply (wf_nbr_keys G Hwf x).
Qed.

Lemma astar_loop_ok fuel st :
  Inv "" [] st ->
  (length (queue st) + unexplored_adj G (explored st) < fuel)%nat ->
  (exists q, is_path E s t q) ->
  exists p, astar_loop fuel G heur w t st = Ok p /\ is_path E s t p /\
    forall q, is_path E s t q -> (walk_cost E w p <= walk_cost E w q)%Q.
Proof.
  revert st. induction fuel as [|fuel IH]; intros st HI Hfuel Hreach; [lia|].
  rewrite astar_loop_unfold.
  destruct (heappop a_key (queue st)) as [[e rest]|] eqn:Hpop.
  2:{ exfalso. apply heappop_None in Hpop. destruct Hreach as [q Hq].
      destruct (frontier_entry st t q HI (ai_target _ _ _ _ _ _ _ HI) Hq) as (e' & He' & _).
      rewrite Hpop in He'. by apply elem_of_nil in He'. }
  assert (He : e ∈ queue st).
  { rewrite (heappop_perm _ _ _ _ Hpop). left. }
  assert (Hlen : length (queue st) = S (length rest)).
  { by rewrite (heappop_perm _ _ _ _ Hpop). }
  destruct (ai_entry _ _ _ _ _ _ _ HI e He)
    as (Hpe & [nbrs HGe] & u & d & qc & hh & Hpar & Hu & Hed & Hde & Hq & Hle & Hstr).
  cbv zeta.
  destruct (String.eqb_spec (a_node e) t) as [Hnt|Hnt].
  - destruct (ai_tree _ _ _ _ _ _ _ HI u Hu) as (p & Ht & Hplen & Hp & Hc & _).
    rewrite Hpar, (astar_rebuild_tree _ _ _ _ _ Ht) by lia.
    assert (Hmin : forall q, is_path E s t q -> (a_dist e <= walk_cost E w q)%Q).
    { intros q Hq'. eapply (popped_min st e rest q HI Hpop).
      - rewrite Hnt. apply HI.
      - by rewrite Hnt. }
    rewrite Hnt in Hed, Hde |- *.
    destruct (is_path_snoc E w s u t d p Hp Hed) as [Hp' Hc'].
    exists (p ++ [t]). split; [done|]. split; [done|].
    intros q Hq'. rewrite Hc', Hc, <- Hde. by apply Hmin.
  - destruct (explored st !! a_node e) as [[pp|]|] eqn:Hex; simpl.
    + rewrite Hq. simpl.
      assert (Hlt : Qltb qc (a_dist e) = true).
      { apply Qltb_lt. apply Hstr; [|eauto].
        intros Hs. rewrite Hs, (ai_src _ _ _ _ _ _ _ HI) in Hex. done. }
      rewrite Hlt. apply IH; [|simpl; lia|done].
      eapply inv_drop; eauto.
    + apply IH; [|simpl; lia|done].
      eapply inv_drop; eauto.
    + unfold neighbors. rewrite HGe.
      destruct (inv_explore st e rest nbrs HI Hpop Hex Hnt HGe) as [HI2 Hd2].
      cbv zeta in HI2, Hd2.
      match goal with |- context [foldl _ ?st2 nbrs] => set (st2' := st2) in * end.
      destruct (relax_fold (a_node e) nbrs st2' (a_dist e) HI2) as (HI3 & Hex3 & Hlen3).
      { by apply nbrs_edges. }
      { simpl. rewrite lookup_insert_eq. eauto. }
      { done. }
      cbv zeta in HI3, Hex3, Hlen3.
      apply IH; [by eapply inv_nil_any| |done].
      rewrite Hex3. simpl.
      pose proof (unexplored_adj_insert (explored st) (a_node e) (a_parent e) nbrs Hex HGe).
      simpl in Hlen3. lia.
Qed.

Lemma unexplored_adj_empty : unexplored_adj G ∅ = adj_size G.
Proof. apply unsettled_empty. Qed.

Lemma has_node_adj x : has_node G x = true -> is_Some (od_get x (_adj G)).
Proof.
  unfold has_node. rewrite (wf_nodes G Hwf). unfold od_mem.
  destruct (od_get x (_adj G)); [eauto|done].
Qed.

Lemma astar_path_ok :
  has_node G s = true -> has_node G t = true ->
  (exists q, is_path E s t q) ->
  exists p, astar_path G s t heur w = Ok p /\ is_path E s t p /\
    forall q, is_path E s t q -> (walk_cost E w p <= walk_cost E w q)%Q.
Proof.
  intros Hs Ht Hreach. unfold astar_path. rewrite Hs, Ht. simpl.
  replace (adj_size G + 2)%nat with (S (S (adj_size G))) by lia.
  rewrite astar_loop_unfold. simpl.
  destruct (String.eqb_spec s t) as [<-|Hst].
  - exists [s]. split; [done|]. split; [done|]. intros q _. simpl.
    by apply walk_cost_nonneg.
  - rewrite lookup_empty. simpl.
    destruct (has_node_adj s Hs) as [nbrs Hnb]. unfold neighbors. rewrite Hnb.
    pose proof (inv_init nbrs Hst Hnb) as HI.
    match goal with |- context [foldl _ ?st2 nbrs] => set (st2' := st2) in * end.
    destruct (relax_fold s nbrs st2' 0%Q HI) as (HI3 & Hex3 & Hlen3).
    { by apply nbrs_edges. }
    { simpl. rewrite lookup_insert_eq. eauto. }
    { by rewrite adist_src. }
    cbv zeta in HI3, Hex3, Hlen3.
    apply astar_loop_ok; [by eapply inv_nil_any| |done].
    rewrite Hex3. simpl.
    pose proof (unexplored_adj_insert ∅ s None nbrs (lookup_empty _) Hnb).
    rewrite unexplored_adj_empty in *. simpl in Hlen3. lia.
Qed.

End AStar.

Lemma congestion_penalty_nonneg fm e : (0 <= congestion_penalty fm e)%Q.
Proof.
  unfold congestion_penalty. destruct (default ∅ fm !! e) as [f|]; [|lra].
  repeat case_match; lra.
Qed.

(** C1: on a well-formed graph, for nodes source and target of the graph
    joined by some path, the single-path search run with the zero
    heuristic under any non-negative edge cost returns a path from source
    to target whose total cost is at most that of every path between
    them; so do [astar_with_congestion] (under the penalized cost) and
    [astar_distance_only] (under the length) when lengths are
    non-negative. *)
Theorem astar_returns_minimum_cost_path (G : Graph EdgeData)
    (fm : option (gmap string ForecastRecord)) (source target : string) :
  graph_wf G ->
  has_node G source = true -> has_node G target = true ->
  (exists q, is_path (get_edge_data G) source target q) ->
  (forall w : WeightFn, nonneg (get_edge_data G) w ->
     exists p, astar_path G source target (fun _ _ => 0%Q) w = Ok p /\
       is_path (get_edge_data G) source target p /\
       forall q, is_path (get_edge_data G) source target q ->
         (walk_cost (get_edge_data G) w p <= walk_cost (get_edge_data G) w q)%Q) /\
  (nonneg (get_edge_data G) distance_cost ->
     (exists p, astar_with_congestion G fm source target = Ok p /\
        is_path (get_edge_data G) source target p /\
        forall q, is_path (get_edge_data G) source target q ->
          (walk_cost (get_edge_data G) (penalized_cost fm) p <=
           walk_cost (get_edge_data G) (penalized_cost fm) q)%Q) /\
     (exists p, astar_distance_only G source target = Ok p /\
        is_path (get_edge_data G) source target p /\
        forall q, is_path (get_edge_data G) source target q ->
          (walk_cost (get_edge_data G) distance_cost p <=
           walk_cost (get_edge_data G) distance_cost q)%Q)).
Proof.
  intros Hwf Hs Ht Hreach. split; [|intros Hlen; split].
  - intros w Hw. apply astar_path_ok; auto. intros; lra.
  - apply (astar_path_ok G (penalized_cost fm)); auto; [|intros; lra].
    intros u v d He. unfold penalized_cost. specialize (Hlen u v d He).
    unfold distance_cost in Hlen. pose proof (congestion_penalty_nonneg fm (eid d)). nra.
  - apply (astar_path_ok G distance_cost); auto. intros; lra.
Qed.

(** More on walks: appending, reversing, splitting. *)
Section MoreWalks.
Context (E : string -> string -> option EdgeData) (w : WeightFn).
Context (Hnn : nonneg E w).

Lemma is_walk_cons u v r : is_walk E (u :: v :: r) <-> is_Some (E u v) /\ is_walk E (v :: r).
Proof. done. Qed.

Lemma walk_cost_cons u v r :
  walk_cost E w (u :: v :: r) =
  (match E u v with Some d => w u v d | None => 0 end + walk_cost E w (v :: r))%Q.
Proof. done. Qed.

Lemma is_walk_app p x q :
  is_walk E (p ++ [x]) -> is_walk E (x :: q) -> is_walk E (p ++ x :: q).
Proof.
  induction p as [|y p IH]; simpl; [done|].
  intros H Hq. destruct p as [|z p]; simpl in *.
  - destruct q; tauto.
  - split; [tauto|]. apply IH; tauto.
Qed.

Lemma walk_cost_app p x q :
  (walk_cost E w (p ++ x :: q) == walk_cost E w (p ++ [x]) + walk_cost E w (x :: q))%Q.
Proof.
  induction p as [|y p IH]; simpl.
  - destruct q; simpl; lra.
  - destruct p as [|z p]; simpl in *.
    + destruct q; simpl in *; lra.
    + rewrite IH. lra.
Qed.

Lemma is_walk_app_l p x q : is_walk E (p ++ x :: q) -> is_walk E (p ++ [x]).
Proof.
  induction p as [|y p IH]; simpl; [done|].
  destruct p as [|z p]; simpl in *.
  - destruct q; tauto.
  - intros [? ?]. split; [done|]. by apply IH.
Qed.

Lemma is_walk_app_r' p x q : is_walk E (p ++ x :: q) -> is_walk E (x :: q).
Proof. intros H. by apply (is_walk_app_r E p (x :: q)) in H. Qed.

Lemma is_path_app a b c p q :
  is_path E a b p -> is_path E b c q -> is_path E a c (p ++ tail q).
Proof.
  intros (Hp & Hhp & Hlp) (Hq & Hhq & Hlq).
  apply last_Some in Hlp as [p0 ->].
  destruct q as [|b' q]; [done|]. simpl in Hhq. injection Hhq as ->. simpl.
  rewrite <- app_assoc. simpl. split; [|split].
  - by apply is_walk_app.
  - destruct p0; simpl in *; done.
  - rewrite last_app. simpl in *. destruct (list.last (b :: q)) eqn:El; [done|].
    by destruct q.
Qed.

Lemma walk_cost_path_app a b c p q :
  is_path E a b p -> is_path E b c q ->
  (walk_cost E w (p ++ tail q) == walk_cost E w p + walk_cost E w q)%Q.
Proof.
  intros (Hp & Hhp & Hlp) (Hq & Hhq & Hlq).
  apply last_Some in Hlp as [p0 ->].
  destruct q as [|b' q]; [done|]. simpl in Hhq. injection Hhq as ->. simpl tail.
  rewrite <- app_assoc. simpl. apply walk_cost_app.
Qed.

(** Splitting a path at one of its nodes. *)
Lemma is_path_split a c p x q :
  is_path E a c (p ++ x :: q) ->
  is_path E a x (p ++ [x]) /\ is_path E x c (x :: q) /\
  (walk_cost E w (p ++ x :: q) == walk_cost E w (p ++ [x]) + walk_cost E w (x :: q))%Q.
Proof.
  intros (Hw & Hh & Hl). split; [|split].
  - split; [exact (is_walk_app_l p x q Hw)|]. split; [destruct p; exact Hh|apply last_snoc].
  - split; [exact (is_walk_app_r' p x q Hw)|]. split; [done|].
    by rewrite last_app_cons in Hl.
  - apply walk_cost_app.
Qed.

End MoreWalks.

Section SymWalks.
Context (E : string -> string -> option EdgeData) (w : WeightFn).
Context (Hsym : forall u v d, E u v = Some d -> E v u = Some d).
Context (Hw : forall u v d, w u v d = w v u d).

Lemma is_walk_reverse p : is_walk E p -> is_walk E (reverse p).
Proof.
  induction p as [|u p IH]; [done|].
  destruct p as [|v p]; [done|].
  intros [[d Hd] Hp]. specialize (IH Hp).
  rewrite reverse_cons. rewrite reverse_cons in IH |- *.
  rewrite <- app_assoc. simpl. apply is_walk_snoc; [done|]. eauto.
Qed.

Lemma walk_cost_reverse p : (walk_cost E w (reverse p) == walk_cost E w p)%Q.
Proof.
  induction p as [|u p IH]; [done|].
  destruct p as [|v p]; [done|].
  rewrite walk_cost_cons, <- IH.
  rewrite !reverse_cons, <- app_assoc. simpl.
  rewrite walk_cost_snoc.
  destruct (E u v) as [d|] eqn:Huv.
  - rewrite (Hsym _ _ _ Huv), (Hw v u d). lra.
  - destruct (E v u) as [d|] eqn:Hvu; [|lra].
    apply Hsym in Hvu. congruence.
Qed.

Lemma is_path_reverse a b p : is_path E a b p -> is_path E b a (reverse p).
Proof.
  intros (Hp & Hh & Hl). split; [by apply is_walk_reverse|]. split.
  - apply last_Some in Hl as [p0 ->]. by rewrite reverse_app.
  - destruct p as [|x p]; [done|]. simpl in Hh. injection Hh as ->.
    rewrite reverse_cons. apply last_snoc.
Qed.

End SymWalks.

Section Bidir.
Context (G : Graph EdgeData) (wn : string) (IN : gset string) (IE : gset (string * string)).
Context (s t : string).
Context (Hwf : graph_wf G).
Context (Hnn : nonneg (get_edge_data G) (attr_weight wn)).

Local Abbreviation W := (attr_weight wn).
Local Abbreviation FE := (fedge G IN IE).
Local Abbreviation SI := (side_inv G IN IE (attr_weight wn)).
Local Abbreviation MI := (meet_inv G IN IE (attr_weight wn) s t).

Lemma fedge_edge u v d : FE u v = Some d -> get_edge_data G u v = Some d.
Proof. unfold fedge. by case_decide. Qed.

Lemma fedge_sym u v d : FE u v = Some d -> FE v u = Some d.
Proof.
  unfold fedge. intros H.
  destruct (decide ((u ∉ IN) ∧ (v ∉ IN) ∧ ((u, v) ∉ IE) ∧ ((v, u) ∉ IE))) as [(?&?&?&?)|]; [|done].
  rewrite decide_True by done. by apply (wf_sym G Hwf).
Qed.

Lemma fedge_nodes u v d : FE u v = Some d -> (u ∉ IN) /\ (v ∉ IN).
Proof. unfold fedge. case_decide; [tauto|done]. Qed.

Lemma fedge_nonneg : nonneg FE W.
Proof. intros u v d H%fedge_edge. by apply (Hnn u v d). Qed.

Lemma W_sym u v d : W u v d = W v u d.
Proof. done. Qed.

Lemma filtered_neighbors_spec v nbrs :
  od_get v (_adj G) = Some nbrs -> v ∉ IN ->
  exists ws, filtered_neighbors G IN IE v = Some ws /\
    Forall (fun x => is_Some (FE v x)) ws /\
    (forall x d, FE v x = Some d -> x ∈ ws) /\
    (length ws <= length nbrs)%nat.
Proof.
  intros Hnb Hv. unfold filtered_neighbors, neighbors. rewrite Hnb.
  eexists. split; [done|]. split; [|split].
  - apply Forall_forall. intros x Hx%list_elem_of_In.
    apply list_elem_of_filter in Hx as [(Hx1 & Hx2 & Hx3) Hx].
    apply list_elem_of_fmap in Hx as ([x' d] & -> & Hin). simpl in *.
    exists d. unfold fedge. rewrite decide_True by done.
    unfold get_edge_data. rewrite Hnb. apply od_get_NoDup; [|done].
    by apply (wf_nbr_keys G Hwf v).
  - intros x d Hx. pose proof Hx as Hx'. unfold fedge in Hx.
    destruct (decide ((v ∉ IN) ∧ (x ∉ IN) ∧ ((v, x) ∉ IE) ∧ ((x, v) ∉ IE))) as [(?&?&?&?)|]; [|done].
    apply list_elem_of_filter. split; [done|].
    unfold get_edge_data in Hx. rewrite Hnb in Hx.
    apply list_elem_of_fmap. exists (x, d). split; [done|]. by apply od_get_elem.
  - etrans; [apply length_filter|]. by rewrite length_fmap.
Qed.

(** Joining a forward path and a backward path that meet in [x]. *)
Lemma join_paths (D0 D1 : string -> Prop) x p0 p1 :
  (forall u, D0 u -> D1 u -> False) ->
  is_path FE s x p0 -> NoDup p0 -> (forall u, u ∈ p0 -> u <> x -> D0 u) ->
  is_path FE t x p1 -> NoDup p1 -> (forall u, u ∈ p1 -> u <> x -> D1 u) ->
  is_path FE s t (p0 ++ tail (reverse p1)) /\ NoDup (p0 ++ tail (reverse p1)) /\
  (walk_cost FE W (p0 ++ tail (reverse p1)) == walk_cost FE W p0 + walk_cost FE W p1)%Q /\
  p0 ++ tail (reverse p1) <> [].
Proof.
  intros Hdisj Hp0 Hnd0 HD0 Hp1 Hnd1 HD1.
  pose proof (is_path_reverse FE fedge_sym t x p1 Hp1) as Hr.
  split; [by eapply is_path_app|]. split; [|split].
  - destruct Hp1 as (_ & _ & Hl1). apply last_Some in Hl1 as [q ->].
    rewrite reverse_app. simpl.
    apply list.NoDup_app. split; [done|]. split.
    + intros u Hu0 Hu1. rewrite elem_of_reverse in Hu1.
      apply list.NoDup_app in Hnd1 as (Hq & Hqx & _).
      assert (u <> x).
      { intros ->. apply (Hqx x Hu1). by apply list_elem_of_singleton. }
      apply (Hdisj u); [by apply HD0|].
      apply HD1; [|done]. apply elem_of_app. by left.
    + rewrite reverse_Permutation. by apply list.NoDup_app in Hnd1 as (Hq & _).
  - rewrite (walk_cost_path_app FE W s x t p0 (reverse p1) Hp0 Hr).
    by rewrite (walk_cost_reverse FE W fedge_sym W_sym).
  - destruct Hp0 as (Hw & _). destruct p0; [done|]. done.
Qed.

Lemma bidir_relax_unfold d v st w :
  bidir_relax G wn d v st w =
  (minweight ← (if d then wt wn (get_edge_data G w v) else wt wn (get_edge_data G v w));
   match dists (side d st) !! v with
   | None => Raise KeyError
   | Some dv =>
       let vwLength := (dv + minweight)%Q in
       match dists (side d st) !! w with
       | Some dw => if Qltb vwLength dw then Raise ValueError else Ok st
       | None =>
           if match seen (side d st) !! w with
              | None => true
              | Some sw => Qltb vwLength sw
              end
           then
             match paths (side d st) !! v with
             | None => Raise KeyError
             | Some pv => relax_meet (relax_push d st w pv vwLength) w
             end
           else Ok st
       end
   end).
Proof. reflexivity. Qed.

Lemma side_set_side d x st : side d (set_side d x st) = x.
Proof. by destruct d. Qed.

Lemma side_set_side_ne d x st : side (negb d) (set_side d x st) = side (negb d) st.
Proof. by destruct d. Qed.

Lemma side_relax_push d st w pv vw :
  side d (relax_push d st w pv vw) =
  {| dists := dists (side d st);
     paths := <[w := pv ++ [w]]> (paths (side d st));
     fringe := heappush (fringe (side d st)) (vw, bcount st, w);
     seen := <[w := vw]> (seen (side d st)) |}.
Proof. by destruct d. Qed.

Lemma side_relax_push_ne d st w pv vw :
  side (negb d) (relax_push d st w pv vw) = side (negb d) st.
Proof. by destruct d. Qed.

Lemma side_todo_step r x w d dv todo sd :
  SI r x (w :: todo) sd -> FE x w = Some d -> dists sd !! x = Some dv ->
  (exists sv, seen sd !! w = Some sv /\ (sv <= dv + W x w d)%Q) ->
  SI r x todo sd.
Proof.
  intros HI He Hx Hrel. destruct HI. split; auto.
  intros u v d' du Hu Hed Hnot.
  destruct (decide (u = x /\ v = w)) as [[-> ->]|Hne].
  - assert (d' = d) as -> by congruence. assert (du = dv) as -> by congruence. done.
  - apply (si_relaxed0 u v d' du); auto.
    intros [-> [->|Hin]%elem_of_cons]; [by apply Hne|by apply Hnot].
Qed.

Lemma side_push_inv r x w d dv todo sd pv vw c :
  SI r x (w :: todo) sd -> FE x w = Some d -> dists sd !! x = Some dv ->
  (forall u du, dists sd !! u = Some du -> (du <= dv)%Q) ->
  dists sd !! w = None -> paths sd !! x = Some pv ->
  (vw == dv + W x w d)%Q ->
  (forall sw, seen sd !! w = Some sw -> (vw < sw)%Q) ->
  SI r x todo {| dists := dists sd; paths := <[w := pv ++ [w]]> (paths sd);
                 fringe := heappush (fringe sd) (vw, c, w);
                 seen := <[w := vw]> (seen sd) |}.
Proof.
  intros HI He Hx Hmax Hw Hpv Hvw Hlt.
  pose proof (fedge_nonneg x w d He) as Hnn'.
  destruct (si_dists _ _ _ _ _ _ _ _ HI x dv Hx) as (sx & Hsx & Hsxd & Hoptx).
  destruct (si_seen _ _ _ _ _ _ _ _ HI x sx Hsx) as (px & Hpx & Hpathx & Hcx & Hndx & Hinx & HGx & HINx).
  assert (px = pv) as -> by congruence.
  assert (Hxw : x <> w) by (intros ->; congruence).
  split; simpl.
  - intros Hr. exfalso. destruct (si_start _ _ _ _ _ _ _ _ HI Hr) as (He0 & _).
    rewrite He0, lookup_empty in Hx. done.
  - intros v dv' Hv. destruct (si_dists _ _ _ _ _ _ _ _ HI v dv' Hv) as (sv & Hsv & Hsvd & Hopt).
    exists sv. rewrite lookup_insert_ne by (intros ->; congruence). done.
  - intros v sv. destruct (decide (v = w)) as [->|Hne].
    + rewrite !lookup_insert_eq. intros [= <-].
      destruct (is_path_snoc FE W r x w d pv Hpathx He) as [Hp' Hc'].
      exists (pv ++ [w]). split; [done|]. split; [done|]. split; [rewrite Hc'; lra|].
      split; [|split; [|split]].
      * apply list.NoDup_app. split; [done|]. split; [|apply NoDup_singleton].
        intros u Hu ->%list_elem_of_singleton.
        destruct (decide (w = x)) as [->|Hne]; [done|].
        destruct (Hinx w Hu Hne) as [? ?]. congruence.
      * intros u [Hu| ->%list_elem_of_singleton]%elem_of_app Hne; [|done].
        destruct (decide (u = x)) as [->|Hux]; [eauto|]. by apply Hinx.
      * apply (wf_closed G Hwf x w d). by apply fedge_edge.
      * by destruct (fedge_nodes x w d He).
    + rewrite !lookup_insert_ne by done. intros Hsv.
      apply (si_seen _ _ _ _ _ _ _ _ HI v sv Hsv).
  - intros dist c' v [[= -> -> ->]|Hin]%elem_of_cons.
    + exists vw. rewrite lookup_insert_eq. split; [done|lra].
    + destruct (si_fringe _ _ _ _ _ _ _ _ HI dist c' v Hin) as (sv & Hsv & Hle).
      destruct (decide (v = w)) as [->|Hne].
      * exists vw. rewrite lookup_insert_eq. split; [done|]. specialize (Hlt _ Hsv). lra.
      * exists sv. by rewrite lookup_insert_ne.
  - intros dist c' v u du [[= -> -> ->]|Hin]%elem_of_cons Hu.
    + specialize (Hmax u du Hu). lra.
    + by apply (si_mono _ _ _ _ _ _ _ _ HI dist c' v u du).
  - intros v sv. destruct (decide (v = w)) as [->|Hne].
    + rewrite lookup_insert_eq. intros [= <-] _. exists vw, c. split; [left|lra].
    + rewrite lookup_insert_ne by done. intros Hsv Hnv.
      destruct (si_pending _ _ _ _ _ _ _ _ HI v sv Hsv Hnv) as (dist & c' & Hin & Hle).
      exists dist, c'. split; [by right|done].
  - intros u v d' du Hu Hed Hnot.
    destruct (decide (v = w)) as [->|Hne].
    + exists vw. rewrite lookup_insert_eq. split; [done|].
      destruct (decide (u = x)) as [->|Hux].
      { assert (d' = d) as -> by congruence. assert (du = dv) as -> by congruence. lra. }
      destruct (si_relaxed _ _ _ _ _ _ _ _ HI u w d' du Hu Hed) as (sw & Hsw & Hle).
      { by intros [-> _]. }
      specialize (Hlt _ Hsw). lra.
    + rewrite lookup_insert_ne by done.
      apply (si_relaxed _ _ _ _ _ _ _ _ HI u v d' du Hu Hed).
      intros [-> [->|Hin]%elem_of_cons]; [done|by apply Hnot].
Qed.

Lemma meet_update st w x0 todo0 x1 todo1 :
  SI s x0 todo0 (fwd st) -> SI t x1 todo1 (bwd st) ->
  (forall v, is_Some (dists (fwd st) !! v) -> is_Some (dists (bwd st) !! v) -> False) ->
  (forall x, x <> w -> forall s0 s1,
     seen (fwd st) !! x = Some s0 -> seen (bwd st) !! x = Some s1 ->
     exists fd, finaldist st = Some fd /\ (fd <= s0 + s1)%Q /\ finalpath st <> []) ->
  (finalpath st <> [] ->
     exists fd, finaldist st = Some fd /\ is_path FE s t (finalpath st) /\
       NoDup (finalpath st) /\ (walk_cost FE W (finalpath st) == fd)%Q) ->
  exists st', relax_meet st w = Ok st' /\ fwd st' = fwd st /\ bwd st' = bwd st /\
    dir st' = dir st /\ MI st'.
Proof.
  intros H0 H1 Hdisj Hmeet Hfinal. unfold relax_meet.
  destruct (seen (fwd st) !! w) as [s0|] eqn:Hs0; cycle 1.
  { exists st. repeat split; auto. intros x a b Ha Hb.
    apply (Hmeet x); auto. intros ->. congruence. }
  destruct (seen (bwd st) !! w) as [s1|] eqn:Hs1; cycle 1.
  { exists st. repeat split; auto. intros x a b Ha Hb.
    apply (Hmeet x); auto. intros ->. congruence. }
  destruct (si_seen _ _ _ _ _ _ _ _ H0 w s0 Hs0) as (p0 & Hp0 & Hpath0 & Hc0 & Hnd0 & Hin0 & _).
  destruct (si_seen _ _ _ _ _ _ _ _ H1 w s1 Hs1) as (p1 & Hp1 & Hpath1 & Hc1 & Hnd1 & Hin1 & _).
  destruct (join_paths (fun u => is_Some (dists (fwd st) !! u))
              (fun u => is_Some (dists (bwd st) !! u)) w p0 p1 Hdisj
              Hpath0 Hnd0 Hin0 Hpath1 Hnd1 Hin1) as (Hjp & Hjnd & Hjc & Hjne).
  assert (Hnew : forall fd0, (finalpath st <> [] -> finaldist st = Some fd0 /\ (s0 + s1 < fd0)%Q) ->
    MI {| fwd := fwd st; bwd := bwd st; bcount := bcount st;
          finaldist := Some (s0 + s1)%Q; finalpath := p0 ++ tail (reverse p1);
          dir := dir st |}).
  { intros fd0 Hfd0. split; simpl.
    - done.
    - intros x a b Ha Hb. exists (s0 + s1)%Q. split; [done|]. split; [|done].
      destruct (decide (x = w)) as [->|Hne].
      + assert (a = s0) as -> by congruence. assert (b = s1) as -> by congruence. lra.
      + destruct (Hmeet x Hne a b Ha Hb) as (fd & Hfd & Hle & Hne').
        destruct (Hfd0 Hne') as [Hfd' Hlt]. assert (fd = fd0) as -> by congruence. lra.
    - intros _. exists (s0 + s1)%Q. split; [done|]. split; [done|]. split; [done|].
      rewrite Hjc, Hc0, Hc1. lra. }
  destruct (finalpath st) as [|y fp] eqn:Hfp.
  - rewrite Hp0, Hp1. eexists. split; [reflexivity|]. do 3 (split; [done|]).
    apply (Hnew 0%Q). intros H. by destruct H.
  - destruct Hfinal as (fd & Hfd & Hfpath & Hfnd & Hfc); [done|]. rewrite Hfd.
    destruct (Qltb (s0 + s1) fd) eqn:Hlt.
    + rewrite Hp0, Hp1. eexists. split; [reflexivity|]. do 3 (split; [done|]).
      apply (Hnew fd). intros _. split; [done|]. by apply Qltb_lt.
    + apply Qltb_ge in Hlt. exists st. repeat split; auto.
      * intros x a b Ha Hb. rewrite Hfp. destruct (decide (x = w)) as [->|Hne].
        -- assert (a = s0) as -> by congruence. assert (b = s1) as -> by congruence.
           exists fd. done.
        -- by apply (Hmeet x).
      * intros _. exists fd. rewrite Hfp. done.
Qed.

Lemma relax_ok d v dv w todo st xo todoo :
  SI (root_of s t d) v (w :: todo) (side d st) ->
  SI (root_of s t (negb d)) xo todoo (side (negb d) st) ->
  MI st -> dists (side d st) !! v = Some dv ->
  (forall u du, dists (side d st) !! u = Some du -> (du <= dv)%Q) ->
  is_Some (FE v w) ->
  exists st', bidir_relax G wn d v st w = Ok st' /\
    SI (root_of s t d) v todo (side d st') /\
    side (negb d) st' = side (negb d) st /\
    dists (side d st') = dists (side d st) /\
    MI st' /\
    (length (fringe (side d st')) <= S (length (fringe (side d st))))%nat /\
    dir st' = dir st.
Proof.
  intros HA HB HM Hv Hmax [e He].
  rewrite bidir_relax_unfold.
  assert (Hmw : (if d then wt wn (get_edge_data G w v) else wt wn (get_edge_data G v w))
                = Ok (W v w e)).
  { pose proof (fedge_edge _ _ _ He) as He'.
    destruct d; [rewrite (wf_sym G Hwf v w e He')|rewrite He']; done. }
  rewrite Hmw. simpl. rewrite Hv.
  destruct (si_dists _ _ _ _ _ _ _ _ HA v dv Hv) as (sv & Hsv & Hsvd & Hoptv).
  destruct (si_seen _ _ _ _ _ _ _ _ HA v sv Hsv) as (pv & Hpv & Hpathv & Hcv & Hndv & Hinv & HGv & HINv).
  destruct (is_path_snoc FE W _ v w e pv Hpathv He) as [Hpw Hcw].
  assert (Hkeep : (exists sw, seen (side d st) !! w = Some sw /\ (sw <= dv + W v w e)%Q) ->
    exists st', Ok st = Ok st' /\
    SI (root_of s t d) v todo (side d st') /\
    side (negb d) st' = side (negb d) st /\
    dists (side d st') = dists (side d st) /\
    MI st' /\
    (length (fringe (side d st')) <= S (length (fringe (side d st))))%nat /\
    dir st' = dir st).
  { intros Hrel. exists st. split; [done|]. split; [by eapply side_todo_step|].
    repeat split; auto; apply HM. }
  destruct (dists (side d st) !! w) as [dw|] eqn:Hw.
  - destruct (si_dists _ _ _ _ _ _ _ _ HA w dw Hw) as (sw & Hsw & Hswd & Hoptw).
    specialize (Hoptw _ Hpw).
    assert (Hlt : Qltb (dv + W v w e) dw = false) by (apply Qltb_ge; lra).
    rewrite Hlt. apply Hkeep. exists sw. split; [done|lra].
  - assert (Hpush : (forall sw, seen (side d st) !! w = Some sw -> (dv + W v w e < sw)%Q) ->
      exists st', relax_meet (relax_push d st w pv (dv + W v w e)) w = Ok st' /\
        SI (root_of s t d) v todo (side d st') /\
        side (negb d) st' = side (negb d) st /\
        dists (side d st') = dists (side d st) /\
        MI st' /\
        (length (fringe (side d st')) <= S (length (fringe (side d st))))%nat /\
        dir st' = dir st).
    { intros Hlt.
      set (st1 := relax_push d st w pv (dv + W v w e)).
      assert (HA1 : SI (root_of s t d) v todo (side d st1)).
      { unfold st1. rewrite side_relax_push. eapply side_push_inv; eauto. lra. }
      assert (HB1 : side (negb d) st1 = side (negb d) st) by apply side_relax_push_ne.
      assert (Hd1 : dists (side d st1) = dists (side d st)).
      { unfold st1. by rewrite side_relax_push. }
      assert (Hs1 : forall x, x <> w -> seen (side d st1) !! x = seen (side d st) !! x).
      { intros x Hx. unfold st1. rewrite side_relax_push. simpl.
        by rewrite lookup_insert_ne. }
      assert (Hf1 : length (fringe (side d st1)) = S (length (fringe (side d st)))).
      { unfold st1. by rewrite side_relax_push. }
      assert (Hfp : finalpath st1 = finalpath st /\ finaldist st1 = finaldist st /\
                    dir st1 = dir st).
      { unfold st1. by destruct d. }
      destruct Hfp as (Hfp & Hfd & Hdir).
      destruct (meet_update st1 w
                  (if d then xo else v) (if d then todoo else todo)
                  (if d then v else xo) (if d then todo else todoo))
        as (st2 & Hst2 & Hfw & Hbw & Hdir2 & HM2).
      { destruct d; [change (fwd st1) with (side (negb true) st1); by rewrite HB1|done]. }
      { destruct d; [done|change (bwd st1) with (side (negb false) st1); by rewrite HB1]. }
      { intros x. destruct d.
        - change (fwd st1) with (side (negb true) st1).
          change (bwd st1) with (side true st1). rewrite HB1, Hd1. apply HM.
        - change (bwd st1) with (side (negb false) st1).
          change (fwd st1) with (side false st1). rewrite HB1, Hd1. apply HM. }
      { intros x Hx s0 s1. rewrite Hfp, Hfd. destruct d.
        - change (fwd st1) with (side (negb true) st1).
          change (bwd st1) with (side true st1). rewrite HB1, (Hs1 x Hx). apply HM.
        - change (bwd st1) with (side (negb false) st1).
          change (fwd st1) with (side false st1). rewrite HB1, (Hs1 x Hx). apply HM. }
      { rewrite Hfp, Hfd. apply HM. }
      exists st2. split; [done|].
      assert (Hsd : forall b, side b st2 = side b st1).
      { intros b. destruct b; simpl; done. }
      rewrite !Hsd. split; [done|]. split; [done|]. split; [done|]. split; [done|].
      split; [rewrite Hf1; lia|congruence]. }
    destruct (seen (side d st) !! w) as [sw|] eqn:Hsw.
    + destruct (Qltb (dv + W v w e) sw) eqn:Hlt.
      * rewrite Hpv. apply Hpush. intros ? [= <-]. by apply Qltb_lt.
      * apply Qltb_ge in Hlt. apply Hkeep. eauto.
    + rewrite Hpv. apply Hpush. intros ? [=].
Qed.

Lemma relax_fold_ok d v dv todo st xo todoo :
  SI (root_of s t d) v todo (side d st) ->
  SI (root_of s t (negb d)) xo todoo (side (negb d) st) ->
  MI st -> dists (side d st) !! v = Some dv ->
  (forall u du, dists (side d st) !! u = Some du -> (du <= dv)%Q) ->
  Forall (fun w => is_Some (FE v w)) todo ->
  exists st', foldlM (bidir_relax G wn d v) st todo = Ok st' /\
    SI (root_of s t d) v [] (side d st') /\
    side (negb d) st' = side (negb d) st /\
    dists (side d st') = dists (side d st) /\
    MI st' /\
    (length (fringe (side d st')) <= length todo + length (fringe (side d st)))%nat /\
    dir st' = dir st.
Proof.
  revert st. induction todo as [|w todo IH]; intros st HA HB HM Hv Hmax Hall.
  - exists st. simpl. do 5 (split; [done|]). split; [lia|done].
  - apply list.Forall_cons in Hall as [Hw Hall].
    destruct (relax_ok d v dv w todo st xo todoo HA HB HM Hv Hmax Hw)
      as (st1 & Hst1 & HA1 & HB1 & Hd1 & HM1 & Hlen1 & Hdir1).
    destruct (IH st1) as (st2 & Hst2 & HA2 & HB2 & Hd2 & HM2 & Hlen2 & Hdir2); auto.
    { by rewrite HB1. }
    { by rewrite Hd1. }
    { by rewrite Hd1. }
    exists st2. simpl. rewrite Hst1. simpl. split; [done|]. split; [done|].
    split; [congruence|]. split; [congruence|]. split; [done|].
    split; [simpl; lia|congruence].
Qed.

Lemma side_nil_any r x y sd : SI r x [] sd -> SI r y [] sd.
Proof.
  intros HI. destruct HI. split; auto.
  intros u v d du Hu He _. apply (si_relaxed0 u v d du); auto. by intros [_ ?%elem_of_nil].
Qed.

Lemma side_root_settled r x todo sd v dv :
  SI r x todo sd -> dists sd !! v = Some dv -> is_Some (dists sd !! r).
Proof.
  intros HI Hv. destruct (dists sd !! r) eqn:Hr; [eauto|].
  destruct (si_start _ _ _ _ _ _ _ _ HI Hr) as (He & _).
  rewrite He, lookup_empty in Hv. done.
Qed.

(** A path from the root to a node that is not settled crosses the
    frontier of the direction. *)
Lemma side_frontier r sd y q :
  SI r "" [] sd -> is_Some (dists sd !! r) -> dists sd !! y = None ->
  is_path FE r y q ->
  exists dist c z, (dist, c, z) ∈ fringe sd /\ (dist <= walk_cost FE W q)%Q.
Proof.
  intros HI Hr Hy Hq.
  destruct (walk_first_exit FE (fun v => is_Some (dists sd !! v)) _ q r y Hq Hr)
    as (p1 & u & z & p2 & -> & [du Hu] & Hz & [d Huz] & Hp1).
  { rewrite Hy. by intros [? ?]. }
  destruct (si_dists _ _ _ _ _ _ _ _ HI u du Hu) as (_ & _ & _ & Hopt).
  specialize (Hopt _ Hp1).
  destruct (si_relaxed _ _ _ _ _ _ _ _ HI u z d du Hu Huz) as (sz & Hsz & Hle).
  { by intros [_ ?%elem_of_nil]. }
  destruct (si_pending _ _ _ _ _ _ _ _ HI z sz Hsz) as (dist & c & Hin & Hle').
  { destruct (dists sd !! z) eqn:Ez; [|done]. exfalso. apply Hz. eauto. }
  exists dist, c, z. split; [done|].
  pose proof (walk_cost_app_le FE W fedge_nonneg (p1 ++ [u]) z p2) as Hle2.
  rewrite <- !app_assoc in Hle2. simpl in Hle2.
  pose proof (walk_cost_snoc FE W p1 u z) as Hsn. rewrite Huz in Hsn.
  lra.
Qed.

Lemma side_closed r sd y q :
  SI r "" [] sd -> fringe sd = [] -> is_path FE r y q -> is_Some (dists sd !! y).
Proof.
  intros HI Hf Hq.
  assert (Hr : is_Some (dists sd !! r)).
  { destruct (dists sd !! r) eqn:Hr; [eauto|].
    destruct (si_start _ _ _ _ _ _ _ _ HI Hr) as (_ & _ & _ & c & Hc). congruence. }
  destruct (dists sd !! y) eqn:Hy; [eauto|].
  destruct (side_frontier r sd y q HI Hr Hy Hq) as (dist & c & z & Hin & _).
  rewrite Hf in Hin. by apply elem_of_nil in Hin.
Qed.

Lemma side_popped_min r sd dist c v fr q :
  SI r "" [] sd -> heappop f_key (fringe sd) = Some ((dist, c, v), fr) ->
  dists sd !! v = None -> is_path FE r v q ->
  (dist <= walk_cost FE W q)%Q.
Proof.
  intros HI Hpop Hv Hq.
  destruct (dists sd !! r) as [dr|] eqn:Hr.
  - destruct (side_frontier r sd v q HI) as (dist' & c' & z & Hin & Hle); eauto.
    pose proof (heappop_min f_key _ _ _ Hpop _ Hin) as Hmin. simpl in Hmin. lra.
  - destruct (si_start _ _ _ _ _ _ _ _ HI Hr) as (_ & _ & _ & c0 & Hc0).
    rewrite Hc0 in Hpop. simpl in Hpop. injection Hpop as <- <- <- <-.
    by apply walk_cost_nonneg, fedge_nonneg.
Qed.

Lemma side_drop r sd dist c v fr :
  SI r "" [] sd -> heappop f_key (fringe sd) = Some ((dist, c, v), fr) ->
  is_Some (dists sd !! v) ->
  SI r "" [] {| dists := dists sd; paths := paths sd; fringe := fr; seen := seen sd |}.
Proof.
  intros HI Hpop [dv Hv].
  assert (Hsub : forall e, e ∈ fr -> e ∈ fringe sd).
  { intros e Hin. rewrite (heappop_perm _ _ _ _ Hpop). by right. }
  split; simpl.
  - intros Hr. exfalso. destruct (si_start _ _ _ _ _ _ _ _ HI Hr) as (He & _).
    rewrite He, lookup_empty in Hv. done.
  - apply HI.
  - apply HI.
  - intros dist' c' v' Hin. apply (si_fringe _ _ _ _ _ _ _ _ HI dist' c' v'). auto.
  - intros dist' c' v' u du Hin. apply (si_mono _ _ _ _ _ _ _ _ HI dist' c' v'). auto.
  - intros v' sv Hsv Hnv.
    destruct (si_pending _ _ _ _ _ _ _ _ HI v' sv Hsv Hnv) as (dist' & c' & Hin & Hle).
    exists dist', c'. split; [|done].
    rewrite (heappop_perm _ _ _ _ Hpop) in Hin.
    apply elem_of_cons in Hin as [[= -> -> ->]|Hin]; [congruence|done].
  - apply HI.
Qed.

Lemma side_settle r sd dist c v fr ws :
  SI r "" [] sd -> heappop f_key (fringe sd) = Some ((dist, c, v), fr) ->
  dists sd !! v = None ->
  (forall x d, FE v x = Some d -> x ∈ ws) ->
  SI r v ws {| dists := <[v := dist]> (dists sd); paths := paths sd; fringe := fr;
               seen := seen sd |} /\
  (forall u du, <[v := dist]> (dists sd) !! u = Some du -> (du <= dist)%Q).
Proof.
  intros HI Hpop Hv Hws.
  assert (Hin : (dist, c, v) ∈ fringe sd).
  { rewrite (heappop_perm _ _ _ _ Hpop). left. }
  assert (Hsub : forall e, e ∈ fr -> e ∈ fringe sd).
  { intros e He. rewrite (heappop_perm _ _ _ _ Hpop). by right. }
  destruct (si_fringe _ _ _ _ _ _ _ _ HI dist c v Hin) as (sv & Hsv & Hle).
  assert (Hsvd : (sv == dist)%Q).
  { destruct (si_pending _ _ _ _ _ _ _ _ HI v sv Hsv Hv) as (dist' & c' & Hin' & Hle').
    pose proof (heappop_min f_key _ _ _ Hpop _ Hin') as Hmin. simpl in Hmin. lra. }
  assert (Hmax : forall u du, <[v := dist]> (dists sd) !! u = Some du -> (du <= dist)%Q).
  { intros u du. destruct (decide (u = v)) as [->|Hne].
    - rewrite lookup_insert_eq. intros [= <-]. lra.
    - rewrite lookup_insert_ne by done. intros Hu.
      by apply (si_mono _ _ _ _ _ _ _ _ HI dist c v u du). }
  split; [|done]. split; simpl.
  - intros Hr. exfalso. destruct (decide (r = v)) as [->|Hne].
    + by rewrite lookup_insert_eq in Hr.
    + rewrite lookup_insert_ne in Hr by done.
      destruct (si_start _ _ _ _ _ _ _ _ HI Hr) as (_ & _ & _ & c0 & Hc0).
      rewrite Hc0 in Hin. apply list_elem_of_singleton in Hin. congruence.
  - intros u du. destruct (decide (u = v)) as [->|Hne].
    + rewrite lookup_insert_eq. intros [= <-]. exists sv. split; [done|]. split; [done|].
      intros q Hq. eapply side_popped_min; eauto.
    + rewrite lookup_insert_ne by done. apply HI.
  - intros u su Hsu.
    destruct (si_seen _ _ _ _ _ _ _ _ HI u su Hsu) as (p & Hp & Hpath & Hc & Hnd & Hinp & HG).
    exists p. repeat split; auto; try apply Hpath; try apply HG.
    intros z Hz Hzu. destruct (decide (z = v)) as [->|Hne].
    + rewrite lookup_insert_eq. eauto.
    + rewrite lookup_insert_ne by done. auto.
  - intros dist' c' v' Hin'. apply (si_fringe _ _ _ _ _ _ _ _ HI dist' c' v'). auto.
  - intros dist' c' v' u du Hin' Hu.
    pose proof (heappop_min f_key _ _ _ Hpop _ (Hsub _ Hin')) as Hmin. simpl in Hmin.
    specialize (Hmax u du Hu). lra.
  - intros v' sv' Hsv'. destruct (decide (v' = v)) as [->|Hne].
    { by rewrite lookup_insert_eq. }
    rewrite lookup_insert_ne by done. intros Hnv.
    destruct (si_pending _ _ _ _ _ _ _ _ HI v' sv' Hsv' Hnv) as (dist' & c' & Hin' & Hle').
    exists dist', c'. split; [|done].
    rewrite (heappop_perm _ _ _ _ Hpop) in Hin'.
    apply elem_of_cons in Hin' as [[= -> -> ->]|Hin']; [congruence|done].
  - intros u y d du. destruct (decide (u = v)) as [->|Hne].
    + intros _ Hed Hnot. exfalso. apply Hnot. split; [done|]. by apply (Hws y d).
    + rewrite lookup_insert_ne by done. intros Hu Hed _.
      apply (si_relaxed _ _ _ _ _ _ _ _ HI u y d du Hu Hed). by intros [_ ?%elem_of_nil].
Qed.

(** When a node popped in one direction is already settled in the
    other, the recorded meeting is a shortest path. *)
Lemma final_bound rA rB sdA sdB dist c v fr dB fd :
  SI rA "" [] sdA -> SI rB "" [] sdB ->
  (forall u, is_Some (dists sdA !! u) -> is_Some (dists sdB !! u) -> False) ->
  heappop f_key (fringe sdA) = Some ((dist, c, v), fr) ->
  dists sdA !! v = None -> dists sdB !! v = Some dB ->
  (forall x a b, seen sdA !! x = Some a -> seen sdB !! x = Some b -> (fd <= a + b)%Q) ->
  forall q, is_path FE rA rB q -> (fd <= walk_cost FE W q)%Q.
Proof.
  intros HA HB Hdisj Hpop Hv HvB Hmeet q Hq.
  assert (Hin : (dist, c, v) ∈ fringe sdA).
  { rewrite (heappop_perm _ _ _ _ Hpop). left. }
  destruct (si_fringe _ _ _ _ _ _ _ _ HA dist c v Hin) as (sA & HsA & HleA).
  destruct (si_dists _ _ _ _ _ _ _ _ HB v dB HvB) as (sB & HsB & HsBd & HoptB).
  pose proof (Hmeet v sA sB HsA HsB) as Hfd0.
  pose proof (side_root_settled _ _ _ _ _ _ HB HvB) as HrB.
  destruct (dists sdA !! rA) as [drA|] eqn:HrA.
  - assert (HrBA : ~ is_Some (dists sdA !! rB)) by (intros H; by apply (Hdisj rB)).
    destruct (walk_first_exit FE (fun u => is_Some (dists sdA !! u)) _ q rA rB Hq)
      as (p1 & u & y & p2 & -> & [du Hu] & Hy & [d Huy] & Hp1); [eauto|done|].
    destruct (si_dists _ _ _ _ _ _ _ _ HA u du Hu) as (_ & _ & _ & HoptA).
    specialize (HoptA _ Hp1).
    destruct (si_relaxed _ _ _ _ _ _ _ _ HA u y d du Hu Huy) as (sy & Hsy & Hley).
    { by intros [_ ?%elem_of_nil]. }
    assert (HyN : dists sdA !! y = None).
    { destruct (dists sdA !! y) eqn:Ey; [|done]. exfalso. apply Hy. eauto. }
    destruct (si_pending _ _ _ _ _ _ _ _ HA y sy Hsy HyN) as (dist' & c' & Hin' & Hle').
    pose proof (heappop_min f_key _ _ _ Hpop _ Hin') as Hmin. simpl in Hmin.
    pose proof (walk_cost_snoc FE W p1 u y) as Hsn. rewrite Huy in Hsn.
    replace (p1 ++ u :: y :: p2) with ((p1 ++ [u]) ++ y :: p2) in Hq |- *
      by (by rewrite <- app_assoc).
    destruct (is_path_split FE W rA rB (p1 ++ [u]) y p2 Hq) as (_ & Hsuf & Hcost).
    replace ((p1 ++ [u]) ++ [y]) with (p1 ++ [u; y]) in Hcost by (by rewrite <- app_assoc).
    pose proof (is_path_reverse FE fedge_sym y rB (y :: p2) Hsuf) as Hrev.
    pose proof (walk_cost_reverse FE W fedge_sym W_sym (y :: p2)) as Hrc.
    destruct (dists sdB !! y) as [dy|] eqn:HyB.
    + destruct (si_dists _ _ _ _ _ _ _ _ HB y dy HyB) as (sBy & HsBy & HsByd & HoptBy).
      specialize (HoptBy _ Hrev). pose proof (Hmeet y sy sBy Hsy HsBy). lra.
    + destruct (side_frontier rB sdB y _ HB HrB HyB Hrev) as (dist'' & c'' & z & Hin'' & Hle'').
      pose proof (si_mono _ _ _ _ _ _ _ _ HB dist'' c'' z v dB Hin'' HvB). lra.
  - destruct (si_start _ _ _ _ _ _ _ _ HA HrA) as (_ & _ & _ & c0 & Hc0).
    rewrite Hc0 in Hpop. simpl in Hpop. injection Hpop as <- <- <- <-.
    pose proof (is_path_reverse FE fedge_sym rA rB q Hq) as Hrev.
    pose proof (walk_cost_reverse FE W fedge_sym W_sym q) as Hrc.
    specialize (HoptB _ Hrev). lra.
Qed.

Lemma meet_inv_ext st st' :
  MI st ->
  (forall u, is_Some (dists (fwd st') !! u) -> is_Some (dists (bwd st') !! u) -> False) ->
  seen (fwd st') = seen (fwd st) -> seen (bwd st') = seen (bwd st) ->
  finaldist st' = finaldist st -> finalpath st' = finalpath st ->
  MI st'.
Proof.
  intros HM Hdisj Hs0 Hs1 Hfd Hfp. split.
  - done.
  - rewrite Hs0, Hs1, Hfd, Hfp. apply HM.
  - rewrite Hfd, Hfp. apply HM.
Qed.

Local Arguments bidir_loop : simpl never.
Local Arguments bidir_relax : simpl never.
Local Arguments heappop : simpl never.
Local Arguments filtered_neighbors : simpl never.
Local Arguments search_result_ok : simpl never.

Lemma bidir_loop_unfold fuel st :
  bidir_loop (S fuel) G wn IN IE st =
  if match fringe (fwd st) with [] => true | _ => false end
     || match fringe (bwd st) with [] => true | _ => false end
  then Raise NetworkXNoPath
  else
      let d := negb (dir st) in
      let st := {| fwd := fwd st; bwd := bwd st; bcount := bcount st;
                   finaldist := finaldist st; finalpath := finalpath st; dir := d |} in
      match heappop f_key (fringe (side d st)) with
      | None => Raise IndexError
      | Some ((dist, _, v), fr) =>
          let sd := side d st in
          let st := set_side d {| dists := dists sd; paths := paths sd;
                                  fringe := fr; seen := seen sd |} st in
          match dists (side d st) !! v with
          | Some _ => bidir_loop fuel G wn IN IE st
          | None =>
              let sd := side d st in
              let st := set_side d {| dists := <[v := dist]> (dists sd);
                                      paths := paths sd; fringe := fringe sd;
                                      seen := seen sd |} st in
              match dists (side (negb d) st) !! v with
              | Some _ =>
                  match finaldist st with
                  | Some fd => Ok (fd, finalpath st)
                  | None => Raise UnboundLocalError
                  end
              | None =>
                  match filtered_neighbors G IN IE v with
                  | None => Raise KeyError
                  | Some ws =>
                      st' ← foldlM (bidir_relax G wn d v) st ws;
                      bidir_loop fuel G wn IN IE st'
                  end
              end
          end
      end.
Proof.
  destruct st as [[d0 p0 f0 s0] [d1 p1 f1 s1] bc fd fp dr].
  destruct f0, f1; reflexivity.
Qed.

Lemma pop_length {A} (key : A -> Q * nat) q m r :
  heappop key q = Some (m, r) -> length q = S (length r).
Proof. intros H. by rewrite (heappop_perm _ _ _ _ H). Qed.

Lemma bidir_return st dist c v fr (d : bool) dB :
  SI (root_of s t d) "" [] (side d st) -> SI (root_of s t (negb d)) "" [] (side (negb d) st) ->
  MI st ->
  heappop f_key (fringe (side d st)) = Some ((dist, c, v), fr) ->
  dists (side d st) !! v = None -> dists (side (negb d) st) !! v = Some dB ->
  exists fd, finaldist st = Some fd /\
    search_result_ok FE W s t (Ok (fd, finalpath st)).
Proof.
  intros HA HB HM Hpop Hv HvB.
  assert (Hin : (dist, c, v) ∈ fringe (side d st)).
  { rewrite (heappop_perm _ _ _ _ Hpop). left. }
  destruct (si_fringe _ _ _ _ _ _ _ _ HA dist c v Hin) as (sA & HsA & _).
  destruct (si_dists _ _ _ _ _ _ _ _ HB v dB HvB) as (sB & HsB & _).
  assert (exists fd, finaldist st = Some fd /\ finalpath st <> []) as (fd & Hfd & Hne).
  { destruct d; simpl in *.
    - destruct (mi_meet _ _ _ _ _ _ _ HM v sB sA HsB HsA) as (fd & ? & ? & ?); eauto.
    - destruct (mi_meet _ _ _ _ _ _ _ HM v sA sB HsA HsB) as (fd & ? & ? & ?); eauto. }
  destruct (mi_final _ _ _ _ _ _ _ HM Hne) as (fd' & Hfd' & Hpath & Hnd & Hc).
  assert (fd' = fd) as -> by congruence.
  exists fd. split; [done|]. simpl. split; [done|]. split; [done|]. split; [done|].
  intros q Hq. destruct d; simpl in *.
  - pose proof (is_path_reverse FE fedge_sym s t q Hq) as Hrev.
    rewrite <- (walk_cost_reverse FE W fedge_sym W_sym q).
    eapply (final_bound t s (bwd st) (fwd st)); eauto.
    + intros u Hu1 Hu0. by apply (mi_disj _ _ _ _ _ _ _ HM u).
    + intros x a b Ha Hb.
      destruct (mi_meet _ _ _ _ _ _ _ HM x b a Hb Ha) as (fd2 & Hfd2 & Hle & _).
      assert (fd2 = fd) as -> by congruence. lra.
  - eapply (final_bound s t (fwd st) (bwd st)); eauto.
    + apply HM.
    + intros x a b Ha Hb.
      destruct (mi_meet _ _ _ _ _ _ _ HM x a b Ha Hb) as (fd2 & Hfd2 & Hle & _).
      assert (fd2 = fd) as -> by congruence. lra.
Qed.

Lemma bidir_skip_inv (d : bool) st dist c v fr :
  SI s "" [] (fwd st) -> SI t "" [] (bwd st) -> MI st ->
  heappop f_key (fringe (side d st)) = Some ((dist, c, v), fr) ->
  is_Some (dists (side d st) !! v) ->
  let st0 := {| fwd := fwd st; bwd := bwd st; bcount := bcount st;
                finaldist := finaldist st; finalpath := finalpath st; dir := d |} in
  let st1 := set_side d {| dists := dists (side d st0); paths := paths (side d st0);
                           fringe := fr; seen := seen (side d st0) |} st0 in
  SI s "" [] (fwd st1) /\ SI t "" [] (bwd st1) /\ MI st1 /\
  (S (bidir_potential G st1) = bidir_potential G st)%nat /\
  dists (fwd st1) = dists (fwd st) /\ dists (bwd st1) = dists (bwd st) /\ dir st1 = d.
Proof.
  intros HF HB HM Hpop Hv st0 st1.
  pose proof (pop_length _ _ _ _ Hpop) as Hlen.
  destruct d; simpl in *.
  - split; [done|]. split; [by eapply side_drop|]. split.
    { eapply meet_inv_ext; eauto. apply HM. }
    unfold bidir_potential. simpl. split; [lia|done].
  - split; [by eapply side_drop|]. split; [done|]. split.
    { eapply meet_inv_ext; eauto. apply HM. }
    unfold bidir_potential. simpl. split; [lia|done].
Qed.

Lemma bidir_expand_inv (d : bool) st dist c v fr :
  SI s "" [] (fwd st) -> SI t "" [] (bwd st) -> MI st ->
  heappop f_key (fringe (side d st)) = Some ((dist, c, v), fr) ->
  dists (side d st) !! v = None -> dists (side (negb d) st) !! v = None ->
  let st0 := {| fwd := fwd st; bwd := bwd st; bcount := bcount st;
                finaldist := finaldist st; finalpath := finalpath st; dir := d |} in
  let st1 := set_side d {| dists := dists (side d st0); paths := paths (side d st0);
                           fringe := fr; seen := seen (side d st0) |} st0 in
  let st2 := set_side d {| dists := <[v := dist]> (dists (side d st1));
                           paths := paths (side d st1); fringe := fringe (side d st1);
                           seen := seen (side d st1) |} st1 in
  exists ws st', filtered_neighbors G IN IE v = Some ws /\
    foldlM (bidir_relax G wn d v) st2 ws = Ok st' /\
    SI s "" [] (fwd st') /\ SI t "" [] (bwd st') /\ MI st' /\
    (bidir_potential G st' < bidir_potential G st)%nat /\
    dists (side d st') = <[v := dist]> (dists (side d st)) /\
    dists (side (negb d) st') = dists (side (negb d) st) /\ dir st' = d.
Proof.
  intros HF HB HM Hpop Hv HvB st0 st1 st2.
  pose proof (pop_length _ _ _ _ Hpop) as Hlen.
  assert (Hin : (dist, c, v) ∈ fringe (side d st)).
  { rewrite (heappop_perm _ _ _ _ Hpop). left. }
  assert (HA : SI (root_of s t d) "" [] (side d st)) by (by destruct d).
  assert (HO : SI (root_of s t (negb d)) "" [] (side (negb d) st)) by (by destruct d).
  destruct (si_fringe _ _ _ _ _ _ _ _ HA dist c v Hin) as (sv & Hsv & _).
  destruct (si_seen _ _ _ _ _ _ _ _ HA v sv Hsv) as (_ & _ & _ & _ & _ & _ & [nbrs Hnb] & HvIN).
  destruct (filtered_neighbors_spec v nbrs Hnb HvIN) as (ws & Hws & Hall & Hcov & Hwlen).
  destruct (side_settle _ _ _ _ _ _ ws HA Hpop Hv Hcov) as [HA2 Hmax].
  assert (Hs2 : side d st2 = {| dists := <[v := dist]> (dists (side d st));
                                paths := paths (side d st); fringe := fr;
                                seen := seen (side d st) |}) by (by destruct d).
  assert (Ho2 : side (negb d) st2 = side (negb d) st) by (by destruct d).
  assert (HM2 : MI st2).
  { eapply meet_inv_ext; [exact HM|..]; try (by destruct d).
    intros u Hu0 Hu1. destruct d; simpl in *.
    - destruct (decide (u = v)) as [->|Hne].
      + rewrite HvB in Hu0. by destruct Hu0.
      + rewrite lookup_insert_ne in Hu1 by done. by apply (mi_disj _ _ _ _ _ _ _ HM u).
    - destruct (decide (u = v)) as [->|Hne].
      + rewrite HvB in Hu1. by destruct Hu1.
      + rewrite lookup_insert_ne in Hu0 by done. by apply (mi_disj _ _ _ _ _ _ _ HM u). }
  destruct (relax_fold_ok d v dist ws st2 "" [])
    as (st' & Hfold & HA' & HO' & Hd' & HM' & Hlen' & Hdir').
  { by rewrite Hs2. }
  { by rewrite Ho2. }
  { done. }
  { rewrite Hs2. simpl. by rewrite lookup_insert_eq. }
  { rewrite Hs2. simpl. done. }
  { done. }
  exists ws, st'. split; [done|]. split; [done|].
  apply (side_nil_any _ _ "") in HA'.
  rewrite Ho2 in HO'. rewrite Hs2 in Hd', Hlen'. simpl in Hd', Hlen'.
  pose proof (unsettled_insert (_adj G) (dists (side d st)) v dist nbrs Hv Hnb) as Hun.
  assert (Hdir2 : dir st2 = d) by (by destruct d).
  split; [|split; [|split; [|split; [|split; [done|split; [by rewrite HO'|congruence]]]]]].
  - destruct d; simpl in *; [by rewrite HO'|done].
  - destruct d; simpl in *; [done|by rewrite HO'].
  - done.
  - unfold bidir_potential. destruct d; simpl in *; rewrite HO', Hd'; lia.
Qed.

Lemma bidir_loop_ok fuel st :
  s <> t ->
  SI s "" [] (fwd st) -> SI t "" [] (bwd st) -> MI st -> bidir_phase s t st ->
  (bidir_potential G st < fuel)%nat ->
  search_result_ok FE W s t (bidir_loop fuel G wn IN IE st).
Proof.
  intros Hst. revert st. induction fuel as [|fuel IH]; intros st HF HB HM HP Hfuel; [lia|].
  rewrite bidir_loop_unfold.
  assert (Hc0 : fringe (fwd st) = [] \/
                match fringe (fwd st) with [] => true | _ => false end = false)
    by (destruct (fringe (fwd st)); auto).
  destruct Hc0 as [Hf0|Hn0].
  { rewrite Hf0. simpl. split; [done|]. intros q Hq.
    destruct (side_closed s (fwd st) t q HF Hf0 Hq) as [dt Hdt].
    destruct HP as [[_ Ht]|[(_ & He & _)|(_ & _ & _ & Hs)]].
    - apply (mi_disj _ _ _ _ _ _ _ HM t); eauto.
    - rewrite He, lookup_empty in Hdt. done.
    - apply Hst. symmetry. apply Hs. eauto. }
  assert (Hc1 : fringe (bwd st) = [] \/
                match fringe (bwd st) with [] => true | _ => false end = false)
    by (destruct (fringe (bwd st)); auto).
  destruct Hc1 as [Hf1|Hn1].
  { rewrite Hf1, orb_true_r. split; [done|]. intros q Hq.
    pose proof (is_path_reverse FE fedge_sym s t q Hq) as Hrev.
    destruct (side_closed t (bwd st) s _ HB Hf1 Hrev) as [ds Hds].
    destruct HP as [[Hs _]|[(_ & _ & He)|(_ & _ & He & _)]].
    - apply (mi_disj _ _ _ _ _ _ _ HM s); eauto.
    - rewrite He, lookup_empty in Hds. done.
    - rewrite He, lookup_empty in Hds. done. }
  rewrite Hn0, Hn1. cbv zeta. simpl orb. cbv iota.
  destruct (dir st) eqn:Hdir; simpl negb.
  - (* forward *)
    simpl.
    destruct (heappop f_key (fringe (fwd st))) as [[[[dist c] v] fr]|] eqn:Hpop; cycle 1.
    { apply heappop_None in Hpop. rewrite Hpop in Hn0. done. }
    destruct (dists (fwd st) !! v) as [dv|] eqn:Hv.
    + destruct (bidir_skip_inv false st dist c v fr HF HB HM Hpop)
        as (HF1 & HB1 & HM1 & Hpot & Hd0 & Hd1 & Hdir1); [simpl; eauto|].
      cbv zeta in HF1, HB1, HM1, Hpot. simpl in HF1, HB1, HM1, Hpot.
      apply IH; auto; [|lia].
      left. destruct HP as [HP|[(_ & He & _)|(Hx & _)]]; [done| |congruence].
      rewrite He, lookup_empty in Hv. done.
    + idtac.
      destruct (dists (bwd st) !! v) as [dB|] eqn:HvB.
      * destruct (bidir_return st dist c v fr false dB) as (fd & Hfd & Hok); auto.
        simpl. rewrite Hfd. exact Hok.
      * destruct (bidir_expand_inv false st dist c v fr HF HB HM Hpop Hv HvB)
          as (ws & st' & Hws & Hfold & HF' & HB' & HM' & Hpot & Hd0 & Hd1 & Hdir').
        rewrite Hws. cbv zeta in Hfold. simpl in Hfold. simpl. rewrite Hfold. simpl.
        apply IH; auto; [|lia]. simpl in Hd0, Hd1.
        destruct HP as [[Hs Ht]|[(_ & He0 & He1)|(Hx & _)]]; [| |congruence].
        -- left. rewrite Hd0, Hd1. split; [|done].
           destruct (decide (s = v)) as [->|Hne];
             [rewrite lookup_insert_eq|rewrite lookup_insert_ne]; eauto.
        -- right. right. rewrite Hd0, Hd1.
           assert (v = s) as ->.
           { destruct (si_start _ _ _ _ _ _ _ _ HF) as (_ & _ & _ & c0 & Hc0).
             { by rewrite He0, lookup_empty. }
             rewrite Hc0 in Hpop. unfold heappop in Hpop. by injection Hpop as _ _ <- _. }
           split; [done|]. rewrite lookup_insert_eq. split; [eauto|]. split; [done|].
           intros u. destruct (decide (u = s)) as [->|Hne]; [done|].
           rewrite lookup_insert_ne, He0, lookup_empty by done. by intros [? ?].
  - (* backward *)
    simpl.
    destruct (heappop f_key (fringe (bwd st))) as [[[[dist c] v] fr]|] eqn:Hpop; cycle 1.
    { apply heappop_None in Hpop. rewrite Hpop in Hn1. done. }
    destruct (dists (bwd st) !! v) as [dv|] eqn:Hv.
    + destruct (bidir_skip_inv true st dist c v fr HF HB HM Hpop)
        as (HF1 & HB1 & HM1 & Hpot & Hd0 & Hd1 & Hdir1); [simpl; eauto|].
      cbv zeta in HF1, HB1, HM1, Hpot. simpl in HF1, HB1, HM1, Hpot.
      apply IH; auto; [|lia].
      left. destruct HP as [HP|[(Hx & _)|(_ & _ & He & _)]]; [done|congruence|].
      rewrite He, lookup_empty in Hv. done.
    + idtac.
      destruct (dists (fwd st) !! v) as [dB|] eqn:HvB.
      * destruct (bidir_return st dist c v fr true dB) as (fd & Hfd & Hok); auto.
        simpl. rewrite Hfd. exact Hok.
      * destruct (bidir_expand_inv true st dist c v fr HF HB HM Hpop Hv HvB)
          as (ws & st' & Hws & Hfold & HF' & HB' & HM' & Hpot & Hd1 & Hd0 & Hdir').
        rewrite Hws. cbv zeta in Hfold. simpl in Hfold. simpl. rewrite Hfold. simpl.
        apply IH; auto; [|lia]. simpl in Hd0, Hd1.
        destruct HP as [[Hs Ht]|[(Hx & _)|(_ & Hs & He1 & _)]]; [|congruence|].
        -- left. rewrite Hd0, Hd1. split; [done|].
           destruct (decide (t = v)) as [->|Hne];
             [rewrite lookup_insert_eq|rewrite lookup_insert_ne]; eauto.
        -- left. rewrite Hd0, Hd1. split; [done|].
           assert (v = t) as ->.
           { destruct (si_start _ _ _ _ _ _ _ _ HB) as (_ & _ & _ & c0 & Hc0).
             { by rewrite He1, lookup_empty. }
             rewrite Hc0 in Hpop. unfold heappop in Hpop. by injection Hpop as _ _ <- _. }
           rewrite lookup_insert_eq. eauto.
Qed.

Lemma node_has_adj x : has_node G x = true -> is_Some (od_get x (_adj G)).
Proof.
  unfold has_node. rewrite (wf_nodes G Hwf). unfold od_mem.
  destruct (od_get x (_adj G)); [eauto|done].
Qed.

Lemma side_init r c :
  has_node G r = true -> r ∉ IN ->
  SI r "" [] {| dists := ∅; paths := {[r := [r]]}; fringe := [(0%Q, c, r)];
                seen := {[r := 0%Q]} |}.
Proof.
  intros Hr Hin. split; simpl.
  - intros _. eauto.
  - intros v dv Hv. by rewrite lookup_empty in Hv.
  - intros v sv Hv. apply lookup_singleton_Some in Hv as [<- <-].
    exists [r]. rewrite lookup_singleton_eq. split; [done|]. split; [done|].
    split; [simpl; lra|]. split; [apply NoDup_singleton|].
    split; [|split; [by apply node_has_adj|done]].
    intros u Hu Hne. apply list_elem_of_singleton in Hu. done.
  - intros dist c' v Hv. apply list_elem_of_singleton in Hv. injection Hv as -> -> ->.
    exists 0%Q. rewrite lookup_singleton_eq. split; [done|lra].
  - intros dist c' v u du _ Hu. by rewrite lookup_empty in Hu.
  - intros v sv Hv _. apply lookup_singleton_Some in Hv as [<- <-].
    exists 0%Q, c. split; [apply list_elem_of_singleton; done|lra].
  - intros u v d du Hu. by rewrite lookup_empty in Hu.
Qed.

Lemma bidirectional_dijkstra_ok :
  has_node G s = true -> has_node G t = true -> (s = t -> s ∉ IN) ->
  search_result_ok FE W s t (bidirectional_dijkstra G s t wn IN IE).
Proof.
  intros Hs Ht Hst. unfold bidirectional_dijkstra.
  destruct (bool_decide (s ∈ IN ∨ t ∈ IN)) eqn:Hin.
  { apply bool_decide_eq_true in Hin. split; [done|]. intros q (Hw & Hh & Hl).
    destruct (decide (s = t)) as [->|Hne]; [destruct Hin; by apply Hst|].
    destruct q as [|a [|b q]]; simpl in *; [done|congruence|].
    injection Hh as ->. destruct Hin as [Hin|Hin].
    - destruct Hw as [[d Hd] _]. apply fedge_nodes in Hd. tauto.
    - assert (Hw' : is_walk FE (s :: b :: q)) by done.
      assert (Hp : is_path FE s t (s :: b :: q)) by done.
      apply (is_path_reverse FE fedge_sym) in Hp.
      destruct Hp as (Hw2 & Hh2 & Hl2).
      destruct (reverse (s :: b :: q)) as [|a' [|b' q']] eqn:Hr; simpl in *; [done| |].
      + apply (f_equal length) in Hr. rewrite length_reverse in Hr. simpl in Hr. lia.
      + injection Hh2 as ->. destruct Hw2 as [[d Hd] _]. apply fedge_nodes in Hd. tauto. }
  apply bool_decide_eq_false in Hin.
  destruct (String.eqb s t) eqn:Heq.
  { apply String.eqb_eq in Heq. subst t. rewrite Hs. unfold search_result_ok.
    split; [done|]. split; [apply NoDup_singleton|]. split; [simpl; lra|].
    intros q _. apply walk_cost_nonneg, fedge_nonneg. }
  apply String.eqb_neq in Heq.
  apply bidir_loop_ok; simpl; auto.
  - apply side_init; [done|tauto].
  - apply side_init; [done|tauto].
  - split; simpl.
    + intros v [? Hv]. by rewrite lookup_empty in Hv.
    + intros x s0 s1 H0 H1. apply lookup_singleton_Some in H0 as [<- _].
      apply lookup_singleton_Some in H1 as [? _]. congruence.
    + done.
  - right. left. done.
  - unfold bidir_potential. simpl. rewrite !unsettled_empty. unfold adj_size. lia.
Qed.

End Bidir.

Lemma lcp_take p q : take (lcp p q) p = take (lcp p q) q.
Proof.
  revert q. induction p as [|x p IH]; intros [|y q]; simpl; try done.
  destruct (decide (x = y)) as [->|]; simpl; [by rewrite IH|done].
Qed.

Lemma lcp_le_l p q : (lcp p q <= length p)%nat.
Proof.
  revert q. induction p as [|x p IH]; intros [|y q]; simpl; try lia.
  destruct (decide (x = y)); [specialize (IH q)|]; lia.
Qed.

Lemma lcp_le_r p q : (lcp p q <= length q)%nat.
Proof.
  revert q. induction p as [|x p IH]; intros [|y q]; simpl; try lia.
  destruct (decide (x = y)); [specialize (IH q)|]; lia.
Qed.

Lemma lcp_ge p q i :
  take i p = take i q -> (i <= length p)%nat -> (i <= length q)%nat -> (i <= lcp p q)%nat.
Proof.
  revert p q. induction i as [|i IH]; intros p q Ht Hp Hq; [lia|].
  destruct p as [|x p], q as [|y q]; simpl in *; try lia.
  injection Ht as -> Ht. rewrite decide_True by done.
  apply le_n_S, IH; [done|lia|lia].
Qed.

Lemma lcp_head x p q : (1 <= lcp (x :: p) (x :: q))%nat.
Proof. simpl. rewrite decide_True by done. lia. Qed.

Section Simple.
Context (E : string -> string -> option EdgeData) (s t : string).

Lemma simple_path_inv p :
  simple_path E s t p -> exists p', p = s :: p'.
Proof.
  intros [(_ & Hh & _) _]. destruct p as [|x p]; [done|].
  injection Hh as ->. eauto.
Qed.

(** Of two loopless paths to the same node, none is a proper prefix of
    the other. *)
Lemma simple_path_prefix p r :
  simple_path E s t p -> simple_path E s t (p ++ r) -> r = [].
Proof.
  intros [(_ & _ & Hl) _] [(_ & _ & Hl') Hnd].
  destruct r as [|y r] using rev_ind; [done|].
  rewrite app_assoc, last_snoc in Hl'. injection Hl' as ->.
  apply list.NoDup_app in Hnd as (_ & Hdis & _).
  exfalso. apply (Hdis t).
  - apply last_Some in Hl as [p0 ->]. set_solver.
  - set_solver.
Qed.

Lemma lcp_simple p q :
  simple_path E s t p -> simple_path E s t q -> p <> q ->
  (1 <= lcp p q < length p)%nat.
Proof.
  intros Hp Hq Hne.
  destruct (simple_path_inv p Hp) as [p' ->].
  destruct (simple_path_inv q Hq) as [q' ->].
  split; [apply lcp_head|].
  pose proof (lcp_le_l (s :: p') (s :: q')) as Hle.
  destruct (decide (lcp (s :: p') (s :: q') = length (s :: p'))) as [Heq|]; [|lia].
  exfalso. pose proof (lcp_take (s :: p') (s :: q')) as Ht.
  rewrite Heq, firstn_all in Ht.
  apply Hne. rewrite <- (take_drop (length (s :: p')) (s :: q')) in Hq |- *.
  rewrite <- Ht in Hq |- *.
  rewrite (simple_path_prefix _ _ Hp Hq). by rewrite app_nil_r.
Qed.

End Simple.

(** *** Walks over the filtered edges *)

Section Filtered.
Context (G : Graph EdgeData) (wn : string).
Local Abbreviation E := (get_edge_data G).
Local Abbreviation W := (attr_weight wn).

Lemma fedge_empty u v : fedge G ∅ ∅ u v = E u v.
Proof. unfold fedge. rewrite decide_True; [done|set_solver]. Qed.

Lemma fedge_Some IN IE u v d :
  fedge G IN IE u v = Some d ->
  E u v = Some d /\ (u ∉ IN) /\ (v ∉ IN) /\ ((u, v) ∉ IE) /\ ((v, u) ∉ IE).
Proof. unfold fedge. destruct (decide _); [tauto|done]. Qed.

Lemma fedge_walk IN IE p : is_walk (fedge G IN IE) p -> is_walk E p.
Proof.
  induction p as [|u [|v r] IH]; try done.
  intros [[d Hd] Hr]. apply fedge_Some in Hd as [Hd _]. split; [eauto|by apply IH].
Qed.

Lemma fedge_walk_cost IN IE p :
  is_walk (fedge G IN IE) p -> walk_cost (fedge G IN IE) W p = walk_cost E W p.
Proof.
  induction p as [|u [|v r] IH]; try done.
  intros [[d Hd] Hr]. rewrite !walk_cost_cons, IH by done.
  rewrite Hd. apply fedge_Some in Hd as [-> _]. done.
Qed.

Lemma fedge_walk_nodes IN IE p x :
  is_walk (fedge G IN IE) p -> (2 <= length p)%nat -> x ∈ p -> x ∉ IN.
Proof.
  induction p as [|u [|v r] IH]; simpl length; try lia.
  intros [[d Hd] Hr] _ Hx. apply fedge_Some in Hd as (_ & Hu & Hv & _).
  apply elem_of_cons in Hx as [->|Hx]; [done|].
  destruct r as [|z r].
  - apply list_elem_of_singleton in Hx as ->. done.
  - apply IH; [done|simpl; lia|done].
Qed.

Lemma fedge_empty_walk p : is_walk (fedge G ∅ ∅) p <-> is_walk E p.
Proof.
  induction p as [|u [|v r] IH]; [done|done|].
  rewrite (is_walk_cons (fedge G ∅ ∅)), (is_walk_cons E), fedge_empty, IH. done.
Qed.

Lemma fedge_empty_path a b p : is_path (fedge G ∅ ∅) a b p <-> is_path E a b p.
Proof. unfold is_path. by rewrite fedge_empty_walk. Qed.

Lemma fedge_empty_cost p : walk_cost (fedge G ∅ ∅) W p = walk_cost E W p.
Proof.
  induction p as [|u [|v r] IH]; [done|done|].
  by rewrite !walk_cost_cons, IH, fedge_empty.
Qed.

(** A walk of [G] that avoids the ignored nodes and the node [r] is a
    walk over the filtered edges when every ignored edge leaves an
    ignored node or [r]. *)
Lemma walk_avoiding IN IE r p :
  is_walk E p -> (forall u, u ∈ p -> (u ∉ IN) /\ u <> r) ->
  (forall a b, (a, b) ∈ IE -> a ∈ IN \/ a = r) ->
  is_walk (fedge G IN IE) p.
Proof.
  intros Hp Hn HIE. induction p as [|u [|v q] IH]; try done.
  destruct Hp as [[d Hd] Hq]. split.
  - unfold fedge. rewrite decide_True; [eauto|].
    destruct (Hn u) as [Hu1 Hu2]; [set_solver|].
    destruct (Hn v) as [Hv1 Hv2]; [set_solver|].
    repeat split; try done.
    + intros [?|?]%HIE; done.
    + intros [?|?]%HIE; done.
  - apply IH; [done|]. intros x Hx. apply Hn. set_solver.
Qed.

(** The spur part of a loopless path: from [r] on, it avoids the ignored
    nodes, and its first edge is not ignored. *)
Lemma spur_walk IN IE (X : string -> Prop) r q :
  is_walk E (r :: q) -> NoDup (r :: q) -> (forall u, u ∈ r :: q -> u ∉ IN) ->
  (forall a b, (a, b) ∈ IE -> a ∈ IN \/ (a = r /\ X b)) ->
  (forall y, head q = Some y -> ~ X y) ->
  is_walk (fedge G IN IE) (r :: q).
Proof.
  intros Hw Hnd Hn HIE HX. destruct q as [|y q]; [done|].
  destruct Hw as [[d Hd] Hq]. apply list.NoDup_cons in Hnd as [Hr Hnd].
  split.
  - unfold fedge. rewrite decide_True; [eauto|].
    repeat split; try (apply Hn; set_solver).
    + intros [?|[_ ?]]%HIE; [by apply (Hn r); [left|]|]. by apply (HX y).
    + intros [?|[-> _]]%HIE; [by apply (Hn y); [set_solver|]|]. set_solver.
  - apply (walk_avoiding _ _ r); [done| |].
    + intros u Hu. split; [apply Hn; by right|]. intros ->. done.
    + intros a b [?|[? _]]%HIE; auto.
Qed.

(** [length_func] on a walk is its cost. *)
Lemma length_func_acc (p : list string) (a : Q) :
  is_walk E p ->
  exists c, foldlM (fun total '(u, v) => x ← wt wn (E u v); Ok (total + x)%Q) a (pairs p)
            = Ok c /\ (c == a + walk_cost E W p)%Q.
Proof.
  revert a. induction p as [|u [|v r] IH]; intros a Hp; [done| |].
  - exists a. split; [done|]. simpl. lra.
  - destruct Hp as [[d Hd] Hr].
    change (pairs (u :: v :: r)) with ((u, v) :: pairs (v :: r)).
    rewrite walk_cost_cons. cbn [foldlM]. rewrite Hd.
    destruct (IH (a + default 1 (attr_get wn d))%Q Hr) as (c & Hc & Hcq).
    exists c. split; [exact Hc|]. rewrite Hcq.
    unfold attr_weight. lra.
Qed.

Lemma length_func_ok p :
  is_walk E p -> exists c, length_func G wn p = Ok c /\ (c == walk_cost E W p)%Q.
Proof.
  intros Hp. destruct (length_func_acc p 0 Hp) as (c & Hc & Hcq).
  exists c. split; [exact Hc|]. lra.
Qed.

End Filtered.

(** *** The buffer of candidates *)

Section Buffer.
Context (E : string -> string -> option EdgeData) (W : WeightFn) (s t : string).
Local Abbreviation BO := (buf_ok E W s t).

Lemma buf_ok_empty A : BO A pb_empty.
Proof.
  split; simpl.
  - intros p. split; [set_solver|]. intros (c & n & H). by apply elem_of_nil in H.
  - apply NoDup_nil_2.
  - intros c n p H. by apply elem_of_nil in H.
Qed.

Lemma buf_has_empty q : ~ buf_has pb_empty q.
Proof. intros (c & n & H). by apply elem_of_nil in H. Qed.

Lemma pb_push_ok A B c p :
  BO A B -> simple_path E s t p -> (c == walk_cost E W p)%Q -> p ∉ A ->
  BO A (pb_push B c p) /\ buf_has (pb_push B c p) p /\
  forall q, buf_has B q -> buf_has (pb_push B c p) q.
Proof.
  intros [Hset Hu He] Hp Hc HA. unfold pb_push.
  destruct (bool_decide (p ∈ pb_paths B)) eqn:Hin.
  - apply bool_decide_eq_true in Hin. split; [done|]. split; [by apply Hset|done].
  - apply bool_decide_eq_false in Hin. split; [split; simpl|split].
    + intros q. unfold buf_has, heappush. simpl. rewrite elem_of_union, elem_of_singleton.
      split.
      * intros [->|Hq]; [exists c, (pb_counter B); left|].
        apply Hset in Hq as (c' & n' & Hq). exists c', n'. by right.
      * intros (c' & n' & Hq). apply elem_of_cons in Hq as [[= _ _ ->]|Hq]; [by left|].
        right. apply Hset. by exists c', n'.
    + unfold heappush. simpl. apply list.NoDup_cons. split; [|done].
      intros Hq. apply list_elem_of_fmap in Hq as ([[c' n'] q] & -> & Hq).
      apply Hin, Hset. by exists c', n'.
    + intros c' n' q Hq. apply elem_of_cons in Hq as [[= -> -> ->]|Hq]; [done|].
      by apply (He c' n').
    + exists c, (pb_counter B). left.
    + intros q (c' & n' & Hq). exists c', n'. by right.
Qed.

Lemma pb_pop_ok A B p B' :
  BO A B -> pb_pop B = Some (p, B') ->
  buf_has B p /\ BO (A ++ [p]) B' /\
  (forall q, buf_has B q -> q = p \/ buf_has B' q) /\
  (forall q, buf_has B' q -> buf_has B q) /\
  (forall q, buf_has B q -> (walk_cost E W p <= walk_cost E W q)%Q).
Proof.
  intros [Hset Hu He]. unfold pb_pop.
  destruct (heappop pb_key (sortedpaths B)) as [[[[c n] p0] rest]|] eqn:Hpop; [|done].
  intros [= -> <-].
  pose proof (heappop_perm _ _ _ _ Hpop) as Hperm.
  pose proof (heappop_min _ _ _ _ Hpop) as Hmin.
  assert (Hin : forall x, x ∈ sortedpaths B <-> x = (c, n, p) \/ x ∈ rest).
  { intros x. rewrite Hperm. apply elem_of_cons. }
  rewrite Hperm in Hu. simpl in Hu. apply list.NoDup_cons in Hu as [Hp Hu].
  assert (Hrest : forall c' n' q, (c', n', q) ∈ rest -> q <> p).
  { intros c' n' q Hq ->. apply Hp. apply list_elem_of_fmap. by exists (c', n', p). }
  split; [exists c, n; apply Hin; by left|].
  split; [split; simpl|split; [|split]].
  - intros q. rewrite elem_of_difference, elem_of_singleton, Hset. unfold buf_has. simpl.
    split.
    + intros [(c' & n' & Hq) Hne]. exists c', n'.
      apply Hin in Hq as [[= _ _ ->]|Hq]; done.
    + intros (c' & n' & Hq). split; [|by eapply Hrest].
      exists c', n'. apply Hin. by right.
  - done.
  - intros c' n' q Hq. destruct (He c' n' q) as (H1 & H2 & H3); [apply Hin; by right|].
    split; [done|]. split; [done|]. rewrite elem_of_app, list_elem_of_singleton.
    intros [?|?]; [done|]. by eapply Hrest.
  - intros q (c' & n' & Hq). apply Hin in Hq as [[= _ _ ->]|Hq]; [by left|].
    right. by exists c', n'.
  - intros q (c' & n' & Hq). exists c', n'. apply Hin. by right.
  - intros q (c' & n' & Hq). specialize (Hmin _ Hq). simpl in Hmin.
    destruct (He c n p) as (_ & Hc & _); [apply Hin; by left|].
    destruct (He c' n' q) as (_ & Hc' & _); [done|]. lra.
Qed.

Lemma pb_pop_None B : pb_pop B = None -> forall q, ~ buf_has B q.
Proof.
  unfold pb_pop.
  destruct (heappop pb_key (sortedpaths B)) as [[[[c n] p0] rest]|] eqn:Hpop; [done|].
  intros _ q (c' & n' & Hq). apply heappop_None in Hpop. rewrite Hpop in Hq.
  by apply elem_of_nil in Hq.
Qed.

End Buffer.

(** *** The deviation loop *)

Lemma ignore_fold (A : list (list string)) (i : nat) (root : list string)
    (IE0 : gset (string * string)) :
  (forall p, p ∈ A -> take i p = root -> is_Some (p !! (i - 1)%nat) /\ is_Some (p !! i)) ->
  exists IE,
    foldlM (fun ie p =>
              if bool_decide (take i p = root)
              then match p !! (i - 1)%nat, p !! i with
                   | Some a, Some b => Ok ({[(a, b)]} ∪ ie)
                   | _, _ => Raise IndexError
                   end
              else Ok ie) IE0 A = Ok IE /\
    forall a b, (a, b) ∈ IE <->
      (a, b) ∈ IE0 \/
      exists p, p ∈ A /\ take i p = root /\ p !! (i - 1)%nat = Some a /\ p !! i = Some b.
Proof.
  revert IE0. induction A as [|p A IH]; intros IE0 Hlen.
  - exists IE0. split; [done|]. intros a b. split; [by left|].
    intros [?|(p & Hp & _)]; [done|]. by apply elem_of_nil in Hp.
  - cbn [foldlM]. destruct (bool_decide (take i p = root)) eqn:Hroot.
    + apply bool_decide_eq_true in Hroot.
      destruct (Hlen p) as [[a0 Ha0] [b0 Hb0]]; [by left|done|].
      rewrite Ha0, Hb0.
      destruct (IH ({[(a0, b0)]} ∪ IE0)) as (IE & HIE & Hchar).
      { intros q Hq. apply Hlen. by right. }
      exists IE. split; [exact HIE|]. intros a b. rewrite Hchar, elem_of_union, elem_of_singleton.
      split.
      * intros [[[= -> ->]|?]|(q & Hq & H)]; [|by left|].
        -- right. exists p. split; [by left|done].
        -- right. exists q. split; [by right|done].
      * intros [?|(q & Hq & Hr & Ha & Hb)]; [by left; right|].
        apply elem_of_cons in Hq as [->|Hq].
        -- left. left. congruence.
        -- right. by exists q.
    + apply bool_decide_eq_false in Hroot.
      destruct (IH IE0) as (IE & HIE & Hchar).
      { intros q Hq. apply Hlen. by right. }
      exists IE. split; [exact HIE|]. intros a b. rewrite Hchar.
      split.
      * intros [?|(q & Hq & H)]; [by left|]. right. exists q. split; [by right|done].
      * intros [?|(q & Hq & Hr & Ha & Hb)]; [by left|].
        apply elem_of_cons in Hq as [->|Hq]; [done|]. right. by exists q.
Qed.

Lemma bind_Ok {A B} (a : A) (k : A -> result B) : (x ← Ok a; k x) = k a.
Proof. done. Qed.

Section Yen.
Context (G : Graph EdgeData) (wn : string) (s t : string).
Context (Hwf : graph_wf G).
Context (Hnn : nonneg (get_edge_data G) (attr_weight wn)).
Local Abbreviation E := (get_edge_data G).
Local Abbreviation W := (attr_weight wn).
Local Abbreviation SP := (simple_path (get_edge_data G) s t).
Local Abbreviation cost := (walk_cost (get_edge_data G) (attr_weight wn)).

Lemma edge_has_node u v d : E u v = Some d -> has_node G u = true.
Proof.
  intros Hd. apply (wf_sym G Hwf) in Hd. apply (wf_closed G Hwf) in Hd as [x Hx].
  unfold has_node. rewrite (wf_nodes G Hwf). unfold od_mem. by rewrite Hx.
Qed.

Lemma take_middle (pre : list string) r suf :
  take (S (length pre)) (pre ++ r :: suf) = pre ++ [r].
Proof.
  replace (pre ++ r :: suf) with ((pre ++ [r]) ++ suf) by (by rewrite <- app_assoc).
  apply take_app_length'. rewrite length_app. simpl. lia.
Qed.

(** The part of a loopless path after it leaves [prev] is a path over the
    edges the deviation at that position keeps. *)
Lemma deviation_spur (A : list (list string)) prev pre r suf IN IE P :
  SP prev -> prev = pre ++ r :: suf ->
  (forall x, x ∈ IN <-> x ∈ pre) ->
  (forall a b, (a, b) ∈ IE ->
     a ∈ pre \/
     (a = r /\ exists p, p ∈ A /\ take (S (length pre)) p = pre ++ [r] /\
                         p !! S (length pre) = Some b)) ->
  SP P -> (forall a, a ∈ A -> (lcp a P <= lcp prev P)%nat) ->
  lcp prev P = S (length pre) ->
  exists sufP, P = pre ++ r :: sufP /\ is_path (fedge G IN IE) r t (r :: sufP).
Proof.
  intros Hprev -> HIN HIE [HP HndP] Hmax Hlcp.
  pose proof (lcp_take (pre ++ r :: suf) P) as Htake.
  rewrite Hlcp, take_middle in Htake.
  exists (drop (S (length pre)) P).
  assert (HPeq : P = pre ++ r :: drop (S (length pre)) P).
  { rewrite <- (take_drop (S (length pre)) P) at 1. rewrite <- Htake.
    by rewrite <- app_assoc. }
  split; [exact HPeq|]. set (sufP := drop (S (length pre)) P) in *.
  rewrite HPeq in HP, HndP.
  destruct (is_path_split E W s t pre r sufP HP) as (_ & (Hw & Hh & Hl) & _).
  apply list.NoDup_app in HndP as (_ & Hdis & Hnd).
  split; [|done].
  apply (spur_walk G IN IE
           (fun b => exists p, p ∈ A /\ take (S (length pre)) p = pre ++ [r] /\
                               p !! S (length pre) = Some b)); try done.
  - intros u Hu Hin. apply HIN in Hin. by apply (Hdis u).
  - intros a b Hab. destruct (HIE a b Hab) as [?|?]; [left; by apply HIN|by right].
  - intros y Hy (p & Hp & Hroot & Hpy).
    destruct sufP as [|y' sufP'] eqn:Hsuf; [done|]. injection Hy as ->.
    assert (HPy : P !! S (length pre) = Some y).
    { rewrite HPeq. replace (pre ++ r :: y :: sufP') with ((pre ++ [r]) ++ y :: sufP')
        by (by rewrite <- app_assoc).
      apply list_lookup_middle. rewrite length_app. simpl. lia. }
    assert (S (S (length pre)) <= lcp p P)%nat.
    { apply lcp_ge.
      - rewrite (take_S_r _ _ _ Hpy), (take_S_r _ _ _ HPy). by rewrite Hroot, Htake.
      - apply lookup_lt_Some in Hpy. lia.
      - apply lookup_lt_Some in HPy. lia. }
    specialize (Hmax p Hp). lia.
Qed.

(** The candidate the deviation at [r] pushes. *)
Lemma candidate_ok (A : list (list string)) prev pre r suf IN IE spur :
  SP prev -> prev = pre ++ r :: suf -> r <> t ->
  (forall x, x ∈ IN <-> x ∈ pre) ->
  (forall p a b, p ∈ A -> take (S (length pre)) p = pre ++ [r] ->
     p !! length pre = Some a -> p !! S (length pre) = Some b -> (a, b) ∈ IE) ->
  is_path (fedge G IN IE) r t spur -> NoDup spur ->
  SP (pre ++ spur) /\
  (cost (pre ++ spur) == cost (pre ++ [r]) + walk_cost (fedge G IN IE) W spur)%Q /\
  (pre ++ spur ∉ A) /\
  take (S (length pre)) (pre ++ spur) = pre ++ [r] /\
  (S (length pre) <= length (pre ++ spur))%nat.
Proof.
  intros [Hprev Hndprev] -> Hrt HIN HIE (Hw & Hh & Hl) Hnd.
  destruct spur as [|r' spur]; [done|]. injection Hh as ->.
  destruct spur as [|y spur]; [simpl in Hl; congruence|].
  destruct (is_path_split E W s t pre r suf Hprev) as (Hroot & _ & _).
  assert (HwE : is_path E r t (r :: y :: spur)).
  { split; [by eapply fedge_walk|done]. }
  pose proof (is_path_app E s r t (pre ++ [r]) (r :: y :: spur) Hroot HwE) as Hfull.
  pose proof (walk_cost_path_app E W s r t (pre ++ [r]) (r :: y :: spur) Hroot HwE) as Hcost.
  simpl tail in Hfull, Hcost.
  replace ((pre ++ [r]) ++ y :: spur) with (pre ++ r :: y :: spur) in Hfull, Hcost
    by (by rewrite <- app_assoc).
  split; [split; [done|]|split; [|split; [|split]]].
  - apply list.NoDup_app in Hndprev as (Hndpre & _ & _).
    apply list.NoDup_app. split; [done|]. split; [|done].
    intros x Hx Hx'. apply HIN in Hx. revert Hx.
    apply (fedge_walk_nodes G IN IE (r :: y :: spur)); [done|simpl; lia|done].
  - rewrite Hcost. by rewrite (fedge_walk_cost G wn IN IE _ Hw).
  - intros HA. destruct Hw as [[d Hd] _].
    apply fedge_Some in Hd as (_ & _ & _ & Hry & _). apply Hry.
    apply (HIE _ _ _ HA).
    + apply take_middle.
    + by apply list_lookup_middle.
    + replace (pre ++ r :: y :: spur) with ((pre ++ [r]) ++ y :: spur)
        by (by rewrite <- app_assoc).
      apply list_lookup_middle. rewrite length_app. simpl. lia.
  - apply take_middle.
  - rewrite length_app. simpl. lia.
Qed.

Local Arguments bidirectional_dijkstra : simpl never.
Local Arguments length_func : simpl never.
Local Arguments pb_push : simpl never.

Lemma last_elem_of {X} (l : list X) (x : X) : list.last l = Some x -> x ∈ l.
Proof. intros [l' ->]%last_Some. set_solver. Qed.

(** One deviation: it raises nothing, and extends the cover by the paths
    that leave [prev] at this position. *)
Lemma spur_step_ok (A : list (list string)) prev B0 j acc :
  has_node G t = true ->
  (forall a, a ∈ A -> SP a) -> prev ∈ A ->
  (S j < length prev)%nat ->
  spur_inv E W s t A prev B0 (S j) acc ->
  exists acc', spur_step G t wn A prev acc (S j) = Ok acc' /\
    spur_inv E W s t A prev B0 (S (S j)) acc'.
Proof.
  destruct acc as [[IN IE] B]. intros Ht HA Hprev Hj [Hn He Hb Hg Hc].
  simpl in Hn, He, Hb, Hg, Hc.
  rewrite Nat.sub_0_r in Hn, He.
  pose proof (HA _ Hprev) as HSP. pose proof HSP as [Hpath Hnd].
  destruct (lookup_lt_is_Some_2 prev j) as [r Hr]; [lia|].
  pose proof (take_drop_middle prev j r Hr) as Hdec.
  pose proof (take_S_r prev j r Hr) as Hroot.
  assert (Hlen : length (take j prev) = j) by (apply length_take_le; lia).
  assert (Hsuf : drop (S j) prev <> []).
  { intros H0. apply (f_equal length) in H0. rewrite length_drop in H0. simpl in H0. lia. }
  revert Hn He Hdec Hroot Hlen Hsuf.
  generalize (take j prev) (drop (S j) prev). intros pre suf Hn He Hdec Hroot Hlen Hsuf.
  symmetry in Hdec. subst j.
  pose proof Hpath as Hpath'. rewrite Hdec in Hpath'.
  destruct (is_path_split E W s t pre r suf Hpath') as (Hrootp & Hsufp & _).
  assert (Hrt : r <> t).
  { intros ->. destruct Hsufp as (_ & _ & Hl). destruct suf as [|y suf]; [done|].
    change (list.last (t :: y :: suf)) with (list.last (y :: suf)) in Hl.
    apply last_elem_of in Hl. rewrite Hdec in Hnd.
    apply list.NoDup_app in Hnd as (_ & _ & Hnd). apply list.NoDup_cons in Hnd as [Hnd _].
    done. }
  assert (Hrnode : has_node G r = true).
  { destruct suf as [|y suf]; [done|]. destruct Hsufp as ([[d Hd] _] & _).
    by apply (edge_has_node r y d). }
  destruct (length_func_ok G wn (pre ++ [r])) as (rl & Hrl & Hrlq); [by destruct Hrootp|].
  destruct (ignore_fold A (S (length pre)) (pre ++ [r]) IE) as (IE' & HIE' & Hchar).
  { intros p Hp Hpr. replace (S (length pre) - 1)%nat with (length pre) by lia.
    destruct (decide (S (length pre) < length p)%nat) as [Hlt|Hge].
    - split; apply lookup_lt_is_Some; lia.
    - exfalso. rewrite take_ge in Hpr by lia. subst p.
      destruct (HA _ Hp) as [(_ & _ & Hl) _]. rewrite last_snoc in Hl. congruence. }
  assert (Hchar' : forall a b, (a, b) ∈ IE' <->
            (a, b) ∈ IE \/
            exists p, p ∈ A /\ take (S (length pre)) p = pre ++ [r] /\
                      p !! length pre = Some a /\ p !! S (length pre) = Some b).
  { intros a b. rewrite Hchar. by replace (S (length pre) - 1)%nat with (length pre) by lia. }
  clear Hchar.
  assert (Hfirst : forall p a, take (S (length pre)) p = pre ++ [r] ->
            p !! length pre = Some a -> a = r).
  { intros p a Hp Ha. assert (Hx : take (S (length pre)) p !! length pre = Some a).
    { apply lookup_take_Some. split; [done|lia]. }
    rewrite Hp, list_lookup_middle in Hx by done. congruence. }
  unfold spur_step. rewrite Hroot, Hrl, bind_Ok, HIE', bind_Ok, last_snoc.
  replace (take (length (pre ++ [r]) - 1) (pre ++ [r])) with pre; cycle 1.
  { rewrite length_app. simpl. replace (length pre + 1 - 1)%nat with (length pre) by lia.
    by rewrite take_app_length. }
  pose proof (bidirectional_dijkstra_ok G wn IN IE' r t Hwf Hnn Hrnode Ht
                (fun H => False_ind _ (Hrt H))) as Hres.
  assert (HdevP : forall P, SP P -> P ∉ A ->
            (forall a, a ∈ A -> (lcp a P <= lcp prev P)%nat) ->
            lcp prev P = S (length pre) ->
            exists sufP, P = pre ++ r :: sufP /\ is_path (fedge G IN IE') r t (r :: sufP)).
  { intros P HP HPA Hmax Hl.
    apply (deviation_spur A prev pre r suf IN IE' P HSP Hdec Hn); [|done|done|done].
    intros a b [Hab|(p & Hp & Hpr & Ha & Hpb)]%Hchar'; [left; by eapply He|].
    right. split; [by eapply Hfirst|]. by exists p. }
  assert (Hnodes' : forall x, x ∈ {[r]} ∪ IN <-> x ∈ take (S (S (length pre)) - 1) prev).
  { intros x. replace (S (S (length pre)) - 1)%nat with (S (length pre)) by lia.
    rewrite Hroot, elem_of_union, elem_of_singleton, elem_of_app, list_elem_of_singleton, Hn.
    tauto. }
  assert (Hedges' : forall a b, (a, b) ∈ IE' -> a ∈ take (S (S (length pre)) - 1) prev).
  { intros a b. replace (S (S (length pre)) - 1)%nat with (S (length pre)) by lia.
    rewrite Hroot, elem_of_app, list_elem_of_singleton.
    intros [Hab|(p & Hp & Hpr & Ha & Hpb)]%Hchar'; [left; by eapply He|].
    right. by eapply Hfirst. }
  destruct (bidirectional_dijkstra G r t wn IN IE') as [[len spur]|e].
  - destruct Hres as (Hspur & Hndspur & Hcostspur & Hopt).
    destruct (candidate_ok A prev pre r suf IN IE' spur) as (HC & HCcost & HCA & HCtake & HClen);
      try done.
    { intros p a b Hp Hpr Ha Hpb. apply Hchar'. right. by exists p. }
    destruct (pb_push_ok E W s t A B (rl + len)%Q (pre ++ spur)) as (Hb' & Hhas & Hmono);
      try done.
    { rewrite HCcost, Hrlq, Hcostspur. done. }
    rewrite bind_Ok. eexists. split; [reflexivity|].
    split; simpl; try done.
    + intros q Hq. by apply Hmono, Hg.
    + intros P HP HPA Hmax Hlt.
      destruct (decide (lcp prev P = S (length pre))) as [Heq|Hne].
      * destruct (HdevP P HP HPA Hmax Heq) as (sufP & HPeq & HsufP).
        exists (pre ++ spur). split; [done|]. split.
        -- destruct HP as [HP _]. rewrite HPeq in HP |- *.
           destruct (is_path_split E W s t pre r sufP HP) as (_ & _ & Hsplit).
           rewrite Hsplit, HCcost, Hcostspur.
           specialize (Hopt _ HsufP).
           rewrite (fedge_walk_cost G wn IN IE') in Hopt by (by destruct HsufP). lra.
        -- rewrite Heq. apply lcp_ge; [|done|].
           ++ rewrite HCtake, HPeq. by rewrite take_middle.
           ++ rewrite HPeq, length_app. simpl. lia.
      * destruct (Hc P HP HPA Hmax) as (C & HC1 & HC2 & HC3); [lia|].
        exists C. split; [by apply Hmono|done].
  - destruct Hres as [-> Hnone]. simpl. eexists. split; [reflexivity|].
    split; simpl; try done.
    intros P HP HPA Hmax Hlt.
    destruct (decide (lcp prev P = S (length pre))) as [Heq|Hne].
    + destruct (HdevP P HP HPA Hmax Heq) as (sufP & HPeq & HsufP).
      by destruct (Hnone _ HsufP).
    + apply Hc; try done. lia.
Qed.

Local Arguments spur_step : simpl never.

Lemma spur_fold_ok (A : list (list string)) prev B0 n : forall i acc,
  has_node G t = true ->
  (forall a, a ∈ A -> SP a) -> prev ∈ A ->
  (i + n = length prev)%nat -> (1 <= i)%nat ->
  spur_inv E W s t A prev B0 i acc ->
  exists acc', foldlM (spur_step G t wn A prev) acc (seq i n) = Ok acc' /\
    spur_inv E W s t A prev B0 (length prev) acc'.
Proof.
  induction n as [|n IH]; intros i acc Ht HA Hprev Hin Hi Hinv.
  - exists acc. split; [done|]. by replace (length prev) with i by lia.
  - destruct i as [|j]; [lia|].
    destruct (spur_step_ok A prev B0 j acc Ht HA Hprev) as (acc1 & Hstep & Hinv1);
      [lia|done|].
    destruct (IH (S (S j)) acc1) as (acc' & Hfold & Hinv'); try done; try lia.
    exists acc'. split; [|done]. cbn [seq foldlM]. by rewrite Hstep, bind_Ok.
Qed.

Lemma elem_of_snoc {X} (l : list X) (x y : X) : y ∈ l ++ [x] <-> y ∈ l \/ y = x.
Proof. by rewrite elem_of_app, list_elem_of_singleton. Qed.

(** Taking the cheapest candidate once every outstanding path is
    covered. *)
Lemma pop_phase (A : list (list string)) (B : PathBuffer) :
  accepted_ok E W s t A -> buf_ok E W s t A B ->
  (forall P, SP P -> P ∉ A -> covered E W A B P) ->
  (A = [] -> forall C q, buf_has B C -> is_path E s t q -> (cost C <= cost q)%Q) ->
  match pb_pop B with
  | Some (p, B') => gen_inv E W s t {| listA := A ++ [p]; listB := B'; prev_path := Some p |}
  | None => forall P, SP P -> P ∈ A
  end.
Proof.
  intros [HAs HAn HAo HAm HAf] HB Hcov Hfirst.
  destruct (pb_pop B) as [[p B']|] eqn:Hpop.
  - destruct (pb_pop_ok E W s t A B p B' HB Hpop) as (Hp & HB' & Hsplit & Hsub & Hmin).
    destruct Hp as (c & n & Hp).
    destruct (bo_entry _ _ _ _ _ _ HB c n p Hp) as (HSPp & _ & HpA).
    assert (Hp' : buf_has B p) by (by exists c, n).
    split; [split|]; simpl.
    + intros a [Ha | ->]%elem_of_snoc; auto.
    + apply list.NoDup_app. split; [done|]. split; [|apply NoDup_singleton].
      intros a Ha Hq%list_elem_of_singleton. by subst a.
    + intros i j a b Hij Ha Hb.
      apply lookup_snoc_Some in Ha as [[Hi Ha]|[-> <-]];
        apply lookup_snoc_Some in Hb as [[Hj Hb]|[-> <-]].
      * by apply (HAo i j).
      * apply HAm; [by eapply list_elem_of_lookup_2|done|done].
      * lia.
      * lra.
    + intros a P [Ha | ->]%elem_of_snoc HP HPA;
        rewrite elem_of_app in HPA.
      * apply HAm; auto.
      * destruct (Hcov P HP) as (C & HC & HCc & _); [auto|].
        specialize (Hmin C HC). lra.
    + intros a q Ha Hq. destruct A as [|a0 A'].
      * injection Ha as <-. by apply Hfirst.
      * apply HAf; done.
    + split; [by rewrite last_snoc|]. split; [done|].
      intros P HP HPA. rewrite elem_of_app, list_elem_of_singleton in HPA.
      destruct (Hcov P HP) as (C & HC & HCc & HCl); [auto|].
      destruct (decide (C = p)) as [->|Hne].
      * right. intros a [Ha | ->]%elem_of_snoc; auto.
      * destruct (Hsplit C HC) as [?|HC']; [done|].
        destruct (decide (lcp p P <= lcp C P)%nat) as [Hle|Hgt].
        -- left. exists C. split; [done|]. split; [done|].
           intros a [Ha | ->]%elem_of_snoc; auto.
        -- right. intros a [Ha | ->]%elem_of_snoc; [|done].
           specialize (HCl a Ha). lia.
  - intros P HP. destruct (decide (P ∈ A)) as [|HPA]; [done|].
    destruct (Hcov P HP HPA) as (C & HC & _). by destruct (pb_pop_None B Hpop C).
Qed.

Local Arguments pb_pop : simpl never.

(** Resuming the generator: it yields the next path and keeps its
    invariant, or is exhausted once every loopless path has been
    yielded, or raises [NetworkXNoPath] at the start when there is no
    path at all. *)
Lemma gen_next_ok (g : GenState) :
  has_node G s = true -> has_node G t = true ->
  gen_inv E W s t g ->
  match gen_next G s t wn g with
  | Ok (Some (p, g')) => gen_inv E W s t g' /\ listA g' = listA g ++ [p]
  | Ok None => listA g <> [] /\ forall P, SP P -> P ∈ listA g
  | Raise e => e = NetworkXNoPath /\ listA g = [] /\ forall q, ~ is_path E s t q
  end.
Proof.
  intros Hs Ht [HA Hst]. destruct g as [A B prev]. simpl in *.
  unfold gen_next. simpl.
  destruct prev as [prev|].
  - destruct Hst as (Hlast & HB & Hcov).
    assert (Hprev : prev ∈ A) by (by apply last_elem_of).
    pose proof (ao_simple _ _ _ _ _ HA) as HAs.
    pose proof (HAs _ Hprev) as HSPprev.
    destruct prev as [|x prev']; [by destruct HSPprev as [(? & ? & ?) _]|].
    set (prev := x :: prev') in *.
    destruct (spur_fold_ok A prev B (length prev - 1) 1 (∅, ∅, B)) as (acc' & Hfold & Hinv);
      try done.
    { simpl. lia. }
    { split; cbn [fst snd].
      - intros y. split; [set_solver|]. by intros ?%elem_of_nil.
      - intros a b. set_solver.
      - done.
      - done.
      - intros P HP HPA _ Hlt. assert (Hne : prev <> P) by (by intros ->).
        pose proof (lcp_simple E s t prev P HSPprev HP Hne). lia. }
    rewrite Hfold, bind_Ok. destruct acc' as [[IN' IE'] B'']. rewrite bind_Ok.
    destruct Hinv as [_ _ HB'' Hgrow Hcover]. cbn [fst snd] in *.
    assert (Hfull : forall P, SP P -> P ∉ A -> covered E W A B'' P).
    { intros P HP HPA. destruct (Hcov P HP HPA) as [(C & HC & HCc & HCl)|Hmax].
      - exists C. split; [by apply Hgrow|done].
      - destruct (Hcover P HP HPA Hmax) as (C & HC & HCc & HCl).
        { assert (Hne : prev <> P) by (by intros ->).
          pose proof (lcp_simple E s t prev P HSPprev HP Hne). lia. }
        exists C. split; [done|]. split; [done|].
        intros a Ha. specialize (Hmax a Ha). lia. }
    pose proof (pop_phase A B'' HA HB'' Hfull) as Hpop.
    destruct (pb_pop B'') as [[p Bp]|].
    + split; [|done]. apply Hpop. intros ->. by apply elem_of_nil in Hprev.
    + split; [|apply Hpop; by intros ->; apply elem_of_nil in Hprev].
      intros ->. by apply elem_of_nil in Hprev.
  - destruct Hst as [-> ->].
    pose proof (bidirectional_dijkstra_ok G wn ∅ ∅ s t Hwf Hnn Hs Ht
                  (fun _ => not_elem_of_empty s)) as Hres.
    destruct (bidirectional_dijkstra G s t wn ∅ ∅) as [[len p]|e]; simpl.
    + destruct Hres as (Hp & Hnd & Hc & Hopt).
      apply fedge_empty_path in Hp. rewrite fedge_empty_cost in Hc.
      assert (Hopt' : forall q, is_path E s t q -> (cost p <= cost q)%Q).
      { intros q Hq. apply fedge_empty_path in Hq. specialize (Hopt q Hq).
        rewrite fedge_empty_cost in Hopt. lra. }
      assert (HSPp : SP p) by done.
      destruct (pb_push_ok E W s t [] pb_empty len p) as (HB & Hhas & _);
        [apply buf_ok_empty|done|by symmetry|apply not_elem_of_nil|].
      assert (Honly : forall C, buf_has (pb_push pb_empty len p) C -> C = p).
      { intros C (c & n & HC). unfold pb_push in HC.
        rewrite bool_decide_eq_false_2 in HC by apply not_elem_of_empty.
        simpl in HC. unfold heappush in HC. apply list_elem_of_singleton in HC. congruence. }
      pose proof (pop_phase [] (pb_push pb_empty len p) HA HB) as Hpop.
      destruct (pb_pop (pb_push pb_empty len p)) as [[p' Bp]|].
      * split; [|done]. apply Hpop.
        -- intros P HP _. exists p. split; [done|]. split; [apply Hopt'; by destruct HP|].
           intros a Ha. by apply elem_of_nil in Ha.
        -- intros _ C q HC Hq. rewrite (Honly C HC). by apply Hopt'.
      * exfalso. eapply elem_of_nil. apply (Hpop); [| |exact HSPp].
        -- intros P HP _. exists p. split; [done|]. split; [apply Hopt'; by destruct HP|].
           intros a Ha. by apply elem_of_nil in Ha.
        -- intros _ C q HC Hq. rewrite (Honly C HC). by apply Hopt'.
    + destruct Hres as [-> Hnone]. split; [done|]. split; [done|].
      intros q Hq. apply fedge_empty_path in Hq. by apply (Hnone q).
Qed.

Local Arguments gen_next : simpl never.

Lemma accepted_k_paths (k : Z) (A : list (list string)) :
  accepted_ok E W s t A -> A <> [] ->
  (Z.of_nat (length A) <= Z.max k 1)%Z ->
  ((Z.of_nat (length A) < k)%Z -> forall P, SP P -> P ∈ A) ->
  k_paths_ok E W s t k A.
Proof. intros [? ? ? ? ?] ? ? ?. by split. Qed.

Lemma k_loop_ok (k : Z) (fuel : nat) : forall g ps,
  has_node G s = true -> has_node G t = true ->
  gen_inv E W s t g -> ps = listA g ->
  (Z.to_nat k - length ps < fuel)%nat ->
  (ps = [] \/ (Z.of_nat (length ps) < k)%Z) ->
  match k_loop fuel G s t wn k g ps with
  | Ok r => k_paths_ok E W s t k r
  | Raise e => e = NetworkXNoPath /\ forall q, ~ is_path E s t q
  end.
Proof.
  induction fuel as [|fuel IH]; intros g ps Hs Ht Hg -> Hfuel Hk; [lia|].
  cbn [k_loop]. pose proof (gen_next_ok g Hs Ht Hg) as Hnext.
  destruct (gen_next G s t wn g) as [[[p g']|]|e]; simpl.
  - destruct Hnext as [Hg' HA'].
    assert (Hlen : length (listA g ++ [p]) = S (length (listA g))).
    { rewrite length_app. simpl. lia. }
    destruct (k <=? Z.of_nat (length (listA g ++ [p])))%Z eqn:Hcmp.
    + apply Z.leb_le in Hcmp. rewrite <- HA'. apply accepted_k_paths.
      * by destruct Hg'.
      * rewrite HA'. by destruct (listA g).
      * rewrite HA', Hlen. destruct Hk as [->|Hk]; simpl; lia.
      * rewrite HA'. lia.
    + apply Z.leb_gt in Hcmp. apply IH; try done; [lia|lia].
  - destruct Hnext as [Hne Hall]. apply accepted_k_paths; try done.
    + by destruct Hg.
    + destruct Hk as [?|?]; [done|lia].
  - destruct Hnext as (-> & _ & Hnone). done.
Qed.

Lemma k_shortest_paths_spec (k : Z) :
  has_node G s = true -> has_node G t = true ->
  match k_shortest_paths G s t wn k with
  | Ok r => k_paths_ok E W s t k r
  | Raise e => e = NetworkXNoPath /\ forall q, ~ is_path E s t q
  end.
Proof.
  intros Hs Ht. unfold k_shortest_paths, gen_start. rewrite Hs, Ht.
  cbn [negb]. rewrite bind_Ok.
  apply k_loop_ok; try done.
  - split; [|done]. split; simpl; try done.
    + intros a Ha. by apply elem_of_nil in Ha.
    + apply NoDup_nil_2.
    + intros a P Ha. by apply elem_of_nil in Ha.
  - simpl. lia.
  - by left.
Qed.

(** On a connected pair the enumeration answers, and its answer is
    right. *)
Lemma k_shortest_paths_ok (k : Z) :
  has_node G s = true -> has_node G t = true ->
  (exists q, is_path E s t q) ->
  exists ps, k_shortest_paths G s t wn k = Ok ps /\ k_paths_ok E W s t k ps.
Proof.
  intros Hs Ht [q Hq]. pose proof (k_shortest_paths_spec k Hs Ht) as H.
  destruct (k_shortest_paths G s t wn k) as [ps|e]; [eauto|].
  destruct H as [_ Hnone]. by destruct (Hnone q).
Qed.

(** Without a path it raises [NetworkXNoPath]. *)
Lemma k_shortest_paths_none (k : Z) :
  has_node G s = true -> has_node G t = true ->
  (forall q, ~ is_path E s t q) ->
  k_shortest_paths G s t wn k = Raise NetworkXNoPath.
Proof.
  intros Hs Ht Hnone. pose proof (k_shortest_paths_spec k Hs Ht) as H.
  destruct (k_shortest_paths G s t wn k) as [ps|e]; [|by destruct H as [-> _]].
  destruct H as [Hne _ Hsimple _ _ _ _ _]. destruct ps as [|p ps]; [done|].
  destruct (Hsimple p) as [Hp _]; [by left|]. by destruct (Hnone p).
Qed.

End Yen.

Section OD.
Context {V : Type}.
Implicit Types d : list (string * V).

Lemma od_get_set k k' v d :
  od_get k (od_set k' v d) = if String.eqb k k' then Some v else od_get k d.
Proof.
  induction d as [|[k0 v0] d IH]; simpl.
  - by destruct (String.eqb k k').
  - destruct (String.eqb_spec k' k0) as [->|Hne]; simpl.
    + by destruct (String.eqb k k0).
    + destruct (String.eqb_spec k k0) as [->|Hne'].
      * destruct (String.eqb_spec k0 k') as [->|_]; done.
      * done.
Qed.

Lemma od_mem_elem k d : od_mem k d = true <-> k ∈ d.*1.
Proof.
  unfold od_mem. induction d as [|[k0 v0] d IH]; simpl.
  - split; [done|]. by intros ?%elem_of_nil.
  - rewrite elem_of_cons. destruct (String.eqb_spec k k0) as [->|Hne]; [tauto|].
    rewrite IH. split; [tauto|]. by intros [?|?].
Qed.

Lemma od_get_None k d : od_get k d = None <-> k ∉ d.*1.
Proof.
  rewrite <- od_mem_elem. unfold od_mem. destruct (od_get k d); split; done.
Qed.

Lemma od_mem_set k k' v d : od_mem k (od_set k' v d) = String.eqb k k' || od_mem k d.
Proof. unfold od_mem. rewrite od_get_set. by destruct (String.eqb k k'). Qed.

Lemma od_set_keys k v d :
  (od_set k v d).*1 = if od_mem k d then d.*1 else d.*1 ++ [k].
Proof.
  unfold od_mem. induction d as [|[k0 v0] d IH]; [done|].
  cbn [od_set od_get]. destruct (String.eqb_spec k k0) as [->|Hne]; [done|].
  rewrite !fmap_cons, IH. by destruct (od_get k d).
Qed.

Lemma od_set_NoDup k v d : NoDup d.*1 -> NoDup (od_set k v d).*1.
Proof.
  intros Hnd. rewrite od_set_keys. destruct (od_mem k d) eqn:Hm; [done|].
  apply list.NoDup_app. split; [done|]. split; [|apply NoDup_singleton].
  intros x Hx ->%list_elem_of_singleton. apply od_mem_elem in Hx. congruence.
Qed.

Lemma od_set_id k v d : od_get k d = Some v -> od_set k v d = d.
Proof.
  induction d as [|[k0 v0] d IH]; simpl; [done|].
  destruct (String.eqb_spec k k0) as [->|Hne]; [by intros [= ->]|].
  intros H. by rewrite IH.
Qed.

Lemma od_get_in k v d : NoDup d.*1 -> od_get k d = Some v <-> (k, v) ∈ d.
Proof. intros Hnd. split; [apply od_get_elem|by apply od_get_NoDup]. Qed.

End OD.

(** *** Building a graph *)

Section Build.
Context {E : Type}.
Implicit Types G : Graph E.

Lemma has_node_adj_mem G n : graph_wf G -> has_node G n = od_mem n (_adj G).
Proof. intros Hwf. apply (wf_nodes G Hwf). Qed.

Lemma get_edge_data_None G u v : od_get u (_adj G) = None -> get_edge_data G u v = None.
Proof. unfold get_edge_data. by intros ->. Qed.

Lemma gwf_empty : gwf (@empty_graph E).
Proof.
  split; [split|split]; simpl; try done; apply NoDup_nil_2.
Qed.

Lemma new_node_wf G n (a : option NodeData) :
  gwf G -> has_node G n = false ->
  let G' := {| _node := od_set n a (_node G); _adj := od_set n [] (_adj G) |} in
  gwf G' /\ (forall u v, get_edge_data G' u v = get_edge_data G u v) /\
  (forall u, od_get u (_node G') = if String.eqb u n then Some a else od_get u (_node G)).
Proof.
  intros (Hwf & Hn & Ha) Hnew G'.
  assert (Hadj : od_get n (_adj G) = None).
  { rewrite (has_node_adj_mem G n Hwf) in Hnew. unfold od_mem in Hnew.
    by destruct (od_get n (_adj G)). }
  assert (Hedge : forall u v, get_edge_data G' u v = get_edge_data G u v).
  { intros u v. unfold get_edge_data, G'. simpl. rewrite od_get_set.
    destruct (String.eqb_spec u n) as [->|Hne]; [by rewrite Hadj|done]. }
  split; [|split; [done|intros u; apply od_get_set]].
  split; [split|split]; simpl.
  - intros u nbrs. rewrite od_get_set. destruct (String.eqb u n).
    + intros [= <-]. apply NoDup_nil_2.
    + apply (wf_nbr_keys G Hwf).
  - intros u v x. rewrite Hedge. intros Hx. apply (wf_closed G Hwf) in Hx.
    rewrite od_get_set. by destruct (String.eqb v n).
  - intros u. rewrite !od_mem_set. f_equal. apply (wf_nodes G Hwf).
  - intros u v x. rewrite !Hedge. apply (wf_sym G Hwf).
  - by apply od_set_NoDup.
  - by apply od_set_NoDup.
Qed.

Lemma ensure_node_wf G n :
  gwf G ->
  gwf (ensure_node n G) /\
  (forall u v, get_edge_data (ensure_node n G) u v = get_edge_data G u v) /\
  (forall u, od_get u (_node (ensure_node n G)) =
             match od_get u (_node G) with
             | Some x => Some x
             | None => if String.eqb u n then Some None else None
             end).
Proof.
  intros HG. unfold ensure_node. destruct (has_node G n) eqn:Hn.
  - split; [done|]. split; [done|]. intros u.
    destruct (od_get u (_node G)) eqn:Hu; [done|].
    destruct (String.eqb_spec u n) as [->|]; [|done].
    unfold has_node, od_mem in Hn. by rewrite Hu in Hn.
  - destruct (new_node_wf G n None HG Hn) as (H1 & H2 & H3).
    split; [done|]. split; [done|]. intros u. rewrite H3.
    destruct (String.eqb_spec u n) as [->|]; [|by destruct (od_get u (_node G))].
    unfold has_node, od_mem in Hn. by destruct (od_get n (_node G)).
Qed.

Lemma add_node_wf G n (a : NodeData) :
  gwf G ->
  gwf (add_node n a G) /\
  (forall u v, get_edge_data (add_node n a G) u v = get_edge_data G u v) /\
  (forall u, od_get u (_node (add_node n a G)) =
             if String.eqb u n then Some (Some a) else od_get u (_node G)).
Proof.
  intros HG. unfold add_node. destruct (has_node G n) eqn:Hn.
  - destruct HG as (Hwf & Hnk & Hak).
    split; [|split; [done|intros u; apply od_get_set]].
    split; [split|split]; simpl.
    + apply (wf_nbr_keys G Hwf).
    + apply (wf_closed G Hwf).
    + intros u. rewrite od_mem_set. destruct (String.eqb_spec u n) as [->|]; simpl.
      * rewrite <- (wf_nodes G Hwf). by symmetry.
      * apply (wf_nodes G Hwf).
    + apply (wf_sym G Hwf).
    + by apply od_set_NoDup.
    + done.
  - by apply new_node_wf.
Qed.

Lemma set_adj_adj G u v x a :
  od_mem u (_adj G) = true ->
  od_get a (_adj (set_adj u v x G)) =
  if String.eqb a u then od_set v x <$> od_get u (_adj G) else od_get a (_adj G).
Proof.
  unfold set_adj, od_mem. destruct (od_get u (_adj G)) as [nbrs|] eqn:Hu; [|done].
  intros _. simpl. rewrite od_get_set. by destruct (String.eqb a u).
Qed.

Lemma set_adj_edge G u v x a b :
  od_mem u (_adj G) = true ->
  get_edge_data (set_adj u v x G) a b =
  if decide (a = u /\ b = v) then Some x else get_edge_data G a b.
Proof.
  intros Hu. unfold get_edge_data at 1. rewrite set_adj_adj by done.
  unfold od_mem in Hu. unfold get_edge_data.
  destruct (String.eqb_spec a u) as [->|Hne].
  - destruct (od_get u (_adj G)) as [nbrs|]; [|done]. simpl. rewrite od_get_set.
    destruct (String.eqb_spec b v) as [->|Hne].
    + by rewrite decide_True.
    + rewrite decide_False; [done|]. by intros [_ ?].
  - rewrite decide_False; [done|]. by intros [? _].
Qed.

Lemma set_adj_node G u v x : _node (set_adj u v x G) = _node G.
Proof. unfold set_adj. by destruct (od_get u (_adj G)). Qed.

Lemma set_adj_mem G u v x a :
  od_mem a (_adj (set_adj u v x G)) = od_mem a (_adj G).
Proof.
  unfold set_adj. destruct (od_get u (_adj G)) as [nbrs|] eqn:Hu; [|done].
  simpl. rewrite od_mem_set. destruct (String.eqb_spec a u) as [->|]; [|done].
  unfold od_mem. by rewrite Hu.
Qed.

Lemma set_adj_keys G u v x : NoDup (_adj G).*1 -> NoDup (_adj (set_adj u v x G)).*1.
Proof.
  unfold set_adj. destruct (od_get u (_adj G)) as [nbrs|] eqn:Hu; [|done].
  simpl. apply od_set_NoDup.
Qed.

Lemma set_adj_nbr_keys G u v x :
  (forall a nbrs, od_get a (_adj G) = Some nbrs -> NoDup nbrs.*1) ->
  forall a nbrs, od_get a (_adj (set_adj u v x G)) = Some nbrs -> NoDup nbrs.*1.
Proof.
  intros Hnd a nbrs. unfold set_adj.
  destruct (od_get u (_adj G)) as [nu|] eqn:Hu; [|apply Hnd].
  simpl. rewrite od_get_set. destruct (String.eqb_spec a u) as [->|]; [|apply Hnd].
  intros [= <-]. apply od_set_NoDup. by apply (Hnd u).
Qed.

(** Linking [u] and [v] by the payload [x], in both directions. *)
Lemma link_wf G u v x :
  gwf G -> has_node G u = true -> has_node G v = true ->
  let G' := set_adj v u x (set_adj u v x G) in
  gwf G' /\ _node G' = _node G /\
  (forall a b, get_edge_data G' a b =
               if decide ((a = u /\ b = v) \/ (a = v /\ b = u)) then Some x
               else get_edge_data G a b).
Proof.
  intros (Hwf & Hnk & Hak) Hu Hv G'.
  rewrite (has_node_adj_mem G u Hwf) in Hu. rewrite (has_node_adj_mem G v Hwf) in Hv.
  assert (Hv1 : od_mem v (_adj (set_adj u v x G)) = true) by (by rewrite set_adj_mem).
  assert (Hedge : forall a b, get_edge_data G' a b =
               if decide ((a = u /\ b = v) \/ (a = v /\ b = u)) then Some x
               else get_edge_data G a b).
  { intros a b. unfold G'. rewrite set_adj_edge by done. rewrite set_adj_edge by done.
    destruct (decide (a = v /\ b = u)), (decide (a = u /\ b = v));
      (rewrite decide_True by tauto) || (rewrite decide_False by tauto); done. }
  assert (Hmem : forall a, od_mem a (_adj G') = od_mem a (_adj G)).
  { intros a. unfold G'. by rewrite !set_adj_mem. }
  split; [|split; [unfold G'; by rewrite !set_adj_node|done]].
  split; [split|split].
  - unfold G'. apply set_adj_nbr_keys, set_adj_nbr_keys, (wf_nbr_keys G Hwf).
  - intros a b y. rewrite Hedge. specialize (Hmem b). unfold od_mem in Hmem, Hu, Hv.
    destruct (decide _) as [[[-> ->]|[-> ->]]|_].
    + intros _. destruct (od_get v (_adj G')); [eauto|].
      by destruct (od_get v (_adj G)).
    + intros _. destruct (od_get u (_adj G')); [eauto|].
      by destruct (od_get u (_adj G)).
    + intros Hy. apply (wf_closed G Hwf) in Hy as [z Hz]. rewrite Hz in Hmem.
      destruct (od_get b (_adj G')); [eauto|done].
  - intros a. rewrite Hmem. unfold G'. rewrite !set_adj_node. apply (wf_nodes G Hwf).
  - intros a b y. rewrite !Hedge.
    destruct (decide ((a = u /\ b = v) \/ (a = v /\ b = u))) as [Hd|Hd].
    + rewrite decide_True by tauto. done.
    + rewrite decide_False by tauto. apply (wf_sym G Hwf).
  - unfold G'. by rewrite !set_adj_node.
  - unfold G'. by apply set_adj_keys, set_adj_keys.
Qed.

End Build.

Lemma sg_wf_gwf G s : sg_wf G s -> gwf G.
Proof. intros [? ? ? ?]. by split. Qed.

Lemma gwf_sg_wf G s :
  gwf G -> (forall u v l, get_edge_data G u v = Some l -> (l < length s)%nat) -> sg_wf G s.
Proof. intros (? & ? & ?) ?. by split. Qed.

Lemma ensure_node_has {E} (G : Graph E) n u :
  has_node (ensure_node n G) u = String.eqb u n || has_node G u.
Proof.
  unfold ensure_node. destruct (has_node G n) eqn:Hn.
  - destruct (String.eqb_spec u n) as [->|]; [by rewrite Hn|done].
  - unfold has_node. simpl. apply od_mem_set.
Qed.

(** [add_edge] keeps the graph well formed; an existing edge keeps its
    cell, which is updated, and a new edge gets the next cell. *)
Lemma add_edge_wf u v attr G s :
  sg_wf G s ->
  sg_wf (add_edge u v attr (G, s)).1 (add_edge u v attr (G, s)).2 /\
  match get_edge_data G u v with
  | Some l =>
      (add_edge u v attr (G, s)).2 =
        match s !! l with Some old => <[l := dict_update old attr]> s | None => s end /\
      forall a b, get_edge_data (add_edge u v attr (G, s)).1 a b = get_edge_data G a b
  | None =>
      (add_edge u v attr (G, s)).2 = s ++ [attr] /\
      forall a b, get_edge_data (add_edge u v attr (G, s)).1 a b =
        if decide ((a = u /\ b = v) \/ (a = v /\ b = u)) then Some (length s)
        else get_edge_data G a b
  end.
Proof.
  intros Hwf. pose proof (sg_wf_gwf G s Hwf) as HG.
  destruct (ensure_node_wf G u HG) as (HG1 & He1 & _).
  destruct (ensure_node_wf (ensure_node u G) v HG1) as (HG2 & He2 & _).
  set (G2 := ensure_node v (ensure_node u G)) in *.
  assert (He : forall a b, get_edge_data G2 a b = get_edge_data G a b).
  { intros a b. by rewrite He2, He1. }
  assert (Hu : has_node G2 u = true).
  { unfold G2. rewrite !ensure_node_has. rewrite String.eqb_refl. by rewrite orb_true_r. }
  assert (Hv : has_node G2 v = true).
  { unfold G2. rewrite !ensure_node_has. by rewrite String.eqb_refl. }
  unfold add_edge. fold G2. rewrite He.
  destruct (get_edge_data G u v) as [l|] eqn:Huv.
  - destruct (link_wf G2 u v l HG2 Hu Hv) as (HG' & Hn' & He'). cbn [fst snd].
    assert (Hsame : forall a b,
              get_edge_data (set_adj v u l (set_adj u v l G2)) a b = get_edge_data G a b).
    { intros a b. rewrite He', He.
      destruct (decide _) as [[[-> ->]|[-> ->]]|_]; [done| |done].
      symmetry. by apply (wf_sym G (sg_graph G s Hwf)). }
    split; [|done]. apply gwf_sg_wf; [done|].
    intros a b l'. rewrite Hsame. intros Hl. apply (sg_range G s Hwf) in Hl.
    destruct (s !! l); [|done]. by rewrite length_insert.
  - destruct (link_wf G2 u v (length s) HG2 Hu Hv) as (HG' & Hn' & He'). cbn [fst snd].
    split; [|split; [done|]].
    + apply gwf_sg_wf; [done|]. intros a b l'. rewrite He', He, length_app. simpl.
      destruct (decide _); [intros [= <-]; lia|].
      intros Hl. apply (sg_range G s Hwf) in Hl. lia.
    + intros a b. by rewrite He', He.
Qed.

Lemma add_edge_nodes u v attr (G : Graph loc) s :
  has_node G u = true -> has_node G v = true ->
  _node (add_edge u v attr (G, s)).1 = _node G.
Proof.
  intros Hu Hv. unfold add_edge.
  assert (H2 : ensure_node v (ensure_node u G) = G).
  { unfold ensure_node at 2. rewrite Hu. unfold ensure_node. by rewrite Hv. }
  rewrite H2. by destruct (get_edge_data G u v); cbn [fst]; rewrite !set_adj_node.
Qed.

(** [load_graph] builds a well-formed graph. *)
Lemma load_graph_wf nodes_df edges_df :
  sg_wf (load_graph nodes_df edges_df).1 (load_graph nodes_df edges_df).2.
Proof.
  unfold load_graph.
  set (G0 := foldl _ empty_graph nodes_df).
  assert (HG0 : gwf G0 /\ forall u v, get_edge_data G0 u v = None).
  { unfold G0. clear G0. induction nodes_df as [|row rows IH] using rev_ind.
    - split; [apply gwf_empty|done].
    - rewrite foldl_app. simpl. destruct IH as [IH1 IH2].
      destruct (add_node_wf _ (row_id row)
                  {| lat := row_lat row; lon := row_lon row; label := row_label row |} IH1)
        as (H1 & H2 & _).
      split; [done|]. intros u v. by rewrite H2. }
  destruct HG0 as [HG0 Hnone].
  assert (H0 : sg_wf G0 []).
  { apply gwf_sg_wf; [done|]. intros u v l. by rewrite Hnone. }
  clearbody G0. clear Hnone HG0.
  induction edges_df as [|row rows IH] using rev_ind; [done|].
  rewrite foldl_app. simpl.
  match goal with
  | |- context [foldl ?f ?i rows] => destruct (foldl f i rows) as [G s]
  end.
  by apply add_edge_wf.
Qed.

(** *** The view of a graph *)

Lemma view_nbrs_keys s nbrs v : v ∈ (view_nbrs s nbrs).*1 -> v ∈ nbrs.*1.
Proof.
  induction nbrs as [|[k l] nbrs IH]; [done|].
  unfold view_nbrs. cbn [omap list_omap]. fold (view_nbrs s nbrs).
  rewrite fmap_cons, elem_of_cons. destruct (s !! l).
  - rewrite fmap_cons, elem_of_cons. intros [?|?]; auto.
  - auto.
Qed.

Lemma view_nbrs_NoDup s nbrs : NoDup nbrs.*1 -> NoDup (view_nbrs s nbrs).*1.
Proof.
  induction nbrs as [|[k l] nbrs IH]; [done|].
  unfold view_nbrs. cbn [omap list_omap]. fold (view_nbrs s nbrs).
  rewrite fmap_cons. intros [Hk Hnd]%list.NoDup_cons. destruct (s !! l); [|auto].
  rewrite fmap_cons. apply list.NoDup_cons. split; [|auto].
  intros Hin. by apply Hk, (view_nbrs_keys s).
Qed.

Lemma view_nbrs_get s nbrs v :
  NoDup nbrs.*1 -> od_get v (view_nbrs s nbrs) = (l ← od_get v nbrs; s !! l).
Proof.
  induction nbrs as [|[k l] nbrs IH]; [done|].
  unfold view_nbrs. cbn [omap list_omap]. fold (view_nbrs s nbrs).
  rewrite fmap_cons. intros [Hk Hnd]%list.NoDup_cons. cbn [od_get].
  destruct (String.eqb_spec v k) as [->|Hne].
  - destruct (s !! l) eqn:Hl; cbn [od_get].
    + by rewrite String.eqb_refl.
    + simpl. rewrite Hl. apply od_get_None. intros Hin. by apply Hk, (view_nbrs_keys s).
  - destruct (s !! l); cbn [od_get]; [|by apply IH].
    destruct (String.eqb_spec v k); [done|by apply IH].
Qed.

Lemma view_adj s (G : Graph loc) u :
  od_get u (_adj (view s G)) = view_nbrs s <$> od_get u (_adj G).
Proof.
  unfold view. simpl. induction (_adj G) as [|[k nbrs] adj IH]; [done|].
  simpl. by destruct (String.eqb u k).
Qed.

Lemma view_edge s G u v : sg_wf G s -> get_edge_data (view s G) u v = edata G s u v.
Proof.
  intros Hwf. unfold edata, get_edge_data. rewrite view_adj.
  destruct (od_get u (_adj G)) as [nbrs|] eqn:Hu; [|done]. simpl.
  apply view_nbrs_get. by apply (wf_nbr_keys G (sg_graph G s Hwf) u).
Qed.

Lemma edata_Some G s u v l :
  sg_wf G s -> get_edge_data G u v = Some l -> exists d, s !! l = Some d /\ edata G s u v = Some d.
Proof.
  intros Hwf Hl. destruct (lookup_lt_is_Some_2 s l) as [d Hd].
  { by apply (sg_range G s Hwf u v). }
  exists d. split; [done|]. unfold edata. by rewrite Hl.
Qed.

Lemma view_wf s G : sg_wf G s -> graph_wf (view s G).
Proof.
  intros Hwf. pose proof (sg_graph G s Hwf) as Hg. split.
  - intros u nb. rewrite view_adj. destruct (od_get u (_adj G)) as [nbrs|] eqn:Hu; [|done].
    intros [= <-]. apply view_nbrs_NoDup. by apply (wf_nbr_keys G Hg u).
  - intros u v x. rewrite view_edge by done. unfold edata.
    destruct (get_edge_data G u v) as [l|] eqn:Hl; [|done]. intros _.
    apply (wf_closed G Hg) in Hl as [nb Hnb]. rewrite view_adj, Hnb. by eexists.
  - intros u. unfold od_mem. rewrite view_adj. cbn [view _node].
    pose proof (wf_nodes G Hg u) as Hn. unfold od_mem in Hn.
    by destruct (od_get u (_adj G)).
  - intros u v x. rewrite !view_edge by done. unfold edata.
    destruct (get_edge_data G u v) as [l|] eqn:Hl; [|done].
    apply (wf_sym G Hg) in Hl. by rewrite Hl.
Qed.

Lemma view_ext s s' G :
  sg_wf G s -> (forall l, (l < length s)%nat -> s' !! l = s !! l) -> view s' G = view s G.
Proof.
  intros Hwf Hs. unfold view. f_equal.
  assert (Hin : forall u nbrs v l, (u, nbrs) ∈ _adj G -> (v, l) ∈ nbrs -> (l < length s)%nat).
  { intros u nbrs v l Hu Hv. apply (sg_range G s Hwf u v).
    apply od_get_in in Hu; [|apply (sg_adj_keys G s Hwf)].
    unfold get_edge_data. rewrite Hu. apply od_get_in; [|done].
    by apply (wf_nbr_keys G (sg_graph G s Hwf) u). }
  clear Hwf. induction (_adj G) as [|[u nbrs] adj IH]; [done|].
  simpl. f_equal.
  - f_equal. assert (Hn : forall v l, (v, l) ∈ nbrs -> (l < length s)%nat).
    { intros v l. apply (Hin u). by left. }
    clear Hin IH. induction nbrs as [|[v l] nbrs IHn]; [done|].
    unfold view_nbrs. cbn [omap list_omap]. fold (view_nbrs s' nbrs) (view_nbrs s nbrs).
    rewrite Hs by (apply (Hn v); by left). rewrite IHn; [done|].
    intros v' l' H. apply (Hn v'). by right.
  - apply IH. intros u' nbrs' v l H. apply (Hin u'). by right.
Qed.

(** *** Copies *)

Lemma flat_adj_elem {E} (adj : list (string * list (string * E))) u v l :
  (u, v, l) ∈ flat_adj adj <-> exists nbrs, (u, nbrs) ∈ adj /\ (v, l) ∈ nbrs.
Proof.
  induction adj as [|[u' nbrs'] adj IH]; simpl.
  - split; [by intros ?%elem_of_nil|]. intros (? & ?%elem_of_nil & _). done.
  - rewrite elem_of_app, IH, list_elem_of_fmap. split.
    + intros [([v' l'] & [= -> -> ->] & Hin)|(nbrs & Hu & Hv)].
      * exists nbrs'. split; [by left|done].
      * exists nbrs. split; [by right|done].
    + intros (nbrs & [[= -> ->]|Hu]%elem_of_cons & Hv).
      * left. by exists (v, l).
      * right. by exists nbrs.
Qed.

Lemma flat_adj_edge (G : Graph loc) s u v l :
  sg_wf G s -> (u, v, l) ∈ flat_adj (_adj G) <-> get_edge_data G u v = Some l.
Proof.
  intros Hwf. rewrite flat_adj_elem. unfold get_edge_data. split.
  - intros (nbrs & Hu & Hv). apply od_get_in in Hu; [|apply (sg_adj_keys G s Hwf)].
    rewrite Hu. apply od_get_in; [|done]. by apply (wf_nbr_keys G (sg_graph G s Hwf) u).
  - destruct (od_get u (_adj G)) as [nbrs|] eqn:Hu; [|done]. intros Hv.
    exists nbrs. split; by apply od_get_elem.
Qed.

Lemma foldl_flat {A E} (h : A -> string * string * E -> A)
    (adj : list (string * list (string * E))) (a : A) :
  foldl (fun a '(u, nbrs) => foldl (fun a '(v, l) => h a (u, v, l)) a nbrs) a adj =
  foldl h a (flat_adj adj).
Proof.
  revert a. induction adj as [|[u nbrs] adj IH]; intros a; [done|].
  cbn [foldl flat_adj]. rewrite foldl_app, IH. f_equal.
  clear IH. revert a. induction nbrs as [|[v l] nbrs IHn]; intros a; [done|].
  simpl. by rewrite IHn.
Qed.

(** A [foldl] keeps an invariant that may mention what has been
    processed. *)
Lemma foldl_prefix_ind {A B} (f : A -> B -> A) (I : list B -> A -> Prop) (a : A)
    (l : list B) :
  I [] a ->
  (forall pre x st, x ∈ l -> I pre st -> I (pre ++ [x]) (f st x)) ->
  I l (foldl f a l).
Proof.
  intros H0 Hstep.
  assert (H : forall l', (forall x, x ∈ l' -> x ∈ l) -> I l' (foldl f a l')).
  { induction l' as [|x l' IH] using rev_ind; intros Hsub; [done|].
    rewrite foldl_app. simpl. apply Hstep.
    - apply Hsub. set_solver.
    - apply IH. intros y Hy. apply Hsub. set_solver. }
  by apply H.
Qed.

Lemma od_get_app {V} k (d1 d2 : list (string * V)) :
  od_get k (d1 ++ d2) = match od_get k d1 with Some x => Some x | None => od_get k d2 end.
Proof.
  induction d1 as [|[k' v'] d1 IH]; simpl; [done|]. by destruct (String.eqb k k').
Qed.

Lemma copy_nodes_spec (G : Graph loc) :
  NoDup (_node G).*1 ->
  gwf (copy_nodes G) /\
  (forall n, od_get n (_node (copy_nodes G)) = od_get n (_node G)) /\
  (forall u v, get_edge_data (copy_nodes G) u v = None).
Proof.
  unfold copy_nodes. induction (_node G) as [|[n d] nd IH] using rev_ind; intros Hnd.
  - split; [apply gwf_empty|done].
  - rewrite fmap_app in Hnd. apply list.NoDup_app in Hnd as (Hnd & Hdis & _).
    destruct (IH Hnd) as (Hg & Hn & He). clear IH. rewrite foldl_app. simpl.
    assert (Hfresh : od_get n nd = None).
    { apply od_get_None. intros Hin. apply (Hdis n Hin). simpl. by left. }
    destruct d as [attrs|].
    + destruct (add_node_wf _ n attrs Hg) as (Hg' & He' & Hn').
      split; [done|]. split; [|intros u v; by rewrite He'].
      intros x. rewrite Hn', od_get_app, Hn. simpl.
      destruct (String.eqb_spec x n) as [->|]; [by rewrite Hfresh|by destruct (od_get x nd)].
    + destruct (ensure_node_wf _ n Hg) as (Hg' & He' & Hn').
      split; [done|]. split; [|intros u v; by rewrite He'].
      intros x. rewrite Hn', od_get_app, Hn. simpl.
      destruct (String.eqb_spec x n) as [->|]; [by rewrite Hfresh|by destruct (od_get x nd)].
Qed.

Lemma dict_update_same d : dict_update d d = d.
Proof. destruct d as [? ? ? ? ? [?|]]; done. Qed.

Lemma edge_has_nodes {E} (G : Graph E) u v x :
  graph_wf G -> get_edge_data G u v = Some x -> has_node G u = true /\ has_node G v = true.
Proof.
  intros Hwf Hx. unfold has_node. rewrite !(wf_nodes G Hwf). unfold od_mem. split.
  - apply (wf_sym G Hwf), (wf_closed G Hwf) in Hx as [? ->]. done.
  - apply (wf_closed G Hwf) in Hx as [? ->]. done.
Qed.

Lemma copy_step G s pre u v l Gs :
  sg_wf G s -> get_edge_data G u v = Some l -> copy_inv G s pre Gs ->
  copy_inv G s (pre ++ [(u, v, l)])
    (match Gs.2 !! l with Some dd => add_edge u v dd Gs | None => Gs end).
Proof.
  intros Hwf Huv [Hcwf [ext Hext] Hedge Hdone Hnode]. destruct Gs as [Gc s'].
  cbn [fst snd] in *.
  destruct (edata_Some G s u v l Hwf Huv) as (dd & Hdd & _).
  assert (Hdd' : s' !! l = Some dd).
  { rewrite Hext, lookup_app_l; [done|]. by apply lookup_lt_Some in Hdd. }
  rewrite Hdd'.
  destruct (copy_nodes_spec G (sg_node_keys G s Hwf)) as (_ & Hcn & _).
  destruct (edge_has_nodes G u v l (sg_graph G s Hwf) Huv) as [Hu Hv].
  assert (Hu' : has_node Gc u = true).
  { unfold has_node, od_mem in *. by rewrite Hnode, Hcn. }
  assert (Hv' : has_node Gc v = true).
  { unfold has_node, od_mem in *. by rewrite Hnode, Hcn. }
  pose proof (add_edge_nodes u v dd Gc s' Hu' Hv') as Hn'.
  destruct (add_edge_wf u v dd Gc s' Hcwf) as [Hwf' Hcase].
  revert Hwf' Hcase Hn'. generalize (add_edge u v dd (Gc, s')). intros [G' s''] Hwf' Hcase Hn'.
  cbn [fst snd] in *.
  destruct (get_edge_data Gc u v) as [l1|] eqn:Hl1.
  - destruct Hcase as [-> He'].
    destruct (Hedge u v l1 Hl1) as (Hfresh & l0 & Hl0 & Hcell).
    assert (l0 = l) as -> by congruence.
    rewrite Hcell, Hdd, dict_update_same in Hwf' |- *.
    rewrite list_insert_id in Hwf' |- * by (by rewrite Hcell).
    split; cbn [fst snd].
    + done.
    + by exists ext.
    + intros a b l'. rewrite He'. apply Hedge.
    + intros a b l' [Hin|[= -> -> ->]]%elem_of_snoc; rewrite He'; [by eapply Hdone|].
      by rewrite Hl1.
    + exact (eq_trans Hn' Hnode).
  - destruct Hcase as [-> He'].
    split; cbn [fst snd].
    + done.
    + exists (ext ++ [dd]). by rewrite Hext, app_assoc.
    + intros a b l'. rewrite He'.
      destruct (decide _) as [Hd|Hd].
      * intros [= <-]. split; [rewrite Hext, length_app; lia|].
        exists l. split.
        -- destruct Hd as [[-> ->]|[-> ->]]; [done|].
           by apply (wf_sym G (sg_graph G s Hwf)).
        -- transitivity (Some dd); [by apply list_lookup_middle|exact (eq_sym Hdd)].
      * intros Hl'. destruct (Hedge a b l' Hl') as (Hfresh & l0 & Hl0 & Hcell).
        split; [done|]. exists l0. split; [done|].
        transitivity (s' !! l'); [|exact Hcell].
        apply lookup_app_l. by apply (sg_range Gc s' Hcwf a b).
    + intros a b l' [Hin|[= -> -> ->]]%elem_of_snoc; rewrite He'.
      * destruct (decide _); [done|]. by eapply Hdone.
      * rewrite decide_True; [done|]. by left.
    + exact (eq_trans Hn' Hnode).
Qed.

(** [G.copy()]: a well-formed graph over an extension of the store, with
    the nodes and edges of [G], the attributes of every edge copied to a
    fresh cell. *)
Lemma copy_spec G s :
  sg_wf G s ->
  sg_wf (copy G s).1 (copy G s).2 /\
  (exists ext, (copy G s).2 = s ++ ext) /\
  (forall a b l, get_edge_data (copy G s).1 a b = Some l -> (length s <= l)%nat) /\
  (forall a b, edata (copy G s).1 (copy G s).2 a b = edata G s a b) /\
  (forall n, od_get n (_node (copy G s).1) = od_get n (_node G)).
Proof.
  intros Hwf.
  pose (h := fun (Gs : Graph loc * Store) (e : string * string * loc) =>
               match Gs.2 !! e.2 with
               | Some dd => add_edge e.1.1 e.1.2 dd Gs
               | None => Gs
               end).
  assert (Hc : copy G s = foldl h (copy_nodes G, s) (flat_adj (_adj G))).
  { exact (foldl_flat h (_adj G) (copy_nodes G, s)). }
  destruct (copy_nodes_spec G (sg_node_keys G s Hwf)) as (Hg0 & Hn0 & He0).
  assert (Hinv : copy_inv G s (flat_adj (_adj G)) (copy G s)).
  { rewrite Hc. apply (foldl_prefix_ind h (copy_inv G s)).
    - split; simpl.
      + apply gwf_sg_wf; [done|]. intros u v l. by rewrite He0.
      + exists []. by rewrite app_nil_r.
      + intros a b l. by rewrite He0.
      + intros a b l Hin. by apply elem_of_nil in Hin.
      + done.
    - intros pre [[u v] l] st Hin Hst. apply (flat_adj_edge G s u v l Hwf) in Hin.
      by apply copy_step. }
  destruct Hinv as [Hcwf Hext Hedge Hdone Hnode].
  split; [done|]. split; [done|]. split; [|split].
  - intros a b l Hl. by destruct (Hedge a b l Hl).
  - intros a b. unfold edata.
    destruct (get_edge_data (copy G s).1 a b) as [l1|] eqn:Hl1.
    + destruct (Hedge a b l1 Hl1) as (_ & l0 & -> & Hcell). done.
    + destruct (get_edge_data G a b) as [l0|] eqn:Hl0; [|done].
      apply (flat_adj_edge G s a b l0 Hwf) in Hl0. apply Hdone in Hl0 as [? ?]. congruence.
  - intros n. by rewrite Hnode, Hn0.
Qed.

(** *** The penalized copy *)

Lemma penalize_idem fm d : penalize fm (penalize fm d) = penalize fm d.
Proof. done. Qed.

Lemma edges_from_sound {E} (adj : list (string * list (string * E))) seen n nbr (l : E) :
  (n, nbr, l) ∈ edges_from adj seen -> (n, nbr, l) ∈ flat_adj adj.
Proof.
  revert seen. induction adj as [|[k nbrs] adj IH]; intros seen; [done|].
  cbn [edges_from flat_adj]. rewrite !elem_of_app. intros [Hin|Hin]; [left|right; eauto].
  apply list_elem_of_fmap in Hin as ([v x] & Heq & Hin).
  apply list_elem_of_filter in Hin as [_ Hin].
  apply list_elem_of_fmap. by exists (v, x).
Qed.

Lemma edges_from_intro {E} (adj : list (string * list (string * E))) seen pre n nbrs post
    nbr (l : E) :
  adj = pre ++ (n, nbrs) :: post -> (nbr, l) ∈ nbrs -> nbr ∉ seen -> nbr ∉ pre.*1 ->
  (n, nbr, l) ∈ edges_from adj seen.
Proof.
  intros -> Hin. revert seen. induction pre as [|[k nb] pre IH]; intros seen Hseen Hpre.
  - cbn [app edges_from]. apply elem_of_app. left.
    apply list_elem_of_fmap. exists (nbr, l). split; [done|].
    apply list_elem_of_filter. by split.
  - cbn [app edges_from]. apply elem_of_app. right. rewrite fmap_cons in Hpre.
    apply not_elem_of_cons in Hpre as [Hk Hpre]. apply IH; [|done].
    apply not_elem_of_cons. by split.
Qed.

(** Every edge is listed by [G.edges], in one direction or the other. *)
Lemma edges_complete (G : Graph loc) s a b l :
  sg_wf G s -> get_edge_data G a b = Some l -> l ∈ (edges G).*2.
Proof.
  intros Hwf Hab. pose proof (sg_graph G s Hwf) as Hg.
  pose proof (wf_sym G Hg a b l Hab) as Hba.
  pose proof Hab as Hab'. pose proof Hba as Hba'.
  apply (flat_adj_edge G s a b l Hwf), flat_adj_elem in Hab' as (na & Ha & Hna).
  apply (flat_adj_edge G s b a l Hwf), flat_adj_elem in Hba' as (nb & Hb & Hnb).
  pose proof (sg_adj_keys G s Hwf) as Hnd.
  destruct (list_elem_of_split _ _ Ha) as (pre & post & Hadj).
  unfold edges. destruct (decide (b ∈ pre.*1)) as [Hin|Hnin].
  - apply list_elem_of_fmap in Hin as ([b' nb'] & Heq & Hin). simpl in Heq. subst b'.
    destruct (list_elem_of_split _ _ Hin) as (pre1 & pre2 & Hpre).
    assert (nb' = nb) as ->.
    { rewrite Hadj, Hpre in Hb, Hnd. apply od_get_in in Hb; [|done].
      assert (Hb' : (b, nb') ∈ (pre1 ++ (b, nb') :: pre2) ++ (a, na) :: post) by set_solver.
      apply od_get_in in Hb'; [|done]. congruence. }
    apply list_elem_of_fmap. exists (b, a, l). split; [done|].
    apply (edges_from_intro _ [] pre1 b nb (pre2 ++ (a, na) :: post)).
    + rewrite Hadj, Hpre. by rewrite <- app_assoc.
    + done.
    + apply not_elem_of_nil.
    + intros Ha1. rewrite Hadj, Hpre, !fmap_app, !fmap_cons in Hnd. simpl in Hnd.
      rewrite <- app_assoc in Hnd. apply list.NoDup_app in Hnd as (_ & Hdis & _).
      apply (Hdis a Ha1). set_solver.
  - apply list_elem_of_fmap. exists (a, b, l). split; [done|].
    apply (edges_from_intro _ [] pre a na post); try done. apply not_elem_of_nil.
Qed.

Lemma edges_sound (G : Graph loc) s a b l :
  sg_wf G s -> (a, b, l) ∈ edges G -> get_edge_data G a b = Some l.
Proof.
  intros Hwf Hin. apply (flat_adj_edge G s a b l Hwf). by eapply edges_from_sound.
Qed.

Lemma build_penalized_unfold G s fm :
  build_penalized_graph G s fm =
  ((copy G s).1, penalize_store fm (edges (copy G s).1) (copy G s).2).
Proof. unfold build_penalized_graph. by destruct (copy G s). Qed.

Lemma penalize_fold fm (es : list (string * string * nat)) (s1 : list EdgeData) :
  length (penalize_store fm es s1) = length s1 /\
  forall i, penalize_store fm es s1 !! i =
            if decide (i ∈ es.*2) then penalize fm <$> s1 !! i else s1 !! i.
Proof.
  induction es as [|[[u v] l] es IH] using rev_ind.
  - split; [done|]. intros i. cbn [foldl].
    destruct (decide (i ∈ ([] : list (string * string * nat)).*2)) as [H|_]; [|done].
    by apply elem_of_nil in H.
  - unfold penalize_store. rewrite foldl_app. cbn [foldl].
    fold (penalize_store fm es s1).
    destruct IH as [Hlen Hchar]. set (s1' := penalize_store fm es s1) in *.
    assert (Hmem : forall i, i ∈ (es ++ [(u, v, l)]).*2 <-> i ∈ es.*2 \/ i = l).
    { intros i. rewrite fmap_app, elem_of_app. simpl. by rewrite list_elem_of_singleton. }
    destruct (s1' !! l) as [data|] eqn:Hl.
    + split; [by rewrite length_insert|]. intros i.
      destruct (decide (i = l)) as [->|Hne].
      * rewrite list_lookup_insert_eq by (by apply lookup_lt_Some in Hl).
        rewrite decide_True by (apply Hmem; by right).
        revert Hl. rewrite Hchar.
        destruct (decide (l ∈ es.*2)); destruct (s1 !! l) as [d1|]; simpl; intros Hl;
          try done; by injection Hl as <-.
      * rewrite list_lookup_insert_ne by done. rewrite Hchar.
        destruct (decide (i ∈ es.*2)) as [Hi|Hi].
        -- rewrite decide_True by (apply Hmem; by left). done.
        -- rewrite decide_False; [done|]. rewrite Hmem. tauto.
    + split; [done|]. intros i. rewrite Hchar.
      destruct (decide (i ∈ es.*2)) as [Hi|Hi],
               (decide (i ∈ (es ++ [(u, v, l)]).*2)) as [Hi'|Hi']; try done.
      * exfalso. apply Hi', Hmem. by left.
      * apply Hmem in Hi' as [?| ->]; [done|].
        revert Hl. rewrite Hchar. rewrite decide_False by done. by intros ->.
Qed.

Lemma prefix_lookup {A} (s s2 : list A) :
  (forall i, (i < length s)%nat -> s2 !! i = s !! i) -> s `prefix_of` s2.
Proof.
  intros H. exists (drop (length s) s2).
  rewrite <- (take_drop (length s) s2) at 1. f_equal. apply list_eq. intros i.
  destruct (decide (i < length s)%nat) as [Hlt|Hge].
  - by rewrite <- H, lookup_take_lt.
  - rewrite lookup_take_ge by lia. symmetry. apply lookup_ge_None. lia.
Qed.

(** [build_penalized_graph()]: the copy has the nodes and the edges of
    [G], every edge with its [pen_weight]; the store is only extended. *)
Lemma build_penalized_spec G s fm :
  sg_wf G s ->
  let Gp := (build_penalized_graph G s fm).1 in
  let s2 := (build_penalized_graph G s fm).2 in
  sg_wf Gp s2 /\
  (forall i, (i < length s)%nat -> s2 !! i = s !! i) /\
  (forall a b, edata Gp s2 a b = penalize fm <$> edata G s a b) /\
  (forall n, od_get n (_node Gp) = od_get n (_node G)).
Proof.
  intros Hwf. destruct (copy_spec G s Hwf) as (Hcwf & [ext Hext] & Hfresh & Hedata & Hnode).
  rewrite build_penalized_unfold. destruct (copy G s) as [Gc s1] eqn:Hcopy.
  cbn [fst snd] in *.
  destruct (penalize_fold fm (edges Gc) s1) as [Hlen Hchar].
  set (s2 := penalize_store fm (edges Gc) s1) in *.
  assert (Hwf2 : sg_wf Gc s2).
  { apply gwf_sg_wf; [by eapply sg_wf_gwf|]. intros u v l Hl.
    apply (sg_range Gc s1 Hcwf) in Hl. lia. }
  split; [done|]. split; [|split; [|done]].
  - intros i Hi. rewrite Hchar. rewrite decide_False.
    + rewrite Hext. by apply lookup_app_l.
    + intros Hin. apply list_elem_of_fmap in Hin as ([[u v] l] & Heq & Hin).
      simpl in Heq. subst l. apply (edges_sound Gc s1 u v i Hcwf), Hfresh in Hin. lia.
  - intros a b. rewrite <- Hedata. unfold edata.
    destruct (get_edge_data Gc a b) as [l|] eqn:Hl; [|done]. simpl.
    rewrite Hchar. rewrite decide_True; [done|]. by eapply edges_complete.
Qed.

Lemma od_set_map {A B} (g : A -> B) k x (d : list (string * A)) :
  map (fun '(k, y) => (k, g y)) (od_set k x d) = od_set k (g x) (map (fun '(k, y) => (k, g y)) d).
Proof.
  induction d as [|[k' y] d IH]; [done|]. simpl.
  destruct (String.eqb k k'); simpl; [done|]. by rewrite IH.
Qed.

Lemma od_set_elem {A} k (x : A) v l (d : list (string * A)) :
  (k, x) ∈ od_set v l d -> (k, x) = (v, l) \/ (k, x) ∈ d.
Proof.
  induction d as [|[k' l'] d IH]; simpl.
  - intros ?%list_elem_of_singleton. by left.
  - destruct (String.eqb_spec v k') as [->|].
    + intros [?|?]%elem_of_cons; [by left|right; by right].
    + intros [->|?]%elem_of_cons; [right; by left|].
      destruct IH as [?|?]; [done|by left|right; by right].
Qed.

Lemma view_nbrs_set (s : list EdgeData) v l d nbrs :
  s !! l = Some d -> (forall k lk, (k, lk) ∈ nbrs -> is_Some (s !! lk)) ->
  view_nbrs s (od_set v l nbrs) = od_set v d (view_nbrs s nbrs).
Proof.
  intros Hl. unfold view_nbrs.
  induction nbrs as [|[k lk] nbrs IH]; intros Hin.
  - cbn [od_set omap list_omap]. by rewrite Hl.
  - destruct (Hin k lk) as [dk Hdk]; [by left|].
    cbn [od_set]. destruct (String.eqb_spec v k) as [->|Hne].
    + cbn [omap list_omap]. rewrite Hl, Hdk. cbn [od_set]. by rewrite String.eqb_refl.
    + cbn [omap list_omap]. rewrite Hdk. cbn [od_set].
      destruct (String.eqb_spec v k) as [|_]; [done|]. f_equal. apply IH.
      intros k' lk' H. apply (Hin k'). by right.
Qed.

Lemma view_set_adj (s : list EdgeData) (G : Graph nat) u v l d :
  s !! l = Some d ->
  (forall nbrs k lk, od_get u (_adj G) = Some nbrs -> (k, lk) ∈ nbrs -> is_Some (s !! lk)) ->
  view s (set_adj u v l G) = set_adj u v d (view s G).
Proof.
  intros Hl Hin. unfold set_adj. rewrite view_adj.
  destruct (od_get u (_adj G)) as [nbrs|] eqn:Hu; [|done]. simpl.
  unfold view. simpl. f_equal.
  rewrite (od_set_map (view_nbrs s)). f_equal. apply view_nbrs_set; [done|].
  intros k lk. by apply Hin.
Qed.

Lemma nbrs_in_range (G : Graph nat) (s : list EdgeData) u nbrs k lk :
  sg_wf G s -> od_get u (_adj G) = Some nbrs -> (k, lk) ∈ nbrs -> (lk < length s)%nat.
Proof.
  intros Hwf Hu Hk. apply (sg_range G s Hwf u k). unfold get_edge_data. rewrite Hu.
  apply od_get_in; [|done]. by apply (wf_nbr_keys G (sg_graph G s Hwf) u).
Qed.

(** Linking two nodes by a new cell, seen through the view. *)
Lemma view_link (G : Graph nat) (s : list EdgeData) u v dd :
  sg_wf G s -> has_node G u = true -> has_node G v = true ->
  view (s ++ [dd]) (set_adj v u (length s) (set_adj u v (length s) G)) =
  set_adj v u dd (set_adj u v dd (view s G)).
Proof.
  intros Hwf Hu Hv.
  pose proof (sg_graph G s Hwf) as Hg.
  rewrite (has_node_adj_mem G u Hg) in Hu. rewrite (has_node_adj_mem G v Hg) in Hv.
  assert (Hl : (s ++ [dd]) !! length s = Some dd) by (by apply list_lookup_middle).
  assert (Hr : forall a nbrs k lk, od_get a (_adj G) = Some nbrs -> (k, lk) ∈ nbrs ->
                 is_Some ((s ++ [dd]) !! lk)).
  { intros a nbrs k lk Ha Hk. apply lookup_lt_is_Some. rewrite length_app. simpl.
    pose proof (nbrs_in_range G s a nbrs k lk Hwf Ha Hk). lia. }
  rewrite (view_set_adj _ _ v u _ dd Hl).
  - rewrite (view_set_adj _ _ u v _ dd Hl); [|intros nbrs k lk; apply Hr].
    f_equal. f_equal. apply view_ext; [done|]. intros l Hlt. by apply lookup_app_l.
  - intros nbrs k lk. rewrite set_adj_adj by done.
    destruct (String.eqb_spec v u) as [->|Hne]; [|apply Hr].
    destruct (od_get u (_adj G)) as [nu|] eqn:Hnu; [|done]. simpl. intros [= <-] Hk.
    apply od_set_elem in Hk as Hcase.
    destruct Hcase as [[= -> ->]|Hk']; [by rewrite Hl|]. by apply (Hr u nu k).
Qed.

Lemma set_adj_id {E} (G : Graph E) u v x :
  get_edge_data G u v = Some x -> set_adj u v x G = G.
Proof.
  unfold get_edge_data, set_adj. destruct (od_get u (_adj G)) as [nbrs|] eqn:Hu; [|done].
  intros Hv. rewrite (od_set_id v x nbrs Hv), (od_set_id u nbrs _ Hu). by destruct G.
Qed.

Lemma ensure_node_id {E} (G : Graph E) n : has_node G n = true -> ensure_node n G = G.
Proof. unfold ensure_node. by intros ->. Qed.

Lemma add_edge_existing u v dd (Gc : Graph nat) (sc : list EdgeData) l1 :
  sg_wf Gc sc -> get_edge_data Gc u v = Some l1 -> sc !! l1 = Some dd ->
  add_edge u v dd (Gc, sc) = (Gc, sc).
Proof.
  intros Hwf Hl1 Hdd. pose proof (sg_graph Gc sc Hwf) as Hg.
  destruct (edge_has_nodes Gc u v l1 Hg Hl1) as [Hu Hv].
  unfold add_edge. rewrite (ensure_node_id Gc u Hu), (ensure_node_id Gc v Hv), Hl1, Hdd.
  rewrite dict_update_same, (list_insert_id _ _ _ Hdd).
  rewrite (set_adj_id Gc u v l1 Hl1). by rewrite (set_adj_id Gc v u l1 (wf_sym Gc Hg u v l1 Hl1)).
Qed.

Lemma add_edge_new u v dd (Gc : Graph nat) (sc : list EdgeData) :
  has_node Gc u = true -> has_node Gc v = true -> get_edge_data Gc u v = None ->
  add_edge u v dd (Gc, sc) =
    (set_adj v u (length sc) (set_adj u v (length sc) Gc), sc ++ [dd]).
Proof.
  intros Hu Hv Hnone. unfold add_edge.
  by rewrite (ensure_node_id Gc u Hu), (ensure_node_id Gc v Hv), Hnone.
Qed.

Lemma copy_inv_init G s : sg_wf G s -> copy_inv G s [] (copy_nodes G, s).
Proof.
  intros Hwf. destruct (copy_nodes_spec G (sg_node_keys G s Hwf)) as (Hg0 & Hn0 & He0).
  split; simpl.
  - apply gwf_sg_wf; [done|]. intros u v l. by rewrite He0.
  - exists []. by rewrite app_nil_r.
  - intros a b l. by rewrite He0.
  - intros a b l Hin. by apply elem_of_nil in Hin.
  - done.
Qed.

Lemma copy_nodes_view G s s0 : sg_wf G s0 -> view s (copy_nodes G) = view [] (copy_nodes G).
Proof.
  intros Hwf. destruct (copy_nodes_spec G (sg_node_keys G s0 Hwf)) as (Hg0 & Hn0 & He0).
  apply view_ext; [|simpl; lia].
  apply gwf_sg_wf; [done|]. intros u v l. by rewrite He0.
Qed.

Lemma view_edge_is_Some G s u v :
  sg_wf G s -> is_Some (get_edge_data (view s G) u v) <-> is_Some (get_edge_data G u v).
Proof.
  intros Hwf. rewrite view_edge by done. unfold edata.
  destruct (get_edge_data G u v) as [l|] eqn:Hl; simpl.
  - split; [eauto|]. intros _. apply lookup_lt_is_Some. by apply (sg_range G s Hwf u v).
  - split; by intros [? ?].
Qed.

(** Copying over a longer store gives the same view. *)
Lemma copy_view_prefix G (s s' : list EdgeData) :
  sg_wf G s -> s `prefix_of` s' ->
  sg_wf (copy G s').1 (copy G s').2 /\ sg_wf (copy G s).1 (copy G s).2 /\
  view (copy G s').2 (copy G s').1 = view (copy G s).2 (copy G s).1.
Proof.
  intros Hwf Hpre.
  assert (Hwf' : sg_wf G s').
  { destruct Hpre as [ext ->]. apply gwf_sg_wf; [by eapply sg_wf_gwf|].
    intros u v l Hl. apply (sg_range G s Hwf) in Hl. rewrite length_app. lia. }
  pose (h := fun (Gs : Graph nat * list EdgeData) (e : string * string * nat) =>
               match Gs.2 !! e.2 with
               | Some dd => add_edge e.1.1 e.1.2 dd Gs
               | None => Gs
               end).
  assert (Hc : forall s0, copy G s0 = foldl h (copy_nodes G, s0) (flat_adj (_adj G))).
  { intros s0. exact (foldl_flat h (_adj G) (copy_nodes G, s0)). }
  rewrite !Hc.
  assert (H : forall pre, (forall x, x ∈ pre -> x ∈ flat_adj (_adj G)) ->
            copy_inv G s pre (foldl h (copy_nodes G, s) pre) /\
            copy_inv G s' pre (foldl h (copy_nodes G, s') pre) /\
            view (foldl h (copy_nodes G, s') pre).2 (foldl h (copy_nodes G, s') pre).1 =
            view (foldl h (copy_nodes G, s) pre).2 (foldl h (copy_nodes G, s) pre).1).
  { induction pre as [|[[u v] l] pre IH] using rev_ind; intros Hsub.
    - split; [by apply copy_inv_init|]. split; [by apply copy_inv_init|].
      simpl. by rewrite (copy_nodes_view G s' s Hwf), (copy_nodes_view G s s Hwf).
    - destruct IH as (H1 & H2 & HR); [intros x Hx; apply Hsub; set_solver|].
      assert (Huv : get_edge_data G u v = Some l).
      { apply (flat_adj_edge G s u v l Hwf), Hsub. set_solver. }
      rewrite !foldl_app. cbn [foldl].
      pose proof (copy_step G s pre u v l _ Hwf Huv H1) as H1'.
      pose proof (copy_step G s' pre u v l _ Hwf' Huv H2) as H2'.
      split; [exact H1'|]. split; [exact H2'|]. clear H1' H2'.
      destruct (foldl h (copy_nodes G, s) pre) as [Gc1 s1].
      destruct (foldl h (copy_nodes G, s') pre) as [Gc2 s2].
      destruct H1 as [Hw1 [e1 He1] Hed1 _ Hn1]. destruct H2 as [Hw2 [e2 He2] Hed2 _ Hn2].
      cbn [fst snd] in *. unfold h. cbn [fst snd].
      destruct (edata_Some G s u v l Hwf Huv) as (dd & Hdd & _).
      assert (Hdd' : s' !! l = Some dd).
      { destruct Hpre as [ext ->]. rewrite lookup_app_l; [done|]. by apply lookup_lt_Some in Hdd. }
      assert (Hd1 : s1 !! l = Some dd).
      { rewrite He1, lookup_app_l; [done|]. by apply lookup_lt_Some in Hdd. }
      assert (Hd2 : s2 !! l = Some dd).
      { rewrite He2, lookup_app_l; [done|]. by apply lookup_lt_Some in Hdd'. }
      rewrite Hd1, Hd2.
      destruct (copy_nodes_spec G (sg_node_keys G s Hwf)) as (_ & Hcn & _).
      destruct (edge_has_nodes G u v l (sg_graph G s Hwf) Huv) as [Hu Hv].
      assert (Hnodes : forall Gc : Graph nat, _node Gc = _node (copy_nodes G) ->
                has_node Gc u = true /\ has_node Gc v = true).
      { intros Gc Hn. unfold has_node, od_mem in *. by rewrite Hn, !Hcn. }
      destruct (Hnodes Gc1 Hn1) as [Hu1 Hv1]. destruct (Hnodes Gc2 Hn2) as [Hu2 Hv2].
      assert (Hboth : is_Some (get_edge_data Gc1 u v) <-> is_Some (get_edge_data Gc2 u v)).
      { rewrite <- (view_edge_is_Some Gc1 s1 u v Hw1), <- (view_edge_is_Some Gc2 s2 u v Hw2).
        by rewrite HR. }
      destruct (get_edge_data Gc1 u v) as [l1|] eqn:Hl1.
      + destruct (proj1 Hboth) as [l2 Hl2]; [eauto|].
        destruct (Hed1 u v l1 Hl1) as (_ & l0 & Hl0 & Hc1).
        destruct (Hed2 u v l2 Hl2) as (_ & l0' & Hl0' & Hc2).
        assert (l0 = l) as -> by congruence. assert (l0' = l) as -> by congruence.
        rewrite (add_edge_existing u v dd Gc1 s1 l1), (add_edge_existing u v dd Gc2 s2 l2);
          try done; congruence.
      + destruct (get_edge_data Gc2 u v) as [l2|] eqn:Hl2.
        { destruct (proj2 Hboth) as [? ?]; [eauto|done]. }
        rewrite (add_edge_new u v dd Gc1 s1), (add_edge_new u v dd Gc2 s2) by done.
        cbn [fst snd]. rewrite (view_link Gc1 s1), (view_link Gc2 s2) by done.
        by rewrite HR. }
  destruct (H (flat_adj (_adj G))) as (H1 & H2 & HR); [done|].
  split; [apply H2|]. split; [apply H1|]. exact HR.
Qed.

Lemma penalized_view_eq (Gc : Graph nat) (s1 : list EdgeData) fm :
  sg_wf Gc s1 ->
  view (penalize_store fm (edges Gc) s1) Gc = map_data (penalize fm) (view s1 Gc).
Proof.
  intros Hwf. destruct (penalize_fold fm (edges Gc) s1) as [_ Hchar].
  assert (Hcell : forall u nbrs v l, (u, nbrs) ∈ _adj Gc -> (v, l) ∈ nbrs ->
            penalize_store fm (edges Gc) s1 !! l = penalize fm <$> s1 !! l).
  { intros u nbrs v l Hu Hv. rewrite Hchar, decide_True; [done|].
    apply (edges_complete Gc s1 u v l Hwf), (flat_adj_edge Gc s1 u v l Hwf), flat_adj_elem.
    by exists nbrs. }
  unfold view, map_data. cbn [_node _adj]. f_equal. rewrite map_map.
  clear Hchar Hwf. induction (_adj Gc) as [|[u nbrs] adj IH]; [done|].
  cbn [map]. f_equal.
  - f_equal. assert (Hn : forall v l, (v, l) ∈ nbrs ->
      penalize_store fm (edges Gc) s1 !! l = penalize fm <$> s1 !! l).
    { intros v l. apply (Hcell u). by left. }
    clear Hcell IH. induction nbrs as [|[v l] nbrs IHn]; [done|].
    unfold view_nbrs. cbn [omap list_omap]. rewrite (Hn v l) by (by left).
    fold (view_nbrs (penalize_store fm (edges Gc) s1) nbrs) (view_nbrs s1 nbrs).
    rewrite IHn by (intros v' l' H; apply (Hn v'); by right).
    by destruct (s1 !! l).
  - apply IH. intros u' nbrs' v l H. apply (Hcell u'). by right.
Qed.

(** The penalized view does not depend on how far the store has grown. *)
Lemma build_view_prefix G (s s' : list EdgeData) fm :
  sg_wf G s -> s `prefix_of` s' ->
  view (build_penalized_graph G s' fm).2 (build_penalized_graph G s' fm).1 =
  view (build_penalized_graph G s fm).2 (build_penalized_graph G s fm).1.
Proof.
  intros Hwf Hpre. destruct (copy_view_prefix G s s' Hwf Hpre) as (Hw' & Hw & Hv).
  rewrite !build_penalized_unfold. cbn [fst snd].
  by rewrite !penalized_view_eq, Hv.
Qed.

Section Transfer.
Context (E E' : string -> string -> option EdgeData) (f : EdgeData -> EdgeData).
Context (W W' : WeightFn).
Context (HE : forall a b, E' a b = f <$> E a b).
Context (HW : forall a b d, E a b = Some d -> W' a b (f d) = W a b d).

Lemma transfer_walk p : is_walk E' p <-> is_walk E p.
Proof.
  induction p as [|u [|v r] IH]; [done|done|].
  rewrite (is_walk_cons E'), (is_walk_cons E), IH, HE.
  by rewrite fmap_is_Some.
Qed.

Lemma transfer_cost p : walk_cost E' W' p = walk_cost E W p.
Proof.
  induction p as [|u [|v r] IH]; [done|done|].
  rewrite !walk_cost_cons, IH, HE. destruct (E u v) as [d|] eqn:Hd; [|done].
  simpl. by rewrite (HW u v d Hd).
Qed.

Lemma transfer_path a b p : is_path E' a b p <-> is_path E a b p.
Proof. unfold is_path. by rewrite transfer_walk. Qed.

Lemma transfer_simple a b p : simple_path E' a b p <-> simple_path E a b p.
Proof. unfold simple_path. by rewrite transfer_path. Qed.

Lemma transfer_k_paths a b k ps : k_paths_ok E' W' a b k ps -> k_paths_ok E W a b k ps.
Proof.
  intros [H1 H2 H3 H4 H5 H6 H7 H8]. split; try done.
  - intros p Hp. by apply transfer_simple, H3.
  - intros i j x y Hij Hx Hy. rewrite <- !transfer_cost. by apply (H5 i j).
  - intros x q Hx Hq. rewrite <- !transfer_cost. apply H6; [done|]. by apply transfer_path.
  - intros x P Hx HP HPn. rewrite <- !transfer_cost. apply H7; [done| |done].
    by apply transfer_simple.
  - intros Hlt P HP. apply H8; [done|]. by apply transfer_simple.
Qed.

Lemma transfer_nonneg : nonneg E W -> nonneg E' W'.
Proof.
  intros Hnn a b d'. rewrite HE. destruct (E a b) as [d|] eqn:Hd; [|done].
  intros [= <-]. rewrite (HW a b d Hd). by apply (Hnn a b).
Qed.

End Transfer.

(** *** The records of a response *)

Lemma path_has_nodes (G : Graph EdgeData) a b p n :
  graph_wf G -> has_node G a = true -> is_path (get_edge_data G) a b p -> n ∈ p ->
  has_node G n = true.
Proof.
  intros Hwf Ha (Hw & Hh & _) Hn. destruct p as [|x p]; [done|]. injection Hh as ->.
  revert a Ha Hw n Hn. induction p as [|y p IH]; intros a Ha Hw n Hn.
  - apply list_elem_of_singleton in Hn. by subst.
  - apply elem_of_cons in Hn as [->|Hn]; [done|].
    destruct Hw as [[d Hd] Hw].
    apply (IH y); [|done|done]. by destruct (edge_has_nodes G a y d Hwf Hd).
Qed.

Lemma coords_of_acc (G : Graph EdgeData) p acc :
  (forall n, n ∈ p -> exists nd, od_get n (_node G) = Some (Some nd)) ->
  exists cs,
    foldlM (fun acc n =>
              match od_get n (_node G) with
              | Some (Some nd) =>
                  Ok (acc ++ [{| c_id := n; c_lat := lat nd; c_lon := lon nd;
                                 c_label := label nd |}])
              | _ => Raise KeyError
              end) acc p = Ok cs /\
    map c_id cs = map c_id acc ++ p.
Proof.
  revert acc. induction p as [|n p IH]; intros acc Hattr.
  - exists acc. split; [done|]. by rewrite app_nil_r.
  - destruct (Hattr n) as [nd Hnd]; [by left|]. cbn [foldlM]. rewrite Hnd, bind_Ok.
    destruct (IH (acc ++ [{| c_id := n; c_lat := lat nd; c_lon := lon nd;
                             c_label := label nd |}])) as (cs & Hcs & Hids).
    { intros m Hm. apply Hattr. by right. }
    exists cs. split; [done|]. rewrite Hids, map_app. simpl. by rewrite <- app_assoc.
Qed.

Lemma path_info_ok (G : Graph EdgeData) p :
  (forall n, n ∈ p -> exists nd, od_get n (_node G) = Some (Some nd)) ->
  exists i, path_info G p = Ok i /\ info_of G p i.
Proof.
  intros Hattr. destruct (coords_of_acc G p [] Hattr) as (cs & Hcs & Hids).
  unfold path_info, coords_of. rewrite Hcs, bind_Ok. eexists. split; [done|]. done.
Qed.

Lemma alts_info_acc (G : Graph EdgeData) ps acc :
  (forall p n, p ∈ ps -> n ∈ p -> exists nd, od_get n (_node G) = Some (Some nd)) ->
  exists infos,
    foldlM (fun acc p => i ← path_info G p; Ok (acc ++ [i])) acc ps = Ok (acc ++ infos) /\
    Forall2 (info_of G) ps infos.
Proof.
  revert acc. induction ps as [|p ps IH]; intros acc Hattr.
  - exists []. split; [by rewrite app_nil_r|constructor].
  - destruct (path_info_ok G p) as (i & Hi & Hinfo).
    { intros n. apply Hattr. by left. }
    cbn [foldlM]. rewrite Hi, !bind_Ok.
    destruct (IH (acc ++ [i])) as (infos & Hfold & Hall).
    { intros q n Hq. apply Hattr. by right. }
    exists (i :: infos). split; [|by constructor].
    rewrite Hfold. by rewrite <- app_assoc.
Qed.

Lemma alts_info_ok (G : Graph EdgeData) ps :
  (forall p n, p ∈ ps -> n ∈ p -> exists nd, od_get n (_node G) = Some (Some nd)) ->
  exists infos,
    foldlM (fun acc p => i ← path_info G p; Ok (acc ++ [i])) [] ps = Ok infos /\
    Forall2 (info_of G) ps infos.
Proof. apply (alts_info_acc G ps []). Qed.

(** *** The invariant of the process state *)

Lemma add_edge_store (P : EdgeData -> Prop) u v attr G s :
  (forall old, P (dict_update old attr)) -> P attr ->
  Forall P s -> Forall P (add_edge u v attr (G, s)).2.
Proof.
  intros Hupd Hattr Hs. unfold add_edge.
  destruct (get_edge_data _ u v) as [l|]; cbn [snd].
  - case_match; [|done]. apply Forall_insert; [done|apply Hupd].
  - apply Forall_app. split; [done|]. by constructor.
Qed.

Lemma load_graph_weight nodes_df edges_df :
  Forall (fun d => weight d = length_m d) (load_graph nodes_df edges_df).2.
Proof.
  unfold load_graph. generalize (foldl (fun G row =>
       add_node (row_id row)
         {| lat := row_lat row; lon := row_lon row; label := row_label row |} G)
    (@empty_graph loc) nodes_df). intros G0.
  induction edges_df as [|row rows IH] using rev_ind; [by constructor|].
  rewrite foldl_app. cbn [foldl].
  match goal with
  | |- context [foldl ?f ?i rows] => destruct (foldl f i rows) as [G s]
  end.
  apply add_edge_store; [done|done|exact IH].
Qed.

Lemma edata_in_store G s u v d : edata G s u v = Some d -> d ∈ s.
Proof.
  unfold edata. destruct (get_edge_data G u v) as [l|]; [|done]. simpl.
  apply list_elem_of_lookup_2.
Qed.

Lemma startup_ok nodes_df edges_df model : app_ok (startup nodes_df edges_df model).
Proof.
  pose proof (load_graph_wf nodes_df edges_df) as Hwf.
  pose proof (load_graph_weight nodes_df edges_df) as Hw.
  unfold startup. destruct (load_graph nodes_df edges_df) as [G s]. cbn [fst snd] in *.
  split; cbn [GRAPH STORE FORECAST_CACHE].
  - done.
  - intros u v d. rewrite view_edge by done. intros Hd%edata_in_store.
    rewrite list.Forall_forall in Hw. by apply Hw.
  - intros key tab. by rewrite lookup_empty.
Qed.

Lemma forecast_rows_length G h d p : length (forecast_rows G h d p) = length (edges G).
Proof. unfold forecast_rows. by rewrite length_map. Qed.

Lemma zip_rows_ok (es : list (string * string * EdgeData)) (preds : list Q) h d p :
  length preds = length es ->
  Forall2 (fun r '(_, _, x) => edge_id r = eid x /\ fcapacity r = capacity x)
    (zip_with (fun '(e, x) q => {| edge_id := e; pred_flow := q; fcapacity := f_capacity x |})
       (map (fun '(u, v, data) =>
               let cap := capacity data in
               let len := length_m data in
               (eid data,
                {| f_hour := h; f_day_of_week := d; f_is_peak := p;
                   f_capacity := cap; f_length_m := len;
                   flow_lag1 := (1 # 10) * cap; flow_lag2 := (1 # 10) * cap |})) es)
       preds) es.
Proof.
  revert preds. induction es as [|[[u v] x] es IH]; intros preds Hlen.
  - destruct preds; [constructor|done].
  - destruct preds as [|q preds]; [done|]. simpl. constructor; [done|].
    apply IH. simpl in Hlen. lia.
Qed.

Lemma predict_forecast_rows MODEL G h d p tab :
  (predict_forecast MODEL G h d p).1 = Ok tab ->
  forecast_rows G h d p <> [] /\
  length (MODEL (map snd (forecast_rows G h d p))) = length (forecast_rows G h d p) /\
  tab = zip_with (fun '(e, x) q => {| edge_id := e; pred_flow := q; fcapacity := f_capacity x |})
          (forecast_rows G h d p) (MODEL (map snd (forecast_rows G h d p))).
Proof.
  unfold predict_forecast. destruct (forecast_rows G h d p) as [|r rs]; [done|].
  destruct (length _ =? length _)%nat eqn:Hlen; [|done].
  apply Nat.eqb_eq in Hlen. cbn [fst]. by intros [= <-].
Qed.

(** A table [predict_forecast] returns covers the graph. *)
Lemma predict_forecast_ok MODEL G h d p tab :
  (predict_forecast MODEL G h d p).1 = Ok tab -> tab <> [] /\ table_ok G tab.
Proof.
  intros (Hne & Hlen & ->)%predict_forecast_rows.
  assert (HF : table_ok G
            (zip_with (fun '(e, x) q => {| edge_id := e; pred_flow := q; fcapacity := f_capacity x |})
               (forecast_rows G h d p) (MODEL (map snd (forecast_rows G h d p))))).
  { apply zip_rows_ok. by rewrite Hlen, forecast_rows_length. }
  split; [|exact HF]. intros Hnil. rewrite Hnil in HF. unfold table_ok in HF.
  apply Forall2_nil_inv_l in HF. apply Hne. unfold forecast_rows. by rewrite HF.
Qed.

Lemma with_store_same st : with_store st (STORE st) = st.
Proof. by destruct st. Qed.

(** [route] changes nothing but the store, which it may extend by the
    cells of a penalized copy. *)
Lemma route_state st req :
  (route st req).2 = st \/
  (route st req).2 =
    with_store st (build_penalized_graph (GRAPH st) (STORE st) (forecast_map st)).2.
Proof.
  unfold route. destruct (arg_or (q_k req) 3%Z) as [k|]; [|by left].
  destruct (q_source req) as [[|c1 s1]|]; try (by left).
  all: destruct (q_target req) as [[|c2 s2]|]; try (by left).
  destruct (_ || _); [by left|].
  destruct (match forecast_map st with Some m => _ | None => _ end); [by left|].
  destruct (mode_in _ "both" "penalized").
  - unfold route_penalized.
    destruct (astar_with_congestion _ _ _ _) as [bp|e].
    + right. destruct (build_penalized_graph _ _ _) as [Gp s]. cbv beta iota zeta.
      repeat case_match; reflexivity.
    + left. cbv beta iota zeta. repeat case_match; cbn [snd]; apply with_store_same.
  - left. cbv beta iota zeta. repeat case_match; cbn [snd]; apply with_store_same.
Qed.

Lemma build_store_prefix G s fm :
  sg_wf G s -> s `prefix_of` (build_penalized_graph G s fm).2.
Proof.
  intros Hwf. destruct (build_penalized_spec G s fm Hwf) as (_ & Hlook & _).
  by apply prefix_lookup.
Qed.

Lemma view_prefix G (s s2 : list EdgeData) :
  sg_wf G s -> s `prefix_of` s2 -> view s2 G = view s G.
Proof.
  intros Hwf [ext ->]. apply view_ext; [done|]. intros l Hl. by apply lookup_app_l.
Qed.

Lemma sg_wf_prefix G (s s2 : list EdgeData) :
  sg_wf G s -> s `prefix_of` s2 -> sg_wf G s2.
Proof.
  intros Hwf [ext ->]. apply gwf_sg_wf; [by eapply sg_wf_gwf|].
  intros u v l Hl. apply (sg_range G s Hwf) in Hl. rewrite length_app. lia.
Qed.

Lemma with_store_ok st (s2 : list EdgeData) :
  app_ok st -> STORE st `prefix_of` s2 -> app_ok (with_store st s2).
Proof.
  intros [Hg Hw Hc] Hpre. split; cbn [with_store GRAPH STORE FORECAST_CACHE].
  - by eapply sg_wf_prefix.
  - rewrite (view_prefix _ _ _ Hg Hpre). apply Hw.
  - rewrite (view_prefix _ _ _ Hg Hpre). apply Hc.
Qed.

Lemma route_ok st req : app_ok st -> app_ok (route st req).2.
Proof.
  intros Hok. destruct (route_state st req) as [->| ->]; [done|].
  apply with_store_ok; [done|]. apply build_store_prefix, (ok_graph st Hok).
Qed.

Lemma forecast_ok st req : app_ok st -> app_ok (forecast st req).2.
Proof.
  intros [Hg Hw Hc]. unfold forecast.
  destruct (arg_or (q_hour req) _) as [h|]; [|done].
  destruct (arg_or (q_day_of_week req) _) as [d|]; [|done].
  destruct (arg_or (q_is_peak req) _) as [p|]; [|done].
  cbv zeta.
  destruct (if negb _ then FORECAST_CACHE st !! (h, d, p) else None) as [tab|]; [done|].
  destruct (predict_forecast (MODEL st) (view (STORE st) (GRAPH st)) h d p)
    as [[tab|e] calls] eqn:Hp; [|done].
  split; cbn [GRAPH STORE FORECAST_CACHE snd]; [done|done|].
  intros key tab'. destruct (decide (key = (h, d, p))) as [->|Hne].
  - rewrite lookup_insert_eq. intros [= <-].
    apply (predict_forecast_ok (MODEL st) _ h d p). by rewrite Hp.
  - rewrite lookup_insert_ne by done. apply Hc.
Qed.

Lemma reachable_ok nodes_df edges_df model st :
  reachable nodes_df edges_df model st -> app_ok st.
Proof.
  induction 1; [apply startup_ok|by apply forecast_ok|by apply route_ok].
Qed.

(** *** The two blocks of [route] *)

Lemma penalized_cost_nonneg (E : string -> string -> option EdgeData) fm :
  nonneg E distance_cost -> nonneg E (penalized_cost fm).
Proof.
  intros Hlen u v d He. unfold penalized_cost. specialize (Hlen u v d He).
  unfold distance_cost in Hlen. pose proof (congestion_penalty_nonneg fm (eid d)). nra.
Qed.

Lemma view_has_node s (G : Graph loc) n : has_node (view s G) n = has_node G n.
Proof. done. Qed.

(** *** Source and target the same node *)

Lemma astar_same (G : Graph EdgeData) X heur w :
  has_node G X = true -> astar_path G X X heur w = Ok [X].
Proof.
  intros Hn. unfold astar_path. rewrite Hn. cbn [negb orb].
  replace (adj_size G + 2)%nat with (S (S (adj_size G))) by lia.
  rewrite astar_loop_unfold. simpl. by rewrite String.eqb_refl.
Qed.

Lemma k_shortest_same (G : Graph EdgeData) X wn k :
  has_node G X = true -> k_shortest_paths G X X wn k = Ok [[X]].
Proof.
  intros Hn. unfold k_shortest_paths, gen_start. rewrite Hn. cbn [negb]. rewrite bind_Ok.
  assert (Hd : bidirectional_dijkstra G X X wn ∅ ∅ = Ok (0%Q, [X])).
  { unfold bidirectional_dijkstra. rewrite bool_decide_eq_false_2 by set_solver.
    by rewrite String.eqb_refl, Hn. }
  assert (Hpush : pb_push pb_empty 0 [X] =
            {| pb_paths := {[ [X] ]} ∪ ∅; sortedpaths := [(0%Q, 0%nat, [X])];
               pb_counter := 1 |}).
  { unfold pb_push. by rewrite bool_decide_eq_false_2 by set_solver. }
  cbn [k_loop]. unfold gen_next at 1. cbn [prev_path listB listA].
  rewrite Hd. cbn [mbind result_bind]. rewrite Hpush.
  unfold pb_pop. cbn [sortedpaths heappop pb_paths pb_counter app length].
  destruct (k <=? Z.of_nat 1)%Z eqn:Hk; [done|].
  apply Z.leb_gt in Hk.
  destruct (Z.to_nat k) as [|n] eqn:Hn'; [lia|].
  cbn [k_loop]. unfold gen_next. cbn [prev_path listB listA length Nat.sub seq foldlM].
  cbn [mbind result_bind mret result_ret]. unfold pb_pop. cbn [sortedpaths heappop]. done.
Qed.

Section Route.
Context (st : App) (Hok : app_ok st).
Local Abbreviation G := (view (STORE st) (GRAPH st)).
Local Abbreviation E := (get_edge_data (view (STORE st) (GRAPH st))).
Local Abbreviation fm := (forecast_map st).
Context (Hlen : nonneg (get_edge_data (view (STORE st) (GRAPH st))) distance_cost).
Context (Hattr : nodes_attributed (GRAPH st)).

Lemma G_wf : graph_wf G.
Proof. apply view_wf, (ok_graph st Hok). Qed.

Lemma path_attributed s t p n :
  has_node G s = true -> is_path E s t p -> n ∈ p ->
  exists nd, od_get n (_node G) = Some (Some nd).
Proof.
  intros Hs Hp Hn. apply Hattr. rewrite <- (view_has_node (STORE st)).
  by apply (path_has_nodes G s t p n G_wf).
Qed.

Lemma penalized_view :
  let Gp := (build_penalized_graph (GRAPH st) (STORE st) fm).1 in
  let s2 := (build_penalized_graph (GRAPH st) (STORE st) fm).2 in
  graph_wf (view s2 Gp) /\
  view s2 (GRAPH st) = G /\
  (forall a b, get_edge_data (view s2 Gp) a b = penalize fm <$> E a b) /\
  (forall n, has_node (view s2 Gp) n = has_node G n).
Proof.
  intros Gp s2. pose proof (ok_graph st Hok) as Hg.
  destruct (build_penalized_spec (GRAPH st) (STORE st) fm Hg) as (Hwfp & Hlook & Hed & Hnode).
  fold Gp s2 in Hwfp, Hlook, Hed, Hnode.
  split; [by apply view_wf|]. split; [by apply view_ext|]. split.
  - intros a b. rewrite !view_edge by done. apply Hed.
  - intros n. unfold has_node, od_mem. cbn [view _node]. by rewrite Hnode.
Qed.

Lemma penalized_branch s t k out0 :
  has_node G s = true -> has_node G t = true -> (exists q, is_path E s t q) ->
  exists bp ps ib ialts,
    route_penalized st s t k out0 =
      (Ok {| best := Some ib; best_alts := Some ialts;
             shortest := shortest out0; shortest_alts := shortest_alts out0 |},
       (build_penalized_graph (GRAPH st) (STORE st) fm).2) /\
    astar_with_congestion G fm s t = Ok bp /\
    is_path E s t bp /\
    (forall q, is_path E s t q ->
       (walk_cost E (penalized_cost fm) bp <= walk_cost E (penalized_cost fm) q)%Q) /\
    k_shortest_paths
      (view (build_penalized_graph (GRAPH st) (STORE st) fm).2
            (build_penalized_graph (GRAPH st) (STORE st) fm).1) s t "pen_weight" k = Ok ps /\
    k_paths_ok E (penalized_cost fm) s t k ps /\
    info_of G bp ib /\ Forall2 (info_of G) ps ialts.
Proof.
  intros Hs Ht Hreach.
  pose proof (penalized_cost_nonneg E fm Hlen) as Hnn.
  destruct (astar_path_ok G (penalized_cost fm) (fun _ _ => 0%Q) s t G_wf Hnn
              (fun _ _ => Qeq_refl 0) Hs Ht Hreach) as (bp & Hbp & Hpath & Hopt).
  destruct penalized_view as (Hwfp & Hview & Hedge & Hnode).
  assert (HW : forall a b d, E a b = Some d ->
            attr_weight "pen_weight" a b (penalize fm d) = penalized_cost fm a b d) by done.
  set (Gv := view (build_penalized_graph (GRAPH st) (STORE st) fm).2
                  (build_penalized_graph (GRAPH st) (STORE st) fm).1) in *.
  destruct (k_shortest_paths_ok Gv "pen_weight" s t Hwfp) with (k := k) as (ps & Hps & Hk).
  { by apply (transfer_nonneg E _ (penalize fm) (penalized_cost fm)). }
  { by rewrite Hnode. }
  { by rewrite Hnode. }
  { destruct Hreach as [q Hq]. exists q.
    by apply (transfer_path E _ (penalize fm) Hedge). }
  apply (transfer_k_paths E _ (penalize fm) (penalized_cost fm) _ Hedge HW) in Hk.
  destruct (path_info_ok G bp) as (ib & Hib & Hinfo).
  { intros n. by apply (path_attributed s t bp). }
  destruct (alts_info_ok G ps) as (ialts & Hialts & Hinfos).
  { intros p n Hp. apply (path_attributed s t p); [done|].
    by destruct (kp_simple _ _ _ _ _ _ Hk p Hp). }
  exists bp, ps, ib, ialts. split; [|done].
  unfold route_penalized. fold fm. change (astar_with_congestion G fm s t)
    with (astar_path G s t (fun _ _ => 0%Q) (penalized_cost fm)) in *.
  rewrite Hbp. destruct (build_penalized_graph (GRAPH st) (STORE st) fm) as [Gp s2] eqn:Hb.
  cbn [fst snd] in *. fold Gv. rewrite Hview, Hps, bind_Ok, Hib, bind_Ok, Hialts, bind_Ok.
  done.
Qed.

Lemma distance_branch s t k out0 :
  has_node G s = true -> has_node G t = true -> (exists q, is_path E s t q) ->
  exists sp ps ish ialts,
    route_distance G s t k out0 =
      Ok {| best := best out0; best_alts := best_alts out0;
            shortest := Some ish; shortest_alts := Some ialts |} /\
    astar_distance_only G s t = Ok sp /\
    is_path E s t sp /\
    (forall q, is_path E s t q ->
       (walk_cost E distance_cost sp <= walk_cost E distance_cost q)%Q) /\
    k_shortest_paths G s t "weight" k = Ok ps /\
    k_paths_ok E distance_cost s t k ps /\
    info_of G sp ish /\ Forall2 (info_of G) ps ialts.
Proof.
  intros Hs Ht Hreach.
  destruct (astar_path_ok G distance_cost (fun _ _ => 0%Q) s t G_wf Hlen
              (fun _ _ => Qeq_refl 0) Hs Ht Hreach) as (sp & Hsp & Hpath & Hopt).
  assert (HE : forall a b, E a b = id <$> E a b).
  { intros a b. by destruct (E a b). }
  assert (HW : forall a b d, E a b = Some d ->
            attr_weight "weight" a b (id d) = distance_cost a b d).
  { intros a b d Hd. apply (ok_weight st Hok a b d Hd). }
  destruct (k_shortest_paths_ok G "weight" s t G_wf) with (k := k) as (ps & Hps & Hk);
    try done.
  { by apply (transfer_nonneg E E id distance_cost _ HE HW). }
  apply (transfer_k_paths E E id distance_cost _ HE HW) in Hk.
  destruct (path_info_ok G sp) as (ish & Hish & Hinfo).
  { intros n. by apply (path_attributed s t sp). }
  destruct (alts_info_ok G ps) as (ialts & Hialts & Hinfos).
  { intros p n Hp. apply (path_attributed s t p); [done|].
    by destruct (kp_simple _ _ _ _ _ _ Hk p Hp). }
  exists sp, ps, ish, ialts. split; [|done].
  unfold route_distance. change (astar_distance_only G s t)
    with (astar_path G s t (fun _ _ => 0%Q) distance_cost) in *.
  by rewrite Hsp, bind_Ok, Hps, bind_Ok, Hish, bind_Ok, Hialts, bind_Ok.
Qed.

(** A request that passes the checks of [route] reaches the searches. *)
Lemma route_unfold req s t k m :
  arg_or (q_k req) 3%Z = Some k ->
  q_source req = Some s -> q_target req = Some t -> s <> "" -> t <> "" ->
  has_node G s = true -> has_node G t = true ->
  fm = Some m -> m <> ∅ ->
  route st req =
    (let '(r1, s2) :=
       if mode_in (default "both" (q_mode req)) "both" "penalized"
       then route_penalized st s t k empty_out
       else (Ok empty_out, STORE st) in
     let r2 :=
       out ← r1;
       if mode_in (default "both" (q_mode req)) "both" "distance"
       then route_distance (view s2 (GRAPH st)) s t k out
       else Ok out in
     match r2 with
     | Raise NetworkXNoPath => (Json 404 (ErrorBody "no path"), with_store st s2)
     | Raise e => (InternalServerError e, with_store st s2)
     | Ok out =>
         if is_empty_out out then (Json 404 (ErrorBody "no path"), with_store st s2)
         else (Json 200 (RouteBody out), with_store st s2)
     end).
Proof.
  intros Hk Hsrc Htgt Hs0 Ht0 Hs Ht Hfm Hm. unfold route.
  rewrite Hk, Hsrc, Htgt. destruct s as [|c1 s1]; [done|]. destruct t as [|c2 s2]; [done|].
  rewrite view_has_node in Hs, Ht. rewrite Hs, Ht. cbn [negb orb]. rewrite Hfm.
  rewrite bool_decide_eq_false_2 by done. done.
Qed.

Lemma route_success req s t k m :
  arg_or (q_k req) 3%Z = Some k ->
  q_source req = Some s -> q_target req = Some t -> s <> "" -> t <> "" ->
  has_node G s = true -> has_node G t = true ->
  fm = Some m -> m <> ∅ ->
  (exists q, is_path E s t q) ->
  default "both" (q_mode req) = "both" \/ default "both" (q_mode req) = "penalized" \/
  default "both" (q_mode req) = "distance" ->
  exists out st',
    route st req = (Json 200 (RouteBody out), st') /\
    (mode_in (default "both" (q_mode req)) "both" "penalized" = true ->
       exists ib ialts, best out = Some ib /\ best_alts out = Some ialts /\
         pen_facts st s t k ib ialts) /\
    (mode_in (default "both" (q_mode req)) "both" "distance" = true ->
       exists ish ialts, shortest out = Some ish /\ shortest_alts out = Some ialts /\
         dist_facts st s t k ish ialts).
Proof.
  intros Hk Hsrc Htgt Hs0 Ht0 Hs Ht Hfm Hm Hreach Hmode.
  rewrite (route_unfold req s t k m) by done.
  destruct (penalized_branch s t k empty_out Hs Ht Hreach)
    as (bp & ps & ib & ialts & Hpen & Hbp & Hpath & Hopt & Hps & Hkp & Hib & Hialts).
  destruct penalized_view as (_ & Hview & _).
  destruct Hmode as [-> |[-> | ->]].
  - change (mode_in "both" "both" "penalized") with true.
    change (mode_in "both" "both" "distance") with true. cbv iota. rewrite Hpen.
    cbv beta iota zeta. rewrite bind_Ok. rewrite Hview.
    destruct (distance_branch s t k
                {| best := Some ib; best_alts := Some ialts; shortest := shortest empty_out;
                   shortest_alts := shortest_alts empty_out |} Hs Ht Hreach)
      as (sp & ps' & ish & ialts' & Hdist & Hd).
    rewrite Hdist. eexists _, _. split; [reflexivity|]. split; intros _.
    + exists ib, ialts. split; [done|]. split; [done|]. by exists bp, ps.
    + exists ish, ialts'. split; [done|]. split; [done|]. by exists sp, ps'.
  - change (mode_in "penalized" "both" "penalized") with true.
    change (mode_in "penalized" "both" "distance") with false. cbv iota. rewrite Hpen.
    cbv beta iota zeta. rewrite bind_Ok.
    eexists _, _. split; [reflexivity|]. split; [intros _|done].
    exists ib, ialts. split; [done|]. split; [done|]. by exists bp, ps.
  - change (mode_in "distance" "both" "penalized") with false.
    change (mode_in "distance" "both" "distance") with true. cbv beta iota zeta.
    rewrite bind_Ok.
    destruct (distance_branch s t k empty_out Hs Ht Hreach)
      as (sp & ps' & ish & ialts' & Hdist & Hd).
    rewrite Hdist. eexists _, _. split; [reflexivity|]. split; [done|intros _].
    exists ish, ialts'. split; [done|]. split; [done|]. by exists sp, ps'.
Qed.

Lemma route_same req X k m nd :
  arg_or (q_k req) 3%Z = Some k ->
  q_source req = Some X -> q_target req = Some X -> X <> "" ->
  od_get X (_node (GRAPH st)) = Some (Some nd) ->
  fm = Some m -> m <> ∅ -> known_mode req ->
  exists i out st',
    route st req = (Json 200 (RouteBody out), st') /\
    path i = [X] /\ len_m i = 0%Q /\ map c_id (coords i) = [X] /\
    (best out = Some i /\ best_alts out = Some [i] \/
     best out = None /\ best_alts out = None) /\
    (shortest out = Some i /\ shortest_alts out = Some [i] \/
     shortest out = None /\ shortest_alts out = None) /\
    (best out = Some i \/ shortest out = Some i).
Proof.
  intros Hk Hsrc Htgt HX Hnd Hfm Hm Hmode.
  assert (Hn : has_node G X = true).
  { unfold has_node, od_mem. cbn [view _node]. by rewrite Hnd. }
  rewrite (route_unfold req X X k m) by done.
  destruct (path_info_ok G [X]) as (i & Hi & Hp & Hl & Hc).
  { intros n ->%list_elem_of_singleton. by exists nd. }
  destruct penalized_view as (_ & Hview & _ & Hnode).
  assert (Hpen : forall out0, route_penalized st X X k out0 =
            (Ok {| best := Some i; best_alts := Some [i]; shortest := shortest out0;
                   shortest_alts := shortest_alts out0 |},
             (build_penalized_graph (GRAPH st) (STORE st) fm).2)).
  { intros out0. unfold route_penalized, astar_with_congestion.
    rewrite (astar_same G X) by done. specialize (Hnode X). rewrite Hn in Hnode.
    destruct (build_penalized_graph (GRAPH st) (STORE st) (forecast_map st)) as [Gp s2].
    cbn [fst snd] in *. rewrite (k_shortest_same _ X "pen_weight" k Hnode), bind_Ok, Hview.
    rewrite Hi, bind_Ok. cbn [foldlM]. rewrite Hi, !bind_Ok. done. }
  assert (Hdist : forall out0, route_distance G X X k out0 =
            Ok {| best := best out0; best_alts := best_alts out0; shortest := Some i;
                  shortest_alts := Some [i] |}).
  { intros out0. unfold route_distance, astar_distance_only.
    rewrite (astar_same G X) by done. rewrite bind_Ok.
    rewrite (k_shortest_same G X "weight" k Hn), bind_Ok, Hi, bind_Ok.
    cbn [foldlM]. rewrite Hi, !bind_Ok. done. }
  exists i. destruct Hmode as [-> |[-> | ->]].
  - change (mode_in "both" "both" "penalized") with true.
    change (mode_in "both" "both" "distance") with true. cbv iota. rewrite Hpen.
    cbv beta iota zeta. rewrite bind_Ok, Hview, Hdist.
    eexists _, _. split; [reflexivity|]. simpl. rewrite Hl. tauto.
  - change (mode_in "penalized" "both" "penalized") with true.
    change (mode_in "penalized" "both" "distance") with false. cbv iota. rewrite Hpen.
    cbv beta iota zeta. rewrite bind_Ok.
    eexists _, _. split; [reflexivity|]. simpl. rewrite Hl. tauto.
  - change (mode_in "distance" "both" "penalized") with false.
    change (mode_in "distance" "both" "distance") with true. cbv beta iota zeta.
    rewrite bind_Ok, Hdist.
    eexists _, _. split; [reflexivity|]. simpl. rewrite Hl. tauto.
Qed.

End Route.

(** *** The forecast view *)

Lemma to_forecast_map_nonempty tab : tab <> [] -> to_forecast_map tab <> ∅.
Proof.
  unfold to_forecast_map. destruct tab as [|r tab] using rev_ind; [done|]. intros _.
  rewrite foldl_app. simpl. apply insert_non_empty.
Qed.

(** The two ways [/forecast] answers 200. *)
Lemma forecast_cases st req h d p :
  arg_or (q_hour req) (Q2Qc 9) = Some h ->
  arg_or (q_day_of_week req) 1%Z = Some d ->
  arg_or (q_is_peak req) 1%Z = Some p ->
  let bypass := String.eqb (lower (default "true" (q_use_cache req))) "false" in
  (forall tab, bypass = false -> FORECAST_CACHE st !! (h, d, p) = Some tab ->
     forecast st req =
       (Json 200 (ForecastBody tab), served st (FORECAST_CACHE st) tab (predict_calls st))) /\
  (bypass = true \/ FORECAST_CACHE st !! (h, d, p) = None ->
     forecast st req =
       match predict_forecast (MODEL st) (view (STORE st) (GRAPH st)) h d p with
       | (Ok tab, calls) =>
           (Json 200 (ForecastBody tab),
            served st (<[(h, d, p) := tab]> (FORECAST_CACHE st)) tab (predict_calls st + calls))
       | (Raise e, calls) =>
           (InternalServerError e,
            {| GRAPH := GRAPH st; STORE := STORE st; MODEL := MODEL st;
               FORECAST_CACHE := FORECAST_CACHE st; forecast_map := forecast_map st;
               predict_calls := predict_calls st + calls |})
       end).
Proof.
  intros Hh Hd Hp bypass. unfold forecast. rewrite Hh, Hd, Hp. cbv zeta. fold bypass.
  split.
  - intros tab -> Htab. cbn [negb]. by rewrite Htab.
  - intros Hmiss.
    assert ((if negb bypass then FORECAST_CACHE st !! (h, d, p) else None) = None) as ->.
    { destruct Hmiss as [-> | ->]; [done|by destruct (negb bypass)]. }
    by destruct (predict_forecast _ _ h d p) as [[tab|e] calls].
Qed.

Lemma forecast_served st req tab st' :
  app_ok st -> forecast st req = (Json 200 (ForecastBody tab), st') ->
  tab <> [] /\ table_ok (view (STORE st) (GRAPH st)) tab /\
  exists cache calls, st' = served st cache tab calls.
Proof.
  intros Hok. unfold forecast.
  destruct (arg_or (q_hour req) _) as [h|]; [|done].
  destruct (arg_or (q_day_of_week req) _) as [d|]; [|done].
  destruct (arg_or (q_is_peak req) _) as [p|]; [|done].
  cbv zeta.
  destruct (if negb _ then FORECAST_CACHE st !! (h, d, p) else None) as [tab0|] eqn:Hhit.
  - intros [= <- <-]. destruct (negb _); [|done].
    destruct (ok_cache st Hok _ _ Hhit) as [Hne Htab]. split; [done|]. split; [done|].
    by eexists _, _.
  - destruct (predict_forecast (MODEL st) (view (STORE st) (GRAPH st)) h d p)
      as [[tab0|e] calls] eqn:Hp; [|done].
    intros [= <- <-].
    destruct (predict_forecast_ok (MODEL st) (view (STORE st) (GRAPH st)) h d p tab0)
      as [Hne Htab]; [by rewrite Hp|].
    split; [done|]. split; [done|]. by eexists _, _.
Qed.

Lemma forecast_keeps_loaded st req :
  app_ok st -> forecast_loaded st -> forecast_loaded (forecast st req).2.
Proof.
  intros Hok Hl. unfold forecast.
  destruct (arg_or (q_hour req) _) as [h|]; [|done].
  destruct (arg_or (q_day_of_week req) _) as [d|]; [|done].
  destruct (arg_or (q_is_peak req) _) as [p|]; [|done].
  cbv zeta.
  destruct (if negb _ then FORECAST_CACHE st !! (h, d, p) else None) as [tab0|] eqn:Hhit.
  - cbn [snd]. destruct (negb _); [|done].
    destruct (ok_cache st Hok _ _ Hhit) as [Hne Htab].
    eexists. split; [done|]. by apply to_forecast_map_nonempty.
  - destruct (predict_forecast (MODEL st) (view (STORE st) (GRAPH st)) h d p)
      as [[tab0|e] calls] eqn:Hp; [|done]. cbn [snd].
    destruct (predict_forecast_ok (MODEL st) (view (STORE st) (GRAPH st)) h d p tab0)
      as [Hne Htab]; [by rewrite Hp|].
    eexists. split; [done|]. by apply to_forecast_map_nonempty.
Qed.

(** *** Retrying a request *)

Lemma route_penalized_prefix st (s' : list EdgeData) a b k out0 :
  app_ok st -> STORE st `prefix_of` s' ->
  (route_penalized (with_store st s') a b k out0).1 = (route_penalized st a b k out0).1 /\
  view (route_penalized (with_store st s') a b k out0).2 (GRAPH st) =
  view (route_penalized st a b k out0).2 (GRAPH st).
Proof.
  intros Hok Hpre. pose proof (ok_graph st Hok) as Hg.
  pose proof (sg_wf_prefix _ _ _ Hg Hpre) as Hg'.
  unfold route_penalized. cbn [with_store GRAPH STORE forecast_map].
  rewrite (view_prefix _ _ _ Hg Hpre).
  destruct (astar_with_congestion _ _ a b) as [bp|e]; cbn [fst snd].
  - pose proof (build_view_prefix (GRAPH st) (STORE st) s' (forecast_map st) Hg Hpre) as Hv.
    pose proof (build_store_prefix (GRAPH st) (STORE st) (forecast_map st) Hg) as Hp1.
    pose proof (build_store_prefix (GRAPH st) s' (forecast_map st) Hg') as Hp2.
    destruct (build_penalized_graph (GRAPH st) s' (forecast_map st)) as [Gp' s2'].
    destruct (build_penalized_graph (GRAPH st) (STORE st) (forecast_map st)) as [Gp s2].
    cbn [fst snd] in *.
    rewrite Hv, (view_prefix _ _ _ Hg Hp1), (view_prefix _ _ _ Hg' Hp2).
    by rewrite (view_prefix _ _ _ Hg Hpre).
  - split; [done|]. by rewrite (view_prefix _ _ _ Hg Hpre).
Qed.

(** The response of [route] depends on the store only through the view
    of [GRAPH]: over a longer store it is the same. *)
Lemma route_store_indep st (s' : list EdgeData) req :
  app_ok st -> STORE st `prefix_of` s' ->
  (route (with_store st s') req).1 = (route st req).1.
Proof.
  intros Hok Hpre. unfold route. cbn [with_store GRAPH STORE forecast_map].
  destruct (arg_or (q_k req) 3%Z) as [k|]; [|done].
  destruct (q_source req) as [[|c1 a1]|]; try done.
  all: destruct (q_target req) as [[|c2 a2]|]; try done.
  destruct (_ || _); [done|].
  destruct (match forecast_map st with Some m => _ | None => _ end); [done|].
  destruct (mode_in _ "both" "penalized").
  - destruct (route_penalized_prefix st s' (String c1 a1) (String c2 a2) k empty_out Hok Hpre)
      as [Hr Hv].
    destruct (route_penalized (with_store st s') _ _ k empty_out) as [r1' s2'].
    destruct (route_penalized st _ _ k empty_out) as [r1 s2]. cbn [fst snd] in *.
    subst r1'. cbv beta iota zeta. rewrite Hv.
    repeat case_match; reflexivity.
  - cbv beta iota zeta. rewrite (view_prefix _ _ _ (ok_graph st Hok) Hpre).
    repeat case_match; reflexivity.
Qed.

Lemma route_retry st req :
  app_ok st -> (route (route st req).2 req).1 = (route st req).1.
Proof.
  intros Hok. destruct (route_state st req) as [-> | ->]; [done|].
  apply route_store_indep; [done|]. apply build_store_prefix, (ok_graph st Hok).
Qed.

(** C6: every forecast table produced by [predict_forecast], served by
    [/forecast] or held in the cache of a state the process can reach has
    exactly one record per edge of the graph, in the order of [G.edges],
    carrying that edge's identifier and capacity next to its predicted
    flow. *)
Theorem forecast_table_covers_graph nodes_df edges_df model st :
  reachable nodes_df edges_df model st ->
  (forall h d p tab,
     (predict_forecast (MODEL st) (view (STORE st) (GRAPH st)) h d p).1 = Ok tab ->
     table_ok (view (STORE st) (GRAPH st)) tab) /\
  (forall req tab st',
     forecast st req = (Json 200 (ForecastBody tab), st') ->
     table_ok (view (STORE st) (GRAPH st)) tab) /\
  (forall key tab,
     FORECAST_CACHE st !! key = Some tab -> table_ok (view (STORE st) (GRAPH st)) tab).
Proof.
  intros Hreach. pose proof (reachable_ok _ _ _ _ Hreach) as Hok.
  split; [|split].
  - intros h d p tab Hp. by destruct (predict_forecast_ok _ _ _ _ _ _ Hp).
  - intros req tab st' Hf. by destruct (forecast_served st req tab st' Hok Hf) as (_ & ? & _).
  - intros key tab Hc. by destruct (ok_cache st Hok key tab Hc).
Qed.

Lemma forecast_table_covers_graph_witness :
  reachable ex_nodes ex_edges ex_model ex_st1 /\
  table_ok (view (STORE ex_st1) (GRAPH ex_st1))
    [{| edge_id := "e2"; pred_flow := 100; fcapacity := 400 |};
     {| edge_id := "e1"; pred_flow := 100; fcapacity := 400 |};
     {| edge_id := "e4"; pred_flow := 100; fcapacity := 400 |};
     {| edge_id := "e3"; pred_flow := 100; fcapacity := 400 |}].
Proof.
  assert (Hr : reachable ex_nodes ex_edges ex_model ex_st1).
  { apply reach_forecast, reach_startup. }
  split; [exact Hr|].
  apply (proj1 (proj2 (forecast_table_covers_graph _ _ _ _ Hr)) ex_forecast_req _
           (forecast ex_st1 ex_forecast_req).2).
  vm_compute. reflexivity.
Defined.





Lemma route_keeps_map st req : forecast_map (route st req).2 = forecast_map st.
Proof. by destruct (route_state st req) as [-> | ->]. Qed.

Lemma not_loaded_cases st :
  ~ forecast_loaded st <->
  match forecast_map st with None => true | Some m => bool_decide (m = ∅) end = true.
Proof.
  unfold forecast_loaded. destruct (forecast_map st) as [m|].
  - rewrite bool_decide_eq_true. split.
    + intros Hn. destruct (decide (m = ∅)) as [|Hne]; [done|]. destruct Hn. by exists m.
    + intros -> (m' & [= <-] & Hne). done.
  - split; [done|]. by intros _ (m' & [=] & _).
Qed.

Lemma route_gate st req :
  (route st req).1 = Json 400 (ErrorBody "forecast not loaded; call /forecast first") <->
  (exists s t k, route_checked st req s t k) /\ ~ forecast_loaded st.
Proof.
  rewrite not_loaded_cases. unfold route_checked, route.
  destruct (arg_or (q_k req) 3%Z) as [k|]; cycle 1.
  { split; [done|]. by intros [(s & t & k & [=] & _) _]. }
  destruct (q_source req) as [s|]; cycle 1.
  { split; [done|]. by intros [(s & t & k' & _ & [=] & _) _]. }
  destruct (q_target req) as [t|]; cycle 1.
  { split; [by destruct s|]. by intros [(s' & t & k' & _ & _ & [=] & _) _]. }
  destruct (decide (s = "")) as [->|Hs].
  { split; [done|]. by intros [(s' & t' & k' & _ & [= <-] & _ & ? & _) _]. }
  destruct (decide (t = "")) as [->|Ht].
  { split; [by destruct s|]. by intros [(s' & t' & k' & _ & _ & [= <-] & _ & ? & _) _]. }
  destruct s as [|c1 s1]; [done|]. destruct t as [|c2 t1]; [done|].
  destruct (has_node (GRAPH st) (String c1 s1)) eqn:Hsn; cycle 1.
  { split; [done|]. intros [(s' & t' & k' & _ & [= <-] & _ & _ & _ & ? & _) _]. congruence. }
  destruct (has_node (GRAPH st) (String c2 t1)) eqn:Htn; cycle 1.
  { split; [done|]. intros [(s' & t' & k' & _ & _ & [= <-] & _ & _ & _ & ?) _]. congruence. }
  cbn [negb orb].
  destruct (match forecast_map st with Some m => _ | None => _ end).
  - split; [|done]. intros _. split; [|done]. by exists (String c1 s1), (String c2 t1), k.
  - split; [|by intros [_ ?]]. cbv beta iota zeta.
    repeat case_match; cbn [fst]; intros [=].
Qed.

Lemma nonneg_store G (s : list EdgeData) :
  sg_wf G s -> Forall (fun d => (0 <= length_m d)%Q) s ->
  nonneg (get_edge_data (view s G)) distance_cost.
Proof.
  intros Hwf Hall u v d. rewrite view_edge by done. intros Hd%edata_in_store.
  rewrite list.Forall_forall in Hall. by apply Hall.
Qed.

Lemma attributed_nodes {E} (G : Graph E) :
  Forall (fun na => is_Some na.2) (_node G) -> nodes_attributed G.
Proof.
  intros Hall n Hn. unfold has_node, od_mem in Hn.
  destruct (od_get n (_node G)) as [a|] eqn:Ha; [|done].
  apply od_get_elem in Ha. rewrite list.Forall_forall in Hall.
  destruct (Hall _ Ha) as [nd Hnd]. simpl in Hnd. subst a. by exists nd.
Qed.

(** C4, as stated, fails: before any forecast a request with
    [mode=distance] between connected nodes is refused with the
    "forecast not loaded" error.  And after a [/forecast] call answered
    with a table, a request with [mode=penalized] between connected
    nodes does not succeed when an endpoint is named in edges.csv only
    (reading its "lat" raises a KeyError, a 500 page), nor when an edge
    length is negative (the search for the alternatives raises a
    ValueError, a 500 page). *)
Lemma route_distance_mode_is_gated :
  (forecast_map ex_st0 = None /\
   (route ex_st0 (ex_route_req "A" "D" "distance" (Parsed 1%Z))).1 =
     Json 400 (ErrorBody "forecast not loaded; call /forecast first")) /\
  ((exists tab, (forecast (startup ex2_nodes ex2_edges ex_model) ex_forecast_req).1 =
                  Json 200 (ForecastBody tab)) /\
   is_path (get_edge_data (view (STORE ex2_st1) (GRAPH ex2_st1))) "A" "B" ["A"; "B"] /\
   (route ex2_st1 (ex_route_req "A" "B" "penalized" (Parsed 1%Z))).1 =
     InternalServerError KeyError) /\
  ((exists tab, (forecast (startup ex3_nodes ex3_edges ex_model) ex_forecast_req).1 =
                  Json 200 (ForecastBody tab)) /\
   is_path (get_edge_data (view (STORE ex3_st1) (GRAPH ex3_st1))) "S" "T"
     ["S"; "A"; "U"; "T"] /\
   (route ex3_st1 (ex_route_req "S" "T" "penalized" (Parsed 1%Z))).1 =
     InternalServerError ValueError).
Proof.
  split; [split; vm_compute; reflexivity|]. split.
  - split; [eexists; vm_compute; reflexivity|]. split; [|vm_compute; reflexivity].
    split; [|split; reflexivity]. vm_compute. eauto.
  - split; [eexists; vm_compute; reflexivity|]. split; [|vm_compute; reflexivity].
    split; [|split; reflexivity]. vm_compute. eauto 10.
Qed.

(** C4 (amended): a [/route] request gets the "forecast not loaded"
    error exactly when it passes the parameter checks (k parses, source
    and target are given and are nodes) while no non-empty forecast is
    active, whatever its mode.  In a reachable state a [/forecast] call
    answered with a table makes a forecast active, later requests keep
    one active, and once one is active a checked request with mode both,
    penalized or distance between connected nodes is answered 200,
    provided that no edge length is negative and that every node of the
    graph carries its attributes (every endpoint named in edges.csv is
    listed in nodes.csv). *)
Theorem route_refused_until_forecast nodes_df edges_df model st req :
  ((route st req).1 = Json 400 (ErrorBody "forecast not loaded; call /forecast first") <->
   (exists s t k, route_checked st req s t k) /\ ~ forecast_loaded st) /\
  (reachable nodes_df edges_df model st ->
   (forall freq tab st1,
      forecast st freq = (Json 200 (ForecastBody tab), st1) -> forecast_loaded st1) /\
   (forecast_loaded st ->
      forall freq rreq,
        forecast_loaded (forecast st freq).2 /\ forecast_loaded (route st rreq).2) /\
   (forecast_loaded st ->
      forall s t k,
        route_checked st req s t k -> known_mode req ->
        (exists q, is_path (get_edge_data (view (STORE st) (GRAPH st))) s t q) ->
        nonneg (get_edge_data (view (STORE st) (GRAPH st))) distance_cost ->
        nodes_attributed (GRAPH st) ->
        exists out, (route st req).1 = Json 200 (RouteBody out))).
Proof.
  split; [apply route_gate|]. intros Hreach.
  pose proof (reachable_ok _ _ _ _ Hreach) as Hok. split; [|split].
  - intros freq tab st1 Hf.
    destruct (forecast_served st freq tab st1 Hok Hf) as (Hne & _ & cache & calls & ->).
    eexists. split; [done|]. by apply to_forecast_map_nonempty.
  - intros Hl freq rreq. split; [by apply forecast_keeps_loaded|].
    destruct Hl as (m & Hm & Hne). exists m. by rewrite route_keeps_map.
  - intros (m & Hm & Hne) s t k (Hk & Hs & Ht & Hs0 & Ht0 & Hsn & Htn) Hmode Hconn Hlen Hattr.
    destruct (route_success st Hok Hlen Hattr req s t k m) as (out & st' & Hr & _); try done.
    exists out. by rewrite Hr.
Qed.

Lemma route_refused_until_forecast_witness :
  exists out, (route ex_st1 (ex_route_req "A" "D" "distance" (Parsed 1%Z))).1
              = Json 200 (RouteBody out).
Proof.
  assert (Hr : reachable ex_nodes ex_edges ex_model ex_st1).
  { apply reach_forecast, reach_startup. }
  pose proof (reachable_ok _ _ _ _ Hr) as Hok.
  assert (Hl : forecast_loaded ex_st1).
  { eexists. split; [vm_compute; reflexivity|].
    apply (to_forecast_map_nonempty
             [{| edge_id := "e2"; pred_flow := 100; fcapacity := 400 |};
              {| edge_id := "e1"; pred_flow := 100; fcapacity := 400 |};
              {| edge_id := "e4"; pred_flow := 100; fcapacity := 400 |};
              {| edge_id := "e3"; pred_flow := 100; fcapacity := 400 |}]). done. }
  apply (proj2 (proj2 (proj2 (route_refused_until_forecast ex_nodes ex_edges ex_model ex_st1
           (ex_route_req "A" "D" "distance" (Parsed 1%Z))) Hr)) Hl "A" "D" 1%Z).
  - repeat split; try done; vm_compute; reflexivity.
  - right. right. reflexivity.
  - exists ["A"; "C"; "D"]. split; [|done]. vm_compute. eauto.
  - apply nonneg_store; [apply (ok_graph _ Hok)|].
    vm_compute. repeat constructor; discriminate.
  - apply attributed_nodes. vm_compute. repeat constructor; eauto.
Defined.

(** C5, as stated, fails: with a forecast active, [k=0] is answered 200
    (with one alternative), and an unknown mode is answered 404 "no
    path" after the searches were skipped. *)
Lemma route_accepts_k_zero_and_unknown_mode :
  (exists ib ia,
     (route ex_st1 (ex_route_req "A" "D" "penalized" (Parsed 0%Z))).1 =
       Json 200 (RouteBody {| best := Some ib; best_alts := Some [ia];
                              shortest := None; shortest_alts := None |})) /\
  (route ex_st1 (ex_route_req "A" "D" "fastest" (Parsed 1%Z))).1 =
    Json 404 (ErrorBody "no path").
Proof. split; [|vm_compute; reflexivity]. eexists _, _. vm_compute. reflexivity. Qed.

(** C5 (amended): when k parses as an integer, a [/route] request
    without source or target (absent or empty) is answered 400 "source
    and target are required", and one whose source or target is not a
    node of the graph is answered 400 "invalid source/target"; in both
    cases nothing else is done: the state is returned unchanged. *)
Theorem route_rejects_bad_endpoints st req k :
  arg_or (q_k req) 3%Z = Some k ->
  (q_source req = None \/ q_source req = Some "" \/
   q_target req = None \/ q_target req = Some "" ->
   route st req = (Json 400 (ErrorBody "source and target are required"), st)) /\
  (forall s t,
     q_source req = Some s -> q_target req = Some t -> s <> "" -> t <> "" ->
     has_node (GRAPH st) s = false \/ has_node (GRAPH st) t = false ->
     route st req = (Json 400 (ErrorBody "invalid source/target"), st)).
Proof.
  intros Hk. unfold route. rewrite Hk. split.
  - intros [-> |[-> |[-> | ->]]]; try done.
    + by destruct (q_source req) as [[|? ?]|].
    + by destruct (q_source req) as [[|? ?]|].
  - intros s t -> -> Hs Ht Hn. destruct s as [|c1 s1]; [done|]. destruct t as [|c2 t1]; [done|].
    destruct Hn as [-> | ->]; [done|]. by rewrite orb_true_r.
Qed.

Lemma route_rejects_bad_endpoints_witness :
  route ex_st1 (ex_route_req "A" "Z" "both" Absent) =
    (Json 400 (ErrorBody "invalid source/target"), ex_st1).
Proof.
  apply (proj2 (route_rejects_bad_endpoints ex_st1 (ex_route_req "A" "Z" "both" Absent) 3%Z
                  eq_refl) "A" "Z"); try done.
  right. vm_compute. reflexivity.
Defined.

(** C9, as stated, fails: with a forecast active, a request from a node
    to itself does not succeed when its mode is none of both, penalized
    and distance (no search is run: 404 "no path"), nor when the node is
    one that edges.csv names and nodes.csv does not list (reading its
    "lat" raises a KeyError, a 500 page), nor when k is no integer (a
    ValueError, a 500 page). *)
Lemma route_same_node_can_fail :
  (has_node (GRAPH ex_st1) "A" = true /\
   (route ex_st1 (ex_route_req "A" "A" "fastest" (Parsed 1%Z))).1 =
     Json 404 (ErrorBody "no path")) /\
  (has_node (GRAPH ex2_st1) "B" = true /\
   (route ex2_st1 (ex_route_req "B" "B" "both" (Parsed 1%Z))).1 =
     InternalServerError KeyError) /\
  (route ex_st1 (ex_route_req "A" "A" "both" Unparsable)).1 =
    InternalServerError ValueError.
Proof.
  split; [split; vm_compute; reflexivity|].
  split; [split; vm_compute; reflexivity|]. vm_compute; reflexivity.
Qed.

(** C9 (amended): in a reachable state with a forecast active, a
    [/route] request with source = target = X, where X is a non-empty
    node identifier listed in nodes.csv (so that the node carries lat,
    lon and label), k is absent or an integer and the mode is absent or
    one of both, penalized and distance, is answered 200, and every
    group of the answer ("best" and "best_alts", "shortest" and
    "shortest_alts", as the mode selects them) holds just the one-node
    path [X] with [len_m] = 0. *)
Theorem route_same_node_is_trivial nodes_df edges_df model st req X k nd :
  reachable nodes_df edges_df model st -> forecast_loaded st ->
  arg_or (q_k req) 3%Z = Some k ->
  q_source req = Some X -> q_target req = Some X -> X <> "" ->
  od_get X (_node (GRAPH st)) = Some (Some nd) ->
  known_mode req ->
  exists i out,
    (route st req).1 = Json 200 (RouteBody out) /\
    path i = [X] /\ len_m i = 0%Q /\ map c_id (coords i) = [X] /\
    (best out = Some i /\ best_alts out = Some [i] \/
     best out = None /\ best_alts out = None) /\
    (shortest out = Some i /\ shortest_alts out = Some [i] \/
     shortest out = None /\ shortest_alts out = None) /\
    (best out = Some i \/ shortest out = Some i).
Proof.
  intros Hreach (m & Hm & Hne) Hk Hs Ht HX Hnd Hmode.
  pose proof (reachable_ok _ _ _ _ Hreach) as Hok.
  destruct (route_same st Hok req X k m nd) as (i & out & st' & Hr & H); try done.
  exists i, out. by rewrite Hr.
Qed.

Lemma ex_st1_reachable : reachable ex_nodes ex_edges ex_model ex_st1.
Proof. apply reach_forecast, reach_startup. Qed.

Lemma ex_st1_loaded : forecast_loaded ex_st1.
Proof.
  eexists. split; [vm_compute; reflexivity|].
  apply (to_forecast_map_nonempty
           [{| edge_id := "e2"; pred_flow := 100; fcapacity := 400 |};
            {| edge_id := "e1"; pred_flow := 100; fcapacity := 400 |};
            {| edge_id := "e4"; pred_flow := 100; fcapacity := 400 |};
            {| edge_id := "e3"; pred_flow := 100; fcapacity := 400 |}]). done.
Qed.

Lemma route_same_node_is_trivial_witness :
  exists i out,
    (route ex_st1 {| q_source := Some "A"; q_target := Some "A"; q_mode := None;
                     q_k := Absent |}).1 = Json 200 (RouteBody out) /\
    path i = ["A"] /\ len_m i = 0%Q /\ best out = Some i /\ shortest_alts out = Some [i].
Proof.
  destruct (route_same_node_is_trivial ex_nodes ex_edges ex_model ex_st1
              {| q_source := Some "A"; q_target := Some "A"; q_mode := None; q_k := Absent |}
              "A" 3%Z {| lat := 0; lon := 0; label := "A" |}
              ex_st1_reachable ex_st1_loaded eq_refl eq_refl eq_refl)
    as (i & out & Hr & Hp & Hl & _ & Hb & Hs & _).
  - done.
  - vm_compute. reflexivity.
  - left. reflexivity.
  - exists i, out. split; [exact Hr|]. split; [exact Hp|]. split; [exact Hl|].
    revert Hr Hb Hs. vm_compute. intros [= <-]. intros [[? ?]|[? ?]] [[? ?]|[? ?]]; done.
Defined.

(** C10: in a reachable state, a [/route] request, whatever it is and
    however it ends, leaves [GRAPH], [MODEL], the forecast cache, the
    active forecast map and the predictor count as they were; the store
    of edge dicts is only extended by the cells of the request's own
    copy, so [GRAPH] reads the same nodes, edges and weights; and the
    same request, repeated, gets the same response. *)
Theorem route_leaves_state_unchanged nodes_df edges_df model st req :
  reachable nodes_df edges_df model st ->
  GRAPH (route st req).2 = GRAPH st /\
  MODEL (route st req).2 = MODEL st /\
  FORECAST_CACHE (route st req).2 = FORECAST_CACHE st /\
  forecast_map (route st req).2 = forecast_map st /\
  predict_calls (route st req).2 = predict_calls st /\
  STORE st `prefix_of` STORE (route st req).2 /\
  view (STORE (route st req).2) (GRAPH (route st req).2) = view (STORE st) (GRAPH st) /\
  (route (route st req).2 req).1 = (route st req).1.
Proof.
  intros Hreach. pose proof (reachable_ok _ _ _ _ Hreach) as Hok.
  pose proof (route_retry st req Hok) as Hretry.
  pose proof (ok_graph st Hok) as Hg.
  pose proof (build_store_prefix (GRAPH st) (STORE st) (forecast_map st) Hg) as Hpre.
  destruct (route_state st req) as [Hst|Hst]; rewrite Hst in Hretry |- *.
  - do 5 (split; [done|]). split; [done|]. split; [done|]. exact Hretry.
  - cbn [with_store GRAPH MODEL FORECAST_CACHE forecast_map predict_calls STORE].
    do 5 (split; [done|]). split; [done|]. split; [by apply view_prefix|]. exact Hretry.
Qed.

Lemma route_leaves_state_unchanged_witness :
  GRAPH (route ex_st1 (ex_route_req "A" "D" "both" (Parsed 2%Z))).2 = GRAPH ex_st1 /\
  forecast_map (route ex_st1 (ex_route_req "A" "D" "both" (Parsed 2%Z))).2 =
    forecast_map ex_st1.
Proof.
  pose proof (route_leaves_state_unchanged ex_nodes ex_edges ex_model ex_st1
                (ex_route_req "A" "D" "both" (Parsed 2%Z)) ex_st1_reachable)
    as (H1 & _ & _ & H4 & _).
  split; [exact H1|exact H4].
Defined.




Lemma ex_st1_lengths :
  nonneg (get_edge_data (view (STORE ex_st1) (GRAPH ex_st1))) distance_cost.
Proof.
  apply nonneg_store; [apply (ok_graph _ (reachable_ok _ _ _ _ ex_st1_reachable))|].
  vm_compute. repeat constructor; discriminate.
Qed.

Lemma ex_st1_attributed : nodes_attributed (GRAPH ex_st1).
Proof. apply attributed_nodes. vm_compute. repeat constructor; eauto. Qed.

Lemma ex_st1_connected :
  is_path (get_edge_data (view (STORE ex_st1) (GRAPH ex_st1))) "A" "D" ["A"; "C"; "D"].
Proof. split; [|done]. vm_compute. eauto. Qed.


Lemma nonneg_attr G (s : list EdgeData) wn :
  sg_wf G s -> Forall (fun d => (0 <= default 1 (attr_get wn d))%Q) s ->
  nonneg (get_edge_data (view s G)) (attr_weight wn).
Proof.
  intros Hwf Hall u v d. rewrite view_edge by done. intros Hd%edata_in_store.
  rewrite list.Forall_forall in Hall. by apply Hall.
Qed.

Lemma ex_graph_wf : graph_wf ex_graph.
Proof. apply view_wf, (ok_graph _ (startup_ok ex_nodes ex_edges ex_model)). Qed.

Lemma ex_graph_weights : nonneg (get_edge_data ex_graph) (attr_weight "weight").
Proof.
  apply nonneg_attr; [apply (ok_graph _ (startup_ok ex_nodes ex_edges ex_model))|].
  vm_compute. repeat constructor; discriminate.
Qed.

Lemma ex_graph_connected : is_path (get_edge_data ex_graph) "A" "D" ["A"; "C"; "D"].
Proof. split; [|done]. vm_compute. eauto. Qed.

(** C2, as stated, fails: on the square the two paths from A to D are
    returned with equal costs, not strictly increasing ones; and for the
    node E, which no path reaches, the call raises [NetworkXNoPath]
    instead of returning a shorter sequence. *)
Lemma k_shortest_paths_ties_and_no_path :
  (exists p1 p2,
     k_shortest_paths ex_graph "A" "D" "weight" 2 = Ok [p1; p2] /\
     (walk_cost (get_edge_data ex_graph) (attr_weight "weight") p1 ==
      walk_cost (get_edge_data ex_graph) (attr_weight "weight") p2)%Q) /\
  has_node ex_graph "E" = true /\
  k_shortest_paths ex_graph "A" "E" "weight" 2 = Raise NetworkXNoPath.
Proof.
  split; [|split; vm_compute; reflexivity].
  eexists _, _. split; [vm_compute; reflexivity|]. vm_compute. reflexivity.
Qed.

(** C2 (amended): on a well-formed graph with non-negative weights, for
    k >= 1 and nodes source and target joined by some path,
    [k_shortest_paths] returns between one and k paths, each a loopless
    path from source to target, no path twice, with total costs that
    never decrease along the sequence, the first of least cost among all
    paths and every returned path no dearer than any loopless path left
    out; when fewer than k are returned, they are all the loopless paths
    there are.  When no path joins the two nodes it raises
    [NetworkXNoPath]. *)
Theorem k_shortest_paths_sorted_simple (G : Graph EdgeData) (weight source target : string)
    (k : Z) :
  graph_wf G -> nonneg (get_edge_data G) (attr_weight weight) ->
  has_node G source = true -> has_node G target = true -> (1 <= k)%Z ->
  let E := get_edge_data G in
  let cost := walk_cost (get_edge_data G) (attr_weight weight) in
  ((exists q, is_path E source target q) ->
   exists ps,
     k_shortest_paths G source target weight k = Ok ps /\
     ps <> [] /\ (Z.of_nat (length ps) <= k)%Z /\
     (forall p, p ∈ ps -> is_path E source target p /\ NoDup p) /\
     NoDup ps /\
     (forall i j a b, (i <= j)%nat -> ps !! i = Some a -> ps !! j = Some b ->
        (cost a <= cost b)%Q) /\
     (forall a q, head ps = Some a -> is_path E source target q -> (cost a <= cost q)%Q) /\
     (forall a P, a ∈ ps -> is_path E source target P -> NoDup P -> P ∉ ps ->
        (cost a <= cost P)%Q) /\
     ((Z.of_nat (length ps) < k)%Z ->
      forall P, is_path E source target P -> NoDup P -> P ∈ ps)) /\
  ((forall q, ~ is_path E source target q) ->
   k_shortest_paths G source target weight k = Raise NetworkXNoPath).
Proof.
  intros Hwf Hnn Hs Ht Hk E cost. split.
  - intros Hconn.
    destruct (k_shortest_paths_ok G weight source target Hwf Hnn k Hs Ht Hconn)
      as (ps & Hps & [H1 H2 H3 H4 H5 H6 H7 H8]).
    exists ps. split; [done|]. split; [done|]. split; [lia|]. split; [apply H3|].
    split; [done|]. split; [done|]. split; [done|]. split.
    + intros a P Ha HP HPn. by apply H7.
    + intros Hlt P HP HPn. by apply H8.
  - by apply k_shortest_paths_none.
Qed.

Lemma k_shortest_paths_sorted_simple_witness :
  exists ps, k_shortest_paths ex_graph "A" "D" "weight" 2 = Ok ps /\ NoDup ps.
Proof.
  destruct (proj1 (k_shortest_paths_sorted_simple ex_graph "weight" "A" "D" 2
                     ex_graph_wf ex_graph_weights eq_refl eq_refl ltac:(done))
                  (ex_intro _ _ ex_graph_connected))
    as (ps & H1 & _ & _ & _ & H2 & _).
  exists ps. exact (conj H1 H2).
Defined.

Lemma ex_graph_lengths : nonneg (get_edge_data ex_graph) distance_cost.
Proof.
  apply nonneg_store; [apply (ok_graph _ (startup_ok ex_nodes ex_edges ex_model))|].
  vm_compute. repeat constructor; discriminate.
Qed.

Lemma astar_returns_minimum_cost_path_witness :
  exists p,
    astar_distance_only ex_graph "A" "D" = Ok p /\
    is_path (get_edge_data ex_graph) "A" "D" p /\
    (walk_cost (get_edge_data ex_graph) distance_cost p <=
     walk_cost (get_edge_data ex_graph) distance_cost ["A"; "B"; "D"])%Q.
Proof.
  destruct (proj2 (proj2 (astar_returns_minimum_cost_path ex_graph None "A" "D"
                            ex_graph_wf eq_refl eq_refl (ex_intro _ _ ex_graph_connected))
                     ex_graph_lengths))
    as (p & Hp & Hpath & Hopt).
  exists p. split; [exact Hp|]. split; [exact Hpath|]. apply Hopt.
  split; [|split; reflexivity]. vm_compute. eauto.
Defined.

Lemma add_edge_store_upd (P : EdgeData -> Prop) u v attr (G : Graph loc) (s : Store) :
  (forall old, P old -> P (dict_update old attr)) -> P attr ->
  Forall P s -> Forall P (add_edge u v attr (G, s)).2.
Proof.
  intros Hupd Hattr Hs. unfold add_edge.
  destruct (get_edge_data _ u v) as [l|]; cbn [snd].
  - destruct (s !! l) as [old|] eqn:Hl; [|done].
    apply Forall_insert; [done|]. apply Hupd.
    by eapply Forall_lookup_1.
  - apply Forall_app. split; [done|]. by constructor.
Qed.

Lemma load_graph_rows nodes_df edges_df :
  Forall (fun d => exists row, row ∈ edges_df /\ d = row_attrs row)
    (load_graph nodes_df edges_df).2.
Proof.
  unfold load_graph. generalize (foldl (fun G row =>
       add_node (row_id row)
         {| lat := row_lat row; lon := row_lon row; label := row_label row |} G)
    (@empty_graph loc) nodes_df). intros G0.
  induction edges_df as [|row rows IH] using rev_ind; [by constructor|].
  rewrite foldl_app. cbn [foldl].
  match goal with
  | |- context [foldl ?f ?i rows] => destruct (foldl f i rows) as [G s]
  end.
  apply (add_edge_store_upd (fun d => exists r, r ∈ rows ++ [row] /\ d = row_attrs r)).
  - intros old (r & _ & ->). exists row. split; [set_solver|done].
  - exists row. split; [set_solver|done].
  - apply Forall_lookup. intros i d Hi.
    destruct (Forall_lookup_1 _ _ _ _ IH Hi) as (r & Hr & ->). exists r. set_solver.
Qed.

(** X1 ([load_graph]): the graph built from the CSV rows is undirected and
    closed: an edge is stored under both of its directions with the same
    attribute dict, and both of its endpoints are nodes of the graph. *)
Theorem load_graph_undirected nodes_df edges_df u v :
  let G := view (load_graph nodes_df edges_df).2 (load_graph nodes_df edges_df).1 in
  get_edge_data G u v = get_edge_data G v u /\
  (is_Some (get_edge_data G u v) -> has_node G u = true /\ has_node G v = true).
Proof.
  intros G.
  assert (Hwf : graph_wf G) by (apply view_wf, load_graph_wf).
  split.
  - destruct (get_edge_data G u v) as [d|] eqn:Huv.
    + symmetry. by apply (wf_sym G Hwf).
    + destruct (get_edge_data G v u) as [d|] eqn:Hvu; [|done].
      apply (wf_sym G Hwf) in Hvu. congruence.
  - intros [d Hd]. by apply (edge_has_nodes G u v d).
Qed.

Lemma load_graph_snoc nodes_df rows row :
  load_graph nodes_df (rows ++ [row]) =
    add_edge (erow_source row) (erow_target row) (row_attrs row) (load_graph nodes_df rows).
Proof. unfold load_graph. by rewrite foldl_app. Qed.

Lemma row_joins_spec u v row :
  row_joins u v row = true <->
  (u = erow_source row /\ v = erow_target row) \/ (u = erow_target row /\ v = erow_source row).
Proof.
  unfold row_joins. rewrite orb_true_iff, !andb_true_iff, !String.eqb_eq. naive_solver.
Qed.

Lemma last_row_snoc u v rows row :
  last_row u v (rows ++ [row]) = if row_joins u v row then Some row else last_row u v rows.
Proof.
  unfold last_row. rewrite list.filter_app.
  destruct (row_joins u v row) eqn:Hj.
  - rewrite filter_singleton_True by done. by rewrite last_snoc.
  - rewrite filter_singleton_False by (cbn; congruence). by rewrite app_nil_r.
Qed.

Lemma dict_update_row old row :
  pen_weight old = None -> dict_update old (row_attrs row) = row_attrs row.
Proof. intros H. unfold dict_update, row_attrs. cbn. by rewrite H. Qed.

(** Every edge of the loaded graph has a cell of its own, which holds the
    attributes of the last row that joins its endpoints. *)
Lemma load_graph_last_row nodes_df edges_df :
  (forall a b a' b' l,
     get_edge_data (load_graph nodes_df edges_df).1 a b = Some l ->
     get_edge_data (load_graph nodes_df edges_df).1 a' b' = Some l ->
     (a' = a /\ b' = b) \/ (a' = b /\ b' = a)) /\
  (forall a b,
     edata (load_graph nodes_df edges_df).1 (load_graph nodes_df edges_df).2 a b =
     row_attrs <$> last_row a b edges_df).
Proof.
  induction edges_df as [|row rows IH] using rev_ind.
  - pose proof (load_graph_wf nodes_df []) as Hwf.
    assert (Hnone : forall a b, get_edge_data (load_graph nodes_df []).1 a b = None).
    { intros a b. destruct (get_edge_data _ a b) as [l|] eqn:H; [|done].
      apply (sg_range _ _ Hwf) in H. unfold load_graph in H. cbn in H. lia. }
    split.
    + intros a b a' b' l H. by rewrite Hnone in H.
    + intros a b. unfold edata. by rewrite Hnone.
  - rewrite load_graph_snoc.
    pose proof (load_graph_wf nodes_df rows) as Hwf.
    destruct (load_graph nodes_df rows) as [G s]. cbn [fst snd] in *.
    destruct IH as [Hinj Hdat].
    destruct (add_edge_wf (erow_source row) (erow_target row) (row_attrs row) G s Hwf)
      as [Hwf' Hcase].
    destruct (get_edge_data G (erow_source row) (erow_target row)) as [l|] eqn:Huv.
    + destruct Hcase as [Hs He].
      pose proof (sg_range _ _ Hwf _ _ _ Huv) as Hl.
      destruct (lookup_lt_is_Some_2 s l Hl) as [old Hold].
      rewrite Hold in Hs.
      assert (Hpen : pen_weight old = None).
      { pose proof (Hdat (erow_source row) (erow_target row)) as Hd.
        unfold edata in Hd. rewrite Huv in Hd. cbn in Hd. rewrite Hold in Hd.
        destruct (last_row _ _ rows) as [r|]; [|done]. by injection Hd as ->. }
      split.
      * intros a b a' b' l'. rewrite !He. apply Hinj.
      * intros a b. unfold edata. rewrite He, Hs, last_row_snoc.
        destruct (row_joins a b row) eqn:Hj.
        -- apply row_joins_spec in Hj.
           assert (Hab : get_edge_data G a b = Some l).
           { destruct Hj as [[-> ->]|[-> ->]]; [done|].
             by apply (wf_sym G (sg_graph G s Hwf)). }
           rewrite Hab. cbn. rewrite list_lookup_insert_eq by done.
           by rewrite dict_update_row.
        -- pose proof (Hdat a b) as Hd. unfold edata in Hd.
           destruct (get_edge_data G a b) as [l'|] eqn:Hab; [|done]. cbn in *.
           rewrite list_lookup_insert_ne; [done|].
           intros <-.
           assert (row_joins a b row = true); [|congruence].
           apply row_joins_spec. destruct (Hinj _ _ _ _ _ Huv Hab); tauto.
    + destruct Hcase as [Hs He]. split.
      * intros a b a' b' l'. rewrite !He.
        destruct (decide _) as [Hd|Hd], (decide _) as [Hd'|Hd'].
        -- intros _ _. destruct Hd as [[-> ->]|[-> ->]], Hd' as [[-> ->]|[-> ->]]; tauto.
        -- intros [= <-] Hl'. apply (sg_range _ _ Hwf) in Hl'. lia.
        -- intros Hl' [= <-]. apply (sg_range _ _ Hwf) in Hl'. lia.
        -- apply Hinj.
      * intros a b. unfold edata. rewrite He, Hs, last_row_snoc.
        destruct (decide _) as [Hd|Hd].
        -- rewrite (proj2 (row_joins_spec a b row)) by tauto. cbn.
           by rewrite lookup_app_r, Nat.sub_diag.
        -- destruct (row_joins a b row) eqn:Hj.
           { apply row_joins_spec in Hj. tauto. }
           pose proof (Hdat a b) as Hd2. unfold edata in Hd2.
           destruct (get_edge_data G a b) as [l'|] eqn:Hab; [|done]. cbn in *.
           rewrite lookup_app_l; [done|]. by apply (sg_range _ _ Hwf _ _ _ Hab).
Qed.

(** X2 ([load_graph]): the attribute dict of the edge between two nodes
    is built from the last row of edges.csv that joins them, in either
    direction: a later row for the same pair overwrites an earlier one,
    and two nodes no row joins have no edge.  In particular the base
    weight of every edge is its length and no edge carries "pen_weight". *)
Theorem load_graph_edge_from_row nodes_df edges_df u v :
  let G := view (load_graph nodes_df edges_df).2 (load_graph nodes_df edges_df).1 in
  get_edge_data G u v = row_attrs <$> last_row u v edges_df /\
  (forall d, get_edge_data G u v = Some d -> weight d = length_m d /\ pen_weight d = None).
Proof.
  intros G.
  assert (H : get_edge_data G u v = row_attrs <$> last_row u v edges_df).
  { unfold G. rewrite view_edge by apply load_graph_wf.
    apply (proj2 (load_graph_last_row nodes_df edges_df)). }
  split; [exact H|]. intros d. rewrite H.
  destruct (last_row u v edges_df) as [r|]; [|done]. by intros [= <-].
Qed.

Lemma load_graph_edge_from_row_witness :
  get_edge_data
    (view (load_graph ex_nodes [ex_edge "e1" "A" "B" 1; ex_edge "e9" "B" "A" 7]).2
          (load_graph ex_nodes [ex_edge "e1" "A" "B" 1; ex_edge "e9" "B" "A" 7]).1) "A" "B"
  = Some (row_attrs (ex_edge "e9" "B" "A" 7)).
Proof.
  exact (proj1 (load_graph_edge_from_row ex_nodes
                  [ex_edge "e1" "A" "B" 1; ex_edge "e9" "B" "A" 7] "A" "B")).
Defined.

(** * The congestion penalty *)

Lemma py_max_ge_1 c : (1 <= py_max c 1)%Q.
Proof. rewrite py_max_Qmax. apply Q.le_max_r. Qed.

Lemma ratio_mono (p p' c : Q) :
  (p <= p' -> p / py_max c 1 <= p' / py_max c 1)%Q.
Proof.
  intros H. unfold Qdiv. apply Qmult_le_compat_r; [done|].
  apply Qinv_le_0_compat. pose proof (py_max_ge_1 c). lra.
Qed.

Lemma tier_mono (r r' : Q) :
  (r <= r')%Q ->
  ((if Qltb r (1 # 2) then 0 else if Qltb r (4 # 5) then 3 # 10 else 7 # 10) <=
   (if Qltb r' (1 # 2) then 0 else if Qltb r' (4 # 5) then 3 # 10 else 7 # 10))%Q.
Proof.
  intros H.
  destruct (Qltb r (1 # 2)) eqn:H1, (Qltb r' (1 # 2)) eqn:H2,
           (Qltb r (4 # 5)) eqn:H3, (Qltb r' (4 # 5)) eqn:H4;
    rewrite ?Qltb_lt, ?Qltb_ge in *; lra.
Qed.

(** X4 ([congestion_penalty]): for an edge of fixed capacity the penalty
    never decreases when the predicted flow increases. *)
Theorem congestion_penalty_monotone (fm fm' : gmap string ForecastRecord) e f f' :
  fm !! e = Some f -> fm' !! e = Some f' ->
  fcapacity f = fcapacity f' -> (pred_flow f <= pred_flow f')%Q ->
  (congestion_penalty (Some fm) e <= congestion_penalty (Some fm') e)%Q.
Proof.
  intros Hf Hf' Hc Hp. unfold congestion_penalty. simpl. rewrite Hf, Hf'.
  cbv zeta. apply tier_mono. rewrite Hc. by apply ratio_mono.
Qed.

Lemma congestion_penalty_monotone_witness :
  (congestion_penalty (Some {["e" := {| edge_id := "e"; pred_flow := 100; fcapacity := 400 |}]}) "e"
   <= congestion_penalty
        (Some {["e" := {| edge_id := "e"; pred_flow := 300; fcapacity := 400 |}]}) "e")%Q.
Proof.
  eapply congestion_penalty_monotone.
  - apply lookup_singleton_eq.
  - apply lookup_singleton_eq.
  - reflexivity.
  - simpl. lra.
Defined.

(** X5 ([congestion_penalty]): a capacity of at most 1 (zero and negative
    values included) is read as 1, so the tier is decided by the predicted
    flow alone and no division by zero can occur. *)
Theorem congestion_penalty_small_capacity (fm : gmap string ForecastRecord) e f :
  fm !! e = Some f -> (fcapacity f <= 1)%Q ->
  (congestion_penalty (Some fm) e ==
   if Qltb (pred_flow f) (1 # 2) then 0
   else if Qltb (pred_flow f) (4 # 5) then 3 # 10 else 7 # 10)%Q.
Proof.
  intros Hf Hc. unfold congestion_penalty. simpl. rewrite Hf. cbv zeta.
  assert (Hr : (pred_flow f / py_max (fcapacity f) 1 == pred_flow f)%Q).
  { rewrite py_max_Qmax, Q.max_r by done. field. }
  revert Hr. generalize (pred_flow f / py_max (fcapacity f) 1)%Q. intros r Hr.
  destruct (Qltb r (1 # 2)) eqn:H1, (Qltb (pred_flow f) (1 # 2)) eqn:H2,
           (Qltb r (4 # 5)) eqn:H3, (Qltb (pred_flow f) (4 # 5)) eqn:H4;
    rewrite ?Qltb_lt, ?Qltb_ge in *; lra.
Qed.

Lemma congestion_penalty_small_capacity_witness :
  (congestion_penalty (Some {["e" := {| edge_id := "e"; pred_flow := 6 # 10; fcapacity := 0 |}]})
     "e" == 3 # 10)%Q.
Proof.
  apply (congestion_penalty_small_capacity _ "e"
           {| edge_id := "e"; pred_flow := 6 # 10; fcapacity := 0 |}).
  - apply lookup_singleton_eq.
  - simpl. lra.
Defined.

Lemma congestion_penalty_range fm e :
  (0 <= congestion_penalty fm e <= 7 # 10)%Q.
Proof.
  unfold congestion_penalty. destruct (default ∅ fm !! e) as [f|]; [|lra].
  repeat case_match; lra.
Qed.

Lemma walk_cost_le (E : string -> string -> option EdgeData) (w w' : WeightFn) (c : Q) p :
  (forall u v d, E u v = Some d -> (w u v d <= c * w' u v d)%Q) -> (0 <= c)%Q ->
  (walk_cost E w p <= c * walk_cost E w' p)%Q.
Proof.
  intros Hw Hc. induction p as [|u r IH]; [simpl; lra|].
  destruct r as [|v r]; [simpl; lra|].
  change (walk_cost E w (u :: v :: r))
    with (match E u v with Some d => w u v d | None => 0 end + walk_cost E w (v :: r))%Q.
  change (walk_cost E w' (u :: v :: r))
    with (match E u v with Some d => w' u v d | None => 0 end + walk_cost E w' (v :: r))%Q.
  destruct (E u v) as [d|] eqn:Huv.
  - pose proof (Hw u v d Huv). lra.
  - lra.
Qed.

(** * The length of a route *)

Lemma path_length_acc (G : Graph EdgeData) p acc :
  (foldl (fun total '(u, v) =>
            (total + match get_edge_data G u v with
                     | Some data => length_m data
                     | None => 0
                     end)%Q) acc (pairs p) ==
   acc + walk_cost (get_edge_data G) distance_cost p)%Q.
Proof.
  revert acc. induction p as [|u r IH]; intros acc; [simpl; lra|].
  destruct r as [|v r]; [simpl; lra|].
  change (pairs (u :: v :: r)) with ((u, v) :: pairs (v :: r)).
  cbn [foldl]. rewrite IH.
  change (walk_cost (get_edge_data G) distance_cost (u :: v :: r))
    with (match get_edge_data G u v with Some d => distance_cost u v d | None => 0 end +
          walk_cost (get_edge_data G) distance_cost (v :: r))%Q.
  unfold distance_cost. destruct (get_edge_data G u v); lra.
Qed.

Lemma path_length_walk_cost (G : Graph EdgeData) p :
  (path_length G p == walk_cost (get_edge_data G) distance_cost p)%Q.
Proof. unfold path_length. rewrite path_length_acc. lra. Qed.

Lemma penalized_cost_bounds_of (E : string -> string -> option EdgeData) fm p :
  nonneg E distance_cost ->
  (walk_cost E distance_cost p <= walk_cost E (penalized_cost fm) p /\
   walk_cost E (penalized_cost fm) p <= (17 # 10) * walk_cost E distance_cost p)%Q.
Proof.
  intros Hnn. split.
  - assert (H : (walk_cost E distance_cost p <= 1 * walk_cost E (penalized_cost fm) p)%Q);
      [|lra].
    apply walk_cost_le; [|lra]. intros u v d Hd.
    pose proof (Hnn u v d Hd) as H0. pose proof (congestion_penalty_range fm (eid d)).
    unfold distance_cost, penalized_cost in *. nra.
  - apply walk_cost_le; [|lra]. intros u v d Hd.
    pose proof (Hnn u v d Hd) as H0. pose proof (congestion_penalty_range fm (eid d)).
    unfold distance_cost, penalized_cost in *. nra.
Qed.

(** X6 ([astar_with_congestion], its [cost]): when lengths are not
    negative, the congestion-aware cost of a route lies between its length
    and 1.7 times its length. *)
Theorem penalized_cost_bounds (G : Graph EdgeData) fm p :
  nonneg (get_edge_data G) distance_cost ->
  (path_length G p <= walk_cost (get_edge_data G) (penalized_cost fm) p /\
   walk_cost (get_edge_data G) (penalized_cost fm) p <= (17 # 10) * path_length G p)%Q.
Proof.
  intros Hnn. rewrite path_length_walk_cost. by apply penalized_cost_bounds_of.
Qed.

Lemma penalized_cost_bounds_witness :
  (path_length ex_graph ["A"; "C"; "D"] <=
   walk_cost (get_edge_data ex_graph) (penalized_cost None) ["A"; "C"; "D"])%Q.
Proof.
  exact (proj1 (penalized_cost_bounds ex_graph None ["A"; "C"; "D"] ex_graph_lengths)).
Defined.

(** * Searching without congestion *)

Lemma astar_relax_ext heur (w w' : WeightFn) t c dist st v d :
  w c v d = w' c v d ->
  astar_relax heur w t c dist st (v, d) = astar_relax heur w' t c dist st (v, d).
Proof. intros H. unfold astar_relax. by rewrite H. Qed.

Lemma astar_relax_fold_ext heur (w w' : WeightFn) t c dist nbrs st :
  (forall v d, (v, d) ∈ nbrs -> w c v d = w' c v d) ->
  foldl (astar_relax heur w t c dist) st nbrs = foldl (astar_relax heur w' t c dist) st nbrs.
Proof.
  revert st. induction nbrs as [|[v d] nbrs IH]; intros st H; [done|].
  cbn [foldl]. rewrite (astar_relax_ext heur w w') by (apply H; left).
  apply IH. intros v' d' Hin. apply H. by right.
Qed.

Lemma astar_loop_ext (G : Graph EdgeData) heur (w w' : WeightFn) t :
  (forall u nbrs v d, od_get u (_adj G) = Some nbrs -> (v, d) ∈ nbrs -> w u v d = w' u v d) ->
  forall fuel st, astar_loop fuel G heur w t st = astar_loop fuel G heur w' t st.
Proof.
  intros H fuel. induction fuel as [|fuel IH]; intros st; [done|].
  rewrite !astar_loop_unfold.
  destruct (heappop a_key (queue st)) as [[e q']|]; [|done].
  cbv zeta. destruct (String.eqb (a_node e) t); [done|].
  match goal with |- (?m ≫= _) = _ => destruct m as [[|]|err] end; cbn [mbind result_bind].
  - apply IH.
  - unfold neighbors. destruct (od_get (a_node e) (_adj G)) as [nbrs|] eqn:Hn; [|done].
    rewrite (astar_relax_fold_ext heur w w') by (intros v d; apply (H _ _ _ _ Hn)).
    apply IH.
  - done.
Qed.

Lemma Qmult_one_plus_zero (q : Q) : (q * (1 + 0))%Q = q.
Proof.
  destruct q as [n d]. unfold Qmult, Qplus. cbn.
  by rewrite Z.mul_1_r, Pos.mul_1_r.
Qed.

(** X9 ([astar_with_congestion], [astar_distance_only]): when no edge of
    the graph is penalized (no record, or a ratio below 0.5, for each of
    them), the congestion-aware search computes with the same costs as the
    distance search and returns the very same result, ties included. *)
Theorem astar_uncongested_is_distance (G : Graph EdgeData) fm source target :
  graph_wf G ->
  (forall u v d, get_edge_data G u v = Some d -> congestion_penalty fm (eid d) = 0%Q) ->
  astar_with_congestion G fm source target = astar_distance_only G source target.
Proof.
  intros Hwf H. unfold astar_with_congestion, astar_distance_only, astar_path.
  destruct (negb (has_node G source) || negb (has_node G target)); [done|].
  apply astar_loop_ext. intros u nbrs v d Hn Hin.
  assert (Hd : get_edge_data G u v = Some d).
  { unfold get_edge_data. rewrite Hn. apply od_get_NoDup; [|done].
    by apply (wf_nbr_keys G Hwf u). }
  rewrite (H u v d Hd). apply Qmult_one_plus_zero.
Qed.

Lemma astar_uncongested_is_distance_witness :
  astar_with_congestion ex_graph None "A" "D" = astar_distance_only ex_graph "A" "D".
Proof.
  apply (astar_uncongested_is_distance ex_graph None "A" "D" ex_graph_wf).
  intros u v d _. reflexivity.
Defined.

(** * The penalized copy *)

(** X10 ([build_penalized_graph]): the penalized copy has the nodes and
    the edges of the graph it is built from, and each of its edge dicts is
    the original one with "pen_weight" set to length * (1 + penalty); the
    dicts of the original graph are left as they were. *)
Theorem build_penalized_graph_weights (G : Graph loc) (s : Store) fm :
  sg_wf G s ->
  let Gp := (build_penalized_graph G s fm).1 in
  let s2 := (build_penalized_graph G s fm).2 in
  (forall a b,
     get_edge_data (view s2 Gp) a b =
     (fun d => {| eid := eid d; length_m := length_m d; capacity := capacity d;
                  kind := kind d; weight := weight d;
                  pen_weight :=
                    Some (length_m d * (1 + congestion_penalty fm (eid d)))%Q |})
       <$> get_edge_data (view s G) a b) /\
  (forall n, has_node (view s2 Gp) n = has_node (view s G) n) /\
  view s2 G = view s G.
Proof.
  intros Hwf Gp s2.
  destruct (build_penalized_spec G s fm Hwf) as (Hwf2 & Hpre & Hed & Hnode).
  fold Gp s2 in Hwf2, Hpre, Hed, Hnode.
  split; [|split].
  - intros a b. rewrite !view_edge by done. apply Hed.
  - intros n. rewrite !view_has_node. unfold has_node, od_mem. by rewrite Hnode.
  - by apply view_ext.
Qed.

Lemma build_penalized_graph_weights_witness :
  view (build_penalized_graph (GRAPH ex_st1) (STORE ex_st1) (forecast_map ex_st1)).2
       (GRAPH ex_st1) = view (STORE ex_st1) (GRAPH ex_st1).
Proof.
  exact (proj2 (proj2 (build_penalized_graph_weights (GRAPH ex_st1) (STORE ex_st1)
                         (forecast_map ex_st1)
                         (ok_graph _ (reachable_ok _ _ _ _ ex_st1_reachable))))).
Defined.

(** * The number of alternatives *)

(** X11 ([k_shortest_paths]): the loop appends a path before it compares
    the count with [k], so every [k] below 1 (zero and negative values
    included) gives exactly the result of [k = 1]. *)
Theorem k_shortest_paths_k_below_one (G : Graph EdgeData) source target weight k :
  (k <= 1)%Z ->
  k_shortest_paths G source target weight k = k_shortest_paths G source target weight 1.
Proof.
  intros Hk. unfold k_shortest_paths.
  destruct (gen_start G source target) as [g|e]; [|done]. cbn [mbind result_bind].
  destruct (decide (k = 1%Z)) as [->|Hne]; [done|].
  replace (Z.to_nat k) with 0%nat by lia. change (Z.to_nat 1) with 1%nat.
  cbn [k_loop].
  destruct (gen_next G source target weight g) as [[[p g']|]|e]; cbn [mbind result_bind].
  - cbn [app length]. rewrite (proj2 (Z.leb_le k (Z.of_nat 1))) by lia. done.
  - done.
  - done.
Qed.

Lemma k_shortest_paths_k_below_one_witness :
  k_shortest_paths ex_graph "A" "D" "weight" (-2) =
  k_shortest_paths ex_graph "A" "D" "weight" 1.
Proof. apply k_shortest_paths_k_below_one. lia. Defined.

Lemma k_loop_extends (G : Graph EdgeData) s t w k fuel g paths ps :
  k_loop fuel G s t w k g paths = Ok ps -> paths `prefix_of` ps.
Proof.
  revert g paths. induction fuel as [|fuel IH]; intros g paths; [done|].
  cbn [k_loop].
  destruct (gen_next G s t w g) as [[[p g']|]|e]; cbn [mbind result_bind]; [| |done].
  - destruct (k <=? _)%Z.
    + intros [= <-]. by apply prefix_app_r.
    + intros H. apply IH in H. etrans; [|exact H]. by apply prefix_app_r.
  - by intros [= <-].
Qed.

Lemma k_loop_prefix (G : Graph EdgeData) s t w k k' fuel fuel' g paths ps ps' :
  (k <= k')%Z ->
  k_loop fuel G s t w k g paths = Ok ps ->
  k_loop fuel' G s t w k' g paths = Ok ps' ->
  ps `prefix_of` ps'.
Proof.
  intros Hk. revert fuel' g paths.
  induction fuel as [|fuel IH]; intros fuel' g paths; [done|].
  destruct fuel' as [|fuel']; [done|]. cbn [k_loop].
  destruct (gen_next G s t w g) as [[[p g']|]|e]; cbn [mbind result_bind]; [| |done].
  - destruct (k <=? _)%Z eqn:H1, (k' <=? _)%Z eqn:H2.
    + by intros [= <-] [= <-].
    + intros [= <-] H. by apply k_loop_extends in H.
    + lia.
    + apply IH.
  - by intros [= <-] [= <-].
Qed.

(** X12 ([k_shortest_paths]): asking for more alternatives never changes
    the ones already returned: the result for [k] is a prefix of the
    result for any larger [k']. *)
Theorem k_shortest_paths_prefix (G : Graph EdgeData) source target weight k k' ps ps' :
  (k <= k')%Z ->
  k_shortest_paths G source target weight k = Ok ps ->
  k_shortest_paths G source target weight k' = Ok ps' ->
  ps `prefix_of` ps'.
Proof.
  intros Hk. unfold k_shortest_paths.
  destruct (gen_start G source target) as [g|e]; [|done]. cbn [mbind result_bind].
  by apply k_loop_prefix.
Qed.

Lemma k_shortest_paths_prefix_witness :
  [["A"; "C"; "D"]] `prefix_of` [["A"; "C"; "D"]; ["A"; "B"; "D"]].
Proof.
  apply (k_shortest_paths_prefix ex_graph "A" "D" "weight" 1 2).
  - lia.
  - vm_compute; reflexivity.
  - vm_compute; reflexivity.
Defined.

Lemma edges_from_ends {E} (adj : list (string * list (string * E))) seen a b (x : E) :
  (a, b, x) ∈ edges_from adj seen -> a ∈ adj.*1 /\ b ∉ seen.
Proof.
  revert seen. induction adj as [|[n nbrs] adj IH]; intros seen; [by intros ?%elem_of_nil|].
  cbn [edges_from]. rewrite elem_of_app. intros [Hin|Hin].
  - apply list_elem_of_fmap in Hin as ([v y] & [= -> -> ->] & Hin).
    apply list_elem_of_filter in Hin as [Hseen _]. split; [set_solver|done].
  - apply IH in Hin as [Ha Hb]. split; [set_solver|set_solver].
Qed.

Lemma edges_from_NoDup {E} (adj : list (string * list (string * E))) seen :
  NoDup adj.*1 -> (forall u nbrs, (u, nbrs) ∈ adj -> NoDup nbrs.*1) ->
  NoDup (map ends (edges_from adj seen)).
Proof.
  revert seen. induction adj as [|[n nbrs] adj IH]; intros seen Hnd Hnb; [constructor|].
  cbn [edges_from]. rewrite map_app. rewrite fmap_cons in Hnd. apply list.NoDup_cons in Hnd as [Hn Hnd].
  apply list.NoDup_app. split; [|split].
  - assert (Hk : NoDup nbrs.*1) by (apply (Hnb n); left).
    clear -Hk. induction nbrs as [|[v y] nbrs IHn]; [constructor|].
    rewrite fmap_cons in Hk. apply list.NoDup_cons in Hk as [Hv Hk].
    rewrite filter_cons. destruct (decide _); [|by apply IHn].
    cbn [map]. apply list.NoDup_cons. split; [|by apply IHn].
    intros Hin. apply Hv. apply list_elem_of_fmap in Hin as ([[a b] z] & Heq & Hin).
    apply list_elem_of_fmap in Hin as ([v' y'] & [= -> -> ->] & Hin).
    apply list_elem_of_filter in Hin as [_ Hin]. unfold ends in Heq. simpl in Heq.
    injection Heq as ->. apply list_elem_of_fmap. by exists (v', y').
  - intros [a b] H1 H2.
    apply list_elem_of_fmap in H1 as ([[a1 b1] z1] & Heq1 & H1).
    apply list_elem_of_fmap in H1 as ([v' y'] & [= -> -> ->] & _).
    apply list_elem_of_fmap in H2 as ([[a2 b2] z2] & Heq2 & H2).
    apply edges_from_ends in H2 as [Ha2 _].
    unfold ends in Heq1, Heq2. simpl in Heq1, Heq2. simplify_eq. done.
  - apply IH; [done|]. intros u nb Hin. apply (Hnb u). by right.
Qed.

Lemma edges_from_one_direction {E} (adj : list (string * list (string * E))) seen a b
    (x y : E) :
  NoDup adj.*1 ->
  (a, b, x) ∈ edges_from adj seen -> (b, a, y) ∈ edges_from adj seen -> a = b.
Proof.
  revert seen. induction adj as [|[n nbrs] adj IH]; intros seen Hnd;
    [by intros ?%elem_of_nil|].
  rewrite fmap_cons in Hnd. apply list.NoDup_cons in Hnd as [Hn Hnd].
  cbn [edges_from]. rewrite !elem_of_app. intros [H1|H1] [H2|H2].
  - apply list_elem_of_fmap in H1 as ([v1 y1] & [= -> -> ->] & _).
    apply list_elem_of_fmap in H2 as ([v2 y2] & [= -> -> ->] & _). done.
  - apply list_elem_of_fmap in H1 as ([v1 y1] & [= -> -> ->] & _).
    apply edges_from_ends in H2 as [_ H2]. set_solver.
  - apply list_elem_of_fmap in H2 as ([v2 y2] & [= -> -> ->] & _).
    apply edges_from_ends in H1 as [_ H1]. set_solver.
  - by apply (IH (n :: seen)).
Qed.

Lemma gwf_nbrs {E} (G : Graph E) u nbrs :
  gwf G -> (u, nbrs) ∈ _adj G -> od_get u (_adj G) = Some nbrs.
Proof. intros (_ & _ & Hnd) Hin. by apply od_get_in. Qed.

(** Every edge is listed, in one direction or the other. *)
Lemma edges_listed {E} (G : Graph E) a b (x : E) :
  gwf G -> get_edge_data G a b = Some x -> (a, b, x) ∈ edges G \/ (b, a, x) ∈ edges G.
Proof.
  intros Hg Hab. pose proof Hg as (Hwf & _ & Hnd).
  pose proof (wf_sym G Hwf a b x Hab) as Hba.
  assert (Hsplit : forall u v, get_edge_data G u v = Some x ->
            exists nbrs, (u, nbrs) ∈ _adj G /\ (v, x) ∈ nbrs).
  { intros u v H. unfold get_edge_data in H.
    destruct (od_get u (_adj G)) as [nbrs|] eqn:Hu; [|done].
    exists nbrs. split; by apply od_get_elem. }
  destruct (Hsplit a b Hab) as (na & Ha & Hna).
  destruct (Hsplit b a Hba) as (nb & Hb & Hnb).
  destruct (list_elem_of_split _ _ Ha) as (pre & post & Hadj).
  unfold edges. destruct (decide (b ∈ pre.*1)) as [Hin|Hnin].
  - right. apply list_elem_of_fmap in Hin as ([b' nb'] & Heq & Hin). simpl in Heq. subst b'.
    destruct (list_elem_of_split _ _ Hin) as (pre1 & pre2 & Hpre).
    assert (nb' = nb) as ->.
    { apply (gwf_nbrs G b nb Hg) in Hb.
      assert (Hb' : (b, nb') ∈ _adj G) by (rewrite Hadj, Hpre; set_solver).
      apply (gwf_nbrs G b nb' Hg) in Hb'. congruence. }
    apply (edges_from_intro _ [] pre1 b nb (pre2 ++ (a, na) :: post)).
    + rewrite Hadj, Hpre. by rewrite <- app_assoc.
    + done.
    + apply not_elem_of_nil.
    + intros Ha1. rewrite Hadj, Hpre, !fmap_app, !fmap_cons in Hnd. simpl in Hnd.
      rewrite <- app_assoc in Hnd. apply list.NoDup_app in Hnd as (_ & Hdis & _).
      apply (Hdis a Ha1). set_solver.
  - left. apply (edges_from_intro _ [] pre a na post); try done. apply not_elem_of_nil.
Qed.

Lemma edges_are_edges {E} (G : Graph E) a b (x : E) :
  gwf G -> (a, b, x) ∈ edges G -> get_edge_data G a b = Some x.
Proof.
  intros Hg Hin. pose proof Hg as (Hwf & _ & Hnd).
  apply edges_from_sound, flat_adj_elem in Hin as (nbrs & Ha & Hb).
  unfold get_edge_data. rewrite (gwf_nbrs G a nbrs Hg Ha).
  apply od_get_NoDup; [|done]. apply (wf_nbr_keys G Hwf a). by apply gwf_nbrs.
Qed.

Lemma edges_once {E} (G : Graph E) :
  gwf G ->
  NoDup (map ends (edges G)) /\
  (forall a b (x y : E), (a, b, x) ∈ edges G -> (b, a, y) ∈ edges G -> a = b).
Proof.
  intros Hg. pose proof Hg as (Hwf & _ & Hnd). split.
  - apply edges_from_NoDup; [done|]. intros u nbrs Hin.
    apply (wf_nbr_keys G Hwf u). by apply gwf_nbrs.
  - intros a b x y. by apply edges_from_one_direction.
Qed.

Lemma view_gwf (G : Graph loc) (s : Store) : sg_wf G s -> gwf (view s G).
Proof.
  intros Hwf. split; [by apply view_wf|]. split.
  - apply (sg_node_keys G s Hwf).
  - replace (_adj (view s G)).*1 with (_adj G).*1; [apply (sg_adj_keys G s Hwf)|].
    unfold view. cbn [_adj]. rewrite <- list_fmap_compose.
    apply list_fmap_ext. by intros i [u nbrs] _.
Qed.

(** * The [/graph] view *)

(** X13 ([get_graph]): [/graph] lists every node of the graph exactly
    once (the listed identifiers are the nodes of [GRAPH], none of them
    twice), and a listed node has a "lat" exactly when the graph holds
    attributes for it. *)
Theorem get_graph_nodes (st : App) :
  app_ok st ->
  NoDup (map n_id (g_nodes (get_graph st))) /\
  (forall n, n ∈ map n_id (g_nodes (get_graph st)) <-> has_node (GRAPH st) n = true) /\
  (forall r, r ∈ g_nodes (get_graph st) ->
     is_Some (n_lat r) <-> exists nd, od_get (n_id r) (_node (GRAPH st)) = Some (Some nd)).
Proof.
  intros Hok. pose proof (ok_graph st Hok) as Hwf.
  assert (Hids : map n_id (g_nodes (get_graph st)) = (_node (GRAPH st)).*1).
  { unfold get_graph. cbn. rewrite map_map. apply list_fmap_ext. by intros i [n d] _. }
  rewrite Hids. split; [apply (sg_node_keys _ _ Hwf)|]. split.
  - intros n. unfold has_node. by rewrite od_mem_elem.
  - intros r Hr. unfold get_graph in Hr. cbn in Hr.
    apply list_elem_of_fmap in Hr as ([n d] & -> & Hin). cbn.
    apply od_get_in in Hin; [|apply (sg_node_keys _ _ Hwf)]. rewrite Hin.
    destruct d as [nd|]; cbn.
    + split; [by exists nd|by eexists].
    + split; [by intros [? ?]|by intros [? ?]].
Qed.

Lemma get_graph_nodes_witness :
  NoDup (map n_id (g_nodes (get_graph ex_st1))).
Proof.
  exact (proj1 (get_graph_nodes ex_st1 (reachable_ok _ _ _ _ ex_st1_reachable))).
Defined.

(** X14 ([get_graph]): [/graph] lists every undirected edge exactly once:
    no two records have the same (source, target), no edge appears in both
    directions, every record carries the attributes of the edge between its
    endpoints, and every edge of the graph has a record. *)
Theorem get_graph_edges_once (st : App) :
  app_ok st ->
  let G := view (STORE st) (GRAPH st) in
  let es := g_edges (get_graph st) in
  NoDup (map (fun r => (e_source r, e_target r)) es) /\
  (forall r r', r ∈ es -> r' ∈ es ->
     e_source r' = e_target r -> e_target r' = e_source r -> e_source r = e_target r) /\
  (forall r, r ∈ es ->
     exists d, get_edge_data G (e_source r) (e_target r) = Some d /\
       e_id r = eid d /\ e_length_m r = length_m d /\ e_capacity r = capacity d /\
       e_kind r = kind d) /\
  (forall u v d, get_edge_data G u v = Some d ->
     exists r, r ∈ es /\ e_id r = eid d /\
       (e_source r = u /\ e_target r = v \/ e_source r = v /\ e_target r = u)).
Proof.
  intros Hok G es. pose proof (view_gwf _ _ (ok_graph st Hok)) as Hg. fold G in Hg.
  destruct (edges_once G Hg) as [Hnd Hdir].
  assert (Hes : es = map (fun '(u, v, data) =>
              {| e_id := eid data; e_source := u; e_target := v;
                 e_length_m := length_m data; e_capacity := capacity data;
                 e_kind := kind data |}) (edges G)) by done.
  split; [|split; [|split]].
  - rewrite Hes, map_map.
    replace (map _ (edges G)) with (map ends (edges G)); [done|].
    apply list_fmap_ext. by intros i [[u v] d] _.
  - intros r r' Hr Hr' H1 H2. rewrite Hes in Hr, Hr'.
    apply list_elem_of_fmap in Hr as ([[u v] d] & -> & Hin).
    apply list_elem_of_fmap in Hr' as ([[u' v'] d'] & -> & Hin').
    cbn in *. subst u' v'. by apply (Hdir u v d d').
  - intros r Hr. rewrite Hes in Hr.
    apply list_elem_of_fmap in Hr as ([[u v] d] & -> & Hin). cbn.
    exists d. split; [by apply edges_are_edges|done].
  - intros u v d Hd. destruct (edges_listed G u v d Hg Hd) as [Hin|Hin].
    + eexists. split; [rewrite Hes; apply list_elem_of_fmap; by eexists (u, v, d)|].
      cbn. split; [done|by left].
    + eexists. split; [rewrite Hes; apply list_elem_of_fmap; by eexists (v, u, d)|].
      cbn. split; [done|by right].
Qed.

Lemma get_graph_edges_once_witness :
  NoDup (map (fun r => (e_source r, e_target r)) (g_edges (get_graph ex_st1))).
Proof.
  exact (proj1 (get_graph_edges_once ex_st1 (reachable_ok _ _ _ _ ex_st1_reachable))).
Defined.

Lemma table_ok_columns (G : Graph EdgeData) tab :
  table_ok G tab ->
  map edge_id tab = map (fun e => eid e.2) (edges G) /\
  map fcapacity tab = map (fun e => capacity e.2) (edges G).
Proof.
  unfold table_ok. generalize (edges G). intros es H.
  induction H as [|r [[u v] d] tab es [H1 H2] _ [IH1 IH2]]; [done|].
  cbn. by rewrite H1, H2, IH1, IH2.
Qed.

(** X15 ([get_graph], [forecast]): a forecast table served by [/forecast]
    lines up with the edge list of [/graph]: same number of records, in the
    same order, with the same edge identifiers and capacities. *)
Theorem forecast_lines_up_with_graph (st : App) req tab st' :
  app_ok st ->
  forecast st req = (Json 200 (ForecastBody tab), st') ->
  map edge_id tab = map e_id (g_edges (get_graph st)) /\
  map fcapacity tab = map e_capacity (g_edges (get_graph st)) /\
  length tab = length (g_edges (get_graph st)).
Proof.
  intros Hok Hf. destruct (forecast_served st req tab st' Hok Hf) as (_ & Htab & _).
  destruct (table_ok_columns _ _ Htab) as [H1 H2].
  assert (G1 : map e_id (g_edges (get_graph st)) =
               map (fun e => eid e.2) (edges (view (STORE st) (GRAPH st)))).
  { unfold get_graph. cbn. rewrite map_map. apply list_fmap_ext. by intros i [[u v] d] _. }
  assert (G2 : map e_capacity (g_edges (get_graph st)) =
               map (fun e => capacity e.2) (edges (view (STORE st) (GRAPH st)))).
  { unfold get_graph. cbn. rewrite map_map. apply list_fmap_ext. by intros i [[u v] d] _. }
  split; [congruence|]. split; [congruence|].
  rewrite <- (length_map edge_id tab), H1, <- G1. apply length_map.
Qed.

Lemma forecast_lines_up_with_graph_witness :
  map e_id (g_edges (get_graph ex_st0)) = ["e2"; "e1"; "e4"; "e3"].
Proof.
  symmetry.
  refine (proj1 (forecast_lines_up_with_graph ex_st0 ex_forecast_req
            [{| edge_id := "e2"; pred_flow := 100; fcapacity := 400 |};
             {| edge_id := "e1"; pred_flow := 100; fcapacity := 400 |};
             {| edge_id := "e4"; pred_flow := 100; fcapacity := 400 |};
             {| edge_id := "e3"; pred_flow := 100; fcapacity := 400 |}]
            ex_st1 (startup_ok _ _ _) _)).
  vm_compute; reflexivity.
Defined.

Lemma forecast_parsed st req h d p :
  arg_or (q_hour req) (Q2Qc 9) = Some h ->
  arg_or (q_day_of_week req) 1%Z = Some d ->
  arg_or (q_is_peak req) 1%Z = Some p ->
  (exists tab, (forecast st req).1 = Json 200 (ForecastBody tab)) \/
  (exists e, (forecast st req).1 = InternalServerError e).
Proof.
  intros Hh Hd Hp. unfold forecast. rewrite Hh, Hd, Hp. cbv zeta.
  destruct (if negb _ then FORECAST_CACHE st !! (h, d, p) else None) as [tab|].
  - left. by exists tab.
  - destruct (predict_forecast _ _ h d p) as [[tab|e] calls]; [left|right]; by eexists.
Qed.

(** X16 ([forecast]): [/forecast] answers 400 exactly when one of hour,
    day_of_week and is_peak does not convert, and it then leaves the cache
    and the active forecast as they were. *)
Theorem forecast_rejects_unparsable (st : App) (req : ForecastRequest) :
  ((forecast st req).1 = Json 400 (ErrorBody "invalid hour/day_of_week/is_peak") <->
   q_hour req = Unparsable \/ q_day_of_week req = Unparsable \/
   q_is_peak req = Unparsable) /\
  (q_hour req = Unparsable \/ q_day_of_week req = Unparsable \/
   q_is_peak req = Unparsable ->
   forecast st req = (Json 400 (ErrorBody "invalid hour/day_of_week/is_peak"), st)).
Proof.
  assert (Hbad : q_hour req = Unparsable \/ q_day_of_week req = Unparsable \/
                 q_is_peak req = Unparsable ->
                 forecast st req =
                   (Json 400 (ErrorBody "invalid hour/day_of_week/is_peak"), st)).
  { unfold forecast. intros [H|[H|H]]; rewrite H; cbn [arg_or].
    - done.
    - by destruct (arg_or (q_hour req) (Q2Qc 9)).
    - by destruct (arg_or (q_hour req) (Q2Qc 9)), (arg_or (q_day_of_week req) 1%Z). }
  split; [|exact Hbad]. split; [|by intros H; rewrite (Hbad H)].
  intros H400.
  destruct (q_hour req) as [| |h] eqn:Hh; [|by left|];
    (destruct (q_day_of_week req) as [| |d] eqn:Hd; [|by right; left|]);
    (destruct (q_is_peak req) as [| |p] eqn:Hp; [|by right; right|]).
  all: exfalso.
  all: edestruct (forecast_parsed st req) as [[tab Ht]|[e He]];
    [by rewrite Hh|by rewrite Hd|by rewrite Hp|congruence|congruence].
Qed.

Lemma served_twice st cache tab calls :
  served (served st cache tab calls) cache tab calls = served st cache tab calls.
Proof. done. Qed.

(** X17 ([forecast]): when the key of a served request is found in the
    cache afterwards (in the code: always, unless hour is NaN, a key that
    no later lookup finds), the table stored under it is the one that was
    served, and repeating the request while the cache is in use returns
    the same table and changes nothing: the predictor is not called
    again. *)
Theorem forecast_repeat_is_cached (st : App) (req : ForecastRequest) tab st1 h d p tab' :
  forecast st req = (Json 200 (ForecastBody tab), st1) ->
  String.eqb (lower (default "true" (q_use_cache req))) "false" = false ->
  arg_or (q_hour req) (Q2Qc 9) = Some h ->
  arg_or (q_day_of_week req) 1%Z = Some d ->
  arg_or (q_is_peak req) 1%Z = Some p ->
  FORECAST_CACHE st1 !! (h, d, p) = Some tab' ->
  tab' = tab /\ forecast st1 req = (Json 200 (ForecastBody tab), st1).
Proof.
  intros Hf Hby Hh Hd Hp Hfound.
  destruct (forecast_cases st req h d p Hh Hd Hp) as [Hhit Hmiss].
  assert (Hst1 : exists cache calls,
             st1 = served st cache tab calls /\ cache !! (h, d, p) = Some tab).
  { destruct (FORECAST_CACHE st !! (h, d, p)) as [tab0|] eqn:Hc.
    - rewrite (Hhit tab0 Hby eq_refl) in Hf. injection Hf as -> <-.
      by exists (FORECAST_CACHE st), (predict_calls st).
    - rewrite (Hmiss (or_intror eq_refl)) in Hf.
      destruct (predict_forecast _ _ h d p) as [[tab0|e] calls]; [|done].
      injection Hf as -> <-. eexists _, _. split; [done|]. apply lookup_insert_eq. }
  destruct Hst1 as (cache & calls & -> & Hc).
  cbn [FORECAST_CACHE served] in Hfound. rewrite Hc in Hfound. injection Hfound as <-.
  split; [done|].
  destruct (forecast_cases (served st cache tab calls) req h d p Hh Hd Hp) as [Hhit1 _].
  rewrite (Hhit1 tab Hby Hc). cbn [FORECAST_CACHE predict_calls served]. done.
Qed.

Lemma forecast_repeat_is_cached_witness :
  forecast ex_st1 ex_forecast_req =
    (Json 200 (ForecastBody
       [{| edge_id := "e2"; pred_flow := 100; fcapacity := 400 |};
        {| edge_id := "e1"; pred_flow := 100; fcapacity := 400 |};
        {| edge_id := "e4"; pred_flow := 100; fcapacity := 400 |};
        {| edge_id := "e3"; pred_flow := 100; fcapacity := 400 |}]), ex_st1).
Proof.
  apply (forecast_repeat_is_cached ex_st0 ex_forecast_req _ ex_st1 (Q2Qc 9) 1%Z 1%Z
           [{| edge_id := "e2"; pred_flow := 100; fcapacity := 400 |};
            {| edge_id := "e1"; pred_flow := 100; fcapacity := 400 |};
            {| edge_id := "e4"; pred_flow := 100; fcapacity := 400 |};
            {| edge_id := "e3"; pred_flow := 100; fcapacity := 400 |}]).
  - vm_compute; reflexivity.
  - vm_compute; reflexivity.
  - reflexivity.
  - reflexivity.
  - reflexivity.
  - vm_compute; reflexivity.
Defined.

Lemma to_forecast_map_snoc tab r :
  to_forecast_map (tab ++ [r]) = <[edge_id r := r]> (to_forecast_map tab).
Proof. unfold to_forecast_map. by rewrite foldl_app. Qed.

(** X18 ([forecast], the comprehension of [app.forecast_map]): the active
    map holds, for an edge identifier, the last record of the table with
    that identifier, and nothing for an identifier the table lacks. *)
Theorem forecast_map_last_record (tab : list ForecastRecord) (e : string) :
  to_forecast_map tab !! e = list.last (filter (fun r => edge_id r = e) tab).
Proof.
  induction tab as [|r tab IH] using rev_ind; [done|].
  rewrite to_forecast_map_snoc, list.filter_app.
  destruct (decide (edge_id r = e)) as [<-|Hne].
  - rewrite lookup_insert_eq. rewrite filter_singleton_True by done.
    by rewrite last_snoc.
  - rewrite lookup_insert_ne by done. rewrite filter_singleton_False by done.
    rewrite app_nil_r. exact IH.
Qed.

Lemma forecast_after_route_state st req :
  app_ok st ->
  GRAPH (route st req).2 = GRAPH st /\ MODEL (route st req).2 = MODEL st /\
  FORECAST_CACHE (route st req).2 = FORECAST_CACHE st /\
  forecast_map (route st req).2 = forecast_map st /\
  predict_calls (route st req).2 = predict_calls st /\
  view (STORE (route st req).2) (GRAPH (route st req).2) = view (STORE st) (GRAPH st).
Proof.
  intros Hok. destruct (route_state st req) as [-> | ->]; [done|].
  cbn [with_store GRAPH MODEL FORECAST_CACHE forecast_map predict_calls STORE].
  repeat split.
  apply view_prefix; [apply (ok_graph st Hok)|].
  apply build_store_prefix, (ok_graph st Hok).
Qed.

(** X19 ([route], [forecast]): routing has no influence on forecasts: a
    [/forecast] request gets the same response after any [/route] request
    as it would have got before it. *)
Theorem forecast_unaffected_by_route (st : App) (rreq : RouteRequest)
    (freq : ForecastRequest) :
  app_ok st ->
  (forecast (route st rreq).2 freq).1 = (forecast st freq).1.
Proof.
  intros Hok.
  destruct (forecast_after_route_state st rreq Hok) as (HG & HM & HC & _ & _ & HV).
  unfold forecast. rewrite HV, HM, HC.
  destruct (arg_or (q_hour freq) _) as [h|]; [|done].
  destruct (arg_or (q_day_of_week freq) _) as [d|]; [|done].
  destruct (arg_or (q_is_peak freq) _) as [p|]; [|done].
  cbv zeta.
  destruct (if negb _ then FORECAST_CACHE st !! (h, d, p) else None); [done|].
  by destruct (predict_forecast _ _ h d p) as [[tab|e] calls].
Qed.

Lemma forecast_unaffected_by_route_witness :
  (forecast (route ex_st1 (ex_route_req "A" "D" "both" (Parsed 2%Z))).2 ex_bypass_req).1 =
  (forecast ex_st1 ex_bypass_req).1.
Proof.
  exact (forecast_unaffected_by_route ex_st1 _ _ (reachable_ok _ _ _ _ ex_st1_reachable)).
Defined.

(** X20 ([predict_forecast], [forecast]): on a graph without edges the
    frame has no feature columns, so every [/forecast] request whose
    arguments convert fails with a KeyError (a 500 page) before the
    predictor is reached, and the state stays as it was. *)
Theorem forecast_fails_without_edges (st : App) (req : ForecastRequest) h d p :
  app_ok st ->
  edges (view (STORE st) (GRAPH st)) = [] ->
  arg_or (q_hour req) (Q2Qc 9) = Some h ->
  arg_or (q_day_of_week req) 1%Z = Some d ->
  arg_or (q_is_peak req) 1%Z = Some p ->
  forecast st req = (InternalServerError KeyError, st).
Proof.
  intros Hok Hnil Hh Hd Hp.
  destruct (forecast_cases st req h d p Hh Hd Hp) as [_ Hmiss].
  rewrite Hmiss.
  - unfold predict_forecast, forecast_rows. rewrite Hnil. cbn.
    rewrite Nat.add_0_r. by destruct st.
  - right. destruct (FORECAST_CACHE st !! (h, d, p)) as [tab|] eqn:Hc; [|done].
    destruct (ok_cache st Hok _ _ Hc) as [Hne Htab].
    unfold table_ok in Htab. rewrite Hnil in Htab. by inversion Htab.
Qed.

Lemma forecast_fails_without_edges_witness :
  forecast (startup ex_nodes [] ex_model) ex_forecast_req =
    (InternalServerError KeyError, startup ex_nodes [] ex_model).
Proof.
  apply (forecast_fails_without_edges _ _ (Q2Qc 9) 1%Z 1%Z).
  - apply startup_ok.
  - vm_compute; reflexivity.
  - reflexivity.
  - reflexivity.
  - reflexivity.
Defined.

Lemma mode_in_false (mode a b : string) : mode <> a -> mode <> b -> mode_in mode a b = false.
Proof.
  intros Ha Hb. unfold mode_in.
  by rewrite (proj2 (String.eqb_neq mode a) Ha), (proj2 (String.eqb_neq mode b) Hb).
Qed.

(** X21 ([route]): a request that passes the checks with a mode other than
    both, penalized and distance runs no search at all: it is answered
    404 "no path" and the state stays as it was. *)
Theorem route_unknown_mode_is_no_path (st : App) (req : RouteRequest) s t k :
  route_checked st req s t k -> forecast_loaded st -> ~ known_mode req ->
  route st req = (Json 404 (ErrorBody "no path"), st).
Proof.
  intros (Hk & Hs & Ht & Hs0 & Ht0 & Hns & Hnt) (m & Hm & Hne) Hmode.
  rewrite (route_unfold st req s t k m) by (by rewrite ?view_has_node).
  unfold known_mode in Hmode.
  rewrite !mode_in_false by tauto. cbn. by rewrite with_store_same.
Qed.

Lemma route_unknown_mode_is_no_path_witness :
  route ex_st1 (ex_route_req "A" "D" "fastest" (Parsed 1%Z)) =
    (Json 404 (ErrorBody "no path"), ex_st1).
Proof.
  apply (route_unknown_mode_is_no_path ex_st1 _ "A" "D" 1%Z).
  - repeat split; try done; vm_compute; reflexivity.
  - exact ex_st1_loaded.
  - intros [H|[H|H]]; discriminate H.
Defined.

(** X22 ([route]): [k] is converted before anything is checked, so a [k]
    that is no integer gives a 500 page (a ValueError) whatever the other
    arguments are; and a JSON response of [/route] is one of the three 400
    errors, 404 "no path", or 200 with a non-empty route body. *)
Theorem route_response_shapes (st : App) (req : RouteRequest) :
  (q_k req = Unparsable -> route st req = (InternalServerError ValueError, st)) /\
  (forall status body, (route st req).1 = Json status body ->
     status = 400%nat /\
       (body = ErrorBody "source and target are required" \/
        body = ErrorBody "invalid source/target" \/
        body = ErrorBody "forecast not loaded; call /forecast first") \/
     status = 404%nat /\ body = ErrorBody "no path" \/
     status = 200%nat /\ exists out, body = RouteBody out /\ is_empty_out out = false).
Proof.
  split; [by unfold route; intros ->|].
  intros status body. unfold route.
  destruct (arg_or (q_k req) 3%Z) as [k|]; [|done].
  destruct (q_source req) as [[|c1 s1]|];
    try (intros [= <- <-]; left; split; [done|by left]).
  all: destruct (q_target req) as [[|c2 s2]|];
    try (intros [= <- <-]; left; split; [done|by left]).
  destruct (_ || _); [intros [= <- <-]; left; split; [done|right; by left]|].
  destruct (match forecast_map st with Some m => _ | None => _ end);
    [intros [= <- <-]; left; split; [done|right; by right]|].
  destruct (if mode_in _ "both" "penalized" then _ else _) as [[out1|e1] st2];
    cbn [mbind result_bind].
  - destruct (if mode_in _ "both" "distance" then _ else _) as [out|e].
    + destruct (is_empty_out out) eqn:Hout; intros [= <- <-].
      * right; by left.
      * right; right. split; [done|]. by exists out.
    + destruct e; intros [= <- <-]. right; by left.
  - destruct e1; intros [= <- <-]. right; by left.
Qed.

(** * What the requests keep *)

Lemma forecast_keeps_graph st req :
  GRAPH (forecast st req).2 = GRAPH st /\ STORE (forecast st req).2 = STORE st /\
  MODEL (forecast st req).2 = MODEL st.
Proof.
  unfold forecast.
  destruct (arg_or (q_hour req) _) as [h|]; [|done].
  destruct (arg_or (q_day_of_week req) _) as [d|]; [|done].
  destruct (arg_or (q_is_peak req) _) as [p|]; [|done].
  cbv zeta.
  destruct (if negb _ then FORECAST_CACHE st !! (h, d, p) else None); [done|].
  by destruct (predict_forecast _ _ h d p) as [[tab|e] calls].
Qed.

Lemma startup_graph nodes_df edges_df model :
  GRAPH (startup nodes_df edges_df model) = (load_graph nodes_df edges_df).1 /\
  STORE (startup nodes_df edges_df model) = (load_graph nodes_df edges_df).2 /\
  MODEL (startup nodes_df edges_df model) = model.
Proof. unfold startup. by destruct (load_graph nodes_df edges_df). Qed.

(** X23 ([load_graph], [forecast], [route], [get_graph]): no request ever
    changes the campus graph or the model: in every state the service can
    reach, the graph is the one loaded at start-up (nodes, edges and their
    attributes as the searches read them), and [/graph] returns the payload
    it returned at start-up. *)
Theorem graph_is_never_modified nodes_df edges_df model (st : App) :
  reachable nodes_df edges_df model st ->
  GRAPH st = (load_graph nodes_df edges_df).1 /\
  MODEL st = model /\
  view (STORE st) (GRAPH st) =
    view (load_graph nodes_df edges_df).2 (load_graph nodes_df edges_df).1 /\
  get_graph st = get_graph (startup nodes_df edges_df model).
Proof.
  intros Hr.
  assert (H : GRAPH st = (load_graph nodes_df edges_df).1 /\ MODEL st = model /\
              view (STORE st) (GRAPH st) =
                view (load_graph nodes_df edges_df).2 (load_graph nodes_df edges_df).1).
  { induction Hr as [|st req Hr IH|st req Hr IH].
    - destruct (startup_graph nodes_df edges_df model) as (-> & -> & ->). done.
    - destruct (forecast_keeps_graph st req) as (-> & -> & ->). exact IH.
    - destruct (forecast_after_route_state st req (reachable_ok _ _ _ _ Hr))
        as (HG & HM & _ & _ & _ & HV).
      rewrite HV, HG, HM. exact IH. }
  destruct H as (HG & HM & HV). split; [done|]. split; [done|]. split; [done|].
  unfold get_graph. rewrite HV.
  destruct (startup_graph nodes_df edges_df model) as (-> & -> & _). done.
Qed.

Lemma graph_is_never_modified_witness :
  get_graph ex_st1 = get_graph (startup ex_nodes ex_edges ex_model).
Proof.
  exact (proj2 (proj2 (proj2 (graph_is_never_modified ex_nodes ex_edges ex_model ex_st1
                                ex_st1_reachable)))).
Defined.

(** * Best route against shortest route *)

(** X24 ([route], mode both): the shortest route is never longer than the
    congestion-aware one, and the congestion-aware one is at most 1.7
    times as long as the shortest; both searches being optimal for their
    cost, as proved of the modelled networkx searches. *)
Theorem route_best_against_shortest nodes_df edges_df model (st : App)
    (req : RouteRequest) s t k :
  reachable nodes_df edges_df model st -> forecast_loaded st ->
  route_checked st req s t k ->
  default "both" (q_mode req) = "both" ->
  (exists q, is_path (get_edge_data (view (STORE st) (GRAPH st))) s t q) ->
  nonneg (get_edge_data (view (STORE st) (GRAPH st))) distance_cost ->
  nodes_attributed (GRAPH st) ->
  exists out ib ish,
    (route st req).1 = Json 200 (RouteBody out) /\
    best out = Some ib /\ shortest out = Some ish /\
    (len_m ish <= len_m ib /\ len_m ib <= (17 # 10) * len_m ish)%Q.
Proof.
  intros Hr (m & Hm & Hne) (Hk & Hs & Ht & Hs0 & Ht0 & Hns & Hnt) Hmode Hq Hnn Hattr.
  pose proof (reachable_ok _ _ _ _ Hr) as Hok.
  destruct (route_success st Hok Hnn Hattr req s t k m) as (out & st' & Hroute & Hpen & Hdist);
    try done; try (by rewrite view_has_node); [by left|].
  rewrite Hmode in Hpen, Hdist.
  destruct (Hpen eq_refl) as (ib & ialts & Hb & _ & Hpf).
  destruct (Hdist eq_refl) as (ish & ialts' & Hsh & _ & Hdf).
  exists out, ib, ish. rewrite Hroute. split; [done|]. split; [done|]. split; [done|].
  destruct Hpf as (bp & ps & _ & Hbp & Hbopt & _ & _ & (_ & Hlb & _) & _).
  destruct Hdf as (sp & ps' & _ & Hsp & Hsopt & _ & _ & (_ & Hls & _) & _).
  rewrite Hlb, Hls, !path_length_walk_cost.
  pose proof (Hsopt bp Hbp) as H1. pose proof (Hbopt sp Hsp) as H2.
  destruct (penalized_cost_bounds_of _ (forecast_map st) bp Hnn) as [H3 _].
  destruct (penalized_cost_bounds_of _ (forecast_map st) sp Hnn) as [_ H4].
  split; lra.
Qed.

Lemma route_best_against_shortest_witness :
  exists out ib ish,
    (route ex_st1 (ex_route_req "A" "D" "both" (Parsed 1%Z))).1 = Json 200 (RouteBody out) /\
    best out = Some ib /\ shortest out = Some ish /\ (len_m ish <= len_m ib)%Q.
Proof.
  assert (Hc : route_checked ex_st1 (ex_route_req "A" "D" "both" (Parsed 1%Z)) "A" "D" 1%Z).
  { repeat split; try done; vm_compute; reflexivity. }
  destruct (route_best_against_shortest ex_nodes ex_edges ex_model ex_st1
              (ex_route_req "A" "D" "both" (Parsed 1%Z)) "A" "D" 1%Z
              ex_st1_reachable ex_st1_loaded Hc eq_refl
              (ex_intro _ _ ex_st1_connected) ex_st1_lengths ex_st1_attributed)
    as (out & ib & ish & H1 & H2 & H3 & H4 & _).
  exists out, ib, ish. exact (conj H1 (conj H2 (conj H3 H4))).
Defined.

Lemma add_edge_node u v attr (G : Graph loc) (s : Store) n :
  sg_wf G s ->
  od_get n (_node (add_edge u v attr (G, s)).1) =
  match od_get n (_node G) with
  | Some x => Some x
  | None => if String.eqb n u || String.eqb n v then Some None else None
  end.
Proof.
  intros Hwf. pose proof (sg_wf_gwf G s Hwf) as Hg.
  destruct (ensure_node_wf G u Hg) as (Hg1 & _ & Hn1).
  destruct (ensure_node_wf (ensure_node u G) v Hg1) as (_ & _ & Hn2).
  unfold add_edge.
  destruct (get_edge_data _ u v); cbn [fst]; rewrite !set_adj_node, Hn2, Hn1;
    destruct (od_get n (_node G)); try done;
    destruct (String.eqb n u), (String.eqb n v); done.
Qed.

Lemma load_nodes_cases nodes_df n :
  node_case nodes_df [] n
    (od_get n (_node (load_graph nodes_df []).1)).
Proof.
  unfold load_graph. cbn [foldl fst].
  assert (H : gwf (foldl (fun (G : Graph loc) row =>
                add_node (row_id row)
                  {| lat := row_lat row; lon := row_lon row; label := row_label row |} G)
                empty_graph nodes_df) /\
              node_case nodes_df [] n
                (od_get n (_node (foldl (fun (G : Graph loc) row =>
                   add_node (row_id row)
                     {| lat := row_lat row; lon := row_lon row; label := row_label row |} G)
                   empty_graph nodes_df)))); [|by destruct H].
  induction nodes_df as [|row rows [IHg IH]] using rev_ind.
  - split; [apply gwf_empty|]. cbn. set_solver.
  - rewrite foldl_app. cbn [foldl].
    destruct (add_node_wf _ (row_id row)
                {| lat := row_lat row; lon := row_lon row; label := row_label row |} IHg)
      as (Hg & _ & Hn).
    split; [done|]. rewrite Hn.
    destruct (String.eqb_spec n (row_id row)) as [->|Hne].
    + unfold node_case. set_solver.
    + revert IH. unfold node_case.
      destruct (od_get n _) as [[nd|]|]; set_solver.
Qed.

Lemma load_graph_node_cases nodes_df edges_df n :
  node_case nodes_df edges_df n (od_get n (_node (load_graph nodes_df edges_df).1)).
Proof.
  induction edges_df as [|row rows IH] using rev_ind; [apply load_nodes_cases|].
  pose proof (load_graph_wf nodes_df rows) as Hwf.
  assert (Hstep : load_graph nodes_df (rows ++ [row]) =
            add_edge (erow_source row) (erow_target row) (row_attrs row)
              (load_graph nodes_df rows)).
  { unfold load_graph. by rewrite foldl_app. }
  rewrite Hstep. destruct (load_graph nodes_df rows) as [G s]. cbn [fst snd] in *.
  rewrite (add_edge_node _ _ _ G s n Hwf).
  revert IH. unfold node_case.
  destruct (od_get n (_node G)) as [[nd|]|].
  - done.
  - set_solver.
  - destruct (String.eqb_spec n (erow_source row)) as [Hs|Hs];
      destruct (String.eqb_spec n (erow_target row)) as [Ht|Ht]; cbn; set_solver.
Qed.

(** X25 ([load_graph]): the nodes of the loaded graph are the identifiers
    of nodes.csv together with the endpoints of the rows of edges.csv, and
    a node has its attributes (lat, lon, label) exactly when nodes.csv
    lists it: an endpoint that only edges.csv names is a node without
    attributes. *)
Theorem load_graph_nodes nodes_df edges_df (n : string) :
  let G := (load_graph nodes_df edges_df).1 in
  (has_node G n = true <->
   n ∈ (row_id <$> nodes_df) \/ n ∈ (erow_source <$> edges_df) \/
   n ∈ (erow_target <$> edges_df)) /\
  ((exists nd, od_get n (_node G) = Some (Some nd)) <-> n ∈ (row_id <$> nodes_df)).
Proof.
  intros G. pose proof (load_graph_node_cases nodes_df edges_df n) as H. fold G in H.
  unfold has_node, od_mem. unfold node_case in H.
  destruct (od_get n (_node G)) as [[nd|]|].
  - split; [tauto|]. split; [done|]. intros _. by exists nd.
  - split; [tauto|]. split; [by intros [? ?]|tauto].
  - split; [|split; [by intros [? ?]|tauto]]. split; [done|tauto].
Qed.

(** * The payload of a route *)

Lemma mode_in_spec (mode a b : string) : mode_in mode a b = true <-> mode = a \/ mode = b.
Proof.
  unfold mode_in. rewrite orb_true_iff, !String.eqb_eq. done.
Qed.

Lemma coords_of_ids (G : Graph EdgeData) p acc cs :
  foldlM (fun acc n =>
            match od_get n (_node G) with
            | Some (Some nd) =>
                Ok (acc ++ [{| c_id := n; c_lat := lat nd; c_lon := lon nd;
                               c_label := label nd |}])
            | _ => Raise KeyError
            end) acc p = Ok cs ->
  map c_id cs = map c_id acc ++ p.
Proof.
  revert acc. induction p as [|n p IH]; intros acc; cbn [foldlM].
  - intros [= <-]. by rewrite app_nil_r.
  - destruct (od_get n (_node G)) as [[nd|]|]; cbn [mbind result_bind]; [|done|done].
    intros H. apply IH in H. rewrite H, map_app. cbn. by rewrite <- app_assoc.
Qed.

Lemma path_info_inv (G : Graph EdgeData) p i : path_info G p = Ok i -> info_of G p i.
Proof.
  unfold path_info, coords_of.
  destruct (foldlM _ [] p) as [cs|e] eqn:Hcs; cbn [mbind result_bind]; [|done].
  intros [= <-]. apply coords_of_ids in Hcs. by repeat split.
Qed.

Lemma alts_info_inv (G : Graph EdgeData) ps acc res :
  foldlM (fun acc p => i ← path_info G p; Ok (acc ++ [i])) acc ps = Ok res ->
  exists infos, res = acc ++ infos /\ Forall2 (info_of G) ps infos.
Proof.
  revert acc. induction ps as [|p ps IH]; intros acc; cbn [foldlM].
  - intros [= <-]. exists []. by rewrite app_nil_r.
  - destruct (path_info G p) as [i|e] eqn:Hi; cbn [mbind result_bind]; [|done].
    intros H. apply IH in H as (infos & -> & Hall). exists (i :: infos).
    split; [by rewrite <- app_assoc|]. constructor; [by apply path_info_inv|done].
Qed.

Lemma route_penalized_inv st s t k out0 out s2 :
  route_penalized st s t k out0 = (Ok out, s2) ->
  exists bp ps ib ialts,
    best out = Some ib /\ best_alts out = Some ialts /\
    shortest out = shortest out0 /\ shortest_alts out = shortest_alts out0 /\
    info_of (view s2 (GRAPH st)) bp ib /\ Forall2 (info_of (view s2 (GRAPH st))) ps ialts.
Proof.
  unfold route_penalized.
  destruct (astar_with_congestion _ _ s t) as [bp|e]; [|done].
  destruct (build_penalized_graph _ _ _) as [Gp s'].
  destruct (k_shortest_paths _ s t "pen_weight" k) as [ps|e]; cbn [mbind result_bind];
    [|done].
  destruct (path_info _ bp) as [ib|e] eqn:Hib; cbn [mbind result_bind]; [|done].
  destruct (foldlM _ [] ps) as [ialts|e] eqn:Hia; cbn [mbind result_bind]; [|done].
  intros [= <- <-]. apply alts_info_inv in Hia as (infos & -> & Hall).
  exists bp, ps, ib, infos. do 4 (split; [done|]). split; [by apply path_info_inv|done].
Qed.

Lemma route_distance_inv (G : Graph EdgeData) s t k out0 out :
  route_distance G s t k out0 = Ok out ->
  exists sp ps ish ialts,
    shortest out = Some ish /\ shortest_alts out = Some ialts /\
    best out = best out0 /\ best_alts out = best_alts out0 /\
    info_of G sp ish /\ Forall2 (info_of G) ps ialts.
Proof.
  unfold route_distance.
  destruct (astar_distance_only G s t) as [sp|e]; cbn [mbind result_bind]; [|done].
  destruct (k_shortest_paths G s t "weight" k) as [ps|e]; cbn [mbind result_bind]; [|done].
  destruct (path_info G sp) as [ish|e] eqn:Hish; cbn [mbind result_bind]; [|done].
  destruct (foldlM _ [] ps) as [ialts|e] eqn:Hia; cbn [mbind result_bind]; [|done].
  intros [= <-]. apply alts_info_inv in Hia as (infos & -> & Hall).
  exists sp, ps, ish, infos. do 4 (split; [done|]). split; [by apply path_info_inv|done].
Qed.

Lemma info_of_path (G : Graph EdgeData) p i : info_of G p i -> info_of G (path i) i.
Proof. intros (<- & H1 & H2). by repeat split. Qed.

Lemma Forall2_info_of (G : Graph EdgeData) ps infos i :
  Forall2 (info_of G) ps infos -> i ∈ infos -> info_of G (path i) i.
Proof.
  intros Hall Hin. apply list_elem_of_lookup_1 in Hin as [j Hj].
  destruct (Forall2_lookup_r _ _ _ _ _ Hall Hj) as (p & _ & Hp).
  by eapply info_of_path.
Qed.

(** X26 ([route], [path_length]): in a 200 response the keys "best" and
    "best_alts" are present exactly for the modes both and penalized,
    "shortest" and "shortest_alts" exactly for both and distance, and
    every entry is consistent: its "len_m" is [path_length] of its "path"
    and its "coords" list the nodes of the path in order. *)
Theorem route_payload_consistent (st : App) (req : RouteRequest) out st' :
  route st req = (Json 200 (RouteBody out), st') ->
  let mode := default "both" (q_mode req) in
  (is_Some (best out) <-> mode = "both" \/ mode = "penalized") /\
  (is_Some (best_alts out) <-> mode = "both" \/ mode = "penalized") /\
  (is_Some (shortest out) <-> mode = "both" \/ mode = "distance") /\
  (is_Some (shortest_alts out) <-> mode = "both" \/ mode = "distance") /\
  (forall i, i ∈ out_infos out ->
     len_m i = path_length (view (STORE st') (GRAPH st')) (path i) /\
     map c_id (coords i) = path i).
Proof.
  intros H mode. unfold route in H. fold mode in H.
  destruct (arg_or (q_k req) 3%Z) as [k|]; [|done].
  destruct (q_source req) as [[|c1 s1]|]; try done.
  destruct (q_target req) as [[|c2 s2]|]; try done.
  destruct (_ || _); [done|].
  destruct (match forecast_map st with Some m => _ | None => _ end); [done|].
  rewrite <- !mode_in_spec.
  assert (Hinfo : forall G i, info_of G (path i) i ->
            len_m i = path_length G (path i) /\ map c_id (coords i) = path i)
    by (by intros G i (_ & ? & ?)).
  destruct (mode_in mode "both" "penalized") eqn:Hm1.
  - destruct (route_penalized st _ _ k empty_out) as [[out1|e1] st2] eqn:Hp;
      cbn [mbind result_bind] in H; [|by destruct e1].
    apply route_penalized_inv in Hp
      as (bp & ps & ib & ialts & Hb & Hba & Hs & Hsa & Hib & Hia).
    destruct (mode_in mode "both" "distance") eqn:Hm2.
    + destruct (route_distance _ _ _ k out1) as [out2|e2] eqn:Hd; [|by destruct e2].
      apply route_distance_inv in Hd
        as (sp & ps' & ish & ialts' & Hsh & Hsha & Hb' & Hba' & Hish & Hia').
      destruct (is_empty_out out2); [done|]. injection H as <- <-.
      rewrite Hb', Hba', Hb, Hba, Hsh, Hsha. cbn [with_store STORE GRAPH].
      repeat (split; [done|]).
      intros i Hi. apply Hinfo. unfold out_infos in Hi.
      rewrite Hb', Hba', Hb, Hba, Hsh, Hsha in Hi. cbn in Hi.
      rewrite !elem_of_cons, !elem_of_app, !elem_of_cons in Hi.
      destruct Hi as [->|[Hi|[->|Hi]]].
      * exact (info_of_path _ _ _ Hib).
      * exact (Forall2_info_of _ _ _ _ Hia Hi).
      * exact (info_of_path _ _ _ Hish).
      * exact (Forall2_info_of _ _ _ _ Hia' Hi).
    + destruct (is_empty_out out1); [done|]. injection H as <- <-.
      rewrite Hb, Hba, Hs, Hsa. cbn [with_store STORE GRAPH empty_out shortest shortest_alts].
      split; [done|]. split; [done|].
      split; [split; [by intros [? ?]|done]|]. split; [split; [by intros [? ?]|done]|].
      intros i Hi. apply Hinfo. unfold out_infos in Hi.
      rewrite Hb, Hba, Hs, Hsa in Hi. cbn in Hi.
      rewrite elem_of_cons, app_nil_r in Hi.
      destruct Hi as [->|Hi].
      * exact (info_of_path _ _ _ Hib).
      * exact (Forall2_info_of _ _ _ _ Hia Hi).
  - cbn [mbind result_bind] in H.
    destruct (mode_in mode "both" "distance") eqn:Hm2.
    + destruct (route_distance _ _ _ k empty_out) as [out2|e2] eqn:Hd; [|by destruct e2].
      apply route_distance_inv in Hd
        as (sp & ps' & ish & ialts' & Hsh & Hsha & Hb' & Hba' & Hish & Hia').
      destruct (is_empty_out out2); [done|]. injection H as <- <-.
      rewrite Hb', Hba', Hsh, Hsha. cbn [with_store STORE GRAPH empty_out best best_alts].
      split; [split; [by intros [? ?]|done]|]. split; [split; [by intros [? ?]|done]|].
      split; [done|]. split; [done|].
      intros i Hi. apply Hinfo. unfold out_infos in Hi.
      rewrite Hb', Hba', Hsh, Hsha in Hi. cbn in Hi.
      rewrite elem_of_cons in Hi.
      destruct Hi as [->|Hi].
      * exact (info_of_path _ _ _ Hish).
      * exact (Forall2_info_of _ _ _ _ Hia' Hi).
    + done.
Qed.

Lemma route_payload_consistent_witness :
  exists out,
    (route ex_st1 (ex_route_req "A" "D" "distance" (Parsed 1%Z))).1 =
      Json 200 (RouteBody out) /\
    (is_Some (shortest out) <-> "distance" = "both" \/ "distance" = "distance").
Proof.
  destruct (route ex_st1 (ex_route_req "A" "D" "distance" (Parsed 1%Z))) as [r st'] eqn:H.
  assert (Hr : exists out, r = Json 200 (RouteBody out)).
  { pose proof (f_equal fst H) as H1. cbn [fst] in H1. rewrite <- H1.
    eexists. vm_compute. reflexivity. }
  destruct Hr as [out ->]. exists out. split; [reflexivity|].
  exact (proj1 (proj2 (proj2 (route_payload_consistent ex_st1 _ out st' H)))).
Defined.

(** * Distance routes and the forecast *)

(** X27 ([route], mode distance): once a forecast is loaded its content is
    irrelevant to a distance request: two states that differ only in the
    (non-empty) active forecast give the same response. *)
Theorem route_distance_ignores_forecast (st : App) (req : RouteRequest)
    (m' : gmap string ForecastRecord) :
  forecast_loaded st -> m' <> ∅ ->
  default "both" (q_mode req) = "distance" ->
  (route {| GRAPH := GRAPH st; STORE := STORE st; MODEL := MODEL st;
            FORECAST_CACHE := FORECAST_CACHE st; forecast_map := Some m';
            predict_calls := predict_calls st |} req).1 =
  (route st req).1.
Proof.
  intros (m & Hm & Hne) Hne' Hmode. unfold route.
  cbn [GRAPH STORE forecast_map]. rewrite Hm, Hmode.
  rewrite !bool_decide_eq_false_2 by done.
  change (mode_in "distance" "both" "penalized") with false.
  change (mode_in "distance" "both" "distance") with true.
  destruct (arg_or (q_k req) 3%Z) as [k|]; [|done].
  destruct (q_source req) as [[|c1 s1]|]; try done.
  destruct (q_target req) as [[|c2 s2]|]; try done.
  destruct (_ || _); [done|]. cbv iota beta zeta. cbn [mbind result_bind].
  destruct (route_distance _ _ _ k empty_out) as [out|e]; [|by destruct e].
  by destruct (is_empty_out out).
Qed.

Lemma route_distance_ignores_forecast_witness :
  (route {| GRAPH := GRAPH ex_st1; STORE := STORE ex_st1; MODEL := MODEL ex_st1;
            FORECAST_CACHE := FORECAST_CACHE ex_st1;
            forecast_map :=
              Some {["e1" := {| edge_id := "e1"; pred_flow := 390; fcapacity := 400 |}]};
            predict_calls := predict_calls ex_st1 |}
     (ex_route_req "A" "D" "distance" (Parsed 1%Z))).1 =
  (route ex_st1 (ex_route_req "A" "D" "distance" (Parsed 1%Z))).1.
Proof.
  apply route_distance_ignores_forecast.
  - exact ex_st1_loaded.
  - apply insert_non_empty.
  - reflexivity.
Defined.

Section AStarNoPath.

Context (G : Graph EdgeData) (w : WeightFn) (heur : string -> string -> Q) (s t : string).

Context (Hwf : graph_wf G) (Hnn : nonneg (get_edge_data G) w).

Context (Hh : forall u v, (heur u v == 0)%Q).

Context (Hnone : forall q, ~ is_path (get_edge_data G) s t q).

Lemma astar_loop_none fuel st :
  astar_inv G w s t "" [] st ->
  (length (queue st) + unexplored_adj G (explored st) < fuel)%nat ->
  astar_loop fuel G heur w t st = Raise NetworkXNoPath.
Proof.
  revert st. induction fuel as [|fuel IH]; intros st HI Hfuel; [lia|].
  rewrite astar_loop_unfold.
  destruct (heappop a_key (queue st)) as [[e rest]|] eqn:Hpop; [|done].
  assert (He : e ∈ queue st).
  { rewrite (heappop_perm _ _ _ _ Hpop). left. }
  assert (Hlen : length (queue st) = S (length rest)).
  { by rewrite (heappop_perm _ _ _ _ Hpop). }
  destruct (ai_entry _ _ _ _ _ _ _ HI e He)
    as (Hpe & [nbrs HGe] & u & d & qc & hh & Hpar & Hu & Hed & Hde & Hq & Hle & Hstr).
  cbv zeta.
  destruct (String.eqb_spec (a_node e) t) as [Hnt|Hnt].
  - exfalso. destruct (ai_tree _ _ _ _ _ _ _ HI u Hu) as (p & _ & _ & Hp & _).
    rewrite Hnt in Hed.
    destruct (is_path_snoc (get_edge_data G) w s u t d p Hp Hed) as [Hp' _].
    by apply (Hnone (p ++ [t])).
  - destruct (explored st !! a_node e) as [[pp|]|] eqn:Hex; cbn [mbind result_bind].
    + rewrite Hq. cbn [mbind result_bind].
      assert (Hlt : Qltb qc (a_dist e) = true).
      { apply Qltb_lt. apply Hstr; [|eauto].
        intros Hs. rewrite Hs, (ai_src _ _ _ _ _ _ _ HI) in Hex. done. }
      rewrite Hlt. apply IH; [|cbn; lia].
      eapply inv_drop; eauto.
    + apply IH; [|cbn; lia].
      eapply inv_drop; eauto.
    + unfold neighbors. rewrite HGe.
      destruct (inv_explore G w s t Hnn st e rest nbrs HI Hpop Hex Hnt HGe) as [HI2 Hd2].
      cbv zeta in HI2, Hd2.
      match goal with |- context [foldl _ ?st2 nbrs] => set (st2' := st2) in * end.
      destruct (relax_fold G w heur s t Hwf Hh (a_node e) nbrs st2' (a_dist e) HI2)
        as (HI3 & Hex3 & Hlen3).
      { by apply nbrs_edges. }
      { cbn. rewrite lookup_insert_eq. eauto. }
      { done. }
      cbv zeta in HI3, Hex3, Hlen3.
      apply IH; [by eapply inv_nil_any|].
      rewrite Hex3. cbn.
      pose proof (unexplored_adj_insert G (explored st) (a_node e) (a_parent e) nbrs Hex HGe).
      cbn in Hlen3. lia.
Qed.

Lemma astar_path_none :
  has_node G s = true -> has_node G t = true ->
  astar_path G s t heur w = Raise NetworkXNoPath.
Proof.
  intros Hs Ht. unfold astar_path. rewrite Hs, Ht. cbn [negb orb].
  replace (adj_size G + 2)%nat with (S (S (adj_size G))) by lia.
  rewrite astar_loop_unfold. cbn [heappop queue a_node a_dist a_parent].
  assert (Hst : s <> t).
  { intros <-. apply (Hnone [s]). done. }
  cbv zeta. cbn [heappop queue a_node a_dist a_parent enqueued explored counter].
  rewrite (proj2 (String.eqb_neq s t) Hst).
  rewrite lookup_empty. cbn [mbind result_bind].
  destruct (has_node_adj G Hwf s Hs) as [nbrs Hnb]. unfold neighbors. rewrite Hnb.
  pose proof (inv_init G w s t Hnn nbrs Hst Hnb) as HI.
  match goal with |- context [foldl _ ?st2 nbrs] => set (st2' := st2) in * end.
  destruct (relax_fold G w heur s t Hwf Hh s nbrs st2' 0%Q HI) as (HI3 & Hex3 & Hlen3).
  { by apply nbrs_edges. }
  { cbn. rewrite lookup_insert_eq. eauto. }
  { by rewrite adist_src. }
  cbv zeta in HI3, Hex3, Hlen3.
  apply astar_loop_none; [by eapply inv_nil_any|].
  rewrite Hex3. cbn.
  pose proof (unexplored_adj_insert G ∅ s None nbrs (lookup_empty _) Hnb).
  rewrite unexplored_adj_empty in *. cbn in Hlen3. lia.
Qed.

End AStarNoPath.

Lemma walk_into (E : string -> string -> option EdgeData) p a t :
  is_walk E (a :: p) -> list.last (a :: p) = Some t -> a <> t ->
  exists u, is_Some (E u t).
Proof.
  revert a. induction p as [|b p IH]; intros a Hw Hl Hne.
  - cbn in Hl. congruence.
  - destruct Hw as [Hab Hw]. destruct (decide (b = t)) as [->|Hb]; [by exists a|].
    apply (IH b Hw); [|done]. by rewrite last_cons_cons in Hl.
Qed.

Lemma no_path_into_isolated (E : string -> string -> option EdgeData) s t q :
  (forall u, E u t = None) -> s <> t -> ~ is_path E s t q.
Proof.
  intros Hiso Hst (Hw & Hh & Hl). destruct q as [|a q]; [done|].
  cbn in Hh. injection Hh as ->.
  destruct (walk_into E q s t Hw Hl Hst) as [u [d Hu]]. by rewrite Hiso in Hu.
Qed.

(** X28 ([route], its [except nx.NetworkXNoPath]): a checked request
    between two nodes that no path joins is answered 404 "no path" in each
    of the three modes, and the state stays as it was: the single-path
    search raises before any copy of the graph is made (networkx's
    [astar_path] as modelled). *)
Theorem route_unconnected_is_no_path nodes_df edges_df model (st : App)
    (req : RouteRequest) s t k :
  reachable nodes_df edges_df model st -> forecast_loaded st ->
  route_checked st req s t k -> known_mode req ->
  nonneg (get_edge_data (view (STORE st) (GRAPH st))) distance_cost ->
  (forall q, ~ is_path (get_edge_data (view (STORE st) (GRAPH st))) s t q) ->
  route st req = (Json 404 (ErrorBody "no path"), st).
Proof.
  intros Hr (m & Hm & Hne) (Hk & Hs & Ht & Hs0 & Ht0 & Hns & Hnt) Hmode Hnn Hnone.
  pose proof (reachable_ok _ _ _ _ Hr) as Hok.
  pose proof (view_wf _ _ (ok_graph st Hok)) as Hwf.
  rewrite <- (view_has_node (STORE st)) in Hns, Hnt.
  rewrite (route_unfold st req s t k m) by done.
  assert (Hpen : forall out0, route_penalized st s t k out0 =
                   (Raise NetworkXNoPath, STORE st)).
  { intros out0. unfold route_penalized.
    change (astar_with_congestion (view (STORE st) (GRAPH st)) (forecast_map st) s t)
      with (astar_path (view (STORE st) (GRAPH st)) s t (fun _ _ => 0%Q)
              (penalized_cost (forecast_map st))).
    rewrite (astar_path_none _ (penalized_cost (forecast_map st)) (fun _ _ => 0%Q) s t
               Hwf (penalized_cost_nonneg _ _ Hnn) (fun _ _ => Qeq_refl 0) Hnone Hns Hnt).
    done. }
  assert (Hdist : forall out0,
            route_distance (view (STORE st) (GRAPH st)) s t k out0 = Raise NetworkXNoPath).
  { intros out0. unfold route_distance.
    change (astar_distance_only (view (STORE st) (GRAPH st)) s t)
      with (astar_path (view (STORE st) (GRAPH st)) s t (fun _ _ => 0%Q) distance_cost).
    rewrite (astar_path_none _ distance_cost (fun _ _ => 0%Q) s t
               Hwf Hnn (fun _ _ => Qeq_refl 0) Hnone Hns Hnt).
    done. }
  destruct Hmode as [-> |[-> | ->]].
  - change (mode_in "both" "both" "penalized") with true. cbv iota. rewrite Hpen.
    cbn. by rewrite with_store_same.
  - change (mode_in "penalized" "both" "penalized") with true. cbv iota. rewrite Hpen.
    cbn. by rewrite with_store_same.
  - change (mode_in "distance" "both" "penalized") with false.
    change (mode_in "distance" "both" "distance") with true. cbv iota beta zeta.
    rewrite bind_Ok, Hdist. cbn. by rewrite with_store_same.
Qed.

Lemma route_unconnected_is_no_path_witness :
  route ex_st1 (ex_route_req "A" "E" "both" (Parsed 2%Z)) =
    (Json 404 (ErrorBody "no path"), ex_st1).
Proof.
  apply (route_unconnected_is_no_path ex_nodes ex_edges ex_model ex_st1 _ "A" "E" 2%Z).
  - exact ex_st1_reachable.
  - exact ex_st1_loaded.
  - repeat split; try done; vm_compute; reflexivity.
  - left. reflexivity.
  - exact ex_st1_lengths.
  - intros q. apply no_path_into_isolated; [|done].
    intros u.
    destruct (get_edge_data (view (STORE ex_st1) (GRAPH ex_st1)) u "E") as [d|] eqn:Hu;
      [|reflexivity].
    apply (wf_sym _ (view_wf _ _ (ok_graph _ (reachable_ok _ _ _ _ ex_st1_reachable)))) in Hu.
    vm_compute in Hu. discriminate Hu.
Defined.

(** X29 ([path_length]): when no edge length is negative, no route has a
    negative length, and a route is at least as long as each of its
    prefixes: the running total of [path_length] never decreases. *)
Theorem path_length_prefix_le (G : Graph EdgeData) (p : list string) (x : string)
    (q : list string) :
  nonneg (get_edge_data G) distance_cost ->
  (0 <= path_length G p /\ path_length G (p ++ [x]) <= path_length G (p ++ x :: q))%Q.
Proof.
  intros Hnn. rewrite !path_length_walk_cost. split.
  - by apply walk_cost_nonneg.
  - by apply walk_cost_app_le.
Qed.

Lemma path_length_prefix_le_witness :
  (path_length ex_graph (["A"] ++ ["C"]) <= path_length ex_graph (["A"] ++ "C" :: ["D"]))%Q.
Proof.
  exact (proj2 (path_length_prefix_le ex_graph ["A"] "C" ["D"] ex_graph_lengths)).
Defined.

(** * A node without attributes *)

Lemma path_info_unattributed (G : Graph EdgeData) X :
  od_get X (_node G) = Some None -> path_info G [X] = Raise KeyError.
Proof. intros H. unfold path_info, coords_of. cbn [foldlM]. by rewrite H. Qed.

(** X30 ([route], the reads of [GRAPH.nodes[n]["lat"]]): with a forecast
    active, a request from a node to itself, where the node is one that
    [add_edge] created without attributes (edges.csv names it, nodes.csv
    does not list it), k converts and the mode is both, penalized or
    distance, passes every check, finds the one-node path and then fails
    on the node's "lat": a KeyError, answered with a 500 page. *)
Theorem route_same_node_without_attributes (st : App) (req : RouteRequest) X k :
  app_ok st -> forecast_loaded st ->
  arg_or (q_k req) 3%Z = Some k ->
  q_source req = Some X -> q_target req = Some X -> X <> "" ->
  od_get X (_node (GRAPH st)) = Some None ->
  known_mode req ->
  (route st req).1 = InternalServerError KeyError.
Proof.
  intros Hok (m & Hfm & Hm) Hk Hsrc Htgt HX Hnd Hmode.
  assert (Hn : has_node (view (STORE st) (GRAPH st)) X = true).
  { unfold has_node, od_mem. cbn [view _node]. by rewrite Hnd. }
  rewrite (route_unfold st req X X k m) by done.
  assert (Hi : path_info (view (STORE st) (GRAPH st)) [X] = Raise KeyError).
  { apply path_info_unattributed. cbn [view _node]. exact Hnd. }
  destruct (penalized_view st Hok) as (_ & Hview & _ & Hnode).
  assert (Hpen : forall out0, (route_penalized st X X k out0).1 = Raise KeyError).
  { intros out0. unfold route_penalized, astar_with_congestion.
    rewrite (astar_same _ X) by done. specialize (Hnode X). rewrite Hn in Hnode.
    destruct (build_penalized_graph (GRAPH st) (STORE st) (forecast_map st)) as [Gp s2].
    cbn [fst snd] in *. rewrite (k_shortest_same _ X "pen_weight" k Hnode), bind_Ok, Hview.
    by rewrite Hi. }
  assert (Hdist : forall out0,
            route_distance (view (STORE st) (GRAPH st)) X X k out0 = Raise KeyError).
  { intros out0. unfold route_distance, astar_distance_only.
    rewrite (astar_same _ X) by done. rewrite bind_Ok.
    rewrite (k_shortest_same _ X "weight" k Hn), bind_Ok. by rewrite Hi. }
  destruct Hmode as [-> |[-> | ->]].
  - change (mode_in "both" "both" "penalized") with true. cbv iota.
    specialize (Hpen empty_out). destruct (route_penalized st X X k empty_out) as [r1 s2].
    cbn [fst] in Hpen. by rewrite Hpen.
  - change (mode_in "penalized" "both" "penalized") with true. cbv iota.
    specialize (Hpen empty_out). destruct (route_penalized st X X k empty_out) as [r1 s2].
    cbn [fst] in Hpen. by rewrite Hpen.
  - change (mode_in "distance" "both" "penalized") with false.
    change (mode_in "distance" "both" "distance") with true. cbv beta iota zeta.
    by rewrite bind_Ok, Hdist.
Qed.

Lemma route_same_node_without_attributes_witness :
  (route ex2_st1 (ex_route_req "B" "B" "distance" (Parsed 2%Z))).1 =
    InternalServerError KeyError.
Proof.
  apply (route_same_node_without_attributes ex2_st1 _ "B" 2%Z).
  - apply (reachable_ok ex2_nodes ex2_edges ex_model). apply reach_forecast, reach_startup.
  - eexists. split; [vm_compute; reflexivity|].
    apply (to_forecast_map_nonempty
             [{| edge_id := "e1"; pred_flow := 100; fcapacity := 400 |}]). done.
  - reflexivity.
  - reflexivity.
  - reflexivity.
  - done.
  - vm_compute; reflexivity.
  - right. right. reflexivity.
Defined.
